(** * The collection model of Strawberry: a shallow embedding

    Source: [src/collection/collectionmodel.cpp] and [collectionmodel.h].

    The tree of [CollectionItem]s is an arena of nodes addressed by pointers
    (natural numbers, [nullptr] being [0]); the lookup tables of the model
    ([songs_], [song_nodes_], [container_nodes_], [divider_nodes_]) are finite
    maps.  Every member function of [CollectionModel] that mutates the model is
    a function from [Model] to [Model]; the Qt signals it emits are appended to
    the [signals_] log of the model. *)

From Stdlib Require Import ZArith String Ascii Lia Permutation Sorted.
From stdpp Require Import gmap list fin_maps sorting.

Local Open Scope Z_scope.

(** ** QChar and QString

    A [QChar] is a UTF-16 code unit, a [QString] is a sequence of them. *)

Abbreviation QChar := Z (only parsing).
Abbreviation QString := (list Z) (only parsing).

Fixpoint qs (s : string) : QString :=
  match s with
  | EmptyString => []
  | String a r => Z.of_N (N_of_ascii a) :: qs r
  end.

Definition isEmpty (s : QString) : bool :=
  match s with [] => true | _ => false end.

(** [QString::operator==]. *)
Definition qeq (a b : QString) : bool := bool_decide (a = b).

(** [QString::operator<]: lexicographic on code units. *)
Fixpoint qlt (a b : QString) : bool :=
  match a, b with
  | _, [] => false
  | [], _ :: _ => true
  | x :: a', y :: b' =>
      if x <? y then true else if y <? x then false else qlt a' b'
  end.

(** [QString::startsWith]. *)
Fixpoint startsWith (s p : QString) : bool :=
  match p, s with
  | [], _ => true
  | _ :: _, [] => false
  | y :: p', x :: s' => (x =? y) && startsWith s' p'
  end.

(** [QString::left(n)] and [QString::right(n)]: the whole string when [n] is
    negative or not smaller than the size. *)
Definition left (n : Z) (s : QString) : QString :=
  if (n <? 0) || (Z.of_nat (length s) <=? n) then s else take (Z.to_nat n) s.

Definition right (n : Z) (s : QString) : QString :=
  if (n <? 0) || (Z.of_nat (length s) <=? n) then s
  else drop (length s - Z.to_nat n) s.

(** [QString::repeated(n)]: empty when [n < 1]. *)
Definition repeated (s : QString) (n : Z) : QString :=
  concat (replicate (Z.to_nat n) s).

(** The C++ type [int]: signed, 32 bits.  [wrap32] is the two's complement
    reduction that the arithmetic of the target machines performs. *)
Definition wrap32 (z : Z) : Z := (z + 2147483648) mod 4294967296 - 2147483648.

Definition in_int (z : Z) : bool := (-2147483648 <=? z) && (z <=? 2147483647).

(** Decimal digits of a non-negative number, most significant first.  The
    fuel bounds the number of digits; twenty cover every 64-bit value. *)
Fixpoint digits_fuel (fuel : nat) (n : Z) (acc : QString) : QString :=
  match fuel with
  | O => acc
  | S f =>
      let acc' := (48 + n mod 10) :: acc in
      if n / 10 =? 0 then acc' else digits_fuel f (n / 10) acc'
  end.

Definition digits (n : Z) : QString := digits_fuel 20 n [].

(** [QString::number(int)]. *)
Definition number (n : Z) : QString :=
  if n <? 0 then 45 :: digits (- n) else digits n.

(** [QChar::isSpace]: the ASCII white space, NEL, NBSP and the Unicode
    separators of the basic plane. *)
Definition isSpace (c : QChar) : bool :=
  (c =? 32) || ((9 <=? c) && (c <=? 13)) || (c =? 133) || (c =? 160) ||
  (c =? 5760) || ((8192 <=? c) && (c <=? 8202)) || (c =? 8232) ||
  (c =? 8233) || (c =? 8239) || (c =? 8287) || (c =? 12288).

Fixpoint trim_left (s : QString) : QString :=
  match s with
  | c :: r => if isSpace c then trim_left r else s
  | [] => []
  end.

Definition trimmed (s : QString) : QString :=
  reverse (trim_left (reverse (trim_left s))).

(** The value of a string of ASCII digits, [None] when one is not a digit. *)
Fixpoint parse_digits (s : QString) (acc : Z) : option Z :=
  match s with
  | [] => Some acc
  | c :: r =>
      if (48 <=? c) && (c <=? 57) then parse_digits r (acc * 10 + (c - 48))
      else None
  end.

(** [QString::toInt(&ok)] in base ten: white space at both ends is ignored,
    a sign may precede the digits, anything else (and a value that does not
    fit an [int]) makes the conversion fail. *)
Definition toInt_ok (s : QString) : option Z :=
  let body := trimmed s in
  let '(neg, ds) :=
    match body with
    | 45 :: r => (true, r)
    | 43 :: r => (false, r)
    | _ => (false, body)
    end in
  match ds with
  | [] => None
  | _ =>
      match parse_digits ds 0 with
      | Some v =>
          let v' := if neg then - v else v in
          if in_int v' then Some v' else None
      | None => None
      end
  end.

(** [QString::toInt()]: zero when the conversion fails. *)
Definition toInt (s : QString) : Z := default 0 (toInt_ok s).

(** [QString("%1").arg(number, width, 10, QChar('0'))]: the decimal number
    padded with zeros to [width] characters, the zeros to the right of the
    sign. *)
Definition arg_padded (n : Z) (width : Z) : QString :=
  if n <? 0 then
    let d := digits (- n) in
    45 :: repeated [48] (width - 1 - Z.of_nat (length d)) ++ d
  else
    let d := digits n in
    repeated [48] (width - Z.of_nat (length d)) ++ d.

(** ** Songs

    The record of [core/song.h], with the fields the collection model reads:
    the identifier, the tags, the audio properties, the location, and the
    rating and play statistics. *)

Module Song.

Record t : Type := mk {
  id : Z;
  title : QString;
  artist : QString;
  albumartist : QString;
  album : QString;
  album_id : QString;
  track : Z;
  disc : Z;
  year : Z;
  originalyear : Z;
  genre : QString;
  compilation : bool;
  composer : QString;
  performer : QString;
  grouping : QString;
  filetype : Z;
  samplerate : Z;
  bitdepth : Z;
  bitrate : Z;
  url : QString;
  rating : Z;
  playcount : Z;
  skipcount : Z;
  lastplayed : Z
}.

Definition set_albumartist (v : QString) (s : t) : t :=
  {| id := id s; title := title s; artist := artist s; albumartist := v;
     album := album s; album_id := album_id s; track := track s; disc := disc s;
     year := year s; originalyear := originalyear s; genre := genre s;
     compilation := compilation s; composer := composer s; performer := performer s;
     grouping := grouping s; filetype := filetype s; samplerate := samplerate s;
     bitdepth := bitdepth s; bitrate := bitrate s; url := url s; rating := rating s;
     playcount := playcount s; skipcount := skipcount s; lastplayed := lastplayed s |}.

Definition set_artist (v : QString) (s : t) : t :=
  {| id := id s; title := title s; artist := v; albumartist := albumartist s;
     album := album s; album_id := album_id s; track := track s; disc := disc s;
     year := year s; originalyear := originalyear s; genre := genre s;
     compilation := compilation s; composer := composer s; performer := performer s;
     grouping := grouping s; filetype := filetype s; samplerate := samplerate s;
     bitdepth := bitdepth s; bitrate := bitrate s; url := url s; rating := rating s;
     playcount := playcount s; skipcount := skipcount s; lastplayed := lastplayed s |}.

Definition set_album (v : QString) (s : t) : t :=
  {| id := id s; title := title s; artist := artist s; albumartist := albumartist s;
     album := v; album_id := album_id s; track := track s; disc := disc s;
     year := year s; originalyear := originalyear s; genre := genre s;
     compilation := compilation s; composer := composer s; performer := performer s;
     grouping := grouping s; filetype := filetype s; samplerate := samplerate s;
     bitdepth := bitdepth s; bitrate := bitrate s; url := url s; rating := rating s;
     playcount := playcount s; skipcount := skipcount s; lastplayed := lastplayed s |}.

Definition set_album_id (v : QString) (s : t) : t :=
  {| id := id s; title := title s; artist := artist s; albumartist := albumartist s;
     album := album s; album_id := v; track := track s; disc := disc s; year := year s;
     originalyear := originalyear s; genre := genre s; compilation := compilation s;
     composer := composer s; performer := performer s; grouping := grouping s;
     filetype := filetype s; samplerate := samplerate s; bitdepth := bitdepth s;
     bitrate := bitrate s; url := url s; rating := rating s; playcount := playcount s;
     skipcount := skipcount s; lastplayed := lastplayed s |}.

Definition set_grouping (v : QString) (s : t) : t :=
  {| id := id s; title := title s; artist := artist s; albumartist := albumartist s;
     album := album s; album_id := album_id s; track := track s; disc := disc s;
     year := year s; originalyear := originalyear s; genre := genre s;
     compilation := compilation s; composer := composer s; performer := performer s;
     grouping := v; filetype := filetype s; samplerate := samplerate s;
     bitdepth := bitdepth s; bitrate := bitrate s; url := url s; rating := rating s;
     playcount := playcount s; skipcount := skipcount s; lastplayed := lastplayed s |}.

Definition set_disc (v : Z) (s : t) : t :=
  {| id := id s; title := title s; artist := artist s; albumartist := albumartist s;
     album := album s; album_id := album_id s; track := track s; disc := v;
     year := year s; originalyear := originalyear s; genre := genre s;
     compilation := compilation s; composer := composer s; performer := performer s;
     grouping := grouping s; filetype := filetype s; samplerate := samplerate s;
     bitdepth := bitdepth s; bitrate := bitrate s; url := url s; rating := rating s;
     playcount := playcount s; skipcount := skipcount s; lastplayed := lastplayed s |}.

Definition set_year (v : Z) (s : t) : t :=
  {| id := id s; title := title s; artist := artist s; albumartist := albumartist s;
     album := album s; album_id := album_id s; track := track s; disc := disc s;
     year := v; originalyear := originalyear s; genre := genre s;
     compilation := compilation s; composer := composer s; performer := performer s;
     grouping := grouping s; filetype := filetype s; samplerate := samplerate s;
     bitdepth := bitdepth s; bitrate := bitrate s; url := url s; rating := rating s;
     playcount := playcount s; skipcount := skipcount s; lastplayed := lastplayed s |}.

Definition set_originalyear (v : Z) (s : t) : t :=
  {| id := id s; title := title s; artist := artist s; albumartist := albumartist s;
     album := album s; album_id := album_id s; track := track s; disc := disc s;
     year := year s; originalyear := v; genre := genre s; compilation := compilation s;
     composer := composer s; performer := performer s; grouping := grouping s;
     filetype := filetype s; samplerate := samplerate s; bitdepth := bitdepth s;
     bitrate := bitrate s; url := url s; rating := rating s; playcount := playcount s;
     skipcount := skipcount s; lastplayed := lastplayed s |}.

Definition set_genre (v : QString) (s : t) : t :=
  {| id := id s; title := title s; artist := artist s; albumartist := albumartist s;
     album := album s; album_id := album_id s; track := track s; disc := disc s;
     year := year s; originalyear := originalyear s; genre := v;
     compilation := compilation s; composer := composer s; performer := performer s;
     grouping := grouping s; filetype := filetype s; samplerate := samplerate s;
     bitdepth := bitdepth s; bitrate := bitrate s; url := url s; rating := rating s;
     playcount := playcount s; skipcount := skipcount s; lastplayed := lastplayed s |}.

Definition set_composer (v : QString) (s : t) : t :=
  {| id := id s; title := title s; artist := artist s; albumartist := albumartist s;
     album := album s; album_id := album_id s; track := track s; disc := disc s;
     year := year s; originalyear := originalyear s; genre := genre s;
     compilation := compilation s; composer := v; performer := performer s;
     grouping := grouping s; filetype := filetype s; samplerate := samplerate s;
     bitdepth := bitdepth s; bitrate := bitrate s; url := url s; rating := rating s;
     playcount := playcount s; skipcount := skipcount s; lastplayed := lastplayed s |}.

Definition set_performer (v : QString) (s : t) : t :=
  {| id := id s; title := title s; artist := artist s; albumartist := albumartist s;
     album := album s; album_id := album_id s; track := track s; disc := disc s;
     year := year s; originalyear := originalyear s; genre := genre s;
     compilation := compilation s; composer := composer s; performer := v;
     grouping := grouping s; filetype := filetype s; samplerate := samplerate s;
     bitdepth := bitdepth s; bitrate := bitrate s; url := url s; rating := rating s;
     playcount := playcount s; skipcount := skipcount s; lastplayed := lastplayed s |}.

Definition set_filetype (v : Z) (s : t) : t :=
  {| id := id s; title := title s; artist := artist s; albumartist := albumartist s;
     album := album s; album_id := album_id s; track := track s; disc := disc s;
     year := year s; originalyear := originalyear s; genre := genre s;
     compilation := compilation s; composer := composer s; performer := performer s;
     grouping := grouping s; filetype := v; samplerate := samplerate s;
     bitdepth := bitdepth s; bitrate := bitrate s; url := url s; rating := rating s;
     playcount := playcount s; skipcount := skipcount s; lastplayed := lastplayed s |}.

Definition set_samplerate (v : Z) (s : t) : t :=
  {| id := id s; title := title s; artist := artist s; albumartist := albumartist s;
     album := album s; album_id := album_id s; track := track s; disc := disc s;
     year := year s; originalyear := originalyear s; genre := genre s;
     compilation := compilation s; composer := composer s; performer := performer s;
     grouping := grouping s; filetype := filetype s; samplerate := v;
     bitdepth := bitdepth s; bitrate := bitrate s; url := url s; rating := rating s;
     playcount := playcount s; skipcount := skipcount s; lastplayed := lastplayed s |}.

Definition set_bitdepth (v : Z) (s : t) : t :=
  {| id := id s; title := title s; artist := artist s; albumartist := albumartist s;
     album := album s; album_id := album_id s; track := track s; disc := disc s;
     year := year s; originalyear := originalyear s; genre := genre s;
     compilation := compilation s; composer := composer s; performer := performer s;
     grouping := grouping s; filetype := filetype s; samplerate := samplerate s;
     bitdepth := v; bitrate := bitrate s; url := url s; rating := rating s;
     playcount := playcount s; skipcount := skipcount s; lastplayed := lastplayed s |}.

Definition set_bitrate (v : Z) (s : t) : t :=
  {| id := id s; title := title s; artist := artist s; albumartist := albumartist s;
     album := album s; album_id := album_id s; track := track s; disc := disc s;
     year := year s; originalyear := originalyear s; genre := genre s;
     compilation := compilation s; composer := composer s; performer := performer s;
     grouping := grouping s; filetype := filetype s; samplerate := samplerate s;
     bitdepth := bitdepth s; bitrate := v; url := url s; rating := rating s;
     playcount := playcount s; skipcount := skipcount s; lastplayed := lastplayed s |}.

Definition set_rating (v : Z) (s : t) : t :=
  {| id := id s; title := title s; artist := artist s; albumartist := albumartist s;
     album := album s; album_id := album_id s; track := track s; disc := disc s;
     year := year s; originalyear := originalyear s; genre := genre s;
     compilation := compilation s; composer := composer s; performer := performer s;
     grouping := grouping s; filetype := filetype s; samplerate := samplerate s;
     bitdepth := bitdepth s; bitrate := bitrate s; url := url s; rating := v;
     playcount := playcount s; skipcount := skipcount s; lastplayed := lastplayed s |}.

Definition set_playcount (v : Z) (s : t) : t :=
  {| id := id s; title := title s; artist := artist s; albumartist := albumartist s;
     album := album s; album_id := album_id s; track := track s; disc := disc s;
     year := year s; originalyear := originalyear s; genre := genre s;
     compilation := compilation s; composer := composer s; performer := performer s;
     grouping := grouping s; filetype := filetype s; samplerate := samplerate s;
     bitdepth := bitdepth s; bitrate := bitrate s; url := url s; rating := rating s;
     playcount := v; skipcount := skipcount s; lastplayed := lastplayed s |}.

Definition set_skipcount (v : Z) (s : t) : t :=
  {| id := id s; title := title s; artist := artist s; albumartist := albumartist s;
     album := album s; album_id := album_id s; track := track s; disc := disc s;
     year := year s; originalyear := originalyear s; genre := genre s;
     compilation := compilation s; composer := composer s; performer := performer s;
     grouping := grouping s; filetype := filetype s; samplerate := samplerate s;
     bitdepth := bitdepth s; bitrate := bitrate s; url := url s; rating := rating s;
     playcount := playcount s; skipcount := v; lastplayed := lastplayed s |}.

Definition set_lastplayed (v : Z) (s : t) : t :=
  {| id := id s; title := title s; artist := artist s; albumartist := albumartist s;
     album := album s; album_id := album_id s; track := track s; disc := disc s;
     year := year s; originalyear := originalyear s; genre := genre s;
     compilation := compilation s; composer := composer s; performer := performer s;
     grouping := grouping s; filetype := filetype s; samplerate := samplerate s;
     bitdepth := bitdepth s; bitrate := bitrate s; url := url s; rating := rating s;
     playcount := playcount s; skipcount := skipcount s; lastplayed := v |}.

End Song.

Abbreviation SongList := (list Song.t) (only parsing).

(** ** Grouping criteria: [CollectionModel::GroupBy] and [Grouping] *)

Module GroupBy.
Inductive t : Type :=
  | None | AlbumArtist | Artist | Album | AlbumDisc | YearAlbum | YearAlbumDisc
  | OriginalYearAlbum | OriginalYearAlbumDisc | Disc | Year | OriginalYear
  | Genre | Composer | Performer | Grouping | FileType | Format | Samplerate
  | Bitdepth | Bitrate | GroupByCount.

#[global] Instance eq_dec : EqDecision t.
Proof. solve_decision. Defined.

Definition eqb (a b : t) : bool := bool_decide (a = b).
End GroupBy.

Record Grouping : Type := {
  first : GroupBy.t;
  second : GroupBy.t;
  third : GroupBy.t
}.

(** [Grouping::operator[]]: an index out of range yields [first]. *)
Definition Grouping_at (g : Grouping) (i : Z) : GroupBy.t :=
  if i =? 0 then first g
  else if i =? 1 then second g
  else if i =? 2 then third g
  else first g.

Definition IsArtistGroupBy (group_by : GroupBy.t) : bool :=
  GroupBy.eqb group_by GroupBy.Artist || GroupBy.eqb group_by GroupBy.AlbumArtist.

Definition IsAlbumGroupBy (group_by : GroupBy.t) : bool :=
  GroupBy.eqb group_by GroupBy.Album || GroupBy.eqb group_by GroupBy.YearAlbum ||
  GroupBy.eqb group_by GroupBy.AlbumDisc || GroupBy.eqb group_by GroupBy.YearAlbumDisc ||
  GroupBy.eqb group_by GroupBy.OriginalYearAlbum ||
  GroupBy.eqb group_by GroupBy.OriginalYearAlbumDisc.

(** ** What the model takes from the rest of the program

    Accessors of [Song] that are computed from fields outside this model, the
    filter of [CollectionFilterOptions], the translation function and the
    Unicode tables of Qt.  They are parameters of the development. *)

Class External : Type := {
  (** [Song::effective_albumartist], [Song::effective_originalyear],
      [Song::is_compilation], [Song::IsEditable], [Song::TextForFiletype],
      [Song::TitleWithCompilationArtist], [Song::AlbumContainsDisc],
      [Song::kArticles] and the default-constructed [Song]. *)
  effective_albumartist : Song.t → QString;
  effective_originalyear : Song.t → Z;
  is_compilation : Song.t → bool;
  IsEditable : Song.t → bool;
  TextForFiletype : Song.t → QString;
  TitleWithCompilationArtist : Song.t → QString;
  AlbumContainsDisc : QString → bool;
  kArticles : list QString;
  Song_default : Song.t;
  (** [filter_options_.Matches(song)] for the active filter options. *)
  Matches : Song.t → bool;
  (** [tr], [QChar::isDigit], [QChar::decompositionTag() != NoDecomposition],
      [QChar::decomposition], [QString::toLower], [QString::toUpper], the
      class [\w] of [QRegularExpression] with Unicode properties, and
      [QString::number(samplerate / 1000.0, 'G', 5)]. *)
  tr : QString → QString;
  isDigit : QChar → bool;
  hasDecomposition : QChar → bool;
  decomposition : QChar → QString;
  toLower : QString → QString;
  toUpper : QString → QString;
  isWordChar : QChar → bool;
  number_kHz : Z → QString
}.

(** ** Tree items: [CollectionItem] over [SimpleTreeItem] *)

Inductive ItemType : Type :=
  | Type_Root | Type_Divider | Type_Container | Type_Song | Type_LoadingIndicator.

#[global] Instance ItemType_eq_dec : EqDecision ItemType.
Proof. solve_decision. Defined.

Abbreviation ptr := nat (only parsing).
Definition nullptr : ptr := 0%nat.

Record CollectionItem : Type := {
  type : ItemType;
  row : Z;
  parent : ptr;
  children : list ptr;
  key : QString;
  display_text : QString;
  sort_text : QString;
  container_level : Z;
  metadata : Song.t;
  compilation_artist_node_ : ptr
}.

Definition set_row (v : Z) (it : CollectionItem) : CollectionItem :=
  {| type := type it; row := v; parent := parent it; children := children it;
     key := key it; display_text := display_text it; sort_text := sort_text it;
     container_level := container_level it; metadata := metadata it;
     compilation_artist_node_ := compilation_artist_node_ it |}.

Definition set_children (v : list ptr) (it : CollectionItem) : CollectionItem :=
  {| type := type it; row := row it; parent := parent it; children := v;
     key := key it; display_text := display_text it; sort_text := sort_text it;
     container_level := container_level it; metadata := metadata it;
     compilation_artist_node_ := compilation_artist_node_ it |}.

Definition set_key (v : QString) (it : CollectionItem) : CollectionItem :=
  {| type := type it; row := row it; parent := parent it; children := children it;
     key := v; display_text := display_text it; sort_text := sort_text it;
     container_level := container_level it; metadata := metadata it;
     compilation_artist_node_ := compilation_artist_node_ it |}.

Definition set_display_text (v : QString) (it : CollectionItem) : CollectionItem :=
  {| type := type it; row := row it; parent := parent it; children := children it;
     key := key it; display_text := v; sort_text := sort_text it;
     container_level := container_level it; metadata := metadata it;
     compilation_artist_node_ := compilation_artist_node_ it |}.

Definition set_sort_text (v : QString) (it : CollectionItem) : CollectionItem :=
  {| type := type it; row := row it; parent := parent it; children := children it;
     key := key it; display_text := display_text it; sort_text := v;
     container_level := container_level it; metadata := metadata it;
     compilation_artist_node_ := compilation_artist_node_ it |}.

Definition set_container_level (v : Z) (it : CollectionItem) : CollectionItem :=
  {| type := type it; row := row it; parent := parent it; children := children it;
     key := key it; display_text := display_text it; sort_text := sort_text it;
     container_level := v; metadata := metadata it;
     compilation_artist_node_ := compilation_artist_node_ it |}.

Definition set_metadata (v : Song.t) (it : CollectionItem) : CollectionItem :=
  {| type := type it; row := row it; parent := parent it; children := children it;
     key := key it; display_text := display_text it; sort_text := sort_text it;
     container_level := container_level it; metadata := v;
     compilation_artist_node_ := compilation_artist_node_ it |}.

Definition set_compilation_artist_node_ (v : ptr) (it : CollectionItem) : CollectionItem :=
  {| type := type it; row := row it; parent := parent it; children := children it;
     key := key it; display_text := display_text it; sort_text := sort_text it;
     container_level := container_level it; metadata := metadata it;
     compilation_artist_node_ := v |}.

Section Engine.
Context `{External}.

(** ** The key and sort text engine *)

Definition TextOrUnknown (text : QString) : QString :=
  if isEmpty text then tr (qs "Unknown") else text.

Definition PrettyYearAlbum (year : Z) (album : QString) : QString :=
  if year <=? 0 then TextOrUnknown album
  else number year ++ qs " - " ++ TextOrUnknown album.

Definition PrettyAlbumDisc (album : QString) (disc : Z) : QString :=
  if (disc <=? 0) || AlbumContainsDisc album then TextOrUnknown album
  else TextOrUnknown album ++ qs " - (Disc " ++ number disc ++ qs ")".

Definition PrettyYearAlbumDisc (year : Z) (album : QString) (disc : Z) : QString :=
  let str :=
    if year <=? 0 then TextOrUnknown album
    else number year ++ qs " - " ++ TextOrUnknown album in
  if negb (AlbumContainsDisc album) && (0 <? disc)
  then str ++ qs " - (Disc " ++ number disc ++ qs ")"
  else str.

Definition PrettyDisc (disc : Z) : QString :=
  qs "Disc " ++ number (Z.max 1 disc).

(** [SortText]: the regular expression [[^\w ]] removes every character that
    is neither a word character nor a space. *)
Definition SortText (text : QString) : QString :=
  let text := if isEmpty text then qs " unknown" else toLower text in
  filter (λ c, isWordChar c || (c =? 32) = true) text.

(** The loop of [SortTextForArtist] over [Song::kArticles], left at the
    first article the text starts with. *)
Fixpoint skip_article (articles : list QString) (artist : QString) : QString :=
  match articles with
  | [] => artist
  | i :: rest =>
      if startsWith artist i then
        let ilen := Z.of_nat (length i) in
        right (Z.of_nat (length artist) - ilen) artist ++ qs ", " ++ left (ilen - 1) i
      else skip_article rest artist
  end.

Definition SortTextForArtist (artist : QString) (skip_articles : bool) : QString :=
  let artist := SortText artist in
  if skip_articles then skip_article kArticles artist else artist.

Definition SortTextForNumber (number : Z) : QString := arg_padded number 4.

Definition SortTextForYear (year : Z) : QString :=
  let str := number year in
  repeated (qs "0") (Z.max 0 (4 - Z.of_nat (length str))) ++ str.

Definition SortTextForBitrate (bitrate : Z) : QString :=
  let str := number bitrate in
  repeated (qs "0") (Z.max 0 (3 - Z.of_nat (length str))) ++ str.

Definition SortTextForSong (song : Song.t) : QString :=
  let ret := number (wrap32 (wrap32 (Z.max 0 (Song.disc song) * 1000)
                             + Z.max 0 (Song.track song))) in
  (repeated (qs "0") (6 - Z.of_nat (length ret)) ++ ret) ++ Song.url song.

(** The suffix that the album-like criteria append to their key. *)
Definition album_key_suffix (separate_albums_by_grouping : bool) (song : Song.t)
  : QString :=
  (if negb (isEmpty (Song.album_id song)) then qs "-" ++ Song.album_id song else [])
  ++ (if separate_albums_by_grouping && negb (isEmpty (Song.grouping song))
      then qs "-" ++ Song.grouping song else []).

(** [ContainerKey]: the key that it returns.  For [None] and [GroupByCount]
    the source returns the empty key and logs an error: what a call leaves in
    the log is [ContainerKey_log] below, which [ReAddOrUpdate_song] applies
    at each of its calls.  [AddSongs_container] calls [ContainerKey] after its
    test on [None], and [ItemFromSong] in the cases of the criteria: there the
    criterion is not [None], and the key alone is used. *)
Definition ContainerKey (group_by : GroupBy.t) (separate_albums_by_grouping : bool)
    (song : Song.t) : QString :=
  match group_by with
  | GroupBy.AlbumArtist => TextOrUnknown (effective_albumartist song)
  | GroupBy.Artist => TextOrUnknown (Song.artist song)
  | GroupBy.Album =>
      TextOrUnknown (Song.album song)
      ++ album_key_suffix separate_albums_by_grouping song
  | GroupBy.AlbumDisc =>
      PrettyAlbumDisc (Song.album song) (Song.disc song)
      ++ album_key_suffix separate_albums_by_grouping song
  | GroupBy.YearAlbum =>
      PrettyYearAlbum (Song.year song) (Song.album song)
      ++ album_key_suffix separate_albums_by_grouping song
  | GroupBy.YearAlbumDisc =>
      PrettyYearAlbumDisc (Song.year song) (Song.album song) (Song.disc song)
      ++ album_key_suffix separate_albums_by_grouping song
  | GroupBy.OriginalYearAlbum =>
      PrettyYearAlbum (effective_originalyear song) (Song.album song)
      ++ album_key_suffix separate_albums_by_grouping song
  | GroupBy.OriginalYearAlbumDisc =>
      PrettyYearAlbumDisc (effective_originalyear song) (Song.album song) (Song.disc song)
      ++ album_key_suffix separate_albums_by_grouping song
  | GroupBy.Disc => PrettyDisc (Song.disc song)
  | GroupBy.Year => number (Z.max 0 (Song.year song))
  | GroupBy.OriginalYear => number (Z.max 0 (effective_originalyear song))
  | GroupBy.Genre => TextOrUnknown (Song.genre song)
  | GroupBy.Composer => TextOrUnknown (Song.composer song)
  | GroupBy.Performer => TextOrUnknown (Song.performer song)
  | GroupBy.Grouping => TextOrUnknown (Song.grouping song)
  | GroupBy.FileType => TextForFiletype song
  | GroupBy.Samplerate => number (Z.max 0 (Song.samplerate song))
  | GroupBy.Bitdepth => number (Z.max 0 (Song.bitdepth song))
  | GroupBy.Bitrate => number (Z.max 0 (Song.bitrate song))
  | GroupBy.Format =>
      if Song.samplerate song <=? 0 then TextForFiletype song
      else if Song.bitdepth song <=? 0 then
        TextForFiletype song ++ qs " (" ++ number_kHz (Song.samplerate song) ++ qs ")"
      else
        TextForFiletype song ++ qs " (" ++ number_kHz (Song.samplerate song)
        ++ qs "/" ++ number (Song.bitdepth song) ++ qs ")"
  | GroupBy.None | GroupBy.GroupByCount => []
  end.

(** [DividerKey]: items under the same divider produce the same key. *)
Definition DividerKey (group_by : GroupBy.t) (item : CollectionItem) : QString :=
  match sort_text item with
  | [] => []
  | c :: _ =>
      match group_by with
      | GroupBy.AlbumArtist | GroupBy.Artist | GroupBy.Album | GroupBy.AlbumDisc
      | GroupBy.Composer | GroupBy.Performer | GroupBy.Grouping | GroupBy.Disc
      | GroupBy.Genre | GroupBy.Format | GroupBy.FileType =>
          if isDigit c then qs "0"
          else if c =? 32 then []
          else if hasDecomposition c then take 1 (decomposition c)
          else [c]
      | GroupBy.Year | GroupBy.OriginalYear =>
          SortTextForNumber (Z.quot (toInt (sort_text item)) 10 * 10)
      | GroupBy.YearAlbum | GroupBy.YearAlbumDisc =>
          SortTextForNumber (Song.year (metadata item))
      | GroupBy.OriginalYearAlbum | GroupBy.OriginalYearAlbumDisc =>
          SortTextForNumber (effective_originalyear (metadata item))
      | GroupBy.Samplerate => SortTextForNumber (Song.samplerate (metadata item))
      | GroupBy.Bitdepth => SortTextForNumber (Song.bitdepth (metadata item))
      | GroupBy.Bitrate => SortTextForNumber (Song.bitrate (metadata item))
      | GroupBy.None | GroupBy.GroupByCount => []
      end
  end.

Definition DividerDisplayText (group_by : GroupBy.t) (key : QString) : QString :=
  match group_by with
  | GroupBy.AlbumArtist | GroupBy.Artist | GroupBy.Album | GroupBy.AlbumDisc
  | GroupBy.Composer | GroupBy.Performer | GroupBy.Disc | GroupBy.Grouping
  | GroupBy.Genre | GroupBy.FileType | GroupBy.Format =>
      if qeq key (qs "0") then qs "0-9" else toUpper key
  | GroupBy.YearAlbum | GroupBy.YearAlbumDisc | GroupBy.OriginalYearAlbum
  | GroupBy.OriginalYearAlbumDisc =>
      if qeq key (qs "0000") then tr (qs "Unknown") else toUpper key
  | GroupBy.Year | GroupBy.OriginalYear =>
      if qeq key (qs "0000") then tr (qs "Unknown") else number (toInt key)
  | GroupBy.Samplerate | GroupBy.Bitdepth | GroupBy.Bitrate =>
      if qeq key (qs "000") then tr (qs "Unknown") else number (toInt key)
  | GroupBy.None | GroupBy.GroupByCount => []
  end.

End Engine.

(** ** The model state *)

(** [QModelIndex], as [SimpleTreeModel::ItemToIndex] builds it: the invalid
    index, or the row of an item and the item. *)
Inductive QModelIndex : Type :=
  | InvalidIndex
  | Index (index_row : Z) (index_item : ptr).

#[global] Instance QModelIndex_eq_dec : EqDecision QModelIndex.
Proof. solve_decision. Defined.

(** The signals of [QAbstractItemModel] that the model emits. *)
Inductive Signal : Type :=
  | rowsAboutToBeInserted (parent_index : QModelIndex) (first_row last_row : Z)
  | rowsInserted
  | rowsAboutToBeRemoved (parent_index : QModelIndex) (first_row last_row : Z)
  | rowsRemoved
  | dataChanged (top_left bottom_right : QModelIndex).

Definition is_structural (s : Signal) : bool :=
  match s with dataChanged _ _ => false | _ => true end.

(** The errors that the model logs: the consistency errors of the update
    operations, and the error of [ContainerKey] on a level that has no
    criterion. *)
Inductive LogEntry : Type :=
  | Error_SongDoesNotExistInModel (song : Song.t)
  | Error_GroupByNone.

Module CollectionModelUpdate.
Inductive Type_ : Type := Add | Remove | ReAddOrUpdate | Update.
Record t : Type := mk { type : Type_; songs : SongList }.
End CollectionModelUpdate.

Record Model : Type := {
  heap : gmap ptr CollectionItem;
  next_ptr : ptr;
  root_ : ptr;
  songs_ : gmap Z Song.t;
  song_nodes_ : gmap Z ptr;
  container_nodes_ : list (gmap QString ptr);
  divider_nodes_ : gmap QString ptr;
  group_by_ : Grouping;
  separate_albums_by_grouping_ : bool;
  show_dividers_ : bool;
  sort_skips_articles_ : bool;
  updates_ : list CollectionModelUpdate.t;
  timer_update_active : bool;
  signals_ : list Signal;
  log_ : list LogEntry
}.

Definition with_heap (v : gmap ptr CollectionItem) (m : Model) : Model :=
  {| heap := v; next_ptr := next_ptr m; root_ := root_ m; songs_ := songs_ m;
     song_nodes_ := song_nodes_ m; container_nodes_ := container_nodes_ m;
     divider_nodes_ := divider_nodes_ m; group_by_ := group_by_ m;
     separate_albums_by_grouping_ := separate_albums_by_grouping_ m;
     show_dividers_ := show_dividers_ m;
     sort_skips_articles_ := sort_skips_articles_ m; updates_ := updates_ m;
     timer_update_active := timer_update_active m; signals_ := signals_ m;
     log_ := log_ m |}.

Definition with_next_ptr (v : ptr) (m : Model) : Model :=
  {| heap := heap m; next_ptr := v; root_ := root_ m; songs_ := songs_ m;
     song_nodes_ := song_nodes_ m; container_nodes_ := container_nodes_ m;
     divider_nodes_ := divider_nodes_ m; group_by_ := group_by_ m;
     separate_albums_by_grouping_ := separate_albums_by_grouping_ m;
     show_dividers_ := show_dividers_ m;
     sort_skips_articles_ := sort_skips_articles_ m; updates_ := updates_ m;
     timer_update_active := timer_update_active m; signals_ := signals_ m;
     log_ := log_ m |}.

Definition with_songs_ (v : gmap Z Song.t) (m : Model) : Model :=
  {| heap := heap m; next_ptr := next_ptr m; root_ := root_ m; songs_ := v;
     song_nodes_ := song_nodes_ m; container_nodes_ := container_nodes_ m;
     divider_nodes_ := divider_nodes_ m; group_by_ := group_by_ m;
     separate_albums_by_grouping_ := separate_albums_by_grouping_ m;
     show_dividers_ := show_dividers_ m;
     sort_skips_articles_ := sort_skips_articles_ m; updates_ := updates_ m;
     timer_update_active := timer_update_active m; signals_ := signals_ m;
     log_ := log_ m |}.

Definition with_song_nodes_ (v : gmap Z ptr) (m : Model) : Model :=
  {| heap := heap m; next_ptr := next_ptr m; root_ := root_ m; songs_ := songs_ m;
     song_nodes_ := v; container_nodes_ := container_nodes_ m;
     divider_nodes_ := divider_nodes_ m; group_by_ := group_by_ m;
     separate_albums_by_grouping_ := separate_albums_by_grouping_ m;
     show_dividers_ := show_dividers_ m;
     sort_skips_articles_ := sort_skips_articles_ m; updates_ := updates_ m;
     timer_update_active := timer_update_active m; signals_ := signals_ m;
     log_ := log_ m |}.

Definition with_container_nodes_ (v : list (gmap QString ptr)) (m : Model) : Model :=
  {| heap := heap m; next_ptr := next_ptr m; root_ := root_ m; songs_ := songs_ m;
     song_nodes_ := song_nodes_ m; container_nodes_ := v;
     divider_nodes_ := divider_nodes_ m; group_by_ := group_by_ m;
     separate_albums_by_grouping_ := separate_albums_by_grouping_ m;
     show_dividers_ := show_dividers_ m;
     sort_skips_articles_ := sort_skips_articles_ m; updates_ := updates_ m;
     timer_update_active := timer_update_active m; signals_ := signals_ m;
     log_ := log_ m |}.

Definition with_divider_nodes_ (v : gmap QString ptr) (m : Model) : Model :=
  {| heap := heap m; next_ptr := next_ptr m; root_ := root_ m; songs_ := songs_ m;
     song_nodes_ := song_nodes_ m; container_nodes_ := container_nodes_ m;
     divider_nodes_ := v; group_by_ := group_by_ m;
     separate_albums_by_grouping_ := separate_albums_by_grouping_ m;
     show_dividers_ := show_dividers_ m;
     sort_skips_articles_ := sort_skips_articles_ m; updates_ := updates_ m;
     timer_update_active := timer_update_active m; signals_ := signals_ m;
     log_ := log_ m |}.

Definition with_updates_ (v : list CollectionModelUpdate.t) (m : Model) : Model :=
  {| heap := heap m; next_ptr := next_ptr m; root_ := root_ m; songs_ := songs_ m;
     song_nodes_ := song_nodes_ m; container_nodes_ := container_nodes_ m;
     divider_nodes_ := divider_nodes_ m; group_by_ := group_by_ m;
     separate_albums_by_grouping_ := separate_albums_by_grouping_ m;
     show_dividers_ := show_dividers_ m;
     sort_skips_articles_ := sort_skips_articles_ m; updates_ := v;
     timer_update_active := timer_update_active m; signals_ := signals_ m;
     log_ := log_ m |}.

Definition with_timer_update_active (v : bool) (m : Model) : Model :=
  {| heap := heap m; next_ptr := next_ptr m; root_ := root_ m; songs_ := songs_ m;
     song_nodes_ := song_nodes_ m; container_nodes_ := container_nodes_ m;
     divider_nodes_ := divider_nodes_ m; group_by_ := group_by_ m;
     separate_albums_by_grouping_ := separate_albums_by_grouping_ m;
     show_dividers_ := show_dividers_ m;
     sort_skips_articles_ := sort_skips_articles_ m; updates_ := updates_ m;
     timer_update_active := v; signals_ := signals_ m; log_ := log_ m |}.

Definition with_signals_ (v : list Signal) (m : Model) : Model :=
  {| heap := heap m; next_ptr := next_ptr m; root_ := root_ m; songs_ := songs_ m;
     song_nodes_ := song_nodes_ m; container_nodes_ := container_nodes_ m;
     divider_nodes_ := divider_nodes_ m; group_by_ := group_by_ m;
     separate_albums_by_grouping_ := separate_albums_by_grouping_ m;
     show_dividers_ := show_dividers_ m;
     sort_skips_articles_ := sort_skips_articles_ m; updates_ := updates_ m;
     timer_update_active := timer_update_active m; signals_ := v; log_ := log_ m |}.

Definition with_log_ (v : list LogEntry) (m : Model) : Model :=
  {| heap := heap m; next_ptr := next_ptr m; root_ := root_ m; songs_ := songs_ m;
     song_nodes_ := song_nodes_ m; container_nodes_ := container_nodes_ m;
     divider_nodes_ := divider_nodes_ m; group_by_ := group_by_ m;
     separate_albums_by_grouping_ := separate_albums_by_grouping_ m;
     show_dividers_ := show_dividers_ m;
     sort_skips_articles_ := sort_skips_articles_ m; updates_ := updates_ m;
     timer_update_active := timer_update_active m; signals_ := signals_ m; log_ := v |}.

(** [container_nodes_[i]]; an index outside the array reads as an empty
    table and is not written. *)
Definition container_nodes_at (m : Model) (i : Z) : gmap QString ptr :=
  if i <? 0 then ∅ else default ∅ (container_nodes_ m !! Z.to_nat i).

Definition with_container_nodes_at (i : Z) (v : gmap QString ptr) (m : Model) : Model :=
  if i <? 0 then m
  else with_container_nodes_ (<[Z.to_nat i := v]> (container_nodes_ m)) m.

Definition emit (s : Signal) (m : Model) : Model :=
  with_signals_ (signals_ m ++ [s]) m.

Definition beginInsertRows (idx : QModelIndex) (first_row last_row : Z) :=
  emit (rowsAboutToBeInserted idx first_row last_row).
Definition endInsertRows := emit rowsInserted.
Definition beginRemoveRows (idx : QModelIndex) (first_row last_row : Z) :=
  emit (rowsAboutToBeRemoved idx first_row last_row).
Definition endRemoveRows := emit rowsRemoved.

Definition isEmpty_list {A} (l : list A) : bool :=
  match l with [] => true | _ => false end.

Section Model.
Context `{External}.

(** What a read through a pointer that addresses no item yields.  Such a
    read is undefined in C++; no operation below performs one on a tree that
    the model built. *)
Definition null_item : CollectionItem :=
  {| type := Type_LoadingIndicator; row := -1; parent := nullptr; children := [];
     key := []; display_text := []; sort_text := []; container_level := -1;
     metadata := Song_default; compilation_artist_node_ := nullptr |}.

Definition item (m : Model) (p : ptr) : CollectionItem :=
  default null_item (heap m !! p).

Definition update_item (p : ptr) (f : CollectionItem → CollectionItem) (m : Model)
  : Model :=
  with_heap (alter f p (heap m)) m.

Definition count (m : Model) (p : ptr) : Z := Z.of_nat (length (children (item m p))).

(** Modelled from the spec: the constructor [CollectionItem(type, parent)]
    of [collectionitem.h] and [simpletreeitem.h], which are not among the
    sources.  "Every non-root node has exactly one parent; children of a node
    have unique position indices": the new item takes the next free position
    of its parent and is appended to the parent's children. *)
Definition new_CollectionItem (ty : ItemType) (parent_ : ptr) (m : Model)
  : ptr * Model :=
  let p := next_ptr m in
  let it :=
    {| type := ty;
       row := if decide (parent_ = nullptr) then -1 else count m parent_;
       parent := parent_; children := []; key := []; display_text := [];
       sort_text := []; container_level := -1; metadata := Song_default;
       compilation_artist_node_ := nullptr |} in
  let h := <[p := it]> (heap m) in
  let h :=
    if decide (parent_ = nullptr) then h
    else alter (λ q, set_children (children q ++ [p]) q) parent_ h in
  (p, with_next_ptr (S p) (with_heap h m)).

(** Modelled from the spec: [SimpleTreeModel::ItemToIndex] and
    [IndexToItem], not among the sources.  The root has the invalid index;
    any other item has the index of its position under its parent. *)
Definition ItemToIndex (m : Model) (p : ptr) : QModelIndex :=
  if decide (p = nullptr) then InvalidIndex
  else if decide (parent (item m p) = nullptr) then InvalidIndex
  else Index (row (item m p)) p.

Definition IndexToItem (m : Model) (idx : QModelIndex) : ptr :=
  match idx with
  | InvalidIndex => root_ m
  | Index _ p => p
  end.

Definition isValid (idx : QModelIndex) : bool :=
  match idx with InvalidIndex => false | Index _ _ => true end.

(** ** Insertion *)

Definition InitItem (group_by : GroupBy.t) (signal : bool) (parent_ : ptr)
    (container_level_ : Z) (m : Model) : ptr * Model :=
  let item_type :=
    if GroupBy.eqb group_by GroupBy.None then Type_Song else Type_Container in
  let m :=
    if signal
    then beginInsertRows (ItemToIndex m parent_) (count m parent_) (count m parent_) m
    else m in
  let '(p, m) := new_CollectionItem item_type parent_ m in
  let m := update_item p (set_compilation_artist_node_ nullptr) m in
  let m := update_item p (set_container_level container_level_) m in
  (p, m).

(** One branch of the switch of [ItemFromSong] over a container criterion:
    the tags copied to the item's metadata, the key, the label and the sort
    text. *)
Definition fill (set_tags : Song.t → Song.t) (key_ display sort : QString)
    (it : CollectionItem) : CollectionItem :=
  set_sort_text sort
    (set_display_text display
       (set_key (key it ++ key_) (set_metadata (set_tags (metadata it)) it))).

Definition positive_or_minus_one (v : Z) : Z := if v <=? 0 then -1 else v.

Definition ItemFromSong_switch (m : Model) (group_by : GroupBy.t)
    (separate_albums_by_grouping : bool) (s : Song.t) (it : CollectionItem)
  : CollectionItem :=
  let ckey := ContainerKey group_by separate_albums_by_grouping s in
  let skip := sort_skips_articles_ m in
  let set_album_tags md :=
    Song.set_grouping (Song.grouping s)
      (Song.set_album_id (Song.album_id s) (Song.set_album (Song.album s) md)) in
  let set_disc_tag := Song.set_disc (positive_or_minus_one (Song.disc s)) in
  let set_year_tag := Song.set_year (positive_or_minus_one (Song.year s)) in
  let set_originalyear_tag :=
    Song.set_originalyear (positive_or_minus_one (Song.originalyear s)) in
  match group_by with
  | GroupBy.AlbumArtist =>
      fill (Song.set_albumartist (effective_albumartist s)) ckey
        (TextOrUnknown (effective_albumartist s))
        (SortTextForArtist (effective_albumartist s) skip) it
  | GroupBy.Artist =>
      fill (Song.set_artist (Song.artist s)) ckey
        (TextOrUnknown (Song.artist s))
        (SortTextForArtist (Song.artist s) skip) it
  | GroupBy.Album =>
      fill set_album_tags ckey
        (TextOrUnknown (Song.album s))
        (SortTextForArtist (Song.album s) skip) it
  | GroupBy.AlbumDisc =>
      fill (λ md, Song.set_grouping (Song.grouping s)
                    (set_disc_tag (Song.set_album_id (Song.album_id s)
                                     (Song.set_album (Song.album s) md)))) ckey
        (PrettyAlbumDisc (Song.album s) (Song.disc s))
        (Song.album s ++ SortTextForNumber (Z.max 0 (Song.disc s))) it
  | GroupBy.YearAlbum =>
      fill (λ md, set_album_tags (set_year_tag md)) ckey
        (PrettyYearAlbum (Song.year s) (Song.album s))
        (SortTextForNumber (Z.max 0 (Song.year s)) ++ Song.grouping s ++ Song.album s)
        it
  | GroupBy.YearAlbumDisc =>
      fill (λ md, Song.set_grouping (Song.grouping s)
                    (set_disc_tag (Song.set_album_id (Song.album_id s)
                                     (Song.set_album (Song.album s) (set_year_tag md)))))
        ckey
        (PrettyYearAlbumDisc (Song.year s) (Song.album s) (Song.disc s))
        (SortTextForNumber (Z.max 0 (Song.year s)) ++ Song.album s
         ++ SortTextForNumber (Z.max 0 (Song.disc s))) it
  | GroupBy.OriginalYearAlbum =>
      fill (λ md, set_album_tags (set_originalyear_tag (set_year_tag md))) ckey
        (PrettyYearAlbum (effective_originalyear s) (Song.album s))
        (SortTextForNumber (Z.max 0 (effective_originalyear s)) ++ Song.grouping s
         ++ Song.album s) it
  | GroupBy.OriginalYearAlbumDisc =>
      fill (λ md, Song.set_grouping (Song.grouping s)
                    (set_disc_tag
                       (Song.set_album_id (Song.album_id s)
                          (Song.set_album (Song.album s)
                             (set_originalyear_tag (set_year_tag md)))))) ckey
        (PrettyYearAlbumDisc (effective_originalyear s) (Song.album s) (Song.disc s))
        (SortTextForNumber (Z.max 0 (effective_originalyear s)) ++ Song.album s
         ++ SortTextForNumber (Z.max 0 (Song.disc s))) it
  | GroupBy.Disc =>
      let disc := Z.max 0 (Song.disc s) in
      fill set_disc_tag ckey (PrettyDisc disc) (SortTextForNumber disc) it
  | GroupBy.Year =>
      let year := Z.max 0 (Song.year s) in
      fill set_year_tag ckey (number year) (SortTextForNumber year ++ qs " ") it
  | GroupBy.OriginalYear =>
      let year := Z.max 0 (effective_originalyear s) in
      fill (Song.set_originalyear (positive_or_minus_one (effective_originalyear s)))
        ckey (number year) (SortTextForNumber year ++ qs " ") it
  | GroupBy.Genre =>
      fill (Song.set_genre (Song.genre s)) ckey
        (TextOrUnknown (Song.genre s)) (SortTextForArtist (Song.genre s) skip) it
  | GroupBy.Composer =>
      fill (Song.set_composer (Song.composer s)) ckey
        (TextOrUnknown (Song.composer s)) (SortTextForArtist (Song.composer s) skip) it
  | GroupBy.Performer =>
      fill (Song.set_performer (Song.performer s)) ckey
        (TextOrUnknown (Song.performer s))
        (SortTextForArtist (Song.performer s) skip) it
  | GroupBy.Grouping =>
      fill (Song.set_grouping (Song.grouping s)) ckey
        (TextOrUnknown (Song.grouping s)) (SortTextForArtist (Song.grouping s) skip) it
  | GroupBy.FileType =>
      fill (Song.set_filetype (Song.filetype s)) ckey
        (TextForFiletype s) (TextForFiletype s) it
  | GroupBy.Format =>
      fill (λ md, Song.set_bitdepth (Song.bitdepth s)
                    (Song.set_samplerate (Song.samplerate s)
                       (Song.set_filetype (Song.filetype s) md))) ckey ckey ckey it
  | GroupBy.Samplerate =>
      let samplerate := Z.max 0 (Song.samplerate s) in
      fill (Song.set_samplerate (Song.samplerate s)) ckey
        (number samplerate) (SortTextForNumber samplerate ++ qs " ") it
  | GroupBy.Bitdepth =>
      let bitdepth := Z.max 0 (Song.bitdepth s) in
      fill (Song.set_bitdepth (Song.bitdepth s)) ckey
        (number bitdepth) (SortTextForNumber bitdepth ++ qs " ") it
  | GroupBy.Bitrate =>
      let bitrate := Z.max 0 (Song.bitrate s) in
      fill (Song.set_bitrate (Song.bitrate s)) ckey
        (number bitrate) (SortTextForNumber bitrate ++ qs " ") it
  | GroupBy.None | GroupBy.GroupByCount =>
      fill (λ _, s) (TextOrUnknown (Song.title s)) (TitleWithCompilationArtist s)
        (if (container_level it =? 1)
            && negb (IsAlbumGroupBy (Grouping_at (group_by_ m) 0))
         then SortText (Song.title s) else SortTextForSong s) it
  end.

Definition FinishItem (group_by : GroupBy.t) (signal create_divider : bool)
    (parent_ item_ : ptr) (m : Model) : Model :=
  let m := if signal then endInsertRows m else m in
  if create_divider && show_dividers_ m then
    let divider_key := DividerKey group_by (item m item_) in
    let m :=
      if negb (isEmpty divider_key)
      then update_item item_
             (λ it, set_sort_text ((divider_key ++ qs " ") ++ sort_text it) it) m
      else m in
    if negb (isEmpty divider_key)
       && negb (bool_decide (is_Some (divider_nodes_ m !! divider_key)))
    then
      let m :=
        if signal
        then beginInsertRows (ItemToIndex m parent_) (count m parent_) (count m parent_) m
        else m in
      let '(divider, m) := new_CollectionItem Type_Divider (root_ m) m in
      let m := update_item divider (set_key divider_key) m in
      let m :=
        update_item divider
          (set_display_text (DividerDisplayText group_by divider_key)) m in
      let m := update_item divider (set_sort_text (divider_key ++ qs "  ")) m in
      let m := with_divider_nodes_ (<[divider_key := divider]> (divider_nodes_ m)) m in
      if signal then endInsertRows m else m
    else m
  else m.

Definition ItemFromSong (group_by : GroupBy.t) (separate_albums_by_grouping : bool)
    (signal create_divider : bool) (parent_ : ptr) (s : Song.t)
    (container_level_ : Z) (m : Model) : ptr * Model :=
  let '(p, m) := InitItem group_by signal parent_ container_level_ m in
  let m :=
    if negb (bool_decide (parent_ = root_ m)) && negb (isEmpty (key (item m parent_)))
    then update_item p (set_key (key (item m parent_) ++ qs "-")) m
    else m in
  let m :=
    update_item p (ItemFromSong_switch m group_by separate_albums_by_grouping s) m in
  (p, FinishItem group_by signal create_divider parent_ p m).

(** The "Various artists" node of a parent. *)
Definition CreateCompilationArtistNode (signal : bool) (parent_ : ptr) (m : Model)
  : ptr * Model :=
  let m :=
    if signal
    then beginInsertRows (ItemToIndex m parent_) (count m parent_) (count m parent_) m
    else m in
  let '(node, m) := new_CollectionItem Type_Container parent_ m in
  let m := update_item parent_ (set_compilation_artist_node_ node) m in
  let m := update_item node (set_compilation_artist_node_ nullptr) m in
  let m :=
    if negb (bool_decide (parent_ = root_ m)) && negb (isEmpty (key (item m parent_)))
    then update_item node (λ it, set_key (key it ++ key (item m parent_)) it) m
    else m in
  let m :=
    update_item node (λ it, set_key (key it ++ tr (qs "Various artists")) it) m in
  let m := update_item node (set_display_text (tr (qs "Various artists"))) m in
  let m := update_item node (set_sort_text (qs " various")) m in
  let m :=
    update_item node (set_container_level (container_level (item m parent_) + 1)) m in
  let m := if signal then endInsertRows m else m in
  (compilation_artist_node_ (item m parent_), m).

(** The loop of [AddSongs] over the three grouping levels, from level [i],
    with [n] levels to go: it returns the container that takes the song. *)
Fixpoint AddSongs_container (n : nat) (i : Z) (song : Song.t) (container : ptr)
    (key_ : QString) (m : Model) : ptr * Model :=
  match n with
  | O => (container, m)
  | S n' =>
      let group_by := Grouping_at (group_by_ m) i in
      if GroupBy.eqb group_by GroupBy.None then (container, m)
      else
        let key_ := if negb (isEmpty key_) then key_ ++ qs "-" else key_ in
        if IsArtistGroupBy group_by && is_compilation song then
          let m :=
            if decide (compilation_artist_node_ (item m container) = nullptr)
            then (CreateCompilationArtistNode true container m).2
            else m in
          let container := compilation_artist_node_ (item m container) in
          AddSongs_container n' (i + 1) song container (key (item m container)) m
        else
          let key_ :=
            key_ ++ ContainerKey group_by (separate_albums_by_grouping_ m) song in
          match container_nodes_at m i !! key_ with
          | Some c => AddSongs_container n' (i + 1) song c key_ m
          | None =>
              let '(c, m) :=
                ItemFromSong group_by (separate_albums_by_grouping_ m) true
                  (i =? 0) container song i m in
              let m :=
                with_container_nodes_at i (<[key_ := c]> (container_nodes_at m i)) m in
              AddSongs_container n' (i + 1) song c key_ m
          end
  end.

Definition AddSong (song : Song.t) (m : Model) : Model :=
  let m := with_songs_ (<[Song.id song := song]> (songs_ m)) m in
  if negb (Matches song) then m
  else if bool_decide (is_Some (song_nodes_ m !! Song.id song)) then m
  else
    let '(container, m) := AddSongs_container 3 0 song (root_ m) [] m in
    let '(leaf, m) :=
      ItemFromSong GroupBy.None (separate_albums_by_grouping_ m) true false
        container song (-1) m in
    with_song_nodes_ (<[Song.id song := leaf]> (song_nodes_ m)) m.

Definition AddSongs (songs : SongList) (m : Model) : Model :=
  foldl (λ m song, AddSong song m) m songs.

(** ** Removal *)

(** Modelled from the spec: [SimpleTreeItem::Delete] of [simpletreeitem.h],
    not among the sources.  "Each node [is] owned solely by its parent's child
    collection" and "children of a node have unique position indices that
    must stay contiguous after removal": the child at [child_row] is taken
    out of the children and destroyed with what it owns, and the children
    after it move up by one.  A row outside the children is left alone. *)
Fixpoint destroy (fuel : nat) (h : gmap ptr CollectionItem) (p : ptr)
  : gmap ptr CollectionItem :=
  let owned := match h !! p with Some it => children it | None => [] end in
  match fuel with
  | O => delete p h
  | S f => delete p (foldl (destroy f) h owned)
  end.

Definition Delete (parent_ : ptr) (child_row : Z) (m : Model) : Model :=
  let kids := children (item m parent_) in
  if child_row <? 0 then m
  else
    let i := Z.to_nat child_row in
    match kids !! i with
    | None => m
    | Some c =>
        let h := destroy (size (heap m)) (heap m) c in
        let h := alter (set_children (take i kids ++ drop (S i) kids)) parent_ h in
        let h :=
          foldl (λ h q, alter (λ it, set_row (row it - 1) it) q h) h (drop (S i) kids) in
        with_heap h m
    end.

(** [QSet::operator<<] on a set kept as a list without repetition.  The
    order in which a [QSet] is visited is unspecified; the list visits the
    elements in the order of their insertion. *)
Definition qset_insert `{EqDecision A} (x : A) (s : list A) : list A :=
  if decide (x ∈ s) then s else s ++ [x].

Definition qset_remove `{EqDecision A} (x : A) (s : list A) : list A :=
  filter (λ y, y ≠ x) s.

Definition contains `{Countable K} {V} (table : gmap K V) (k : K) : bool :=
  bool_decide (is_Some (table !! k)).

Definition IsCompilationArtistNode (m : Model) (node : ptr) : bool :=
  bool_decide (node = compilation_artist_node_ (item m (parent (item m node)))).

(** The first loop of [RemoveSongs], for one song: the leaf goes, its parent
    is remembered. *)
Definition RemoveSongs_leaf (acc : list ptr * Model) (song : Song.t)
  : list ptr * Model :=
  let '(parents, m) := acc in
  let m :=
    if contains (songs_ m) (Song.id song)
    then with_songs_ (<[Song.id song := song]> (songs_ m)) m
    else m in
  match song_nodes_ m !! Song.id song with
  | Some node =>
      let node_parent := parent (item m node) in
      let node_row := row (item m node) in
      let parents :=
        if decide (node_parent = root_ m) then parents
        else qset_insert node_parent parents in
      let m := beginRemoveRows (ItemToIndex m node_parent) node_row node_row m in
      let m := Delete node_parent node_row m in
      let m := with_song_nodes_ (delete (Song.id song) (song_nodes_ m)) m in
      (parents, endRemoveRows m)
  | None => (parents, m)
  end.

(** The body of the loop over [parents_copy].  The pixmap cache and the
    pending art requests, which the source also purges here, are outside
    this model. *)
Definition RemoveSongs_parent (acc : list ptr * list QString * Model) (node : ptr)
  : list ptr * list QString * Model :=
  let '(parents, divider_keys, m) := acc in
  let parents := qset_remove node parents in
  if negb (count m node =? 0) then (parents, divider_keys, m)
  else
    let node_parent := parent (item m node) in
    let node_row := row (item m node) in
    let level := container_level (item m node) in
    let parents :=
      if decide (node_parent = root_ m) then parents
      else qset_insert node_parent parents in
    let divider_keys :=
      if level =? 0
      then qset_insert (DividerKey (Grouping_at (group_by_ m) 0) (item m node))
             divider_keys
      else divider_keys in
    let m :=
      if IsCompilationArtistNode m node
      then update_item node_parent (set_compilation_artist_node_ nullptr) m
      else if contains (container_nodes_at m level) (key (item m node))
      then with_container_nodes_at level
             (delete (key (item m node)) (container_nodes_at m level)) m
      else m in
    let m := beginRemoveRows (ItemToIndex m node_parent) node_row node_row m in
    let m := Delete node_parent node_row m in
    (parents, divider_keys, endRemoveRows m).

(** The loop [while (!parents.isEmpty())].  Every round but the last
    destroys an item, so a fuel above the number of items is never used up
    on a tree; [None] is the loop that does not end. *)
Fixpoint RemoveSongs_parents (fuel : nat) (parents : list ptr)
    (divider_keys : list QString) (m : Model) : option (list QString * Model) :=
  match parents with
  | [] => Some (divider_keys, m)
  | _ =>
      match fuel with
      | O => None
      | S f =>
          let '(parents', divider_keys', m') :=
            foldl RemoveSongs_parent (parents, divider_keys, m) parents in
          RemoveSongs_parents f parents' divider_keys' m'
      end
  end.

Definition RemoveSongs_divider (m : Model) (divider_key : QString) : Model :=
  match divider_nodes_ m !! divider_key with
  | None => m
  | Some divider =>
      let container_nodes := (map_to_list (container_nodes_at m 0)).*2 in
      if existsb
           (λ node, qeq (DividerKey (Grouping_at (group_by_ m) 0) (item m node))
                      divider_key)
           container_nodes
      then m
      else
        let row_ := row (item m divider) in
        let m := beginRemoveRows (ItemToIndex m (root_ m)) row_ row_ m in
        let m := Delete (root_ m) row_ m in
        let m := endRemoveRows m in
        with_divider_nodes_ (delete divider_key (divider_nodes_ m)) m
  end.

Definition RemoveSongs (songs : SongList) (m : Model) : option Model :=
  let '(parents, m) := foldl RemoveSongs_leaf ([], m) songs in
  '(divider_keys, m) ← RemoveSongs_parents (S (size (heap m))) parents [] m;
  Some (foldl RemoveSongs_divider m divider_keys).

(** ** Update *)

Definition IsCollectionMetadataEqual (song1 song2 : Song.t) : bool :=
  qeq (Song.title song1) (Song.title song2) &&
  qeq (Song.album song1) (Song.album song2) &&
  qeq (Song.artist song1) (Song.artist song2) &&
  qeq (Song.albumartist song1) (Song.albumartist song2) &&
  (Song.track song1 =? Song.track song2) &&
  (Song.disc song1 =? Song.disc song2) &&
  (Song.year song1 =? Song.year song2) &&
  (Song.originalyear song1 =? Song.originalyear song2) &&
  qeq (Song.genre song1) (Song.genre song2) &&
  Bool.eqb (Song.compilation song1) (Song.compilation song2) &&
  qeq (Song.composer song1) (Song.composer song2) &&
  qeq (Song.performer song1) (Song.performer song2) &&
  qeq (Song.grouping song1) (Song.grouping song2) &&
  (Song.bitrate song1 =? Song.bitrate song2) &&
  (Song.samplerate song1 =? Song.samplerate song2) &&
  (Song.bitdepth song1 =? Song.bitdepth song2).

Definition log_error (e : LogEntry) (m : Model) : Model :=
  with_log_ (log_ m ++ [e]) m.

(** What a call of [ContainerKey] leaves in the log: the error
    "GroupBy::None" of its cases [None] and [GroupByCount]. *)
Definition ContainerKey_logs (group_by : GroupBy.t) : bool :=
  match group_by with
  | GroupBy.None | GroupBy.GroupByCount => true
  | _ => false
  end.

Definition ContainerKey_log (group_by : GroupBy.t) (m : Model) : Model :=
  if ContainerKey_logs group_by then log_error Error_GroupByNone m else m.

(** [UpdateSongs]: the loop over the songs; the [return] of the source on
    an invalid index leaves the loop. *)
Fixpoint UpdateSongs (songs : SongList) (m : Model) : Model :=
  match songs with
  | [] => m
  | song :: rest =>
      let m :=
        if contains (songs_ m) (Song.id song)
        then with_songs_ (<[Song.id song := song]> (songs_ m)) m
        else m in
      match song_nodes_ m !! Song.id song with
      | None => UpdateSongs rest (log_error (Error_SongDoesNotExistInModel song) m)
      | Some item_ =>
          let data_changed :=
            negb (IsCollectionMetadataEqual song (metadata (item m item_))) in
          let m := update_item item_ (set_metadata song) m in
          if data_changed then
            let idx := ItemToIndex m item_ in
            if negb (isValid idx) then m
            else UpdateSongs rest (emit (dataChanged idx idx) m)
          else UpdateSongs rest m
      end
  end.

(** ** The update scheduler *)

(** [QList::mid(pos, length)]. *)
Definition mid {A} (l : list A) (pos len : Z) : list A :=
  take (Z.to_nat len) (drop (Z.to_nat pos) l).

Definition enqueue (u : CollectionModelUpdate.t) (m : Model) : Model :=
  with_updates_ (updates_ m ++ [u]) m.

(** The loop of [ScheduleUpdate] from index [i]; [i] grows by 400 in every
    round, so as many rounds as there are songs are never all used. *)
Fixpoint ScheduleUpdate_from (rounds : nat) (i : Z)
    (type_ : CollectionModelUpdate.Type_) (songs : SongList) (m : Model) : Model :=
  match rounds with
  | O => m
  | S r =>
      if i <? Z.of_nat (length songs) then
        let number_ := Z.min (Z.of_nat (length songs) - i) 400 in
        let songs_to_queue := mid songs i number_ in
        ScheduleUpdate_from r (i + 400) type_ songs
          (enqueue (CollectionModelUpdate.mk type_ songs_to_queue) m)
      else m
  end.

Definition ScheduleUpdate (type_ : CollectionModelUpdate.Type_) (songs : SongList)
    (m : Model) : Model :=
  let m := ScheduleUpdate_from (length songs) 0 type_ songs m in
  if timer_update_active m then m else with_timer_update_active true m.

Definition SongsAdded := ScheduleUpdate CollectionModelUpdate.Add.
Definition SongsRemoved := ScheduleUpdate CollectionModelUpdate.Remove.
Definition SongsChanged := ScheduleUpdate CollectionModelUpdate.ReAddOrUpdate.
Definition SongsUpdated := ScheduleUpdate CollectionModelUpdate.Update.

(** The body of the loop of [ReAddOrUpdate].  [ContainerKey] is called for
    the song and for the record of its leaf at each of the three levels, with
    no test on the criterion of the level, and logs an error at every level
    without criterion. *)
Definition ReAddOrUpdate_song (acc : SongList * SongList * SongList * Model)
    (song : Song.t) : SongList * SongList * SongList * Model :=
  let '(songs_added, songs_removed, songs_updated, m) := acc in
  match song_nodes_ m !! Song.id song with
  | None =>
      (songs_added, songs_removed, songs_updated,
       log_error (Error_SongDoesNotExistInModel song) m)
  | Some node =>
      let metadata_ := metadata (item m node) in
      let container_key_changed :=
        existsb
          (λ i, negb (qeq (ContainerKey (Grouping_at (group_by_ m) i)
                             (separate_albums_by_grouping_ m) song)
                          (ContainerKey (Grouping_at (group_by_ m) i)
                             (separate_albums_by_grouping_ m) metadata_)))
          [0; 1; 2] in
      let m :=
        foldl (λ m i, ContainerKey_log (Grouping_at (group_by_ m) i)
                        (ContainerKey_log (Grouping_at (group_by_ m) i) m))
          m [0; 1; 2] in
      if container_key_changed
      then (songs_added ++ [song], songs_removed ++ [metadata_], songs_updated, m)
      else (songs_added, songs_removed, songs_updated ++ [song], m)
  end.

Definition ReAddOrUpdate (songs : SongList) (m : Model) : Model :=
  let '(songs_added, songs_removed, songs_updated, m) :=
    foldl ReAddOrUpdate_song ([], [], [], m) songs in
  SongsAdded songs_added (SongsRemoved songs_removed (SongsUpdated songs_updated m)).

Definition ProcessUpdate (m : Model) : option Model :=
  match updates_ m with
  | [] => Some (with_timer_update_active false m)
  | update :: rest =>
      let m := with_updates_ rest m in
      let m := if isEmpty_list rest then with_timer_update_active false m else m in
      match CollectionModelUpdate.type update with
      | CollectionModelUpdate.Add => Some (AddSongs (CollectionModelUpdate.songs update) m)
      | CollectionModelUpdate.Remove => RemoveSongs (CollectionModelUpdate.songs update) m
      | CollectionModelUpdate.ReAddOrUpdate =>
          Some (ReAddOrUpdate (CollectionModelUpdate.songs update) m)
      | CollectionModelUpdate.Update =>
          Some (UpdateSongs (CollectionModelUpdate.songs update) m)
      end
  end.

End Model.

(** ** Queries *)

Inductive Role : Type :=
  | DisplayRole | ToolTipRole | DecorationRole
  | Role_Type | Role_ContainerType | Role_SortText | Role_Key | Role_Artist
  | Role_IsDivider | Role_Editable
  | OtherRole.

Inductive Icon : Type := album_icon_ | artist_icon_.

Inductive QVariant : Type :=
  | Invalid
  | VBool (b : bool)
  | VInt (z : Z)
  | VString (s : QString)
  | VIcon (i : Icon).

(** [QVariant::toInt] and [QVariant::toString]. *)
Definition QVariant_toInt (v : QVariant) : Z :=
  match v with
  | VBool b => if b then 1 else 0
  | VInt z => z
  | VString s => toInt s
  | _ => 0
  end.

Definition QVariant_toString (v : QVariant) : QString :=
  match v with
  | VBool b => if b then qs "true" else qs "false"
  | VInt z => number z
  | VString s => s
  | _ => []
  end.

Definition ItemType_value (ty : ItemType) : Z :=
  match ty with
  | Type_Root => 0 | Type_Divider => 1 | Type_Container => 2 | Type_Song => 3
  | Type_LoadingIndicator => 4
  end.

Definition GroupBy_value (g : GroupBy.t) : Z :=
  match g with
  | GroupBy.None => 0 | GroupBy.AlbumArtist => 1 | GroupBy.Artist => 2
  | GroupBy.Album => 3 | GroupBy.AlbumDisc => 4 | GroupBy.YearAlbum => 5
  | GroupBy.YearAlbumDisc => 6 | GroupBy.OriginalYearAlbum => 7
  | GroupBy.OriginalYearAlbumDisc => 8 | GroupBy.Disc => 9 | GroupBy.Year => 10
  | GroupBy.OriginalYear => 11 | GroupBy.Genre => 12 | GroupBy.Composer => 13
  | GroupBy.Performer => 14 | GroupBy.Grouping => 15 | GroupBy.FileType => 16
  | GroupBy.Format => 17 | GroupBy.Samplerate => 18 | GroupBy.Bitdepth => 19
  | GroupBy.Bitrate => 20 | GroupBy.GroupByCount => 21
  end.

(** [std::any_of] over a test that may not return: it stops at the first
    element that passes. *)
Fixpoint any_of {A} (test : A → option bool) (l : list A) : option bool :=
  match l with
  | [] => Some false
  | x :: r =>
      match test x with
      | Some true => Some true
      | Some false => any_of test r
      | None => None
      end
  end.

(** [std::sort] with a comparison: insertion from the right end, one of the
    orders that the unstable [std::sort] may produce. *)
Fixpoint insert_sorted {A} (lt : A → A → bool) (x : A) (l : list A) : list A :=
  match l with
  | [] => [x]
  | y :: r => if lt y x then y :: insert_sorted lt x r else x :: l
  end.

Definition std_sort {A} (lt : A → A → bool) (l : list A) : list A :=
  foldr (insert_sorted lt) [] l.

Section Queries.
Context `{External}.

(** [QVariant::toBool]. *)
Definition toBool (v : QVariant) : bool :=
  match v with
  | VBool b => b
  | VInt z => negb (z =? 0)
  | VString s => negb (isEmpty s || qeq (toLower s) (qs "false") || qeq s (qs "0"))
  | _ => false
  end.

Definition container_group_by (m : Model) (item_ : ptr) : GroupBy.t :=
  if decide (type (item m item_) = Type_Container)
  then Grouping_at (group_by_ m) (container_level (item m item_))
  else GroupBy.None.

(** [data(item, role)].  Only [Role_Editable] descends into the children of
    the item; [fuel] bounds the depth of that descent, and [None] is a descent
    that was cut. *)
Fixpoint data (fuel : nat) (m : Model) (item_ : ptr) (role : Role) : option QVariant :=
  match role with
  | DisplayRole | ToolTipRole => Some (VString (display_text (item m item_)))
  | DecorationRole =>
      match type (item m item_) with
      | Type_Container =>
          match container_group_by m item_ with
          | GroupBy.Album | GroupBy.AlbumDisc | GroupBy.YearAlbum
          | GroupBy.YearAlbumDisc | GroupBy.OriginalYearAlbum
          | GroupBy.OriginalYearAlbumDisc => Some (VIcon album_icon_)
          | GroupBy.Artist | GroupBy.AlbumArtist => Some (VIcon artist_icon_)
          | _ => Some Invalid
          end
      | _ => Some Invalid
      end
  | Role_Type => Some (VInt (ItemType_value (type (item m item_))))
  | Role_IsDivider => Some (VBool (bool_decide (type (item m item_) = Type_Divider)))
  | Role_ContainerType => Some (VInt (GroupBy_value (container_group_by m item_)))
  | Role_Key => Some (VString (key (item m item_)))
  | Role_Artist => Some (VString (Song.artist (metadata (item m item_))))
  | Role_Editable =>
      match type (item m item_) with
      | Type_Container =>
          if isEmpty_list (children (item m item_)) then Some (VBool false)
          else
            match fuel with
            | O => None
            | S f =>
                match
                  any_of (λ child, (λ v, negb (toBool v)) <$> data f m child role)
                    (children (item m item_))
                with
                | Some true => Some (VBool false)
                | Some false => Some (VBool true)
                | None => None
                end
            end
      | Type_Song => Some (VBool (IsEditable (metadata (item m item_))))
      | _ => Some (VBool false)
      end
  | Role_SortText => Some (VString (sort_text (item m item_)))
  | OtherRole => Some Invalid
  end.

(** [CompareItems]: the comparison that orders the children of a node. *)
Definition CompareItems (m : Model) (a b : ptr) : bool :=
  match data 0 m a Role_SortText, data 0 m b Role_SortText with
  | Some left_, Some right_ =>
      match left_ with
      | VInt _ => QVariant_toInt left_ <? QVariant_toInt right_
      | _ => qlt (QVariant_toString left_) (QVariant_toString right_)
      end
  | _, _ => false
  end.

(** [GetChildSongs(item, urls, songs, song_ids)]; [fuel] bounds the depth
    of the descent, [None] is a descent that was cut. *)
Fixpoint GetChildSongs (fuel : nat) (m : Model) (item_ : ptr)
    (acc : list QString * SongList * gset Z) : option (list QString * SongList * gset Z) :=
  match fuel with
  | O => None
  | S f =>
      match type (item m item_) with
      | Type_Container =>
          let children_ := std_sort (CompareItems m) (children (item m item_)) in
          foldl (λ acc child, acc ← acc; GetChildSongs f m child acc) (Some acc)
            children_
      | Type_Song =>
          let '(urls, songs, song_ids) := acc in
          let urls := urls ++ [Song.url (metadata (item m item_))] in
          if decide (Song.id (metadata (item m item_)) ∈ song_ids)
          then Some (urls, songs, song_ids)
          else Some (urls, songs ++ [metadata (item m item_)],
                     {[Song.id (metadata (item m item_))]} ∪ song_ids)
      | _ => Some acc
      end
  end.

(** [GetChildSongs(indexes)] and [GetChildSongs(idx)]. *)
Definition GetChildSongs_indexes (fuel : nat) (m : Model) (indexes : list QModelIndex)
  : option SongList :=
  '(_, ret, _) ← foldl (λ acc idx, acc ← acc; GetChildSongs fuel m (IndexToItem m idx) acc)
                   (Some ([], [], ∅)) indexes;
  Some ret.

Definition GetChildSongs_index (fuel : nat) (m : Model) (idx : QModelIndex)
  : option SongList :=
  GetChildSongs_indexes fuel m [idx].

End Queries.

(** ** An instance of the parameters, to run the model

    The accessors follow [core/song.h]; the filter accepts every song (no
    filter mode, no maximal age); the Unicode tables cover ASCII and the
    accented letters of Latin-1 that examples use; the sample rate is printed
    exactly, which is what the format ['G', 5] gives for the usual rates. *)

Module Sample.

Definition effective_albumartist (s : Song.t) : QString :=
  if isEmpty (Song.albumartist s) then Song.artist s else Song.albumartist s.

Definition effective_originalyear (s : Song.t) : Z :=
  if Song.originalyear s <? 0 then Song.year s else Song.originalyear s.

Definition IsEditable (s : Song.t) : bool := startsWith (Song.url s) (qs "file:").

Definition TextForFiletype (s : Song.t) : QString :=
  if Song.filetype s =? 2 then qs "FLAC"
  else if Song.filetype s =? 6 then qs "MP3"
  else qs "Unknown".

Definition TitleWithCompilationArtist (s : Song.t) : QString :=
  let title := if isEmpty (Song.title s) then Song.url s else Song.title s in
  if Song.compilation s && negb (isEmpty (Song.artist s))
  then Song.artist s ++ qs " - " ++ title
  else title.

Definition Song_default : Song.t :=
  {| Song.id := -1; Song.title := []; Song.artist := []; Song.albumartist := [];
     Song.album := []; Song.album_id := []; Song.track := -1; Song.disc := -1;
     Song.year := -1; Song.originalyear := -1; Song.genre := [];
     Song.compilation := false; Song.composer := []; Song.performer := [];
     Song.grouping := []; Song.filetype := 0; Song.samplerate := -1;
     Song.bitdepth := -1; Song.bitrate := -1; Song.url := []; Song.rating := -1;
     Song.playcount := 0; Song.skipcount := 0; Song.lastplayed := -1 |}.

Definition isDigit (c : QChar) : bool := (48 <=? c) && (c <=? 57).

(** À..Å, È..Ë and their lower case: the base letter and the combining mark. *)
Definition decomposition (c : QChar) : QString :=
  let marks := [768; 769; 770; 771; 776; 778] in
  let pick base k := [base; default 768 (marks !! Z.to_nat k)] in
  if (192 <=? c) && (c <=? 197) then pick 65 (c - 192)
  else if (200 <=? c) && (c <=? 203) then pick 69 (if c =? 203 then 4 else c - 200)
  else if (224 <=? c) && (c <=? 229) then pick 97 (c - 224)
  else if (232 <=? c) && (c <=? 235) then pick 101 (if c =? 235 then 4 else c - 232)
  else [].

Definition hasDecomposition (c : QChar) : bool := negb (isEmpty (decomposition c)).

Definition lower_char (c : QChar) : QChar :=
  if ((65 <=? c) && (c <=? 90)) || ((192 <=? c) && (c <=? 222) && negb (c =? 215))
  then c + 32 else c.

Definition upper_char (c : QChar) : QChar :=
  if ((97 <=? c) && (c <=? 122)) || ((224 <=? c) && (c <=? 254) && negb (c =? 247))
  then c - 32 else c.

Definition isWordChar (c : QChar) : bool :=
  isDigit c || ((65 <=? c) && (c <=? 90)) || ((97 <=? c) && (c <=? 122)) || (c =? 95)
  || ((192 <=? c) && (c <=? 255) && negb (c =? 215) && negb (c =? 247)).

Fixpoint strip_zeros (rev_digits : QString) : QString :=
  match rev_digits with
  | 48 :: r => strip_zeros r
  | _ => rev_digits
  end.

Definition number_kHz (samplerate : Z) : QString :=
  let frac := reverse (strip_zeros (reverse (arg_padded (samplerate mod 1000) 3))) in
  number (samplerate / 1000) ++ (if isEmpty frac then [] else 46 :: frac).

Definition external : External :=
  Build_External effective_albumartist effective_originalyear Song.compilation
    IsEditable TextForFiletype TitleWithCompilationArtist (λ _, false)
    [qs "the "; qs "a "; qs "an "] Song_default (λ _, true)
    (λ text, text) isDigit hasDecomposition decomposition
    (map lower_char) (map upper_char) isWordChar number_kHz.

(** The model after [BeginReset]: a root and nothing else. *)
Definition empty_model (g : Grouping) (show_dividers : bool) : Model :=
  {| heap := {[ 1%nat :=
                {| type := Type_Root; row := -1; parent := nullptr; children := [];
                   key := []; display_text := []; sort_text := [];
                   container_level := -1; metadata := Song_default;
                   compilation_artist_node_ := nullptr |} ]};
     next_ptr := 2; root_ := 1; songs_ := ∅; song_nodes_ := ∅;
     container_nodes_ := [∅; ∅; ∅]; divider_nodes_ := ∅; group_by_ := g;
     separate_albums_by_grouping_ := false; show_dividers_ := show_dividers;
     sort_skips_articles_ := true; updates_ := []; timer_update_active := false;
     signals_ := []; log_ := [] |}.

Definition song (id_ : Z) (artist_ album_ title_ : string) (disc_ track_ year_ : Z)
  : Song.t :=
  {| Song.id := id_; Song.title := qs title_; Song.artist := qs artist_;
     Song.albumartist := []; Song.album := qs album_; Song.album_id := [];
     Song.track := track_; Song.disc := disc_; Song.year := year_;
     Song.originalyear := -1; Song.genre := []; Song.compilation := false;
     Song.composer := []; Song.performer := []; Song.grouping := [];
     Song.filetype := 2; Song.samplerate := 44100; Song.bitdepth := 16;
     Song.bitrate := 900; Song.url := qs "file:///music/" ++ qs title_;
     Song.rating := -1; Song.playcount := 0; Song.skipcount := 0;
     Song.lastplayed := -1 |}.

End Sample.

(** * Notions of the statements

    What the statements below are about: what an operation leaves alone,
    what a tree looks like, and the samples on which the model is run. *)

(** The settings of the model and the update queue. *)
Definition frame (m : Model) :=
  (root_ m, group_by_ m, separate_albums_by_grouping_ m, show_dividers_ m,
   sort_skips_articles_ m, updates_ m, timer_update_active m).

(** The stored records, the index of the leaves and the log. *)
Definition records (m : Model) := (songs_ m, song_nodes_ m, log_ m).

Section Arena.
Context `{External}.

(** The pointer addresses an item of the arena. *)
Definition allocated (m : Model) (p : ptr) : Prop := is_Some (heap m !! p).

End Arena.

(** The criteria whose divider is a letter. *)
Definition alphabetic (g : GroupBy.t) : bool :=
  match g with
  | GroupBy.AlbumArtist | GroupBy.Artist | GroupBy.Album | GroupBy.AlbumDisc
  | GroupBy.Composer | GroupBy.Performer | GroupBy.Grouping | GroupBy.Disc
  | GroupBy.Genre | GroupBy.Format | GroupBy.FileType => true
  | _ => false
  end.

Section Lookup_tables.
Context `{External}.

(** The lookup tables of the model. *)
Definition tables (m : Model) :=
  (songs_ m, song_nodes_ m, container_nodes_ m, divider_nodes_ m).

End Lookup_tables.

Section Editable_notions.
Context `{External}.

(** The query returns [b] when run with enough fuel. *)
Definition Editable_returns (m : Model) (p : ptr) (b : bool) : Prop :=
  ∃ fuel, data fuel m p Role_Editable = Some (VBool b).

(** Every descent from the item through containers ends within [n] steps. *)
Fixpoint depth_within (m : Model) (n : nat) (p : ptr) : Prop :=
  match n with
  | O => type (item m p) ≠ Type_Container ∨ children (item m p) = []
  | S n' =>
      type (item m p) = Type_Container →
      ∀ c, c ∈ children (item m p) → depth_within m n' c
  end.

End Editable_notions.

(** The tree, its tables, the signals and the settings: the model but for
    the stored records and the log. *)
Definition tree_of (m : Model) :=
  (heap m, next_ptr m, song_nodes_ m, container_nodes_ m, divider_nodes_ m,
   signals_ m, frame m).

(** Two models with the same tree whose record tables agree on every
    identifier but [id]. *)
Definition same_but (id : Z) (m1 m2 : Model) : Prop :=
  tree_of m1 = tree_of m2 ∧ ∀ k, k ≠ id → songs_ m1 !! k = songs_ m2 !! k.

Section Tree_notions.
Context `{External}.

(** The record table after the first lines of the loops. *)
Definition upsert_known (song : Song.t) (m : Model) : Model :=
  if contains (songs_ m) (Song.id song)
  then with_songs_ (<[Song.id song := song]> (songs_ m)) m
  else m.

(** Everything of an item but the record it wraps. *)
Definition shape (it : CollectionItem) :=
  (type it, row it, parent it, children it, key it, display_text it, sort_text it,
   container_level it, compilation_artist_node_ it).

(** [m'] is [m] but for the records in the items, the records of the
    table and the log, and for signals that are not structural. *)
Definition keeps_shape (m m' : Model) : Prop :=
  (∀ p, shape (item m' p) = shape (item m p))
  ∧ (∀ p, allocated m' p ↔ allocated m p)
  ∧ song_nodes_ m' = song_nodes_ m
  ∧ container_nodes_ m' = container_nodes_ m
  ∧ divider_nodes_ m' = divider_nodes_ m
  ∧ ∃ emitted,
      signals_ m' = signals_ m ++ emitted
      ∧ Forall (λ s, is_structural s = false) emitted.

End Tree_notions.

Section Untracked_notions.
Context `{External}.

(** Every leaf of the index has a parent, so that its index is valid. *)
Definition leaves_have_parents (m : Model) : Prop :=
  ∀ k leaf, song_nodes_ m !! k = Some leaf →
            leaf ≠ nullptr ∧ parent (item m leaf) ≠ nullptr.

(** The song has no leaf in the index. *)
Definition untracked (nodes : gmap Z ptr) (s : Song.t) : bool :=
  bool_decide (nodes !! Song.id s = None).

(** The state of the loop over the parents, with the record table [s]. *)
Definition lift3 (s : gmap Z Song.t) (r : list ptr * list (list Z) * Model) :=
  (r.1.1, r.1.2, with_songs_ s r.2).

(** The rest of [RemoveSongs], after the loop over the songs. *)
Definition RemoveSongs_rest (parents : list ptr) (m : Model) : option Model :=
  '(divider_keys, m) ← RemoveSongs_parents (S (size (heap m))) parents [] m;
  Some (foldl RemoveSongs_divider m divider_keys).

End Untracked_notions.

(** The record table after the first lines of [AddSongs] for each song. *)
Definition upsert (table : gmap Z Song.t) (song : Song.t) : gmap Z Song.t :=
  <[Song.id song := song]> table.

(** The last song of the list with the identifier [k]. *)
Fixpoint last_with (k : Z) (songs : SongList) : option Song.t :=
  match songs with
  | [] => None
  | s :: l =>
      match last_with k l with
      | Some x => Some x
      | None => if decide (Song.id s = k) then Some s else None
      end
  end.

(** The types of the items that group others. *)
Definition is_group (ty : ItemType) : bool :=
  match ty with Type_Container | Type_Divider => true | _ => false end.

(** The containers and dividers of the tree: their type, key and parent. *)
Definition containers_and_dividers (m : Model) : list (ptr * (ItemType * list Z * ptr)) :=
  filter (λ x, is_group x.2.1.1 = true)
    ((λ x, (x.1, (type x.2, key x.2, parent x.2))) <$> map_to_list (heap m)).

Section Tree_invariant.
Context `{External}.

(** The allocator hands out pointers that address nothing yet. *)
Definition fresh (m : Model) : Prop :=
  ∀ p, allocated m p → (0 < p < next_ptr m)%nat.

(** [x] is [n] steps below [top], every item on the way but [x] being a
    container. *)
Fixpoint under (m : Model) (n : nat) (top x : ptr) : Prop :=
  match n with
  | O => x = top
  | S n' =>
      type (item m top) = Type_Container
      ∧ ∃ c, c ∈ children (item m top) ∧ under m n' c x
  end.

(** [x] is a top-level item or is below one. *)
Definition reachable (m : Model) (x : ptr) : Prop :=
  ∃ n top, top ∈ children (item m (root_ m)) ∧ under m n top x.

(** [m'] has the containers of [m], with the children they had, and maybe
    more. *)
Definition extends (m m' : Model) : Prop :=
  root_ m' = root_ m
  ∧ (∀ q, type (item m q) = Type_Container → type (item m' q) = Type_Container)
  ∧ (∀ q c, c ∈ children (item m q) → c ∈ children (item m' q)).

(** The invariant of the tree and of its tables.  [ok] is what is known of
    the records in the leaves. *)
Record Inv (ok : Song.t → Prop) (m : Model) : Prop := {
  inv_fresh : fresh m;
  inv_root :
    allocated m (root_ m) ∧ type (item m (root_ m)) = Type_Root
    ∧ container_level (item m (root_ m)) = -1;
  inv_children : ∀ p c, c ∈ children (item m p) → allocated m c;
  inv_parent : ∀ p c, c ∈ children (item m p) → parent (item m c) = p;
  inv_level : ∀ p, type (item m p) = Type_Container → 0 ≤ container_level (item m p) ≤ 2;
  inv_level_child :
    ∀ p c, type (item m p) = Type_Container → c ∈ children (item m p) →
           type (item m c) = Type_Container →
           container_level (item m c) = container_level (item m p) + 1;
  inv_compilation :
    ∀ p, compilation_artist_node_ (item m p) ≠ nullptr →
         compilation_artist_node_ (item m p) ∈ children (item m p)
         ∧ type (item m (compilation_artist_node_ (item m p))) = Type_Container
         ∧ container_level (item m (compilation_artist_node_ (item m p)))
           = container_level (item m p) + 1;
  inv_song_nodes :
    ∀ k leaf, song_nodes_ m !! k = Some leaf →
              type (item m leaf) = Type_Song
              ∧ Song.id (metadata (item m leaf)) = k ∧ reachable m leaf;
  inv_songs :
    ∀ p, type (item m p) = Type_Song →
         song_nodes_ m !! Song.id (metadata (item m p)) = Some p
         ∧ ok (metadata (item m p));
  inv_container_nodes :
    ∀ i key_ c, container_nodes_at m i !! key_ = Some c →
                type (item m c) = Type_Container
                ∧ container_level (item m c) = i ∧ reachable m c
}.

(** *** One more item

    [m'] is [m] with the new item [c], of type [ty], appended to the
    children of [P]; the compilation link of [P] may point to [c]. *)
Record grown (ty : ItemType) (P c : ptr) (m m' : Model) : Prop := {
  grown_ptr : c = next_ptr m;
  grown_next : next_ptr m' = S c;
  grown_allocated : ∀ q, allocated m' q ↔ q = c ∨ allocated m q;
  grown_type : type (item m' c) = ty;
  grown_children : children (item m' c) = [];
  grown_compilation : compilation_artist_node_ (item m' c) = nullptr;
  grown_new_parent : parent (item m' c) = P;
  grown_parent_children : children (item m' P) = children (item m P) ++ [c];
  grown_parent_type : type (item m' P) = type (item m P);
  grown_parent_level : container_level (item m' P) = container_level (item m P);
  grown_parent_metadata : metadata (item m' P) = metadata (item m P);
  grown_parent_parent : parent (item m' P) = parent (item m P);
  grown_parent_compilation :
    compilation_artist_node_ (item m' P) = compilation_artist_node_ (item m P)
    ∨ (compilation_artist_node_ (item m' P) = c ∧ ty = Type_Container);
  grown_others : ∀ q, q ≠ c → q ≠ P → item m' q = item m q;
  grown_frame : frame m' = frame m;
  grown_container_nodes : container_nodes_ m' = container_nodes_ m
}.

(** Two models with the same items and tables, whatever their signals and
    their table of dividers. *)
Definition same_items (m m' : Model) : Prop :=
  heap m' = heap m ∧ next_ptr m' = next_ptr m ∧ frame m' = frame m
  ∧ container_nodes_ m' = container_nodes_ m.

End Tree_invariant.

Section Settled_items.
Context `{External}.

(** What the new item has to be for the invariant to hold with it. *)
Definition settled (ok : Song.t → Prop) (ty : ItemType) (P c : ptr) (m m' : Model)
  : Prop :=
  match ty with
  | Type_Container =>
      container_level (item m' c) = container_level (item m P) + 1
      ∧ -1 ≤ container_level (item m P) ≤ 1
      ∧ song_nodes_ m' = song_nodes_ m
  | Type_Song =>
      song_nodes_ m !! Song.id (metadata (item m' c)) = None
      ∧ song_nodes_ m' = <[Song.id (metadata (item m' c)) := c]> (song_nodes_ m)
      ∧ ok (metadata (item m' c))
      ∧ reachable m' c
  | _ => song_nodes_ m' = song_nodes_ m
  end.

End Settled_items.

Section Hanging.
Context `{External}.

(** Where an item can be hung: under the root or under a container that
    can be reached from the root. *)
Definition hangs (m : Model) (P : ptr) : Prop :=
  P = root_ m ∨ (type (item m P) = Type_Container ∧ reachable m P).

End Hanging.

(** What a descent has gathered: the locations, the records and the set of
    the identifiers of the records. *)
Abbreviation Acc := (list QString * SongList * gset Z)%type (only parsing).

Section Flattening_and_reset.
Context `{External}.

(** The records and the identifiers of what was gathered. *)
Definition acc_songs (a : Acc) : SongList := a.1.2.

Definition acc_ids (a : Acc) : gset Z := a.2.

(** One turn of the loop over the children or over the indexes: the
    descent into a child, unless a descent before was cut. *)
Definition visit (fuel : nat) (m : Model) (acc : option Acc) (child : ptr)
  : option Acc :=
  acc ← acc; GetChildSongs fuel m child acc.

(** The records gathered so far have pairwise different identifiers, the
    set holds these identifiers, and each record is the record of a leaf. *)
Definition gathered (m : Model) (a : Acc) : Prop :=
  NoDup (Song.id <$> acc_songs a)
  ∧ (∀ k, k ∈ acc_ids a ↔ k ∈ Song.id <$> acc_songs a)
  ∧ (∀ r, r ∈ acc_songs a →
          ∃ p, type (item m p) = Type_Song ∧ metadata (item m p) = r).

(** Modelled from the spec: the constructor [CollectionItem(model)] of
    [collectionitem.h], which is not among the sources and which
    [BeginReset] calls for the root.  "Tree Node (one of four kinds): Root
    (exactly one, owns all top-level children), Container, Song-leaf,
    Divider": the root is of the kind of its own, it has no parent and, when
    created, no child; it is below no grouping level. *)
Definition root_item : CollectionItem :=
  {| type := Type_Root; row := -1; parent := nullptr; children := []; key := [];
     display_text := []; sort_text := []; container_level := -1;
     metadata := Song_default; compilation_artist_node_ := nullptr |}.

(** The tree after [BeginReset]: [Clear] has emptied the tables of leaves,
    of containers and of dividers, and the root is the only item. *)
Definition empty_tree (m : Model) : Prop :=
  root_ m ≠ nullptr ∧ (root_ m < next_ptr m)%nat
  ∧ heap m = {[ root_ m := root_item ]}
  ∧ song_nodes_ m = ∅ ∧ container_nodes_ m = [∅; ∅; ∅] ∧ divider_nodes_ m = ∅.

End Flattening_and_reset.

(** A code unit that is an ASCII digit. *)
Definition is_digit (c : QChar) : Prop := 48 ≤ c ≤ 57.

(** The value of a string of digits, the most significant first. *)
Fixpoint digits_value (s : QString) : Z :=
  match s with
  | [] => 0
  | c :: r => (c - 48) * 10 ^ Z.of_nat (length r) + digits_value r
  end.

Section Number_notions.
Context `{External}.

(** The number at the head of the sort text of a song. *)
Definition disc_and_track (s : Song.t) : Z :=
  Z.max 0 (Song.disc s) * 1000 + Z.max 0 (Song.track s).

End Number_notions.

(** [QDataStream << quint32]: four bytes, the most significant first, which
    is the byte order of a [QDataStream] that nobody changed. *)
Definition write_quint32 (v : Z) : list Z :=
  let v := v mod 4294967296 in
  [v / 16777216; v / 65536 mod 256; v / 256 mod 256; v mod 256].

(** [QDataStream >> quint32]: the value and the rest of the stream.  On a
    stream with fewer than four bytes left the value read is [0] and the
    stream is at its end. *)
Definition read_quint32 (s : list Z) : Z * list Z :=
  match s with
  | b3 :: b2 :: b1 :: b0 :: rest =>
      (b3 * 16777216 + b2 * 65536 + b1 * 256 + b0, rest)
  | _ => (0, [])
  end.

(** [static_cast<GroupBy>] of a value read; [None] stands for a value that
    is none of the enumerators, which [GroupBy.t] does not represent. *)
Definition GroupBy_of_value (v : Z) : option GroupBy.t :=
  match v with
  | 0 => Some GroupBy.None | 1 => Some GroupBy.AlbumArtist | 2 => Some GroupBy.Artist
  | 3 => Some GroupBy.Album | 4 => Some GroupBy.AlbumDisc | 5 => Some GroupBy.YearAlbum
  | 6 => Some GroupBy.YearAlbumDisc | 7 => Some GroupBy.OriginalYearAlbum
  | 8 => Some GroupBy.OriginalYearAlbumDisc | 9 => Some GroupBy.Disc
  | 10 => Some GroupBy.Year | 11 => Some GroupBy.OriginalYear | 12 => Some GroupBy.Genre
  | 13 => Some GroupBy.Composer | 14 => Some GroupBy.Performer
  | 15 => Some GroupBy.Grouping | 16 => Some GroupBy.FileType | 17 => Some GroupBy.Format
  | 18 => Some GroupBy.Samplerate | 19 => Some GroupBy.Bitdepth
  | 20 => Some GroupBy.Bitrate | 21 => Some GroupBy.GroupByCount
  | _ => None
  end.

(** [operator<<(QDataStream &, const CollectionModel::Grouping)]: what it
    appends to the stream. *)
Definition write_Grouping (g : Grouping) : list Z :=
  write_quint32 (GroupBy_value (first g))
  ++ write_quint32 (GroupBy_value (second g))
  ++ write_quint32 (GroupBy_value (third g)).

(** [operator>>(QDataStream &, CollectionModel::Grouping &)]: the grouping
    read and the rest of the stream. *)
Definition read_Grouping (s : list Z) : option (Grouping * list Z) :=
  let '(buf, s) := read_quint32 s in
  first_ ← GroupBy_of_value buf;
  let '(buf, s) := read_quint32 s in
  second_ ← GroupBy_of_value buf;
  let '(buf, s) := read_quint32 s in
  third_ ← GroupBy_of_value buf;
  Some ({| first := first_; second := second_; third := third_ |}, s).

(** The C++ type [qint64], with the two's complement reduction. *)
Definition wrap64 (z : Z) : Z :=
  (z + 9223372036854775808) mod 18446744073709551616 - 9223372036854775808.

(** The loop [do { size *= 1024; unit -= 1; } while (unit > 0)]; [None] is
    a loop that was cut. *)
Fixpoint MaximumCacheSize_do (fuel : nat) (size unit : Z) : option Z :=
  match fuel with
  | O => None
  | S f =>
      let size := wrap64 (size * 1024) in
      let unit := wrap32 (unit - 1) in
      if 0 <? unit then MaximumCacheSize_do f size unit else Some size
  end.

(** [MaximumCacheSize]: [size_setting] and [unit_setting] are what [toInt]
    returned for the two values read from the settings. *)
Definition MaximumCacheSize (size_setting unit_setting : Z) : option Z :=
  let size := size_setting in
  let unit := wrap32 (unit_setting + 1) in
  MaximumCacheSize_do (S (Z.to_nat unit)) size unit.

(** The limit that [ReloadSettings] sets on the pixmap cache, in kilobytes:
    [static_cast<int>(MaximumCacheSize(...) / 1024)]. *)
Definition pixmap_cache_limit (size_setting unit_setting : Z) : option Z :=
  size ← MaximumCacheSize size_setting unit_setting;
  Some (wrap32 (size `quot` 1024)).

(** The fields of an item that no later insertion writes. *)
Definition fixed_part (it : CollectionItem) :=
  (type it, row it, parent it, key it, display_text it, sort_text it,
   container_level it, metadata it).

Section Older_items.
Context `{External}.

(** [m'] has the items that [m] had, below the allocator of [m], with the
    fields they had; their children may be followed by new ones, and a
    compilation link that was null may be set. *)
Definition older (m m' : Model) : Prop :=
  (next_ptr m ≤ next_ptr m')%nat
  ∧ ∀ q, (q < next_ptr m)%nat →
         fixed_part (item m' q) = fixed_part (item m q)
         ∧ children (item m q) `prefix_of` children (item m' q)
         ∧ (compilation_artist_node_ (item m q) ≠ nullptr →
            compilation_artist_node_ (item m' q) = compilation_artist_node_ (item m q)).

End Older_items.

(** The first song of the list with the identifier [k] that the filter
    lets through. *)
Fixpoint first_shown `{External} (k : Z) (songs : SongList) : option Song.t :=
  match songs with
  | [] => None
  | s :: l =>
      if bool_decide (Song.id s = k) && Matches s then Some s else first_shown k l
  end.

(** The tables of the tree. *)
Definition tree_tables (m : Model) :=
  (song_nodes_ m, container_nodes_ m, divider_nodes_ m).

Section Growing_tables.
Context `{External}.

Definition tables_grow (m m' : Model) : Prop :=
  song_nodes_ m ⊆ song_nodes_ m'
  ∧ (∀ i, container_nodes_at m i ⊆ container_nodes_at m' i)
  ∧ divider_nodes_ m ⊆ divider_nodes_ m'.

End Growing_tables.

(** Where an item is in the tree. *)
Definition place (it : CollectionItem) := (row it, parent it, children it).

Section Quiet_steps.
Context `{External}.

(** [m'] has the items of [m] at their places, and the signals of [m]. *)
Definition quiet (m m' : Model) : Prop :=
  signals_ m' = signals_ m ∧ next_ptr m' = next_ptr m ∧ root_ m' = root_ m
  ∧ (∀ q, allocated m' q ↔ allocated m q)
  ∧ ∀ q, place (item m' q) = place (item m q).

(** One row inserted under [P] and announced: what [beginInsertRows], the
    constructor of the item and [endInsertRows] do together. *)
Definition insert_row (ty : ItemType) (P : ptr) (m : Model) : Model :=
  endInsertRows
    (new_CollectionItem ty P
       (beginInsertRows (ItemToIndex m P) (count m P) (count m P) m)).2.

End Quiet_steps.

(** The number of grouping levels from level [i] on, [n] levels to go: the
    rounds of the loop of [AddSongs] before it meets [GroupBy.None]. *)
Fixpoint levels_from (g : Grouping) (i : Z) (n : nat) : Z :=
  match n with
  | O => 0
  | S n' =>
      if GroupBy.eqb (Grouping_at g i) GroupBy.None then 0
      else 1 + levels_from g (i + 1) n'
  end.

(** The items made since [m0], in the order of their making. *)
Definition made (m0 m : Model) : list ptr :=
  seq (next_ptr m0) (next_ptr m - next_ptr m0).

Section Announcements_and_rows.
Context `{External}.

(** The signals that announce the row of the item [p]. *)
Definition announcement (m : Model) (p : ptr) : list Signal :=
  [rowsAboutToBeInserted (ItemToIndex m (parent (item m p)))
     (row (item m p)) (row (item m p));
   rowsInserted].

(** The item [p] is where its row says, under a parent made before it. *)
Definition in_place (m : Model) (p : ptr) : Prop :=
  (0 < parent (item m p) < p)%nat ∧ 0 ≤ row (item m p)
  ∧ children (item m (parent (item m p))) !! Z.to_nat (row (item m p)) = Some p.

Definition announced (m0 m : Model) : Prop :=
  (next_ptr m0 ≤ next_ptr m)%nat
  ∧ (∀ p, p ∈ made m0 m → in_place m p)
  ∧ signals_ m = signals_ m0 ++ flat_map (announcement m) (made m0 m).

(** The row of an item is its position among the children of its parent. *)
Definition rows (m : Model) : Prop :=
  ∀ q i c, children (item m q) !! i = Some c → row (item m c) = Z.of_nat i.

Definition children_below (m : Model) : Prop :=
  ∀ q c, c ∈ children (item m q) → (c < next_ptr m)%nat.

End Announcements_and_rows.

(** The number of grouping levels of the model. *)
Definition depth (g : Grouping) : Z := levels_from g 0 3.

Section Leaf_depth.
Context `{External}.

(** Every leaf hangs under a container of the last grouping level, or under
    the root when there is no grouping. *)
Definition leaves_at_depth (m : Model) : Prop :=
  ∀ p, type (item m p) = Type_Song →
       container_level (item m (parent (item m p))) = depth (group_by_ m) - 1.

End Leaf_depth.

(** The model with another queue and another state of the timer. *)
Definition requeue (u : list CollectionModelUpdate.t) (t : bool) (m : Model) : Model :=
  with_timer_update_active t (with_updates_ u m).

(** Modelled from the spec: the timer of the update scheduler.  "A
    recurring timer (fires at a fixed short interval, e.g. 20ms, while the
    queue is non-empty) dequeues exactly one entry per tick and dispatches it
    to the corresponding Tree Index operation; the timer stops itself once the
    queue drains": [ticks n] is what [n] intervals do, the timer firing
    [ProcessUpdate] in each one in which it is active. *)
Fixpoint ticks `{External} (n : nat) (m : Model) : option Model :=
  match n with
  | O => Some m
  | S n' =>
      if timer_update_active m then m' ← ProcessUpdate m; ticks n' m' else Some m
  end.

Section Sorting_notions.
Context `{External}.

(** The test of [ReAddOrUpdate] on a song with the leaf [node]: at one of
    the three levels the container key of the song is not the one of the
    record in the leaf. *)
Definition container_key_changed (m : Model) (node : ptr) (song : Song.t) : bool :=
  existsb
    (λ i, negb (qeq (ContainerKey (Grouping_at (group_by_ m) i)
                       (separate_albums_by_grouping_ m) song)
                    (ContainerKey (Grouping_at (group_by_ m) i)
                       (separate_albums_by_grouping_ m) (metadata (item m node)))))
    [0; 1; 2].

(** The songs of the batch that have a leaf and are moved, and those that
    have a leaf and stay. *)
Definition moves (m : Model) (song : Song.t) : bool :=
  match song_nodes_ m !! Song.id song with
  | Some node => container_key_changed m node song
  | None => false
  end.

Definition stays (m : Model) (song : Song.t) : bool :=
  match song_nodes_ m !! Song.id song with
  | Some node => negb (container_key_changed m node song)
  | None => false
  end.

(** The record in the leaf of the song. *)
Definition record_in_the_tree (m : Model) (song : Song.t) : Song.t :=
  match song_nodes_ m !! Song.id song with
  | Some node => metadata (item m node)
  | None => song
  end.

(** The errors that [ContainerKey] logs in [ReAddOrUpdate] for one song
    that has a leaf: at each level without criterion, one for the call on
    the song and one for the call on the record of the leaf. *)
Definition GroupByNone_errors (g : Grouping) : list LogEntry :=
  flat_map
    (λ i, if ContainerKey_logs (Grouping_at g i)
          then [Error_GroupByNone; Error_GroupByNone] else [])
    [0; 1; 2].

(** The errors that [ReAddOrUpdate] logs for one song. *)
Definition ReAddOrUpdate_errors (m : Model) (song : Song.t) : list LogEntry :=
  if untracked (song_nodes_ m) song then [Error_SongDoesNotExistInModel song]
  else GroupByNone_errors (group_by_ m).

End Sorting_notions.

(** The order of two songs under a container: by disc, then by track, then
    by location. *)
Definition in_order (a b : Song.t) : Prop :=
  disc_and_track a < disc_and_track b
  ∨ (disc_and_track a = disc_and_track b ∧ qlt (Song.url b) (Song.url a) = false).

Section Leaf_texts.
Context `{External}.

(** The sort text of a leaf is the one of its record. *)
Definition leaf_texts (m : Model) : Prop :=
  ∀ p, type (item m p) = Type_Song →
       sort_text (item m p) = SortTextForSong (metadata (item m p)).

End Leaf_texts.

Section Indexed_leaves.
Context `{External}.

(** What [UpdateSongs] needs of the index of the leaves: every leaf is an
    item under a parent, and no two identifiers have the same leaf. *)
Definition leaves_indexed (m : Model) : Prop :=
  leaves_have_parents m
  ∧ (∀ k leaf, song_nodes_ m !! k = Some leaf → allocated m leaf)
  ∧ ∀ k1 k2 leaf,
      song_nodes_ m !! k1 = Some leaf → song_nodes_ m !! k2 = Some leaf → k1 = k2.

End Indexed_leaves.

Section Batch_notions.
Context `{External}.

(** The [dataChanged] that [UpdateSongs] emits for the song [s] on [m]:
    one, for the index of the leaf of [s], when [s] has a leaf and differs on
    the compared fields from the record [old] of the leaf. *)
Definition change_of (m : Model) (old : ptr → Song.t) (s : Song.t) : list Signal :=
  match song_nodes_ m !! Song.id s with
  | Some leaf =>
      if IsCollectionMetadataEqual s (old leaf) then []
      else [dataChanged (ItemToIndex m leaf) (ItemToIndex m leaf)]
  | None => []
  end.

(** The [dataChanged] signals of a batch on the tree [m], the songs
    [done_] having been gone through: each song of the batch is compared
    with the record that its leaf holds when its turn comes, which is the
    last song before it with its identifier, or the record of [m]. *)
Fixpoint changes (m : Model) (done_ songs : SongList) : list Signal :=
  match songs with
  | [] => []
  | s :: l =>
      change_of m
        (λ leaf, match last_with (Song.id s) done_ with
                 | Some r => r
                 | None => metadata (item m leaf)
                 end) s
      ++ changes m (done_ ++ [s]) l
  end.

End Batch_notions.

(** No level of the grouping is the bound [GroupByCount] of the
    enumeration, for which [ContainerKey] has no case. *)
Definition valid_grouping (g : Grouping) : Prop :=
  first g ≠ GroupBy.GroupByCount ∧ second g ≠ GroupBy.GroupByCount
  ∧ third g ≠ GroupBy.GroupByCount.

Section Keyed_tables.
Context `{External}.

(** Every entry of a table of containers has the key of its container. *)
Definition keyed (m : Model) : Prop :=
  ∀ i k c, container_nodes_at m i !! k = Some c → key (item m c) = k.

(** Every container is the "Various artists" node of its parent or is in
    the table of its level under its key. *)
Definition filed (m : Model) : Prop :=
  ∀ c, type (item m c) = Type_Container →
       c = compilation_artist_node_ (item m (parent (item m c)))
       ∨ container_nodes_at m (container_level (item m c)) !! key (item m c) = Some c.

Definition tables_match (m : Model) : Prop :=
  length (container_nodes_ m) = 3%nat ∧ keyed m ∧ filed m.

(** The key of the loop of [AddSongs] when it is at [container]. *)
Definition loop_key (m : Model) (container : ptr) : QString :=
  if decide (container = root_ m) then [] else key (item m container).

End Keyed_tables.

(** The fields of an item that no removal writes. *)
Definition kept_part (it : CollectionItem) :=
  (type it, parent it, key it, container_level it, metadata it).

(** The signals of the removal of the rows [l], each a parent index and a
    row. *)
Definition removal_signals (l : list (QModelIndex * Z)) : list Signal :=
  flat_map (λ x, [rowsAboutToBeRemoved x.1 x.2 x.2; rowsRemoved]) l.

Section Removal_notions.
Context `{External}.

(** The tree is in shape: the rows are the positions, the children of an
    item are items that name it as their parent, every item but the root is
    among the children of its parent, and only the root and the containers
    have children. *)
Definition in_shape (m : Model) : Prop :=
  rows m
  ∧ (∀ p c, c ∈ children (item m p) → allocated m c ∧ parent (item m c) = p)
  ∧ (∀ c, allocated m c → c ≠ root_ m → c ∈ children (item m (parent (item m c))))
  ∧ (∀ p, children (item m p) ≠ [] → p = root_ m ∨ type (item m p) = Type_Container).

(** [m'] is [m] without the item [c]: the other items are there, with the
    fields that no removal writes. *)
Definition minus (c : ptr) (m m' : Model) : Prop :=
  root_ m' = root_ m
  ∧ (∀ q, allocated m' q ↔ allocated m q ∧ q ≠ c)
  ∧ (∀ q, q ≠ c → kept_part (item m' q) = kept_part (item m q))
  ∧ S (size (heap m')) = size (heap m).

(** The leaves of the index are songs of the tree with the identifier of
    their entry. *)
Definition leaves_ok (m : Model) : Prop :=
  ∀ k leaf, song_nodes_ m !! k = Some leaf →
            allocated m leaf ∧ leaf ≠ root_ m ∧ type (item m leaf) = Type_Song
            ∧ Song.id (metadata (item m leaf)) = k.

(** The dividers of the table are dividers of the tree, under the root,
    with the key of their entry. *)
Definition dividers_ok (m : Model) : Prop :=
  ∀ k d, divider_nodes_ m !! k = Some d →
         allocated m d ∧ d ≠ root_ m ∧ type (item m d) = Type_Divider
         ∧ parent (item m d) = root_ m ∧ key (item m d) = k.

Definition tended (m : Model) : Prop := in_shape m ∧ leaves_ok m ∧ dividers_ok m.

(** The state of the loops of [RemoveSongs]: the containers to look at. *)
Definition parents_ok (m : Model) (ps : list ptr) : Prop :=
  NoDup ps
  ∧ ∀ q, q ∈ ps → allocated m q ∧ q ≠ root_ m ∧ type (item m q) = Type_Container.

(** [m'] has no item that [m] had not, and its items have the fields they
    had in [m] that no removal writes; what has been signalled since [m] is
    the removal of one row for each item that is gone. *)
Definition pruned (m m' : Model) : Prop :=
  root_ m' = root_ m
  ∧ (∀ q, allocated m' q →
          allocated m q ∧ kept_part (item m' q) = kept_part (item m q))
  ∧ ∃ l, signals_ m' = signals_ m ++ removal_signals l
         ∧ (size (heap m') + length l = size (heap m))%nat.

(** [m'] is [m] with other links and tables of containers. *)
Definition relinked (m m' : Model) : Prop :=
  root_ m' = root_ m ∧ song_nodes_ m' = song_nodes_ m
  ∧ divider_nodes_ m' = divider_nodes_ m ∧ signals_ m' = signals_ m
  ∧ size (heap m') = size (heap m)
  ∧ (∀ q, allocated m' q ↔ allocated m q)
  ∧ (∀ q, place (item m' q) = place (item m q)
          ∧ kept_part (item m' q) = kept_part (item m q)).

End Removal_notions.

Section Hanging_items.
Context `{External}.

(** Every item but the root is among the children of its parent, and only
    the root and the containers have children. *)
Definition hung (m : Model) : Prop :=
  (∀ c, allocated m c → c ≠ root_ m → c ∈ children (item m (parent (item m c))))
  ∧ (∀ p, children (item m p) ≠ [] → p = root_ m ∨ type (item m p) = Type_Container).

End Hanging_items.

(** The key that the loop of [AddSongs] builds for a song that is not of a
    compilation, from level [i] on with [n] levels to go: the keys of the
    song for the grouping levels, joined by dashes. *)
Fixpoint path_key `{External} (g : Grouping) (sep : bool) (s : Song.t) (i : Z) (n : nat)
    (key_ : QString) : QString :=
  match n with
  | O => key_
  | S n' =>
      if GroupBy.eqb (Grouping_at g i) GroupBy.None then key_
      else
        path_key g sep s (i + 1) n'
          ((if negb (isEmpty key_) then key_ ++ qs "-" else key_)
           ++ ContainerKey (Grouping_at g i) sep s)
  end.

Section Links_and_tables.
Context `{External}.

(** A compilation link that is set points to a container of the arena,
    whose parent is the item of the link, one level below it. *)
Definition links_ok (m : Model) : Prop :=
  ∀ p, compilation_artist_node_ (item m p) ≠ nullptr →
       allocated m (compilation_artist_node_ (item m p))
       ∧ type (item m (compilation_artist_node_ (item m p))) = Type_Container
       ∧ parent (item m (compilation_artist_node_ (item m p))) = p
       ∧ container_level (item m (compilation_artist_node_ (item m p)))
         = container_level (item m p) + 1.

(** An entry of a table of containers is a container of the level of the
    table, with the key of the entry, that no compilation link points to. *)
Definition tables_ok (m : Model) : Prop :=
  length (container_nodes_ m) = 3%nat
  ∧ ∀ i k c, container_nodes_at m i !! k = Some c →
             c ≠ nullptr ∧ c ≠ root_ m ∧ type (item m c) = Type_Container
             ∧ container_level (item m c) = i ∧ key (item m c) = k
             ∧ c ≠ compilation_artist_node_ (item m (parent (item m c))).

(** The links and the tables agree with the tree. *)
Definition wired (m : Model) : Prop :=
  links_ok m ∧ tables_ok m ∧ filed m ∧ type (item m (root_ m)) = Type_Root.

(** No entry of a table of containers is a "Various artists" node. *)
Definition uncompiled (m : Model) : Prop :=
  ∀ i k c, container_nodes_at m i !! k = Some c →
           c ≠ compilation_artist_node_ (item m (parent (item m c))).

(** The links and the tables agree with the tree but for the item [c],
    which nothing points to. *)
Definition wired_but (c : ptr) (m : Model) : Prop :=
  (∀ p, compilation_artist_node_ (item m p) ≠ nullptr →
        compilation_artist_node_ (item m p) ≠ c
        ∧ allocated m (compilation_artist_node_ (item m p))
        ∧ type (item m (compilation_artist_node_ (item m p))) = Type_Container
        ∧ parent (item m (compilation_artist_node_ (item m p))) = p
        ∧ container_level (item m (compilation_artist_node_ (item m p)))
          = container_level (item m p) + 1)
  ∧ length (container_nodes_ m) = 3%nat
  ∧ (∀ i k x, container_nodes_at m i !! k = Some x →
              x ≠ c ∧ x ≠ nullptr ∧ x ≠ root_ m ∧ type (item m x) = Type_Container
              ∧ container_level (item m x) = i ∧ key (item m x) = k
              ∧ x ≠ compilation_artist_node_ (item m (parent (item m x))))
  ∧ (∀ x, x ≠ c → type (item m x) = Type_Container →
          x = compilation_artist_node_ (item m (parent (item m x)))
          ∨ container_nodes_at m (container_level (item m x)) !! key (item m x) = Some x)
  ∧ type (item m (root_ m)) = Type_Root.

(** The lines of [RemoveSongs] that take an emptied container out of the
    link of its parent or out of the table of its level. *)
Definition unlinked (m : Model) (node : ptr) : Model :=
  if IsCompilationArtistNode m node
  then update_item (parent (item m node)) (set_compilation_artist_node_ nullptr) m
  else if contains (container_nodes_at m (container_level (item m node)))
            (key (item m node))
       then with_container_nodes_at (container_level (item m node))
              (delete (key (item m node))
                 (container_nodes_at m (container_level (item m node)))) m
       else m.

End Links_and_tables.

Section Life_of_the_model.
Context `{External}.

(** The tree is well formed: the invariant of the insertions, the rows and
    the tables of leaves and dividers, and the links and tables of
    containers; the grouping names a criterion at every level, and the root
    has no parent. *)
Definition sound (m : Model) : Prop :=
  Inv (λ _, True) m ∧ tended m ∧ wired m ∧ valid_grouping (group_by_ m)
  ∧ parent (item m (root_ m)) = nullptr.

(** The states of the model from a reset on: the slots [SongsAdded],
    [SongsRemoved], [SongsChanged] and [SongsUpdated] queue a batch, and the
    timer calls [ProcessUpdate].  The queue of a reset tree is any queue:
    [BeginReset] does not empty it. *)
Inductive arises : Model → Prop :=
  | arises_reset m : empty_tree m → valid_grouping (group_by_ m) → arises m
  | arises_slot type_ songs m : arises m → arises (ScheduleUpdate type_ songs m)
  | arises_tick m m' : arises m → ProcessUpdate m = Some m' → arises m'.

End Life_of_the_model.

Section Changed_notions.
Context `{External}.

(** The model after the errors that [ReAddOrUpdate] logs for one song that
    has a leaf. *)
Definition logged (m : Model) : Model :=
  with_log_ (log_ m ++ GroupByNone_errors (group_by_ m)) m.

End Changed_notions.


Section Followed_signals.
Context `{External}.






End Followed_signals.

(** ** Samples *)

Section Samples.
#[local] Existing Instance Sample.external.

(** Two artists whose names are numbers, dividers off: the containers of
    "311" and of "50" under the root. *)
Definition numbered_artists_model : Model :=
  AddSongs
    [Sample.song 1 "311" "a" "t" 1 1 2000; Sample.song 2 "50" "b" "u" 1 1 2001]
    (Sample.empty_model
       {| first := GroupBy.Artist; second := GroupBy.None; third := GroupBy.None |}
       false).

(** Two albums of one artist whose titles differ in case and punctuation:
    the containers of "X" and of "x!" under the container of the artist. *)
Definition like_albums_model : Model :=
  AddSongs
    [Sample.song 1 "A" "X" "t" 1 1 2000; Sample.song 2 "A" "x!" "u" 1 1 2000]
    (Sample.empty_model
       {| first := GroupBy.Artist; second := GroupBy.Album; third := GroupBy.None |}
       true).

(** A song without artist, grouped by artist, dividers on; a song of an
    unknown sample rate, grouped by sample rate; a song of 1994, grouped by
    year and album. *)
Definition unknown_artist_model : Model :=
  AddSongs [Sample.song 1 EmptyString "b" "c" 1 1 1999]
    (Sample.empty_model
       {| first := GroupBy.Artist; second := GroupBy.None; third := GroupBy.None |}
       true).

Definition unknown_samplerate_model : Model :=
  AddSongs [Song.set_samplerate (-1) (Sample.song 1 "a" "b" "c" 1 1 1999)]
    (Sample.empty_model
       {| first := GroupBy.Samplerate; second := GroupBy.None; third := GroupBy.None |}
       false).

Definition year_album_model : Model :=
  AddSongs [Sample.song 1 "a" "b" "c" 1 1 1994]
    (Sample.empty_model
       {| first := GroupBy.YearAlbum; second := GroupBy.None; third := GroupBy.None |}
       false).

Definition abba_model : Model :=
  AddSongs [Sample.song 1 "Abba" "Arrival" "Money" 1 1 1976]
    (Sample.empty_model
       {| first := GroupBy.Artist; second := GroupBy.None; third := GroupBy.None |}
       true).

(** The model between the creation of a container and that of its first
    leaf, the signal [rowsInserted] already emitted. *)
Definition childless_container_model : Model :=
  (ItemFromSong GroupBy.Artist false true true 1%nat
     (Sample.song 1 "Abba" "Arrival" "Money" 1 1 1976) 0
     (Sample.empty_model
        {| first := GroupBy.Artist; second := GroupBy.None; third := GroupBy.None |}
        true)).2.

(** The groupings and the songs of the two runs. *)
Definition by_year : Grouping :=
  {| first := GroupBy.Year; second := GroupBy.None; third := GroupBy.None |}.

Definition by_artist_album : Grouping :=
  {| first := GroupBy.Artist; second := GroupBy.Album; third := GroupBy.None |}.

Definition song_1994 : Song.t := Sample.song 1 "Nirvana" "Unplugged" "About a Girl" 1 1 1994.

Definition song_AB_C : Song.t := Sample.song 1 "A-B" "C" "x" 1 1 2000.

Definition song_A_BC : Song.t := Sample.song 2 "A" "B-C" "y" 1 1 2000.

(** A batch of two albums, its first song twice. *)
Definition by_albumartist_album : Grouping :=
  {| first := GroupBy.AlbumArtist; second := GroupBy.Album; third := GroupBy.None |}.

Definition arrival_and_jazz : SongList :=
  [ Sample.song 1 "Abba" "Arrival" "Money, Money, Money" 1 3 1976;
    Sample.song 2 "Queen" "Jazz" "Bicycle Race" 1 4 1978;
    Sample.song 3 "Abba" "Arrival" "Tiger" 1 5 1976;
    Sample.song 1 "Abba" "Arrival" "Money, Money, Money" 1 3 1976 ].

Definition gold : SongList :=
  [ Sample.song 1 "Abba" "Gold" "Waterloo" 2 1 1992;
    Sample.song 2 "Abba" "Gold" "Fernando" 1 12 1992;
    Sample.song 3 "Abba" "Gold" "Chiquitita" 1 2 1992 ].

(** Three updates on the tree of two albums: a new title for the first
    song, a new title for the third, and then a rating for the first song
    with its new title. *)
Definition retitled : SongList :=
  [ Sample.song 1 "Abba" "Arrival" "Money" 1 3 1976;
    Sample.song 3 "Abba" "Arrival" "Tiger (live)" 1 5 1976;
    Song.set_rating 5 (Sample.song 1 "Abba" "Arrival" "Money" 1 3 1976) ].

(** A batch on the tree of two albums: a new title for the first song, a
    song that the tree does not have, and a new title for the third song. *)
Definition bicycle_race : Song.t := Sample.song 7 "Queen" "Jazz" "Bicycle Race" 1 1 1978.

End Samples.

(** * Properties *)

(** ** What the operations on the tree leave alone *)

(** An observation of the model that the writes to the arena, to the tables
    of containers and dividers and to the signals do not change is not
    changed by the creation of items. *)
Section Preserved.
Context `{External}.
Context {A : Type} (pr : Model → A).
Hypothesis pr_heap : ∀ v m, pr (with_heap v m) = pr m.
Hypothesis pr_next_ptr : ∀ v m, pr (with_next_ptr v m) = pr m.
Hypothesis pr_container_nodes_ : ∀ v m, pr (with_container_nodes_ v m) = pr m.
Hypothesis pr_divider_nodes_ : ∀ v m, pr (with_divider_nodes_ v m) = pr m.
Hypothesis pr_signals_ : ∀ v m, pr (with_signals_ v m) = pr m.

Lemma pr_emit s m : pr (emit s m) = pr m.
Proof. apply pr_signals_. Qed.

Lemma pr_update_item p f m : pr (update_item p f m) = pr m.
Proof. apply pr_heap. Qed.

Lemma pr_with_container_nodes_at i v m : pr (with_container_nodes_at i v m) = pr m.
Proof. unfold with_container_nodes_at. destruct (i <? 0); auto. Qed.

Lemma pr_new_CollectionItem ty p m : pr (new_CollectionItem ty p m).2 = pr m.
Proof. unfold new_CollectionItem. cbn [snd]. by rewrite pr_next_ptr, pr_heap. Qed.

Ltac pr_simpl :=
  unfold beginRemoveRows, endRemoveRows, beginInsertRows, endInsertRows;
  repeat first
    [ rewrite pr_emit | rewrite pr_update_item | rewrite pr_with_container_nodes_at
    | rewrite pr_divider_nodes_ | rewrite pr_heap | rewrite pr_next_ptr ].

Lemma pr_InitItem g signal p lvl m : pr (InitItem g signal p lvl m).2 = pr m.
Proof.
  unfold InitItem.
  pose proof (pr_new_CollectionItem
                (if GroupBy.eqb g GroupBy.None then Type_Song else Type_Container) p
                (if signal then beginInsertRows (ItemToIndex m p) (count m p) (count m p) m
                 else m)) as Hn.
  destruct (new_CollectionItem _ _ _) as [q m1]. cbn [snd] in *.
  pr_simpl. rewrite Hn. destruct signal; by pr_simpl.
Qed.

Lemma pr_FinishItem g signal create_divider p q m :
  pr (FinishItem g signal create_divider p q m) = pr m.
Proof.
  unfold FinishItem.
  set (m1 := if signal then endInsertRows m else m).
  assert (pr m1 = pr m) as H1 by (unfold m1; destruct signal; by pr_simpl).
  destruct (create_divider && show_dividers_ m1); [|done].
  set (m2 := if negb (isEmpty (DividerKey g (item m1 q))) then _ else m1).
  assert (pr m2 = pr m) as H2
    by (unfold m2; destruct (negb (isEmpty _)); by pr_simpl).
  destruct (_ && _); [|done].
  set (m3 := if signal then _ else m2).
  assert (pr m3 = pr m) as H3 by (unfold m3; destruct signal; by pr_simpl).
  pose proof (pr_new_CollectionItem Type_Divider (root_ m3) m3) as Hn.
  destruct (new_CollectionItem _ _ _) as [d m4]. cbn [snd] in *.
  destruct signal; pr_simpl; congruence.
Qed.

Lemma pr_ItemFromSong g sep signal create_divider p s lvl m :
  pr (ItemFromSong g sep signal create_divider p s lvl m).2 = pr m.
Proof.
  unfold ItemFromSong.
  pose proof (pr_InitItem g signal p lvl m) as Hi.
  destruct (InitItem g signal p lvl m) as [q m1]. cbn [snd] in *.
  rewrite pr_FinishItem, pr_update_item. destruct (_ && _); by pr_simpl.
Qed.

Lemma pr_CreateCompilationArtistNode signal p m :
  pr (CreateCompilationArtistNode signal p m).2 = pr m.
Proof.
  unfold CreateCompilationArtistNode.
  set (m1 := if signal then _ else m).
  assert (pr m1 = pr m) as H1 by (unfold m1; destruct signal; by pr_simpl).
  pose proof (pr_new_CollectionItem Type_Container p m1) as Hn.
  destruct (new_CollectionItem _ _ _) as [node m2]. cbn [snd] in *.
  destruct signal, (_ && _); pr_simpl; congruence.
Qed.

Lemma pr_AddSongs_container n i song c k m :
  pr (AddSongs_container n i song c k m).2 = pr m.
Proof.
  revert i c k m. induction n as [|n IH]; intros i c k m; cbn [AddSongs_container];
    [done|].
  destruct (GroupBy.eqb _ _); [done|]. destruct (_ && _).
  - rewrite IH. destruct (decide _); [|done]. apply pr_CreateCompilationArtistNode.
  - destruct (_ !! _); [by rewrite IH|].
    pose proof (pr_ItemFromSong (Grouping_at (group_by_ m) i)
                  (separate_albums_by_grouping_ m) true (i =? 0) c song i m) as Hi.
    destruct (ItemFromSong _ _ _ _ _ _ _ _) as [q m1]. cbn [snd] in Hi.
    by rewrite IH, pr_with_container_nodes_at.
Qed.

Lemma pr_Delete p r m : pr (Delete p r m) = pr m.
Proof. unfold Delete. repeat case_match; by pr_simpl. Qed.

End Preserved.

Section Frame.
Context `{External}.

Lemma frame_with_songs_ v m : frame (with_songs_ v m) = frame m.
Proof. reflexivity. Qed.
Lemma frame_with_song_nodes_ v m : frame (with_song_nodes_ v m) = frame m.
Proof. reflexivity. Qed.
Lemma frame_with_divider_nodes_ v m : frame (with_divider_nodes_ v m) = frame m.
Proof. reflexivity. Qed.
Lemma frame_emit s m : frame (emit s m) = frame m.
Proof. reflexivity. Qed.
Lemma frame_log_error e m : frame (log_error e m) = frame m.
Proof. reflexivity. Qed.
Lemma frame_update_item p f m : frame (update_item p f m) = frame m.
Proof. reflexivity. Qed.

Lemma frame_with_container_nodes_at i v m :
  frame (with_container_nodes_at i v m) = frame m.
Proof. by apply pr_with_container_nodes_at. Qed.

Lemma frame_ItemFromSong g sep signal create_divider p s lvl m :
  frame (ItemFromSong g sep signal create_divider p s lvl m).2 = frame m.
Proof. by apply pr_ItemFromSong. Qed.

Lemma frame_CreateCompilationArtistNode signal p m :
  frame (CreateCompilationArtistNode signal p m).2 = frame m.
Proof. by apply pr_CreateCompilationArtistNode. Qed.

Lemma frame_AddSongs_container n i song c k m :
  frame (AddSongs_container n i song c k m).2 = frame m.
Proof. by apply pr_AddSongs_container. Qed.

Lemma records_ItemFromSong g sep signal create_divider p s lvl m :
  records (ItemFromSong g sep signal create_divider p s lvl m).2 = records m.
Proof. by apply pr_ItemFromSong. Qed.

Lemma records_AddSongs_container n i song c k m :
  records (AddSongs_container n i song c k m).2 = records m.
Proof. by apply pr_AddSongs_container. Qed.

Lemma frame_AddSong song m : frame (AddSong song m) = frame m.
Proof.
  unfold AddSong. case_match; [done|]. case_match; [done|].
  pose proof (frame_AddSongs_container 3 0 song
                (root_ (with_songs_ (<[Song.id song:=song]> (songs_ m)) m)) []
                (with_songs_ (<[Song.id song:=song]> (songs_ m)) m)) as Hc.
  destruct (AddSongs_container _ _ _ _ _ _) as [c m1]. simpl in Hc.
  pose proof (frame_ItemFromSong GroupBy.None (separate_albums_by_grouping_ m1)
                true false c song (-1) m1) as Hi.
  destruct (ItemFromSong _ _ _ _ _ _ _ _) as [q m2]. simpl in Hi.
  by rewrite frame_with_song_nodes_, Hi, Hc.
Qed.

Lemma frame_AddSongs songs m : frame (AddSongs songs m) = frame m.
Proof.
  unfold AddSongs. revert m. induction songs as [|s l IH]; intros m; simpl; [done|].
  by rewrite IH, frame_AddSong.
Qed.

Lemma frame_Delete p r m : frame (Delete p r m) = frame m.
Proof. by apply pr_Delete. Qed.

Ltac frame_simpl :=
  unfold beginRemoveRows, endRemoveRows, beginInsertRows, endInsertRows;
  repeat first
    [ rewrite frame_with_songs_ | rewrite frame_with_song_nodes_
    | rewrite frame_with_container_nodes_at | rewrite frame_with_divider_nodes_
    | rewrite frame_emit | rewrite frame_log_error | rewrite frame_update_item
    | rewrite frame_Delete ].

Lemma frame_RemoveSongs_leaf acc song :
  frame (RemoveSongs_leaf acc song).2 = frame acc.2.
Proof.
  destruct acc as [parents m]. unfold RemoveSongs_leaf.
  repeat case_match; cbn [snd]; frame_simpl; reflexivity.
Qed.

Lemma frame_RemoveSongs_parent acc node :
  frame (RemoveSongs_parent acc node).2 = frame acc.2.
Proof.
  destruct acc as [[parents keys] m]. unfold RemoveSongs_parent.
  repeat case_match; cbn [snd]; frame_simpl; reflexivity.
Qed.

Lemma frame_foldl {A B} (f : B → A → B) (pr : B → Model) (l : list A) (b : B) :
  (∀ b a, frame (pr (f b a)) = frame (pr b)) →
  frame (pr (foldl f b l)) = frame (pr b).
Proof.
  intros Hf. revert b. induction l as [|a l IH]; intros b; simpl; [done|].
  by rewrite IH, Hf.
Qed.

Lemma frame_RemoveSongs_parents fuel parents keys m keys' m' :
  RemoveSongs_parents fuel parents keys m = Some (keys', m') → frame m' = frame m.
Proof.
  revert parents keys m. induction fuel as [|f IH]; intros parents keys m.
  - destruct parents; simpl; [|done]. by intros [= _ ->].
  - destruct parents as [|p parents]; [by intros [= _ ->]|].
    cbn [RemoveSongs_parents].
    pose proof (frame_foldl RemoveSongs_parent snd (p :: parents)
                  (p :: parents, keys, m) frame_RemoveSongs_parent) as Hr.
    destruct (foldl _ _ _) as [[ps ks] m1]. simpl in Hr.
    intros Hs. apply IH in Hs. congruence.
Qed.

Lemma frame_RemoveSongs_divider m k : frame (RemoveSongs_divider m k) = frame m.
Proof.
  unfold RemoveSongs_divider. repeat case_match; try reflexivity.
  by frame_simpl.
Qed.

Lemma frame_RemoveSongs songs m m' :
  RemoveSongs songs m = Some m' → frame m' = frame m.
Proof.
  unfold RemoveSongs.
  pose proof (frame_foldl RemoveSongs_leaf snd songs ([], m) frame_RemoveSongs_leaf) as Hl.
  destruct (foldl RemoveSongs_leaf _ _) as [parents m1]. simpl in Hl.
  destruct (RemoveSongs_parents _ _ _ _) as [[keys m2]|] eqn:Hp; [|done].
  simpl. intros [= <-]. apply frame_RemoveSongs_parents in Hp.
  pose proof (frame_foldl RemoveSongs_divider id keys m2 frame_RemoveSongs_divider) as Hd.
  simpl in Hd. congruence.
Qed.

Lemma frame_UpdateSongs songs m : frame (UpdateSongs songs m) = frame m.
Proof.
  revert m. induction songs as [|s l IH]; intros m; simpl; [done|].
  repeat case_match; rewrite ?IH; try reflexivity; by case_match.
Qed.

End Frame.

(** ** Reading the arena after a write *)

Section Heap.
Context `{External}.

Lemma item_allocated m p it : heap m !! p = Some it → item m p = it.
Proof. unfold item. by intros ->. Qed.

Lemma item_update_item_same p f m :
  allocated m p → item (update_item p f m) p = f (item m p).
Proof.
  intros [it Hit]. unfold item, update_item. simpl.
  by rewrite lookup_alter_eq, Hit.
Qed.

Lemma item_update_item_other p q f m :
  q ≠ p → item (update_item p f m) q = item m q.
Proof. intros Hne. unfold item, update_item. simpl. by rewrite lookup_alter_ne. Qed.

Lemma allocated_update_item p q f m :
  allocated (update_item p f m) q ↔ allocated m q.
Proof. unfold allocated, update_item. simpl. apply lookup_alter_is_Some. Qed.

Lemma item_emit s m p : item (emit s m) p = item m p.
Proof. reflexivity. Qed.

Lemma allocated_emit s m p : allocated (emit s m) p ↔ allocated m p.
Proof. reflexivity. Qed.

(** The fields of the item that a write through [update_item] keeps. *)
Lemma update_item_field {A} (proj : CollectionItem → A) p f m q :
  (∀ it, proj (f it) = proj it) →
  proj (item (update_item p f m) q) = proj (item m q).
Proof.
  intros Hf. unfold item, update_item. simpl. rewrite lookup_alter.
  case_decide; [subst|done]. destruct (heap m !! q); simpl; auto.
Qed.

Lemma new_CollectionItem_ptr ty parent_ m :
  (new_CollectionItem ty parent_ m).1 = next_ptr m.
Proof. reflexivity. Qed.

Lemma new_CollectionItem_next ty parent_ m :
  next_ptr (new_CollectionItem ty parent_ m).2 = S (next_ptr m).
Proof. reflexivity. Qed.

Lemma new_CollectionItem_allocated ty parent_ m q :
  allocated (new_CollectionItem ty parent_ m).2 q ↔ q = next_ptr m ∨ allocated m q.
Proof.
  unfold allocated, new_CollectionItem. simpl.
  assert (is_Some (<[next_ptr m:=
            {| type := ty;
               row := if decide (parent_ = nullptr) then -1 else count m parent_;
               parent := parent_; children := []; key := []; display_text := [];
               sort_text := []; container_level := -1; metadata := Song_default;
               compilation_artist_node_ := nullptr |}]> (heap m) !! q)
          ↔ q = next_ptr m ∨ is_Some (heap m !! q)) as Hins.
  { rewrite lookup_insert_is_Some. destruct (decide (next_ptr m = q)); intuition. }
  case_decide; by rewrite ?lookup_alter_is_Some.
Qed.

Lemma new_CollectionItem_new ty parent_ m :
  parent_ ≠ next_ptr m →
  item (new_CollectionItem ty parent_ m).2 (next_ptr m)
  = {| type := ty;
       row := if decide (parent_ = nullptr) then -1 else count m parent_;
       parent := parent_; children := []; key := []; display_text := [];
       sort_text := []; container_level := -1; metadata := Song_default;
       compilation_artist_node_ := nullptr |}.
Proof.
  intros Hne. unfold item, new_CollectionItem. simpl.
  case_decide; rewrite ?lookup_alter_ne by done; by rewrite lookup_insert_eq.
Qed.

Lemma new_CollectionItem_parent ty parent_ m :
  parent_ ≠ next_ptr m → parent_ ≠ nullptr → allocated m parent_ →
  item (new_CollectionItem ty parent_ m).2 parent_
  = set_children (children (item m parent_) ++ [next_ptr m]) (item m parent_).
Proof.
  intros Hne Hnull [it Hit]. unfold item, new_CollectionItem. simpl.
  case_decide; [done|].
  by rewrite lookup_alter_eq, lookup_insert_ne, Hit.
Qed.

Lemma new_CollectionItem_other ty parent_ m q :
  q ≠ next_ptr m → q ≠ parent_ →
  item (new_CollectionItem ty parent_ m).2 q = item m q.
Proof.
  intros Hq Hp. unfold item, new_CollectionItem. simpl.
  case_decide; rewrite ?lookup_alter_ne by done; by rewrite lookup_insert_ne.
Qed.

(** Whatever the parent, the fields of the old items other than [children]
    are kept. *)
Lemma new_CollectionItem_field {A} (proj : CollectionItem → A) ty parent_ m q :
  q ≠ next_ptr m →
  (∀ v it, proj (set_children v it) = proj it) →
  proj (item (new_CollectionItem ty parent_ m).2 q) = proj (item m q).
Proof.
  intros Hq Hf. unfold item, new_CollectionItem. simpl.
  case_decide; [by rewrite lookup_insert_ne|].
  rewrite lookup_alter. case_decide; [subst|by rewrite lookup_insert_ne].
  rewrite lookup_insert_ne by done. destruct (heap m !! q); simpl; auto.
Qed.

End Heap.

(** ** The update queue *)

Section Scheduler.
Context `{External}.

Lemma ScheduleUpdate_from_chunks type_ songs rounds pos m :
  (length songs - pos ≤ rounds)%nat →
  ∃ chunks : list SongList,
    updates_ (ScheduleUpdate_from rounds (Z.of_nat pos) type_ songs m)
    = updates_ m ++ map (CollectionModelUpdate.mk type_) chunks
    ∧ concat chunks = drop pos songs
    ∧ Forall (λ c, (0 < length c ≤ 400)%nat) chunks
    ∧ length chunks = ((length songs - pos + 399) / 400)%nat.
Proof.
  revert pos m. induction rounds as [|r IH]; intros pos m Hle; cbn [ScheduleUpdate_from].
  - exists []. cbn [length map concat]. rewrite app_nil_r, drop_ge by lia.
    repeat split; auto. replace (length songs - pos)%nat with 0%nat by lia. reflexivity.
  - destruct (Z.ltb_spec (Z.of_nat pos) (Z.of_nat (length songs))) as [Hlt|Hge].
    + destruct (IH (pos + 400)%nat
                  (enqueue (CollectionModelUpdate.mk type_
                     (mid songs (Z.of_nat pos)
                        (Z.min (Z.of_nat (length songs) - Z.of_nat pos) 400))) m))
        as (chunks & Hq & Hcat & Hall & Hlen); [lia|].
      replace (Z.of_nat pos + 400) with (Z.of_nat (pos + 400)) by lia.
      set (chunk := mid songs (Z.of_nat pos)
                      (Z.min (Z.of_nat (length songs) - Z.of_nat pos) 400)) in *.
      assert (Hchunk : chunk = take 400 (drop pos songs)).
      { unfold chunk, mid. rewrite Nat2Z.id.
        destruct (Z.min_spec (Z.of_nat (length songs) - Z.of_nat pos) 400)
          as [[? ->]|[? ->]]; [|reflexivity].
        rewrite !take_ge; auto; rewrite length_drop; lia. }
      exists (chunk :: chunks). cbn [length map concat]. split; [|split; [|split]].
      * rewrite Hq. cbn. rewrite <- app_assoc. reflexivity.
      * rewrite Hcat, Hchunk, <- drop_drop. apply take_drop.
      * constructor; auto. rewrite Hchunk, length_take, length_drop. lia.
      * rewrite Hlen.
        destruct (le_lt_dec (length songs - pos) 400).
        -- replace (length songs - (pos + 400))%nat with 0%nat by lia.
           change ((0 + 399) / 400)%nat with 0%nat.
           apply Nat.div_unique with (r := (length songs - pos - 1)%nat); lia.
        -- replace (length songs - pos + 399)%nat
             with ((length songs - (pos + 400) + 399) + 1 * 400)%nat by lia.
           rewrite Nat.div_add by lia. lia.
    + exists []. cbn [length map concat]. rewrite app_nil_r, drop_ge by lia.
      repeat split; auto. replace (length songs - pos)%nat with 0%nat by lia. reflexivity.
Qed.

Lemma ScheduleUpdate_chunks type_ songs m :
  ∃ chunks : list SongList,
    updates_ (ScheduleUpdate type_ songs m)
    = updates_ m ++ map (CollectionModelUpdate.mk type_) chunks
    ∧ concat chunks = songs
    ∧ Forall (λ c, (0 < length c ≤ 400)%nat) chunks
    ∧ length chunks = ((length songs + 399) / 400)%nat.
Proof.
  destruct (ScheduleUpdate_from_chunks type_ songs (length songs) 0 m)
    as (chunks & Hq & Hcat & Hall & Hlen); [lia|].
  exists chunks. rewrite Nat.sub_0_r in Hlen. simpl in Hq, Hcat.
  repeat split; auto. unfold ScheduleUpdate. by case_match.
Qed.

Lemma ScheduleUpdate_tree type_ songs m :
  heap (ScheduleUpdate type_ songs m) = heap m
  ∧ signals_ (ScheduleUpdate type_ songs m) = signals_ m.
Proof.
  assert (∀ rounds i m, heap (ScheduleUpdate_from rounds i type_ songs m) = heap m
            ∧ signals_ (ScheduleUpdate_from rounds i type_ songs m) = signals_ m) as Hl.
  { induction rounds as [|r IH]; intros i m0; simpl; [done|].
    case_match; [|done]. by destruct (IH (i + 400) (enqueue
      (CollectionModelUpdate.mk type_ (mid songs i
         (Z.min (Z.of_nat (length songs) - i) 400))) m0)) as [-> ->]. }
  unfold ScheduleUpdate. destruct (Hl (length songs) 0 m) as [Hh Hs].
  by case_match.
Qed.

Lemma frame_ContainerKey_log group_by m : frame (ContainerKey_log group_by m) = frame m.
Proof. unfold ContainerKey_log. by destruct (ContainerKey_logs group_by). Qed.

Lemma ReAddOrUpdate_song_frame acc song :
  frame (ReAddOrUpdate_song acc song).2 = frame acc.2.
Proof.
  destruct acc as [[[a r] u] m]. unfold ReAddOrUpdate_song.
  destruct (song_nodes_ m !! Song.id song); [|done].
  cbn [foldl]. destruct (existsb _ _); cbn [snd]; by rewrite !frame_ContainerKey_log.
Qed.

Lemma ReAddOrUpdate_updates songs m :
  ∃ queued, updates_ (ReAddOrUpdate songs m) = updates_ m ++ queued.
Proof.
  unfold ReAddOrUpdate.
  pose proof (frame_foldl ReAddOrUpdate_song snd songs ([], [], [], m)
                ReAddOrUpdate_song_frame) as Hf.
  destruct (foldl ReAddOrUpdate_song _ _) as [[[a r] u] m1]. simpl in Hf.
  unfold SongsAdded, SongsRemoved, SongsUpdated.
  destruct (ScheduleUpdate_chunks CollectionModelUpdate.Update u m1) as (c1 & H1 & _).
  destruct (ScheduleUpdate_chunks CollectionModelUpdate.Remove r
              (ScheduleUpdate CollectionModelUpdate.Update u m1)) as (c2 & H2 & _).
  destruct (ScheduleUpdate_chunks CollectionModelUpdate.Add a
              (ScheduleUpdate CollectionModelUpdate.Remove r
                 (ScheduleUpdate CollectionModelUpdate.Update u m1))) as (c3 & H3 & _).
  rewrite H3, H2, H1. assert (updates_ m1 = updates_ m) as -> by (by injection Hf).
  rewrite <- !app_assoc. eauto.
Qed.

(** C6.  [ScheduleUpdate] appends to the queue one entry per chunk of the
    batch: the chunks are consecutive, their concatenation is the batch, each
    has between one and 400 songs, there are [ceil(n / 400)] of them, three
    for a batch of 1000 songs.  [ProcessUpdate] on a queue [update :: rest]
    takes [update] off the queue and is the operation of its type run on its
    songs, and no other entry leaves the queue: what remains is [rest],
    followed by what a [ReAddOrUpdate] scheduled itself. *)
Theorem ScheduleUpdate_chunks_ProcessUpdate_one_entry :
  (∀ type_ songs m,
      ∃ chunks : list SongList,
        updates_ (ScheduleUpdate type_ songs m)
        = updates_ m ++ map (CollectionModelUpdate.mk type_) chunks
        ∧ concat chunks = songs
        ∧ Forall (λ c, (0 < length c ≤ 400)%nat) chunks
        ∧ length chunks = ((length songs + 399) / 400)%nat
        ∧ (length songs = 1000%nat → length chunks = 3%nat))
  ∧ (∀ m update rest,
        updates_ m = update :: rest →
        let m0 :=
          (if isEmpty_list rest then with_timer_update_active false else id)
            (with_updates_ rest m) in
        updates_ m0 = rest
        ∧ match CollectionModelUpdate.type update with
          | CollectionModelUpdate.Add =>
              ProcessUpdate m = Some (AddSongs (CollectionModelUpdate.songs update) m0)
              ∧ updates_ (AddSongs (CollectionModelUpdate.songs update) m0) = rest
          | CollectionModelUpdate.Remove =>
              ProcessUpdate m = RemoveSongs (CollectionModelUpdate.songs update) m0
              ∧ ∀ m', RemoveSongs (CollectionModelUpdate.songs update) m0 = Some m' →
                      updates_ m' = rest
          | CollectionModelUpdate.Update =>
              ProcessUpdate m = Some (UpdateSongs (CollectionModelUpdate.songs update) m0)
              ∧ updates_ (UpdateSongs (CollectionModelUpdate.songs update) m0) = rest
          | CollectionModelUpdate.ReAddOrUpdate =>
              ProcessUpdate m
              = Some (ReAddOrUpdate (CollectionModelUpdate.songs update) m0)
              ∧ ∃ queued,
                  updates_ (ReAddOrUpdate (CollectionModelUpdate.songs update) m0)
                  = rest ++ queued
          end).
Proof.
  split.
  - intros type_ songs m.
    destruct (ScheduleUpdate_chunks type_ songs m) as (chunks & Hq & Hcat & Hall & Hlen).
    exists chunks. repeat split; auto. intros Hn. by rewrite Hlen, Hn.
  - intros m update rest Hq m0.
    assert (updates_ m0 = rest) as Hm0 by (unfold m0; by destruct rest).
    assert (∀ m1, frame m1 = frame m0 → updates_ m1 = rest) as Hfr.
    { intros m1 Hf. rewrite <- Hm0. by injection Hf. }
    split; [done|].
    assert (ProcessUpdate m
            = match CollectionModelUpdate.type update with
              | CollectionModelUpdate.Add =>
                  Some (AddSongs (CollectionModelUpdate.songs update) m0)
              | CollectionModelUpdate.Remove =>
                  RemoveSongs (CollectionModelUpdate.songs update) m0
              | CollectionModelUpdate.ReAddOrUpdate =>
                  Some (ReAddOrUpdate (CollectionModelUpdate.songs update) m0)
              | CollectionModelUpdate.Update =>
                  Some (UpdateSongs (CollectionModelUpdate.songs update) m0)
              end) as Hrun.
    { unfold ProcessUpdate. rewrite Hq. unfold m0. by destruct rest. }
    rewrite Hrun. destruct (CollectionModelUpdate.type update).
    + split; [done|]. apply Hfr, frame_AddSongs.
    + split; [done|]. intros m' Hr. by apply Hfr, (frame_RemoveSongs _ _ _ Hr).
    + split; [done|]. rewrite <- Hm0. apply ReAddOrUpdate_updates.
    + split; [done|]. apply Hfr, frame_UpdateSongs.
Qed.

End Scheduler.

Section Scheduler_witness.
#[local] Existing Instance Sample.external.

Lemma ScheduleUpdate_chunks_ProcessUpdate_one_entry_witness :
  let songs := [Sample.song 1 "a" "b" "c" 1 1 1999] in
  let m :=
    SongsRemoved [Sample.song 2 "b" "c" "d" 1 1 2000]
      (SongsAdded songs
         (Sample.empty_model
            {| first := GroupBy.Artist; second := GroupBy.None; third := GroupBy.None |}
            true)) in
  let rest :=
    [CollectionModelUpdate.mk CollectionModelUpdate.Remove
       [Sample.song 2 "b" "c" "d" 1 1 2000]] in
  updates_ m = CollectionModelUpdate.mk CollectionModelUpdate.Add songs :: rest
  ∧ ProcessUpdate m = Some (AddSongs songs (with_updates_ rest m))
  ∧ updates_ (AddSongs songs (with_updates_ rest m)) = rest.
Proof.
  intros songs m rest.
  assert (updates_ m = CollectionModelUpdate.mk CollectionModelUpdate.Add songs :: rest)
    as Hq by (vm_compute; reflexivity).
  split; [exact Hq|].
  exact (proj2 (proj2 ScheduleUpdate_chunks_ProcessUpdate_one_entry m _ rest Hq)).
Defined.

End Scheduler_witness.

(** ** The order of [QString] *)

Lemma qlt_irrefl a : qlt a a = false.
Proof. induction a as [|x a IH]; simpl; [done|]. by rewrite Z.ltb_irrefl. Qed.

Lemma qlt_trans a b c : qlt a b = true → qlt b c = true → qlt a c = true.
Proof.
  revert b c. induction a as [|x a IH]; intros [|y b] [|z c]; simpl; try done.
  destruct (Z.ltb_spec x y), (Z.ltb_spec y x), (Z.ltb_spec y z), (Z.ltb_spec z y),
    (Z.ltb_spec x z), (Z.ltb_spec z x); try done; try lia.
  apply IH.
Qed.

Lemma qlt_total a b : a ≠ b → qlt a b = true ∨ qlt b a = true.
Proof.
  revert b. induction a as [|x a IH]; intros [|y b] Hne; simpl; auto.
  destruct (Z.ltb_spec x y), (Z.ltb_spec y x); auto; try lia.
  apply IH. intros ->. apply Hne. f_equal. lia.
Qed.

Lemma qlt_asym a b : qlt a b = true → qlt b a = false.
Proof.
  intros Hab. destruct (qlt b a) eqn:Hba; [|done].
  pose proof (qlt_trans a b a Hab Hba) as Haa. by rewrite qlt_irrefl in Haa.
Qed.

Section Compare.
Context `{External}.

Lemma CompareItems_qlt m a b :
  CompareItems m a b = qlt (sort_text (item m a)) (sort_text (item m b)).
Proof. reflexivity. Qed.

(** C5 (amended).  [CompareItems] compares the sort texts of the two items
    as strings, code unit by code unit, whether or not they read as integers.
    The comparison is irreflexive, transitive and asymmetric; it orders any
    two items whose sort texts differ, and it orders two items of equal sort
    texts neither way.  Two song leaves of equal disc and track and of
    different locations have different sort texts. *)
Theorem CompareItems_orders_sort_texts_as_strings (m : Model) :
  (∀ a b, CompareItems m a b = qlt (sort_text (item m a)) (sort_text (item m b)))
  ∧ (∀ a, CompareItems m a a = false)
  ∧ (∀ a b c, CompareItems m a b = true → CompareItems m b c = true →
              CompareItems m a c = true)
  ∧ (∀ a b, CompareItems m a b = true → CompareItems m b a = false)
  ∧ (∀ a b, sort_text (item m a) ≠ sort_text (item m b) →
            CompareItems m a b = true ∨ CompareItems m b a = true)
  ∧ (∀ a b, sort_text (item m a) = sort_text (item m b) →
            CompareItems m a b = false ∧ CompareItems m b a = false)
  ∧ (∀ s1 s2, Song.disc s1 = Song.disc s2 → Song.track s1 = Song.track s2 →
              Song.url s1 ≠ Song.url s2 → SortTextForSong s1 ≠ SortTextForSong s2).
Proof.
  split; [done|]. split; [|split; [|split; [|split; [|split]]]].
  - intros a. rewrite CompareItems_qlt. apply qlt_irrefl.
  - intros a b c. rewrite !CompareItems_qlt. apply qlt_trans.
  - intros a b. rewrite !CompareItems_qlt. apply qlt_asym.
  - intros a b. rewrite !CompareItems_qlt. apply qlt_total.
  - intros a b Heq. rewrite !CompareItems_qlt, Heq. split; apply qlt_irrefl.
  - intros s1 s2 Hd Ht Hu. unfold SortTextForSong. rewrite Hd, Ht.
    intros Heq. by apply app_inv_head in Heq.
Qed.

End Compare.

Section Compare_witness.
#[local] Existing Instance Sample.external.

Lemma CompareItems_orders_sort_texts_as_strings_witness :
  sort_text (item numbered_artists_model 2) ≠ sort_text (item numbered_artists_model 4)
  ∧ (CompareItems numbered_artists_model 2 4 = true
     ∨ CompareItems numbered_artists_model 4 2 = true)
  ∧ sort_text (item like_albums_model 4) = sort_text (item like_albums_model 6)
  ∧ CompareItems like_albums_model 4 6 = false
  ∧ CompareItems like_albums_model 6 4 = false.
Proof.
  assert (sort_text (item numbered_artists_model 2)
          ≠ sort_text (item numbered_artists_model 4))
    as Hne by (vm_compute; discriminate).
  assert (sort_text (item like_albums_model 4) = sort_text (item like_albums_model 6))
    as Heq by (vm_compute; reflexivity).
  split; [exact Hne|]. split.
  - exact (proj1 (proj2 (proj2 (proj2 (proj2
             (CompareItems_orders_sort_texts_as_strings numbered_artists_model)))))
             2%nat 4%nat Hne).
  - split; [exact Heq|].
    exact (proj1 (proj2 (proj2 (proj2 (proj2 (proj2
             (CompareItems_orders_sort_texts_as_strings like_albums_model))))))
             4%nat 6%nat Heq).
Defined.

(** The comparison is neither numeric nor total on siblings.  The
    containers of the artists "311" and "50" are siblings whose sort texts
    read fully as integers, and the container of "311" is ordered before that
    of "50": the names are compared as the strings they are.  The containers
    of the albums "X" and "x!" are two siblings with the sort text "x", and
    neither is ordered before the other. *)
Lemma CompareItems_neither_numeric_nor_total :
  (parent (item numbered_artists_model 2) = parent (item numbered_artists_model 4)
   ∧ toInt_ok (sort_text (item numbered_artists_model 2)) = Some 311
   ∧ toInt_ok (sort_text (item numbered_artists_model 4)) = Some 50
   ∧ CompareItems numbered_artists_model 2 4 = true
   ∧ ¬ (∀ a b x y,
          toInt_ok (sort_text (item numbered_artists_model a)) = Some x →
          toInt_ok (sort_text (item numbered_artists_model b)) = Some y →
          CompareItems numbered_artists_model a b = bool_decide (x < y)))
  ∧ (allocated like_albums_model 4 ∧ allocated like_albums_model 6
     ∧ parent (item like_albums_model 4) = parent (item like_albums_model 6)
     ∧ type (item like_albums_model 4) = Type_Container
     ∧ type (item like_albums_model 6) = Type_Container
     ∧ ¬ (∀ a b, a ≠ b → allocated like_albums_model a → allocated like_albums_model b →
                 parent (item like_albums_model a) = parent (item like_albums_model b) →
                 CompareItems like_albums_model a b = true
                 ∨ CompareItems like_albums_model b a = true)).
Proof.
  split.
  - split; [vm_compute; reflexivity|]. split; [vm_compute; reflexivity|].
    split; [vm_compute; reflexivity|]. split; [vm_compute; reflexivity|].
    intros Hnum. specialize (Hnum 2%nat 4%nat 311 50 eq_refl eq_refl).
    vm_compute in Hnum. discriminate.
  - assert (allocated like_albums_model 4) as H4 by (vm_compute; eauto).
    assert (allocated like_albums_model 6) as H6 by (vm_compute; eauto).
    assert (parent (item like_albums_model 4) = parent (item like_albums_model 6))
      as Hp by (vm_compute; reflexivity).
    split; [exact H4|]. split; [exact H6|]. split; [exact Hp|].
    split; [vm_compute; reflexivity|]. split; [vm_compute; reflexivity|].
    intros Htot.
    destruct (Htot 4%nat 6%nat ltac:(discriminate) H4 H6 Hp) as [Hc|Hc];
      vm_compute in Hc; discriminate.
Qed.

End Compare_witness.

(** ** Divider keys *)

Section DividerKeys.
Context `{External}.

Lemma IsArtistGroupBy_alphabetic g : IsArtistGroupBy g = true → alphabetic g = true.
Proof. by destruct g. Qed.

Lemma DividerKey_alphabetic g it c rest :
  alphabetic g = true → sort_text it = c :: rest →
  DividerKey g it
  = if isDigit c then qs "0"
    else if c =? 32 then []
    else if hasDecomposition c then take 1 (decomposition c)
    else [c].
Proof. intros Hg Hs. unfold DividerKey. rewrite Hs. by destruct g. Qed.

(** C4 (amended).  An empty sort text has the empty key.  Otherwise, with
    [c] the first character of the sort text: under a criterion whose divider
    is a letter the key is ["0"] when [c] is a digit, empty when [c] is the
    space, the first element of the decomposition of [c] when it has one,
    and [c] itself in the remaining case; under [Year] and [OriginalYear] it
    is the zero-padded decade of the integer that the sort text reads as;
    under the year-and-album criteria it is the zero-padded year (original
    year) of the item's metadata; under [Samplerate], [Bitdepth] and
    [Bitrate] it is the zero-padded value of that field of the item's
    metadata; under [None] it is empty. *)
Theorem DividerKey_by_criterion (g : GroupBy.t) (it : CollectionItem) :
  (sort_text it = [] → DividerKey g it = [])
  ∧ (∀ c rest, sort_text it = c :: rest →
       (alphabetic g = true →
          (isDigit c = true → DividerKey g it = qs "0")
          ∧ (isDigit c = false → c = 32 → DividerKey g it = [])
          ∧ (isDigit c = false → c ≠ 32 → hasDecomposition c = true →
               DividerKey g it = take 1 (decomposition c))
          ∧ (isDigit c = false → c ≠ 32 → hasDecomposition c = false →
               DividerKey g it = [c]))
       ∧ (g = GroupBy.Year ∨ g = GroupBy.OriginalYear →
            DividerKey g it = SortTextForNumber (toInt (sort_text it) `quot` 10 * 10))
       ∧ (g = GroupBy.YearAlbum ∨ g = GroupBy.YearAlbumDisc →
            DividerKey g it = SortTextForNumber (Song.year (metadata it)))
       ∧ (g = GroupBy.OriginalYearAlbum ∨ g = GroupBy.OriginalYearAlbumDisc →
            DividerKey g it = SortTextForNumber (effective_originalyear (metadata it)))
       ∧ (g = GroupBy.Samplerate →
            DividerKey g it = SortTextForNumber (Song.samplerate (metadata it)))
       ∧ (g = GroupBy.Bitdepth →
            DividerKey g it = SortTextForNumber (Song.bitdepth (metadata it)))
       ∧ (g = GroupBy.Bitrate →
            DividerKey g it = SortTextForNumber (Song.bitrate (metadata it)))
       ∧ (g = GroupBy.None → DividerKey g it = [])).
Proof.
  split.
  - intros Hs. unfold DividerKey. by rewrite Hs.
  - intros c rest Hs. split; [|repeat split].
    + intros Hg. rewrite (DividerKey_alphabetic g it c rest Hg Hs).
      repeat split.
      * by intros ->.
      * intros -> ->. done.
      * intros -> Hc ->. by apply Z.eqb_neq in Hc as ->.
      * intros -> Hc ->. by apply Z.eqb_neq in Hc as ->.
    + intros [-> | ->]; unfold DividerKey; by rewrite Hs.
    + intros [-> | ->]; unfold DividerKey; by rewrite Hs.
    + intros [-> | ->]; unfold DividerKey; by rewrite Hs.
    + intros ->; unfold DividerKey; by rewrite Hs.
    + intros ->; unfold DividerKey; by rewrite Hs.
    + intros ->; unfold DividerKey; by rewrite Hs.
    + intros ->; unfold DividerKey; by rewrite Hs.
Qed.

End DividerKeys.

Section DividerKeys_witness.
#[local] Existing Instance Sample.external.

Lemma DividerKey_by_criterion_witness :
  sort_text (item unknown_artist_model 2) = qs " unknown"
  ∧ DividerKey GroupBy.Artist (item unknown_artist_model 2) = [].
Proof.
  assert (sort_text (item unknown_artist_model 2) = 32 :: qs "unknown") as Hs
    by (vm_compute; reflexivity).
  split; [exact Hs|].
  exact (proj1 (proj2 (proj1 (proj2 (DividerKey_by_criterion GroupBy.Artist
           (item unknown_artist_model 2)) 32 (qs "unknown") Hs) eq_refl))
           eq_refl eq_refl).
Defined.

(** C4 as stated fails in three places.  The container of the songs
    without artist has the sort text [" unknown"]: its first character is the
    space, which is no digit and has no decomposition, and the key is empty,
    not that character.  The container of the unknown sample rate has the
    sort text ["0000 "], which reads as 0, and its key is not the padded 0.
    The container of [1994 - b] has the key of the year 1994, not of the
    decade. *)
Lemma DividerKey_not_as_stated :
  (sort_text (item unknown_artist_model 2) = 32 :: qs "unknown"
   ∧ isDigit 32 = false ∧ hasDecomposition 32 = false
   ∧ DividerKey GroupBy.Artist (item unknown_artist_model 2) ≠ [32])
  ∧ (toInt_ok (sort_text (item unknown_samplerate_model 2)) = Some 0
     ∧ DividerKey GroupBy.Samplerate (item unknown_samplerate_model 2)
       ≠ SortTextForNumber 0)
  ∧ (Song.year (metadata (item year_album_model 2)) = 1994
     ∧ DividerKey GroupBy.YearAlbum (item year_album_model 2)
       ≠ SortTextForNumber (1994 `quot` 10 * 10)).
Proof. vm_compute. repeat split; discriminate. Qed.

End DividerKeys_witness.

(** ** The "Various artists" node *)

Section VariousArtists.
Context `{External}.

Lemma qlt_space_first c rest :
  32 < c → qlt (qs " various") (c :: rest) = true ∧ qlt (c :: rest) (qs " various") = false.
Proof.
  intros Hc. change (qs " various") with (32 :: qs "various").
  cbn [qlt]. destruct (Z.ltb_spec 32 c), (Z.ltb_spec c 32); done || lia.
Qed.

Lemma tables_update_item p f m : tables (update_item p f m) = tables m.
Proof. reflexivity. Qed.
Lemma tables_emit s m : tables (emit s m) = tables m.
Proof. reflexivity. Qed.
Lemma tables_new_CollectionItem ty p m : tables (new_CollectionItem ty p m).2 = tables m.
Proof. reflexivity. Qed.

(** What [CreateCompilationArtistNode] builds, item by item. *)
Lemma CreateCompilationArtistNode_items signal parent_ m :
  allocated m parent_ → parent_ ≠ nullptr → parent_ ≠ next_ptr m →
  let node := (CreateCompilationArtistNode signal parent_ m).1 in
  let m' := (CreateCompilationArtistNode signal parent_ m).2 in
  node = next_ptr m
  ∧ type (item m' node) = Type_Container
  ∧ sort_text (item m' node) = qs " various"
  ∧ parent (item m' node) = parent_
  ∧ children (item m' node) = []
  ∧ compilation_artist_node_ (item m' node) = nullptr
  ∧ container_level (item m' node) = container_level (item m parent_) + 1
  ∧ item m' parent_
    = set_compilation_artist_node_ (next_ptr m)
        (set_children (children (item m parent_) ++ [next_ptr m]) (item m parent_))
  ∧ (∀ q, q ≠ next_ptr m → q ≠ parent_ → item m' q = item m q)
  ∧ (∀ q, allocated m' q ↔ q = next_ptr m ∨ allocated m q)
  ∧ next_ptr m' = S (next_ptr m)
  ∧ tables m' = tables m.
Proof.
  intros Hal Hnull Hne. unfold CreateCompilationArtistNode.
  set (m1 := if signal then beginInsertRows _ _ _ m else m).
  assert (heap m1 = heap m ∧ next_ptr m1 = next_ptr m ∧ tables m1 = tables m)
    as (Hh1 & Hn1 & Ht1) by (unfold m1; by destruct signal).
  assert (∀ q, item m1 q = item m q) as Hi1 by (unfold m1; by destruct signal).
  assert (allocated m1 parent_) as Hal1 by (unfold allocated; by rewrite Hh1).
  pose proof (new_CollectionItem_ptr Type_Container parent_ m1) as Hptr.
  pose proof (new_CollectionItem_next Type_Container parent_ m1) as Hnext.
  pose proof (new_CollectionItem_allocated Type_Container parent_ m1) as Halloc.
  pose proof (new_CollectionItem_new Type_Container parent_ m1) as Hnew.
  pose proof (new_CollectionItem_parent Type_Container parent_ m1) as Hpar.
  pose proof (new_CollectionItem_other Type_Container parent_ m1) as Hoth.
  pose proof (tables_new_CollectionItem Type_Container parent_ m1) as Htab.
  destruct (new_CollectionItem Type_Container parent_ m1) as [node m2].
  cbn [fst snd] in Hptr, Hnext, Halloc, Hnew, Hpar, Hoth, Htab. subst node.
  rewrite Hn1 in *. specialize (Hnew Hne). specialize (Hpar Hne Hnull Hal1).
  rewrite !Hi1 in Hpar.
  assert (allocated m2 (next_ptr m)) as Hnode by (apply Halloc; auto).
  assert (allocated m2 parent_) as Hpar2.
  { apply Halloc. right. unfold allocated. by rewrite Hh1. }
  set (m3 := update_item parent_ (set_compilation_artist_node_ (next_ptr m)) m2).
  set (m4 := update_item (next_ptr m) (set_compilation_artist_node_ nullptr) m3).
  set (m5 := if _ && _ then _ else m4).
  assert (∀ q, q ≠ next_ptr m → item m5 q = item m3 q) as H5o.
  { intros q Hq. unfold m5.
    destruct (negb _ && negb _); rewrite ?item_update_item_other by done;
      unfold m4; by rewrite item_update_item_other. }
  assert (∀ q, allocated m5 q ↔ allocated m2 q) as H5a.
  { intros q. unfold m5.
    destruct (negb _ && negb _); rewrite ?allocated_update_item; unfold m4, m3;
      by rewrite !allocated_update_item. }
  assert (next_ptr m5 = next_ptr m2 ∧ tables m5 = tables m2) as [H5n H5t].
  { unfold m5, m4, m3. by destruct (negb _ && negb _). }
  set (m6 := update_item (next_ptr m) (λ it, set_key (key it ++ tr (qs "Various artists")) it) m5).
  set (m7 := update_item (next_ptr m) (set_display_text (tr (qs "Various artists"))) m6).
  set (m8 := update_item (next_ptr m) (set_sort_text (qs " various")) m7).
  set (m9 := update_item (next_ptr m) (set_container_level _) m8).
  assert (allocated m7 (next_ptr m)) as Hal7.
  { unfold m7, m6. rewrite !allocated_update_item. by apply H5a. }
  assert (∀ {A} (proj : CollectionItem → A),
            (∀ v it, proj (set_key v it) = proj it) →
            (∀ v it, proj (set_display_text v it) = proj it) →
            (∀ v it, proj (set_sort_text v it) = proj it) →
            (∀ v it, proj (set_container_level v it) = proj it) →
            proj (item m3 (next_ptr m)) = proj (item m2 (next_ptr m)) →
            proj (set_compilation_artist_node_ nullptr (item m3 (next_ptr m)))
            = proj (item m3 (next_ptr m)) →
            proj (item m9 (next_ptr m)) = proj (item m2 (next_ptr m))) as H9f.
  { intros A proj Hk Hd Hs Hl H3 Hc. unfold m9, m8, m7, m6.
    do 4 (rewrite update_item_field by (intros; auto)).
    transitivity (proj (item m4 (next_ptr m))).
    - unfold m5.
      destruct (negb _ && negb _); [apply update_item_field; intros; apply Hk|done].
    - unfold m4. rewrite item_update_item_same, Hc; [done|].
      unfold m3. by rewrite allocated_update_item. }
  assert (item m3 (next_ptr m) = item m2 (next_ptr m)) as H3n
    by (unfold m3; by rewrite item_update_item_other).
  assert (∀ q, q ≠ next_ptr m → item m9 q = item m3 q) as H9o.
  { intros q Hq. unfold m9, m8, m7, m6. rewrite !item_update_item_other by done. auto. }
  assert (item m3 parent_
          = set_compilation_artist_node_ (next_ptr m)
              (set_children (children (item m parent_) ++ [next_ptr m]) (item m parent_)))
    as H3p by (unfold m3; rewrite item_update_item_same by done; by rewrite Hpar).
  set (m' := if signal then endInsertRows m9 else m9).
  assert (∀ q, item m' q = item m9 q) as Hi' by (unfold m'; by destruct signal).
  assert (next_ptr m' = next_ptr m2 ∧ (∀ q, allocated m' q ↔ allocated m2 q)
          ∧ tables m' = tables m2) as (Hn' & Ha' & Ht').
  { split; [|split].
    - unfold m'. destruct signal; apply H5n.
    - intros q. rewrite <- H5a.
      assert (allocated m' q ↔ allocated m9 q) as -> by (unfold m'; by destruct signal).
      unfold m9, m8, m7, m6. by rewrite !allocated_update_item.
    - unfold m'. destruct signal; apply H5t. }
  cbn [fst snd]. rewrite !Hi'. rewrite (H9o parent_) by done. rewrite H3p. cbn [set_compilation_artist_node_ compilation_artist_node_].
  split; [done|].
  rewrite (H9f _ type), (H9f _ parent), (H9f _ children) by (done || by rewrite H3n).
  rewrite Hnew. cbn [type parent children].
  split; [done|]. split.
  { unfold m9. rewrite update_item_field by done. unfold m8.
    by rewrite item_update_item_same by done. }
  split; [done|]. split; [done|]. split.
  { unfold m9, m8, m7, m6. rewrite !update_item_field by done.
    unfold m5. destruct (negb _ && negb _); rewrite ?update_item_field by done;
      unfold m4; by rewrite item_update_item_same
        by (unfold m3; by rewrite allocated_update_item). }
  split.
  { unfold m9. rewrite item_update_item_same
      by (unfold m8; by rewrite allocated_update_item).
    cbn [set_container_level container_level]. unfold m8, m7, m6.
    rewrite !item_update_item_other by done. by rewrite H5o, H3p. }
  split; [done|]. split.
  { intros q Hq1 Hq2. rewrite Hi', H9o by done. unfold m3.
    rewrite item_update_item_other by done. rewrite Hoth by done. apply Hi1. }
  split.
  { intros q. rewrite Ha', Halloc. unfold allocated. by rewrite Hh1. }
  split; [congruence|]. by rewrite Ht', <- Ht1.
Qed.

(** C10.  The node that [CreateCompilationArtistNode] hangs under a parent
    is a container whose sort text is [" various"].  The space being no
    digit, its divider key is empty under every criterion whose divider is a
    letter, the artist criteria among them; creating it adds no entry to
    [divider_nodes_] and no item of type divider to the tree; and
    [CompareItems] places it before every item whose sort text starts with a
    character above the space, as every letter and every digit is. *)
Theorem VariousArtists_sort_text_has_no_divider_and_sorts_first signal parent_ m :
  isDigit 32 = false →
  allocated m parent_ → parent_ ≠ nullptr → ¬ allocated m (next_ptr m) →
  let node := (CreateCompilationArtistNode signal parent_ m).1 in
  let m' := (CreateCompilationArtistNode signal parent_ m).2 in
  compilation_artist_node_ (item m' parent_) = node
  ∧ type (item m' node) = Type_Container
  ∧ sort_text (item m' node) = qs " various"
  ∧ (∀ g, alphabetic g = true → DividerKey g (item m' node) = [])
  ∧ (∀ g, IsArtistGroupBy g = true → DividerKey g (item m' node) = [])
  ∧ divider_nodes_ m' = divider_nodes_ m
  ∧ (∀ q, type (item m' q) = Type_Divider → type (item m q) = Type_Divider)
  ∧ (∀ sibling c rest,
       sort_text (item m' sibling) = c :: rest → 32 < c →
       CompareItems m' node sibling = true ∧ CompareItems m' sibling node = false).
Proof.
  intros Hspace Hal Hnull Hfresh node m'.
  assert (parent_ ≠ next_ptr m) as Hne by (intros ->; done).
  destruct (CreateCompilationArtistNode_items signal parent_ m Hal Hnull Hne)
    as (Hnode & Hty & Hsort & _ & _ & _ & _ & Hpar & Hoth & _ & _ & Htab).
  fold node m' in Hnode, Hty, Hsort, Hpar, Hoth, Htab.
  assert (∀ g, alphabetic g = true → DividerKey g (item m' node) = []) as Hkey.
  { intros g Hg. rewrite (DividerKey_alphabetic g _ 32 (qs "various") Hg Hsort).
    by rewrite Hspace. }
  split; [by rewrite Hpar, Hnode|]. split; [done|]. split; [done|]. split; [done|].
  split; [intros g Hg; by apply Hkey, IsArtistGroupBy_alphabetic|].
  split; [by injection Htab|]. split.
  - intros q. destruct (decide (q = next_ptr m)) as [->|Hq1].
    + by rewrite <- Hnode, Hty.
    + destruct (decide (q = parent_)) as [->|Hq2]; [by rewrite Hpar|by rewrite Hoth].
  - intros sibling c rest Hs Hc. rewrite !CompareItems_qlt, Hsort, Hs.
    by apply qlt_space_first.
Qed.

End VariousArtists.

Section VariousArtists_witness.
#[local] Existing Instance Sample.external.

Lemma VariousArtists_sort_text_has_no_divider_and_sorts_first_witness :
  let node := (CreateCompilationArtistNode true (root_ abba_model) abba_model).1 in
  let m' := (CreateCompilationArtistNode true (root_ abba_model) abba_model).2 in
  isDigit 32 = false ∧ allocated abba_model (root_ abba_model)
  ∧ root_ abba_model ≠ nullptr
  ∧ ¬ allocated abba_model (next_ptr abba_model)
  ∧ sort_text (item m' 2) = 97 :: qs " abba"
  ∧ sort_text (item m' node) = qs " various"
  ∧ DividerKey GroupBy.Artist (item m' node) = []
  ∧ CompareItems m' node 2 = true.
Proof.
  intros node m'.
  assert (isDigit 32 = false) as H1 by (vm_compute; reflexivity).
  assert (allocated abba_model (root_ abba_model)) as H2 by (vm_compute; eauto).
  assert (root_ abba_model ≠ nullptr) as H3 by (vm_compute; discriminate).
  assert (¬ allocated abba_model (next_ptr abba_model)) as H4
    by (vm_compute; by intros [? ?]).
  assert (sort_text (item m' 2) = 97 :: qs " abba") as H5 by (vm_compute; reflexivity).
  pose proof (VariousArtists_sort_text_has_no_divider_and_sorts_first
                true (root_ abba_model) abba_model H1 H2 H3 H4)
    as (_ & _ & Hs & Hk & _ & _ & _ & Hc).
  split; [exact H1|]. split; [exact H2|]. split; [exact H3|]. split; [exact H4|].
  split; [exact H5|]. split; [exact Hs|]. split; [exact (Hk GroupBy.Artist eq_refl)|].
  exact (proj1 (Hc 2%nat 97 (qs " abba") H5 ltac:(lia))).
Defined.

End VariousArtists_witness.

(** ** The editable role *)

Lemma any_of_mono {A} (test test' : A → option bool) l r :
  (∀ x b, x ∈ l → test x = Some b → test' x = Some b) →
  any_of test l = Some r → any_of test' l = Some r.
Proof.
  induction l as [|x l IH]; intros Hsub; simpl; [done|].
  destruct (test x) as [[|]|] eqn:Hx; [| |done].
  - rewrite (Hsub x true); [done|by left|done].
  - rewrite (Hsub x false); [|by left|done].
    apply IH. intros y b Hy. apply Hsub. by right.
Qed.

Lemma any_of_false {A} (test : A → option bool) l :
  any_of test l = Some false ↔ ∀ x, x ∈ l → test x = Some false.
Proof.
  induction l as [|x l IH]; simpl.
  - split; [intros _ x Hx; by apply elem_of_nil in Hx|done].
  - destruct (test x) as [[|]|] eqn:Hx.
    + split; [done|]. intros Hall. specialize (Hall x ltac:(by left)). congruence.
    + rewrite IH. split.
      * intros Hall y [->|Hy]%elem_of_cons; auto.
      * intros Hall y Hy. apply Hall. by right.
    + split; [done|]. intros Hall. specialize (Hall x ltac:(by left)). congruence.
Qed.

Section Editable.
Context `{External}.

Lemma data_Editable_VBool fuel m p v :
  data fuel m p Role_Editable = Some v → ∃ b, v = VBool b.
Proof.
  destruct fuel; simpl; repeat case_match; intros; simplify_eq; eauto.
Qed.

(** [data] run with more fuel than it needs returns what it returned. *)
Lemma data_Editable_mono fuel fuel' m p v :
  (fuel ≤ fuel')%nat →
  data fuel m p Role_Editable = Some v → data fuel' m p Role_Editable = Some v.
Proof.
  revert fuel' p v. induction fuel as [|f IH]; intros fuel' p v Hle.
  - destruct fuel'; simpl; [done|].
    destruct (type (item m p)); try done.
    by destruct (isEmpty_list (children (item m p))).
  - destruct fuel' as [|f']; [lia|]. simpl.
    destruct (type (item m p)); try done.
    destruct (isEmpty_list (children (item m p))); [done|].
    destruct (any_of _ _) as [r|] eqn:Hany; [|done].
    erewrite (any_of_mono _ _ _ r); [done| |exact Hany].
    intros c b _ Hc. cbv beta in Hc.
    destruct (data f m c Role_Editable) as [w|] eqn:Hw; [|by simpl in Hc].
    by rewrite (IH f' c w ltac:(lia) Hw).
Qed.

Lemma Editable_returns_functional m p b b' :
  Editable_returns m p b → Editable_returns m p b' → b = b'.
Proof.
  intros [f Hf] [f' Hf'].
  apply (data_Editable_mono f (f `max` f')%nat) in Hf; [|lia].
  apply (data_Editable_mono f' (f `max` f')%nat) in Hf'; [|lia]. congruence.
Qed.

Lemma data_Editable_total m n p :
  depth_within m n p → ∃ b, data n m p Role_Editable = Some (VBool b).
Proof.
  revert p. induction n as [|n IH]; intros p Hd; simpl in *.
  - destruct (type (item m p)); eauto. destruct Hd as [Hd|Hd]; [done|].
    rewrite Hd. eauto.
  - destruct (type (item m p)); eauto.
    destruct (isEmpty_list (children (item m p))); eauto.
    specialize (Hd eq_refl).
    assert (∃ r, any_of (λ child, (λ v, negb (toBool v)) <$> data n m child Role_Editable)
                   (children (item m p)) = Some r) as [r ->].
    { induction (children (item m p)) as [|c l IHl]; simpl; eauto.
      destruct (IH c) as [b ->]; [apply Hd; by left|]. simpl.
      destruct b; simpl; eauto. apply IHl. intros c' Hc'. apply Hd. by right. }
    destruct r; eauto.
Qed.

Lemma children_common_fuel m (l : list ptr) :
  (∀ c, c ∈ l → Editable_returns m c true) →
  ∃ fuel, ∀ c, c ∈ l → data fuel m c Role_Editable = Some (VBool true).
Proof.
  induction l as [|c l IH]; intros Hall.
  - exists 0%nat. intros c Hc. by apply elem_of_nil in Hc.
  - destruct (Hall c) as [f Hf]; [by left|].
    destruct IH as [f' Hf']; [intros c' Hc'; apply Hall; by right|].
    exists (f `max` f')%nat. intros c' [->|Hc']%elem_of_cons.
    + apply (data_Editable_mono f); [lia|done].
    + apply (data_Editable_mono f'); [lia|auto].
Qed.

(** C7 (amended).  For a song leaf the query returns whether its record is
    editable.  For a container it returns true exactly when the container has
    at least one child and the query returns true for every child; for a
    container without children it returns false.  For any other item it
    returns false.  On a tree of finite depth the query returns. *)
Theorem Role_Editable_song_and_container (m : Model) (p : ptr) :
  (type (item m p) = Type_Song →
     ∀ b, Editable_returns m p b ↔ b = IsEditable (metadata (item m p)))
  ∧ (type (item m p) = Type_Container →
       (Editable_returns m p true ↔
          children (item m p) ≠ []
          ∧ ∀ c, c ∈ children (item m p) → Editable_returns m c true)
       ∧ (children (item m p) = [] → Editable_returns m p false))
  ∧ (type (item m p) ≠ Type_Song → type (item m p) ≠ Type_Container →
       ∀ b, Editable_returns m p b ↔ b = false)
  ∧ (∀ n, depth_within m n p → ∃ b, data n m p Role_Editable = Some (VBool b)).
Proof.
  split; [|split; [|split]].
  - intros Hty b. split.
    + intros [f Hf]. destruct f; simpl in Hf; rewrite Hty in Hf; by simplify_eq.
    + intros ->. exists 0%nat. simpl. by rewrite Hty.
  - intros Hty. split; [split|].
    + intros [f Hf]. split.
      * intros Hnil. destruct f; simpl in Hf; rewrite Hty, Hnil in Hf; by simplify_eq.
      * intros c Hc.
        destruct f as [|f]; simpl in Hf; rewrite Hty in Hf;
          destruct (isEmpty_list (children (item m p))); try done.
        destruct (any_of _ _) as [[|]|] eqn:Hany; try done.
        rewrite any_of_false in Hany. specialize (Hany c Hc).
        destruct (data f m c Role_Editable) as [v|] eqn:Hv; [|done].
        destruct (data_Editable_VBool _ _ _ _ Hv) as [b ->].
        exists f. destruct b; [done|]. by simplify_eq.
    + intros [Hne Hall]. destruct (children_common_fuel m _ Hall) as [f Hf].
      exists (S f). simpl. rewrite Hty.
      destruct (children (item m p)) as [|c l] eqn:Hl; [done|].
      cbn [isEmpty_list].
      assert (any_of (λ child, (λ v, negb (toBool v)) <$> data f m child Role_Editable)
                (c :: l) = Some false) as ->; [|done].
      apply any_of_false. intros x Hx. by rewrite (Hf x Hx).
    + intros Hnil. exists 0%nat. simpl. by rewrite Hty, Hnil.
  - intros Hs Hc b. split.
    + intros [f Hf]. destruct f; simpl in Hf; destruct (type (item m p)); by simplify_eq.
    + intros ->. exists 0%nat. simpl. by destruct (type (item m p)).
  - intros n. apply data_Editable_total.
Qed.

End Editable.

Section Editable_witness.
#[local] Existing Instance Sample.external.

Lemma Role_Editable_song_and_container_witness :
  type (item childless_container_model 2) = Type_Container
  ∧ children (item childless_container_model 2) = []
  ∧ Editable_returns childless_container_model 2 false.
Proof.
  assert (type (item childless_container_model 2) = Type_Container) as Hty
    by (vm_compute; reflexivity).
  assert (children (item childless_container_model 2) = []) as Hnil
    by (vm_compute; reflexivity).
  split; [exact Hty|]. split; [exact Hnil|].
  exact (proj2 (proj1 (proj2 (Role_Editable_song_and_container
                                childless_container_model 2)) Hty) Hnil).
Defined.

(** C7 as stated fails on a container without children: the query returns
    true for every child, there being none, and does not return true for the
    container. *)
Lemma Role_Editable_childless_container_not_editable :
  type (item childless_container_model 2) = Type_Container
  ∧ (∀ c, c ∈ children (item childless_container_model 2) →
          Editable_returns childless_container_model c true)
  ∧ ¬ Editable_returns childless_container_model 2 true.
Proof.
  split; [vm_compute; reflexivity|]. split.
  - intros c Hc. vm_compute in Hc. by apply elem_of_nil in Hc.
  - intros Ht.
    assert (Editable_returns childless_container_model 2 false) as Hf
      by (exists 0%nat; vm_compute; reflexivity).
    by pose proof (Editable_returns_functional _ _ _ _ Ht Hf).
Qed.

End Editable_witness.

(** ** The tree and its tables, without the stored records and the log *)

Section SameTree.
Context `{External}.

Ltac same_tree :=
  match goal with
  | Heq : tree_of ?m1 = tree_of ?m2 |- _ =>
      destruct m1, m2; unfold tree_of, frame in Heq; cbn in Heq; simplify_eq
  end.

Lemma same_tree_item m1 m2 p : tree_of m1 = tree_of m2 → item m1 p = item m2 p.
Proof. intros Heq. unfold item. by injection Heq as ->. Qed.

Lemma same_tree_song_nodes_ m1 m2 :
  tree_of m1 = tree_of m2 → song_nodes_ m1 = song_nodes_ m2.
Proof. intros Heq. by injection Heq. Qed.

Lemma same_tree_ItemToIndex m1 m2 p :
  tree_of m1 = tree_of m2 → ItemToIndex m1 p = ItemToIndex m2 p.
Proof. intros Heq. unfold ItemToIndex. by rewrite (same_tree_item m1 m2). Qed.

Lemma same_tree_emit s m1 m2 :
  tree_of m1 = tree_of m2 → tree_of (emit s m1) = tree_of (emit s m2).
Proof. intros Heq. by same_tree. Qed.

Lemma same_tree_update_item p f m1 m2 :
  tree_of m1 = tree_of m2 → tree_of (update_item p f m1) = tree_of (update_item p f m2).
Proof. intros Heq. by same_tree. Qed.

Lemma same_tree_with_songs_ v m : tree_of (with_songs_ v m) = tree_of m.
Proof. reflexivity. Qed.

Lemma same_tree_log_error e m : tree_of (log_error e m) = tree_of m.
Proof. reflexivity. Qed.

Lemma same_tree_with_song_nodes_ v m1 m2 :
  tree_of m1 = tree_of m2 →
  tree_of (with_song_nodes_ v m1) = tree_of (with_song_nodes_ v m2).
Proof. intros Heq. by same_tree. Qed.

Lemma same_tree_with_divider_nodes_ v m1 m2 :
  tree_of m1 = tree_of m2 →
  tree_of (with_divider_nodes_ v m1) = tree_of (with_divider_nodes_ v m2).
Proof. intros Heq. by same_tree. Qed.

Lemma same_tree_container_nodes_at i m1 m2 :
  tree_of m1 = tree_of m2 → container_nodes_at m1 i = container_nodes_at m2 i.
Proof. intros Heq. unfold container_nodes_at. by injection Heq as _ _ _ -> _. Qed.

Lemma same_tree_with_container_nodes_at i v m1 m2 :
  tree_of m1 = tree_of m2 →
  tree_of (with_container_nodes_at i v m1) = tree_of (with_container_nodes_at i v m2).
Proof.
  intros Heq. same_tree. unfold with_container_nodes_at. by destruct (i <? 0).
Qed.

Lemma same_tree_Delete p r m1 m2 :
  tree_of m1 = tree_of m2 → tree_of (Delete p r m1) = tree_of (Delete p r m2).
Proof.
  intros Heq. same_tree. unfold Delete, item. cbn [heap].
  repeat case_match; reflexivity.
Qed.

Lemma same_tree_settings m1 m2 :
  tree_of m1 = tree_of m2 → frame m1 = frame m2.
Proof. intros Heq. exact (f_equal snd Heq). Qed.

(** *** [UpdateSongs] *)

Lemma upsert_known_same_but id song m1 m2 :
  same_but id m1 m2 → same_but id (upsert_known song m1) (upsert_known song m2).
Proof.
  intros [Ht Hs]. unfold upsert_known, contains.
  destruct (decide (Song.id song = id)) as [Hid|Hid].
  - split.
    + by repeat case_match.
    + intros k Hk. repeat case_match; cbn [songs_ with_songs_];
        rewrite ?lookup_insert_ne by congruence; auto.
  - rewrite (Hs _ Hid). split.
    + by repeat case_match.
    + intros k Hk. case_match; [|auto]. cbn.
      destruct (decide (Song.id song = k)) as [->|Hne].
      * by rewrite !lookup_insert_eq.
      * rewrite !lookup_insert_ne by done. auto.
Qed.

Lemma upsert_known_tree song m : tree_of (upsert_known song m) = tree_of m.
Proof. unfold upsert_known. by case_match. Qed.

Lemma UpdateSongs_same_but id songs m1 m2 :
  same_but id m1 m2 → same_but id (UpdateSongs songs m1) (UpdateSongs songs m2).
Proof.
  revert m1 m2. induction songs as [|s l IH]; intros m1 m2 Hsame; [done|].
  cbn [UpdateSongs]. fold (upsert_known s m1). fold (upsert_known s m2).
  pose proof (upsert_known_same_but id s m1 m2 Hsame) as [Ht Hs].
  set (n1 := upsert_known s m1) in *. set (n2 := upsert_known s m2) in *.
  rewrite (same_tree_song_nodes_ n1 n2 Ht).
  destruct (song_nodes_ n2 !! Song.id s) as [leaf|].
  - rewrite (same_tree_item n1 n2 leaf Ht).
    assert (same_but id (update_item leaf (set_metadata s) n1)
              (update_item leaf (set_metadata s) n2)) as Hu
      by (split; [by apply same_tree_update_item|done]).
    case_match; [|by apply IH].
    rewrite (same_tree_ItemToIndex _ _ leaf (proj1 Hu)).
    case_match; [done|]. apply IH. destruct Hu as [Hu1 Hu2].
    split; [by apply same_tree_emit|done].
  - apply IH. split; [|done]. by rewrite !same_tree_log_error.
Qed.

Lemma keeps_shape_refl m : keeps_shape m m.
Proof. repeat split; try done. exists []. by rewrite app_nil_r. Qed.

Lemma keeps_shape_trans m1 m2 m3 :
  keeps_shape m1 m2 → keeps_shape m2 m3 → keeps_shape m1 m3.
Proof.
  intros (A1 & A2 & A3 & A4 & A5 & (e & He & Hfe))
         (B1 & B2 & B3 & B4 & B5 & (e' & He' & Hfe')).
  split; [intros p; by rewrite B1, A1|]. split; [intros p; by rewrite B2, A2|].
  split; [congruence|]. split; [congruence|]. split; [congruence|].
  exists (e ++ e'). split; [by rewrite He', He, app_assoc|by apply Forall_app].
Qed.

Lemma keeps_shape_upsert_known s m : keeps_shape m (upsert_known s m).
Proof.
  unfold upsert_known. destruct (contains _ _); [|apply keeps_shape_refl].
  repeat split; try done. exists []. by rewrite app_nil_r.
Qed.

Lemma keeps_shape_log_error e m : keeps_shape m (log_error e m).
Proof. repeat split; try done. exists []. by rewrite app_nil_r. Qed.

Lemma keeps_shape_set_metadata leaf s m :
  keeps_shape m (update_item leaf (set_metadata s) m).
Proof.
  split; [intros p; by rewrite (update_item_field shape)|].
  split; [intros p; apply allocated_update_item|].
  repeat split; try done. exists []. by rewrite app_nil_r.
Qed.

Lemma keeps_shape_dataChanged idx m : keeps_shape m (emit (dataChanged idx idx) m).
Proof. repeat split; try done. eexists [_]. split; [done|]. by constructor. Qed.

Lemma UpdateSongs_keeps_shape songs m : keeps_shape m (UpdateSongs songs m).
Proof.
  revert m. induction songs as [|s l IH]; intros m; [apply keeps_shape_refl|].
  cbn [UpdateSongs]. fold (upsert_known s m).
  pose proof (keeps_shape_upsert_known s m) as Hk.
  set (n := upsert_known s m) in *.
  destruct (song_nodes_ n !! Song.id s) as [leaf|].
  - pose proof (keeps_shape_trans _ _ _ Hk (keeps_shape_set_metadata leaf s n)) as Hk'.
    destruct (negb (IsCollectionMetadataEqual _ _)).
    + destruct (negb (isValid _)); [done|].
      eapply keeps_shape_trans; [|apply IH].
      eapply keeps_shape_trans; [exact Hk'|apply keeps_shape_dataChanged].
    + eapply keeps_shape_trans; [exact Hk'|apply IH].
  - eapply keeps_shape_trans; [|apply IH].
    eapply keeps_shape_trans; [exact Hk|apply keeps_shape_log_error].
Qed.

Lemma qeq_refl a : qeq a a = true.
Proof. unfold qeq. by apply bool_decide_eq_true. Qed.

Lemma IsCollectionMetadataEqual_statistics old rating_ playcount_ skipcount_ lastplayed_ :
  IsCollectionMetadataEqual
    (Song.set_rating rating_
       (Song.set_playcount playcount_
          (Song.set_skipcount skipcount_ (Song.set_lastplayed lastplayed_ old))))
    old = true.
Proof.
  unfold IsCollectionMetadataEqual. cbn. by rewrite !qeq_refl, !Z.eqb_refl, Bool.eqb_reflx.
Qed.

(** [UpdateSongs] keeps the shape of the tree, and what it does for one
    song that has a leaf: no signal when the new record equals the record of
    the leaf on the compared fields, one [dataChanged] for the index of the
    leaf when it differs. *)
Lemma UpdateSongs_shape_and_one_song :
  (∀ songs m,
      (∀ p, shape (item (UpdateSongs songs m) p) = shape (item m p))
      ∧ (∀ p, allocated (UpdateSongs songs m) p ↔ allocated m p)
      ∧ song_nodes_ (UpdateSongs songs m) = song_nodes_ m
      ∧ container_nodes_ (UpdateSongs songs m) = container_nodes_ m
      ∧ divider_nodes_ (UpdateSongs songs m) = divider_nodes_ m
      ∧ ∃ emitted,
          signals_ (UpdateSongs songs m) = signals_ m ++ emitted
          ∧ Forall (λ s, is_structural s = false) emitted)
  ∧ (∀ old rating_ playcount_ skipcount_ lastplayed_,
        IsCollectionMetadataEqual
          (Song.set_rating rating_
             (Song.set_playcount playcount_
                (Song.set_skipcount skipcount_ (Song.set_lastplayed lastplayed_ old))))
          old = true)
  ∧ (∀ song m leaf,
        song_nodes_ m !! Song.id song = Some leaf → allocated m leaf →
        IsCollectionMetadataEqual song (metadata (item m leaf)) = true →
        signals_ (UpdateSongs [song] m) = signals_ m
        ∧ metadata (item (UpdateSongs [song] m) leaf) = song)
  ∧ (∀ song m leaf,
        song_nodes_ m !! Song.id song = Some leaf → allocated m leaf →
        leaf ≠ nullptr → parent (item m leaf) ≠ nullptr →
        IsCollectionMetadataEqual song (metadata (item m leaf)) = false →
        signals_ (UpdateSongs [song] m)
        = signals_ m ++ [dataChanged (Index (row (item m leaf)) leaf)
                           (Index (row (item m leaf)) leaf)]
        ∧ metadata (item (UpdateSongs [song] m) leaf) = song).
Proof.
  split; [|split; [exact IsCollectionMetadataEqual_statistics|split]].
  - intros songs m. apply UpdateSongs_keeps_shape.
  - intros song m leaf Hleaf Hal Heq. cbn [UpdateSongs]. fold (upsert_known song m).
    assert (song_nodes_ (upsert_known song m) = song_nodes_ m
            ∧ signals_ (upsert_known song m) = signals_ m
            ∧ heap (upsert_known song m) = heap m) as (Hs & Hg & Hh)
      by (unfold upsert_known; by case_match).
    assert (∀ p, item (upsert_known song m) p = item m p) as Hi
      by (intros p; unfold item; by rewrite Hh).
    rewrite Hs, Hleaf, Hi, Heq. cbn [negb].
    split; [done|]. rewrite item_update_item_same; [done|].
    unfold allocated. by rewrite Hh.
  - intros song m leaf Hleaf Hal Hnull Hpar Hne. cbn [UpdateSongs].
    fold (upsert_known song m).
    assert (song_nodes_ (upsert_known song m) = song_nodes_ m
            ∧ signals_ (upsert_known song m) = signals_ m
            ∧ heap (upsert_known song m) = heap m) as (Hs & Hg & Hh)
      by (unfold upsert_known; by case_match).
    assert (∀ p, item (upsert_known song m) p = item m p) as Hi
      by (intros p; unfold item; by rewrite Hh).
    assert (allocated (upsert_known song m) leaf) as Hal'
      by (unfold allocated; by rewrite Hh).
    rewrite Hs, Hleaf, Hi, Hne. cbn [negb].
    unfold ItemToIndex. rewrite item_update_item_same by done.
    destruct (decide (leaf = nullptr)); [done|]. cbn [parent set_metadata].
    rewrite Hi. destruct (decide (parent (item m leaf) = nullptr)); [done|].
    cbn [isValid negb row]. split.
    + cbn. by rewrite Hg.
    + rewrite item_emit, item_update_item_same by done. done.
Qed.

End SameTree.

Section UpdateSongs_witness.
#[local] Existing Instance Sample.external.

(** C8 as stated fails: the song of [abba_model] is tracked, the update
    differs from its record in the rating only, and no [dataChanged] is
    emitted, where the claim has exactly one. *)
Lemma UpdateSongs_rating_only_emits_nothing :
  let song := Song.set_rating 5 (Sample.song 1 "Abba" "Arrival" "Money" 1 1 1976) in
  metadata (item abba_model 4) = Sample.song 1 "Abba" "Arrival" "Money" 1 1 1976
  ∧ song_nodes_ abba_model !! Song.id song = Some 4%nat
  ∧ signals_ (UpdateSongs [song] abba_model) = signals_ abba_model
  ∧ ∀ idx, signals_ (UpdateSongs [song] abba_model)
           ≠ signals_ abba_model ++ [dataChanged idx idx].
Proof.
  intros song.
  assert (signals_ (UpdateSongs [song] abba_model) = signals_ abba_model) as Hs
    by (vm_compute; reflexivity).
  split; [vm_compute; reflexivity|]. split; [vm_compute; reflexivity|].
  split; [exact Hs|]. intros idx. rewrite Hs. intros Heq.
  apply (f_equal length) in Heq. rewrite length_app in Heq. simpl in Heq. lia.
Qed.

End UpdateSongs_witness.

(** ** A song without leaf in a batch *)

Section Untracked.
Context `{External}.

(** *** [UpdateSongs] *)

Lemma upsert_known_song_nodes_ s m : song_nodes_ (upsert_known s m) = song_nodes_ m.
Proof. unfold upsert_known. by case_match. Qed.

Lemma UpdateSongs_untracked_same_but l1 u l2 m :
  song_nodes_ m !! Song.id u = None →
  same_but (Song.id u) (UpdateSongs (l1 ++ u :: l2) m) (UpdateSongs (l1 ++ l2) m).
Proof.
  revert m. induction l1 as [|s l1 IH]; intros m Hu.
  - cbn [app UpdateSongs]. fold (upsert_known u m).
    rewrite upsert_known_song_nodes_, Hu.
    apply UpdateSongs_same_but. split.
    + by rewrite same_tree_log_error, upsert_known_tree.
    + intros k Hk. unfold upsert_known. case_match; [|done]. cbn.
      by rewrite lookup_insert_ne.
  - cbn [app UpdateSongs]. fold (upsert_known s m).
    destruct (song_nodes_ (upsert_known s m) !! Song.id s) as [leaf|].
    + destruct (negb (IsCollectionMetadataEqual _ _)).
      * destruct (negb (isValid _)); [done|].
        apply IH. cbn. by rewrite upsert_known_song_nodes_.
      * apply IH. cbn. by rewrite upsert_known_song_nodes_.
    + apply IH. cbn. by rewrite upsert_known_song_nodes_.
Qed.

Lemma leaves_have_parents_keeps_shape m m' :
  keeps_shape m m' → leaves_have_parents m → leaves_have_parents m'.
Proof.
  intros (Hshape & _ & Hs & _) Hl k leaf Hk. rewrite Hs in Hk.
  destruct (Hl k leaf Hk) as [Hnull Hpar]. split; [done|].
  pose proof (Hshape leaf) as Heq. unfold shape in Heq.
  injection Heq as _ _ Hp _. by rewrite Hp.
Qed.

Lemma UpdateSongs_log songs m :
  leaves_have_parents m →
  log_ (UpdateSongs songs m)
  = log_ m ++ map Error_SongDoesNotExistInModel (filter (λ s, untracked (song_nodes_ m) s = true) songs).
Proof.
  revert m. induction songs as [|s l IH]; intros m Hl.
  - cbn. by rewrite app_nil_r.
  - cbn [UpdateSongs]. fold (upsert_known s m).
    pose proof (keeps_shape_upsert_known s m) as Hk.
    assert (log_ (upsert_known s m) = log_ m) as Hlog
      by (unfold upsert_known; by case_match).
    assert (∀ m', keeps_shape m m' → log_ m' = log_ m →
              log_ (UpdateSongs l m')
              = log_ m ++ map Error_SongDoesNotExistInModel
                            (filter (λ s, untracked (song_nodes_ m) s = true) l)) as Hrest.
    { intros m' Hk' Hlog'. rewrite IH by by eapply leaves_have_parents_keeps_shape.
      rewrite Hlog'. destruct Hk' as (_ & _ & -> & _). done. }
    rewrite upsert_known_song_nodes_.
    destruct (song_nodes_ m !! Song.id s) as [leaf|] eqn:Hs.
    + rewrite filter_cons_False
        by (unfold untracked; rewrite Hs; by rewrite bool_decide_eq_false_2).
      set (n := update_item leaf (set_metadata s) (upsert_known s m)).
      assert (keeps_shape m n) as Hkn
        by (eapply keeps_shape_trans; [exact Hk|apply keeps_shape_set_metadata]).
      destruct (negb (IsCollectionMetadataEqual _ _)).
      * destruct (leaves_have_parents_keeps_shape m n Hkn Hl (Song.id s) leaf)
          as [Hnull Hpar].
        { destruct Hkn as (_ & _ & -> & _). done. }
        unfold ItemToIndex.
        destruct (decide (leaf = nullptr)); [done|].
        destruct (decide (parent (item n leaf) = nullptr)); [done|].
        cbn [isValid negb]. apply Hrest; [|done].
        eapply keeps_shape_trans; [exact Hkn|apply keeps_shape_dataChanged].
      * by apply Hrest.
    + rewrite filter_cons_True
        by (unfold untracked; rewrite Hs; by rewrite bool_decide_eq_true_2).
      rewrite IH.
      * cbn [log_error log_ with_log_ map song_nodes_].
        by rewrite Hlog, <- app_assoc, upsert_known_song_nodes_.
      * eapply leaves_have_parents_keeps_shape; [|exact Hl].
        eapply keeps_shape_trans; [exact Hk|apply keeps_shape_log_error].
Qed.

(** *** [RemoveSongs]

    The removal reads the record table in its first lines only: run on a
    model with another record table, it does to the tree what it did. *)

Lemma item_with_songs_ s m p : item (with_songs_ s m) p = item m p.
Proof. reflexivity. Qed.
Lemma count_with_songs_ s m p : count (with_songs_ s m) p = count m p.
Proof. reflexivity. Qed.
Lemma ItemToIndex_with_songs_ s m p : ItemToIndex (with_songs_ s m) p = ItemToIndex m p.
Proof. reflexivity. Qed.
Lemma container_nodes_at_with_songs_ s m i :
  container_nodes_at (with_songs_ s m) i = container_nodes_at m i.
Proof. reflexivity. Qed.
Lemma IsCompilationArtistNode_with_songs_ s m p :
  IsCompilationArtistNode (with_songs_ s m) p = IsCompilationArtistNode m p.
Proof. reflexivity. Qed.
Lemma emit_with_songs_ x s m : emit x (with_songs_ s m) = with_songs_ s (emit x m).
Proof. reflexivity. Qed.
Lemma update_item_with_songs_ p f s m :
  update_item p f (with_songs_ s m) = with_songs_ s (update_item p f m).
Proof. reflexivity. Qed.
Lemma with_song_nodes_with_songs_ v s m :
  with_song_nodes_ v (with_songs_ s m) = with_songs_ s (with_song_nodes_ v m).
Proof. reflexivity. Qed.
Lemma with_divider_nodes_with_songs_ v s m :
  with_divider_nodes_ v (with_songs_ s m) = with_songs_ s (with_divider_nodes_ v m).
Proof. reflexivity. Qed.
Lemma with_container_nodes_at_with_songs_ i v s m :
  with_container_nodes_at i v (with_songs_ s m)
  = with_songs_ s (with_container_nodes_at i v m).
Proof. unfold with_container_nodes_at. by destruct (i <? 0). Qed.
Lemma Delete_with_songs_ p r s m :
  Delete p r (with_songs_ s m) = with_songs_ s (Delete p r m).
Proof. unfold Delete, item. cbn [heap with_songs_]. repeat case_match; reflexivity. Qed.

Ltac push_songs :=
  unfold beginRemoveRows, endRemoveRows;
  repeat first
    [ rewrite item_with_songs_ | rewrite count_with_songs_
    | rewrite ItemToIndex_with_songs_ | rewrite container_nodes_at_with_songs_
    | rewrite IsCompilationArtistNode_with_songs_ | rewrite emit_with_songs_
    | rewrite update_item_with_songs_ | rewrite with_song_nodes_with_songs_
    | rewrite with_divider_nodes_with_songs_ | rewrite with_container_nodes_at_with_songs_
    | rewrite Delete_with_songs_ ].

Lemma RemoveSongs_parent_with_songs_ s ps ks m node :
  RemoveSongs_parent (ps, ks, with_songs_ s m) node
  = lift3 s (RemoveSongs_parent (ps, ks, m) node).
Proof.
  unfold RemoveSongs_parent, lift3. push_songs.
  change (root_ (with_songs_ s m)) with (root_ m).
  change (group_by_ (with_songs_ s m)) with (group_by_ m).
  repeat case_match; push_songs; reflexivity.
Qed.

Lemma RemoveSongs_parent_fold_with_songs_ s nodes ps ks m :
  foldl RemoveSongs_parent (ps, ks, with_songs_ s m) nodes
  = lift3 s (foldl RemoveSongs_parent (ps, ks, m) nodes).
Proof.
  revert ps ks m. induction nodes as [|n l IH]; intros ps ks m; [done|].
  cbn [foldl]. rewrite RemoveSongs_parent_with_songs_.
  destruct (RemoveSongs_parent (ps, ks, m) n) as [[ps' ks'] m']. unfold lift3 at 1.
  cbn [fst snd]. apply IH.
Qed.

Lemma RemoveSongs_parents_with_songs_ s fuel ps ks m :
  RemoveSongs_parents fuel ps ks (with_songs_ s m)
  = (λ r, (r.1, with_songs_ s r.2)) <$> RemoveSongs_parents fuel ps ks m.
Proof.
  revert ps ks m. induction fuel as [|f IH]; intros ps ks m.
  - by destruct ps.
  - destruct ps as [|p ps]; [done|]. cbn [RemoveSongs_parents].
    rewrite RemoveSongs_parent_fold_with_songs_.
    destruct (foldl RemoveSongs_parent _ _) as [[ps' ks'] m']. unfold lift3.
    cbn [fst snd]. apply IH.
Qed.

Lemma RemoveSongs_divider_with_songs_ s m k :
  RemoveSongs_divider (with_songs_ s m) k = with_songs_ s (RemoveSongs_divider m k).
Proof.
  unfold RemoveSongs_divider. push_songs.
  assert ((λ node, qeq (DividerKey (Grouping_at (group_by_ (with_songs_ s m)) 0)
                          (item (with_songs_ s m) node)) k)
          = (λ node, qeq (DividerKey (Grouping_at (group_by_ m) 0) (item m node)) k))
    as -> by reflexivity.
  change (divider_nodes_ (with_songs_ s m)) with (divider_nodes_ m).
  change (root_ (with_songs_ s m)) with (root_ m).
  change (group_by_ (with_songs_ s m)) with (group_by_ m).
  repeat case_match; push_songs; reflexivity.
Qed.

Lemma RemoveSongs_divider_fold_with_songs_ s ks m :
  foldl RemoveSongs_divider (with_songs_ s m) ks
  = with_songs_ s (foldl RemoveSongs_divider m ks).
Proof.
  revert m. induction ks as [|k l IH]; intros m; [done|].
  cbn [foldl]. by rewrite RemoveSongs_divider_with_songs_, IH.
Qed.

Lemma RemoveSongs_rest_with_songs_ s ps m :
  RemoveSongs_rest ps (with_songs_ s m) = with_songs_ s <$> RemoveSongs_rest ps m.
Proof.
  unfold RemoveSongs_rest. cbn [heap with_songs_].
  rewrite RemoveSongs_parents_with_songs_.
  destruct (RemoveSongs_parents _ _ _ _) as [[ks m']|]; [|done].
  cbn. by rewrite RemoveSongs_divider_fold_with_songs_.
Qed.

Lemma RemoveSongs_unfold songs m :
  RemoveSongs songs m
  = RemoveSongs_rest (foldl RemoveSongs_leaf ([], m) songs).1
      (foldl RemoveSongs_leaf ([], m) songs).2.
Proof. unfold RemoveSongs, RemoveSongs_rest. by destruct (foldl _ _ _). Qed.

Lemma with_songs_same m : with_songs_ (songs_ m) m = m.
Proof. by destruct m. Qed.

Lemma RemoveSongs_rest_songs_ ps m m' :
  RemoveSongs_rest ps m = Some m' → songs_ m' = songs_ m ∧ log_ m' = log_ m.
Proof.
  assert (∀ acc node, songs_ (RemoveSongs_parent acc node).2 = songs_ acc.2
                     ∧ log_ (RemoveSongs_parent acc node).2 = log_ acc.2) as Hp.
  { intros [[a b] n] node. unfold RemoveSongs_parent, Delete, with_container_nodes_at.
    repeat case_match; done. }
  assert (∀ nodes acc, songs_ (foldl RemoveSongs_parent acc nodes).2 = songs_ acc.2
                     ∧ log_ (foldl RemoveSongs_parent acc nodes).2 = log_ acc.2) as Hpf.
  { induction nodes as [|n l IH]; intros acc; [done|]. cbn [foldl].
    destruct (IH (RemoveSongs_parent acc n)) as [-> ->]. apply Hp. }
  assert (∀ fuel ps ks n ks' n', RemoveSongs_parents fuel ps ks n = Some (ks', n') →
            songs_ n' = songs_ n ∧ log_ n' = log_ n) as Hps.
  { induction fuel as [|f IH]; intros ps0 ks n ks' n'.
    - destruct ps0; [|done]. by intros [= _ ->].
    - destruct ps0 as [|p ps0]; [by intros [= _ ->]|]. cbn [RemoveSongs_parents].
      pose proof (Hpf (p :: ps0) (p :: ps0, ks, n)) as Hf.
      destruct (foldl RemoveSongs_parent _ _) as [[a b] n1]. cbn [snd] in Hf.
      intros Hr. apply IH in Hr. destruct Hf, Hr. split; congruence. }
  assert (∀ n k, songs_ (RemoveSongs_divider n k) = songs_ n
                 ∧ log_ (RemoveSongs_divider n k) = log_ n) as Hd.
  { intros n k. unfold RemoveSongs_divider, Delete. repeat case_match; done. }
  assert (∀ ks n, songs_ (foldl RemoveSongs_divider n ks) = songs_ n
                  ∧ log_ (foldl RemoveSongs_divider n ks) = log_ n) as Hdf.
  { induction ks as [|k l IH]; intros n; [done|]. cbn [foldl].
    destruct (IH (RemoveSongs_divider n k)) as [-> ->]. apply Hd. }
  unfold RemoveSongs_rest.
  destruct (RemoveSongs_parents _ _ _ _) as [[ks n]|] eqn:Hr; [|done].
  cbn. intros [= <-]. apply Hps in Hr. destruct Hr, (Hdf ks n). split; congruence.
Qed.

(** One round of the first loop on two models that share the tree. *)
Lemma RemoveSongs_leaf_with_songs_ id s ps m song :
  (∀ k, k ≠ id → s !! k = songs_ m !! k) →
  ∃ s',
    RemoveSongs_leaf (ps, with_songs_ s m) song
    = ((RemoveSongs_leaf (ps, m) song).1, with_songs_ s' (RemoveSongs_leaf (ps, m) song).2)
    ∧ ∀ k, k ≠ id → s' !! k = songs_ (RemoveSongs_leaf (ps, m) song).2 !! k.
Proof.
  intros Hagree. unfold RemoveSongs_leaf.
  fold (upsert_known song (with_songs_ s m)). fold (upsert_known song m).
  assert (∃ s1, upsert_known song (with_songs_ s m) = with_songs_ s1 (upsert_known song m)
                ∧ ∀ k, k ≠ id → s1 !! k = songs_ (upsert_known song m) !! k)
    as (s1 & -> & Hs1).
  { destruct (upsert_known_same_but id song (with_songs_ s m) m) as [Ht Hs]; [done|].
    exists (songs_ (upsert_known song (with_songs_ s m))). split; [|done].
    unfold upsert_known in *. repeat case_match; reflexivity. }
  set (n := upsert_known song m) in *.
  change (song_nodes_ (with_songs_ s1 n)) with (song_nodes_ n).
  change (root_ (with_songs_ s1 n)) with (root_ n).
  destruct (song_nodes_ n !! Song.id song) as [node|].
  - push_songs. exists s1. split; [done|].
    intros k Hk. rewrite (Hs1 k Hk). unfold Delete. repeat case_match; done.
  - exists s1. done.
Qed.

Lemma RemoveSongs_leaf_fold_with_songs_ id songs s ps m :
  (∀ k, k ≠ id → s !! k = songs_ m !! k) →
  ∃ s',
    foldl RemoveSongs_leaf (ps, with_songs_ s m) songs
    = ((foldl RemoveSongs_leaf (ps, m) songs).1,
       with_songs_ s' (foldl RemoveSongs_leaf (ps, m) songs).2)
    ∧ ∀ k, k ≠ id → s' !! k = songs_ (foldl RemoveSongs_leaf (ps, m) songs).2 !! k.
Proof.
  revert s ps m. induction songs as [|x l IH]; intros s ps m Hagree.
  - exists s. done.
  - cbn [foldl].
    destruct (RemoveSongs_leaf_with_songs_ id s ps m x Hagree) as (s1 & -> & Hs1).
    destruct (RemoveSongs_leaf (ps, m) x) as [ps1 m1]. cbn [fst snd] in *.
    by apply IH.
Qed.

Lemma RemoveSongs_leaf_untracked ps m u :
  song_nodes_ m !! Song.id u = None →
  RemoveSongs_leaf (ps, m) u = (ps, upsert_known u m).
Proof.
  intros Hu. unfold RemoveSongs_leaf. fold (upsert_known u m).
  by rewrite upsert_known_song_nodes_, Hu.
Qed.

Lemma RemoveSongs_leaf_song_nodes_ acc song k :
  song_nodes_ acc.2 !! k = None → song_nodes_ (RemoveSongs_leaf acc song).2 !! k = None.
Proof.
  destruct acc as [ps m]. intros Hk. unfold RemoveSongs_leaf.
  fold (upsert_known song m). rewrite upsert_known_song_nodes_.
  destruct (song_nodes_ m !! Song.id song) as [node|] eqn:Hn.
  - cbn. apply lookup_delete_None. right.
    unfold Delete. repeat case_match; cbn; by rewrite ?upsert_known_song_nodes_.
  - cbn. by rewrite upsert_known_song_nodes_.
Qed.

Lemma RemoveSongs_untracked_with_songs_ l1 u l2 m :
  song_nodes_ m !! Song.id u = None →
  ∃ s,
    RemoveSongs (l1 ++ u :: l2) m = with_songs_ s <$> RemoveSongs (l1 ++ l2) m
    ∧ ∀ m2, RemoveSongs (l1 ++ l2) m = Some m2 →
            ∀ k, k ≠ Song.id u → s !! k = songs_ m2 !! k.
Proof.
  intros Hu. rewrite !RemoveSongs_unfold, !foldl_app. cbn [foldl].
  assert (song_nodes_ (foldl RemoveSongs_leaf ([], m) l1).2 !! Song.id u = None) as Hu1.
  { clear -Hu. generalize (@nil ptr). revert m Hu.
    induction l1 as [|x l IH] using rev_ind; intros m Hu ps; [done|].
    rewrite foldl_app. cbn [foldl]. by apply RemoveSongs_leaf_song_nodes_, IH. }
  destruct (foldl RemoveSongs_leaf ([], m) l1) as [ps1 m1]. cbn [snd] in Hu1.
  rewrite (RemoveSongs_leaf_untracked ps1 m1 u Hu1).
  assert (∃ s1, upsert_known u m1 = with_songs_ s1 m1
                ∧ ∀ k, k ≠ Song.id u → s1 !! k = songs_ m1 !! k) as (s1 & -> & Hs1).
  { exists (songs_ (upsert_known u m1)). unfold upsert_known. case_match.
    - split; [done|]. intros k Hk. cbn. by rewrite lookup_insert_ne.
    - split; [by rewrite with_songs_same|done]. }
  destruct (RemoveSongs_leaf_fold_with_songs_ (Song.id u) l2 s1 ps1 m1 Hs1)
    as (s2 & -> & Hs2).
  destruct (foldl RemoveSongs_leaf (ps1, m1) l2) as [ps2 m2]. cbn [fst snd] in *.
  exists s2. split; [apply RemoveSongs_rest_with_songs_|].
  intros m3 Hm3 k Hk. apply RemoveSongs_rest_songs_ in Hm3 as [-> _]. by apply Hs2.
Qed.

End Untracked.

(** ** Adding a batch twice *)

Lemma lookup_foldl_upsert songs table k :
  foldl upsert table songs !! k
  = match last_with k songs with Some s => Some s | None => table !! k end.
Proof.
  revert table. induction songs as [|s l IH]; intros table; cbn [foldl last_with]; [done|].
  rewrite IH. destruct (last_with k l); [done|]. unfold upsert.
  destruct (decide (Song.id s = k)) as [<-|Hne].
  - by rewrite lookup_insert_eq.
  - by rewrite lookup_insert_ne.
Qed.

Lemma foldl_upsert_twice songs table :
  foldl upsert (foldl upsert table songs) songs = foldl upsert table songs.
Proof.
  apply map_eq. intros k. rewrite !lookup_foldl_upsert.
  by destruct (last_with k songs).
Qed.

Section Idempotence.
Context `{External}.

Lemma AddSong_skipped song m :
  Matches song = false ∨ is_Some (song_nodes_ m !! Song.id song) →
  AddSong song m = with_songs_ (upsert (songs_ m) song) m.
Proof.
  intros Hskip. unfold AddSong. destruct (Matches song); cbn [negb]; [|done].
  destruct Hskip as [|Hs]; [done|].
  change (song_nodes_ (with_songs_ (<[Song.id song:=song]> (songs_ m)) m))
    with (song_nodes_ m).
  by rewrite bool_decide_eq_true_2.
Qed.

Lemma AddSong_added song m :
  Matches song = true → song_nodes_ m !! Song.id song = None →
  ∃ leaf,
    songs_ (AddSong song m) = upsert (songs_ m) song
    ∧ song_nodes_ (AddSong song m) = <[Song.id song := leaf]> (song_nodes_ m)
    ∧ log_ (AddSong song m) = log_ m.
Proof.
  intros Hm Hs. unfold AddSong. rewrite Hm. cbn [negb].
  change (song_nodes_ (with_songs_ (<[Song.id song:=song]> (songs_ m)) m))
    with (song_nodes_ m).
  rewrite bool_decide_eq_false_2 by (rewrite Hs; by intros [? ?]).
  pose proof (records_AddSongs_container 3 0 song
                (root_ (with_songs_ (<[Song.id song:=song]> (songs_ m)) m)) []
                (with_songs_ (<[Song.id song:=song]> (songs_ m)) m)) as Hc.
  destruct (AddSongs_container _ _ _ _ _ _) as [c m1]. cbn [snd] in Hc.
  pose proof (records_ItemFromSong GroupBy.None (separate_albums_by_grouping_ m1)
                true false c song (-1) m1) as Hi.
  destruct (ItemFromSong _ _ _ _ _ _ _ _) as [leaf m2]. cbn [snd] in Hi.
  rewrite Hc in Hi. unfold records in Hi. cbn in Hi.
  injection Hi as Hsongs Hnodes Hlog. cbn.
  exists leaf. by rewrite Hnodes.
Qed.

Lemma AddSong_songs_ song m : songs_ (AddSong song m) = upsert (songs_ m) song.
Proof.
  destruct (Matches song) eqn:Hm; [|by rewrite AddSong_skipped by auto].
  destruct (song_nodes_ m !! Song.id song) eqn:Hs;
    [by rewrite AddSong_skipped by eauto|].
  by destruct (AddSong_added song m Hm Hs) as (leaf & -> & _).
Qed.

Lemma AddSong_tracked song m k :
  is_Some (song_nodes_ m !! k) ∨ (k = Song.id song ∧ Matches song = true) →
  is_Some (song_nodes_ (AddSong song m) !! k).
Proof.
  intros Hk.
  destruct (Matches song) eqn:Hm.
  - destruct (song_nodes_ m !! Song.id song) eqn:Hs.
    + rewrite AddSong_skipped by eauto. destruct Hk as [|[-> _]]; [done|].
      cbn. rewrite Hs. eauto.
    + destruct (AddSong_added song m Hm Hs) as (leaf & _ & -> & _).
      destruct (decide (Song.id song = k)) as [->|Hne].
      * rewrite lookup_insert_eq. eauto.
      * rewrite lookup_insert_ne by done. by destruct Hk as [|[-> _]].
  - rewrite AddSong_skipped by auto. by destruct Hk as [|[_ ?]].
Qed.

Lemma AddSongs_tracked songs m k :
  is_Some (song_nodes_ m !! k)
  ∨ (∃ s, s ∈ songs ∧ Song.id s = k ∧ Matches s = true) →
  is_Some (song_nodes_ (AddSongs songs m) !! k).
Proof.
  unfold AddSongs. revert m. induction songs as [|x l IH]; intros m Hk; cbn [foldl].
  - destruct Hk as [|(s & Hs & _)]; [done|]. by apply elem_of_nil in Hs.
  - apply IH. destruct Hk as [Hk|(s & Hs & Hid & Hm)].
    + left. apply AddSong_tracked. by left.
    + apply elem_of_cons in Hs as [->|Hs].
      * left. apply AddSong_tracked. by right.
      * right. eauto.
Qed.

Lemma AddSongs_songs_ songs m :
  songs_ (AddSongs songs m) = foldl upsert (songs_ m) songs.
Proof.
  unfold AddSongs. revert m. induction songs as [|x l IH]; intros m; cbn [foldl]; [done|].
  by rewrite IH, AddSong_songs_.
Qed.

(** A batch whose matching songs all have their leaf changes the record
    table only. *)
Lemma AddSongs_all_tracked songs m :
  (∀ s, s ∈ songs → Matches s = true → is_Some (song_nodes_ m !! Song.id s)) →
  AddSongs songs m = with_songs_ (foldl upsert (songs_ m) songs) m.
Proof.
  unfold AddSongs. revert m. induction songs as [|x l IH]; intros m Hall; cbn [foldl].
  - by destruct m.
  - rewrite AddSong_skipped.
    + rewrite IH; [done|]. intros s Hs Hm. cbn. apply Hall; [by right|done].
    + destruct (Matches x) eqn:Hm; [right|by left]. apply Hall; [by left|done].
Qed.

(** C2.  Whatever the model, [AddSongs] of a batch on the model that
    [AddSongs] of the same batch returned returns that model: no item, no
    entry of a table, no stored record, no signal and no log entry is added
    or changed by the second call. *)
Theorem AddSongs_twice (songs : SongList) (m : Model) :
  AddSongs songs (AddSongs songs m) = AddSongs songs m.
Proof.
  rewrite (AddSongs_all_tracked songs (AddSongs songs m)).
  - rewrite AddSongs_songs_, foldl_upsert_twice, <- AddSongs_songs_.
    by destruct (AddSongs songs m).
  - intros s Hs Hm. apply AddSongs_tracked. right. eauto.
Qed.

End Idempotence.

(** ** Adding a batch and removing it *)

Section RoundTrip.
#[local] Existing Instance Sample.external.

(** C3 fails on the code.  Grouping by year with dividers shown, the song
    of 1994 is added to an empty tree and removed: the divider of the decade
    1990, which the addition created, is still in the tree and in
    [divider_nodes_].  Grouping by artist and album, the song of artist [A]
    and album [B-C] is added to the tree of the song of artist [A-B] and
    album [C], and removed: the container of artist [A], which the addition
    created and left without children, is still in the tree. *)
Theorem AddSongs_then_RemoveSongs_leaves_a_divider_and_a_container :
  (let m0 := Sample.empty_model by_year true in
   song_nodes_ m0 !! Song.id song_1994 = None
   ∧ containers_and_dividers m0 = []
   ∧ containers_and_dividers <$> RemoveSongs [song_1994] (AddSongs [song_1994] m0)
     = Some [(3%nat, (Type_Divider, qs "1990", 1%nat))]
   ∧ (divider_nodes_ <$> RemoveSongs [song_1994] (AddSongs [song_1994] m0))
     = Some {[ qs "1990" := 3%nat ]})
  ∧ (let m0 := AddSongs [song_AB_C] (Sample.empty_model by_artist_album false) in
     song_nodes_ m0 !! Song.id song_A_BC = None
     ∧ containers_and_dividers m0
       = [(2%nat, (Type_Container, qs "A-B", 1%nat));
          (3%nat, (Type_Container, qs "A-B-C", 2%nat))]
     ∧ containers_and_dividers <$> RemoveSongs [song_A_BC] (AddSongs [song_A_BC] m0)
       = Some [(2%nat, (Type_Container, qs "A-B", 1%nat));
               (5%nat, (Type_Container, qs "A", 1%nat));
               (3%nat, (Type_Container, qs "A-B-C", 2%nat))]
     ∧ (λ m, children (item m 5)) <$> RemoveSongs [song_A_BC] (AddSongs [song_A_BC] m0)
       = Some []).
Proof. vm_compute. repeat split; reflexivity. Qed.

End RoundTrip.

(** ** The tree that [AddSongs] builds *)

Section Tree.
Context `{External}.

Lemma under_snoc m n top p c :
  under m n top p → type (item m p) = Type_Container → c ∈ children (item m p) →
  under m (S n) top c.
Proof.
  revert top. induction n as [|n IH]; intros top Hu Hty Hc.
  - simpl in Hu. subst p. simpl. eauto.
  - destruct Hu as [Htop (c' & Hc' & Hu)]. split; [done|]. exists c'. split; [done|].
    by apply IH.
Qed.

Lemma extends_refl m : extends m m.
Proof. done. Qed.

Lemma extends_trans m1 m2 m3 : extends m1 m2 → extends m2 m3 → extends m1 m3.
Proof.
  intros (A1 & A2 & A3) (B1 & B2 & B3). split; [congruence|]. split; auto.
Qed.

Lemma under_extends m m' n top x : extends m m' → under m n top x → under m' n top x.
Proof.
  intros (_ & Hty & Hch). revert top. induction n as [|n IH]; intros top; [done|].
  intros [Htop (c & Hc & Hu)]. split; [auto|]. exists c. auto.
Qed.

Lemma reachable_extends m m' x : extends m m' → reachable m x → reachable m' x.
Proof.
  intros Hext (n & top & Htop & Hu). exists n, top. split.
  - destruct Hext as (-> & _ & Hch). auto.
  - by apply (under_extends m).
Qed.

Lemma item_not_allocated m p : ¬ allocated m p → item m p = null_item.
Proof.
  intros Hn. unfold item. destruct (heap m !! p) eqn:Hp; [|done].
  exfalso. apply Hn. by eexists.
Qed.

Lemma fresh_next m : fresh m → ¬ allocated m (next_ptr m).
Proof. intros Hf Ha. apply Hf in Ha. lia. Qed.

Lemma fresh_nullptr m : fresh m → ¬ allocated m nullptr.
Proof. intros Hf Ha. apply Hf in Ha. unfold nullptr in Ha. lia. Qed.

Lemma grown_new ty P m :
  fresh m → allocated m P →
  grown ty P (next_ptr m) m (new_CollectionItem ty P m).2.
Proof.
  intros Hf HP.
  assert (P ≠ next_ptr m) as Hne by (intros ->; by apply (fresh_next m)).
  assert (P ≠ nullptr) as Hnull by (intros ->; by apply (fresh_nullptr m)).
  pose proof (new_CollectionItem_new ty P m Hne) as Hnew.
  pose proof (new_CollectionItem_parent ty P m Hne Hnull HP) as Hpar.
  split; try done.
  - apply new_CollectionItem_allocated.
  - by rewrite Hnew.
  - by rewrite Hnew.
  - by rewrite Hnew.
  - by rewrite Hnew.
  - by rewrite Hpar.
  - by rewrite Hpar.
  - by rewrite Hpar.
  - by rewrite Hpar.
  - by rewrite Hpar.
  - left. by rewrite Hpar.
  - intros q Hq1 Hq2. by apply new_CollectionItem_other.
Qed.

(** Writes to the new item that keep its type, its children and its
    compilation link. *)
Lemma grown_update_item ty P c m m' f :
  fresh m → allocated m P →
  (∀ it, type (f it) = type it) → (∀ it, children (f it) = children it) →
  (∀ it, parent (f it) = parent it) →
  (∀ it, compilation_artist_node_ (f it) = nullptr
         ∨ compilation_artist_node_ (f it) = compilation_artist_node_ it) →
  grown ty P c m m' → grown ty P c m (update_item c f m').
Proof.
  intros Hf HP Hty Hch Hpa Hco [].
  assert (P ≠ c) as Hne by (intros ->; subst; by apply (fresh_next m)).
  assert (allocated m' c) as Hc by (apply grown_allocated0; auto).
  split; try done.
  - intros q. by rewrite allocated_update_item.
  - by rewrite item_update_item_same, Hty.
  - by rewrite item_update_item_same, Hch.
  - rewrite item_update_item_same by done. destruct (Hco (item m' c)); congruence.
  - by rewrite item_update_item_same, Hpa.
  - by rewrite item_update_item_other.
  - by rewrite item_update_item_other.
  - by rewrite item_update_item_other.
  - by rewrite item_update_item_other.
  - by rewrite item_update_item_other.
  - by rewrite item_update_item_other.
  - intros q Hq1 Hq2. rewrite item_update_item_other by done. auto.
Qed.

Lemma same_items_refl m : same_items m m.
Proof. done. Qed.

Lemma same_items_trans m1 m2 m3 : same_items m1 m2 → same_items m2 m3 → same_items m1 m3.
Proof. intros (?&?&?&?) (?&?&?&?). repeat split; congruence. Qed.

Lemma same_items_emit s m : same_items m (emit s m).
Proof. done. Qed.

Lemma same_items_with_divider_nodes_ v m : same_items m (with_divider_nodes_ v m).
Proof. done. Qed.

Lemma same_items_with_song_nodes_ v m : same_items m (with_song_nodes_ v m).
Proof. done. Qed.

Lemma same_items_with_songs_ v m : same_items m (with_songs_ v m).
Proof. done. Qed.

Lemma same_items_item m m' q : same_items m m' → item m' q = item m q.
Proof. intros (Hh & _). unfold item. by rewrite Hh. Qed.

Lemma same_items_allocated m m' q : same_items m m' → allocated m' q ↔ allocated m q.
Proof. intros (Hh & _). unfold allocated. by rewrite Hh. Qed.

Lemma grown_same_items_r ty P c m m1 m2 :
  same_items m1 m2 → grown ty P c m m1 → grown ty P c m m2.
Proof.
  intros Hs []. pose proof Hs as (Hh & Hn & Hf & Hc).
  split; rewrite ?(same_items_item m1 m2) by done; try done; try congruence.
  - intros q. by rewrite (same_items_allocated m1 m2).
  - intros q Hq1 Hq2. rewrite (same_items_item m1 m2) by done. auto.
Qed.

Lemma grown_same_items_l ty P c m0 m m1 :
  same_items m0 m → grown ty P c m m1 → grown ty P c m0 m1.
Proof.
  intros Hs []. pose proof Hs as (Hh & Hn & Hf & Hc).
  split; rewrite <- ?(same_items_item m0 m) by done; try done; try congruence.
  - intros q. by rewrite <- (same_items_allocated m0 m).
  - intros q Hq1 Hq2. rewrite <- (same_items_item m0 m) by done. auto.
Qed.

End Tree.

Section Growth.
Context `{External}.

Lemma frame_root_ m m' : frame m' = frame m → root_ m' = root_ m.
Proof. unfold frame. congruence. Qed.

Lemma reachable_allocated ok m x : Inv ok m → reachable m x → allocated m x.
Proof.
  intros HI (n & top & Htop & Hu).
  assert (allocated m top) as Ha by (by apply (inv_children ok m HI (root_ m))).
  clear Htop. revert top Ha Hu. induction n as [|n IH]; intros top Ha Hu.
  - simpl in Hu. by subst.
  - destruct Hu as [_ (c & Hc & Hu)]. apply (IH c); [|done].
    by apply (inv_children ok m HI top).
Qed.

Section Grown.
Variables (ty : ItemType) (P c : ptr) (m m' : Model).
Hypothesis Hfresh : fresh m.
Hypothesis HP : allocated m P.
Hypothesis Hg : grown ty P c m m'.

Lemma grown_new_not_allocated : ¬ allocated m c.
Proof. rewrite (grown_ptr _ _ _ _ _ Hg). by apply fresh_next. Qed.

Lemma grown_new_item : item m c = null_item.
Proof. apply item_not_allocated, grown_new_not_allocated. Qed.

Lemma grown_parent_ne : P ≠ c.
Proof. intros Heq. apply grown_new_not_allocated. by rewrite <- Heq. Qed.

Lemma grown_fresh : fresh m'.
Proof.
  intros q Hq. apply (grown_allocated _ _ _ _ _ Hg) in Hq.
  rewrite (grown_next _ _ _ _ _ Hg). destruct Hq as [->|Hq].
  - apply Hfresh in HP. rewrite (grown_ptr _ _ _ _ _ Hg). lia.
  - apply Hfresh in Hq. rewrite (grown_ptr _ _ _ _ _ Hg). lia.
Qed.

Lemma grown_allocated_old q : allocated m q → allocated m' q ∧ q ≠ c.
Proof.
  intros Hq. split; [apply (grown_allocated _ _ _ _ _ Hg); auto|].
  intros ->. by apply grown_new_not_allocated.
Qed.

(** The fields of the old items. *)
Lemma grown_old q :
  q ≠ c →
  type (item m' q) = type (item m q)
  ∧ container_level (item m' q) = container_level (item m q)
  ∧ metadata (item m' q) = metadata (item m q)
  ∧ parent (item m' q) = parent (item m q).
Proof.
  intros Hq. destruct (decide (q = P)) as [->|Hne].
  - split; [exact (grown_parent_type _ _ _ _ _ Hg)|].
    split; [exact (grown_parent_level _ _ _ _ _ Hg)|].
    split; [exact (grown_parent_metadata _ _ _ _ _ Hg)|].
    exact (grown_parent_parent _ _ _ _ _ Hg).
  - by rewrite (grown_others _ _ _ _ _ Hg).
Qed.

Lemma grown_old_children q x :
  x ∈ children (item m' q) →
  q ≠ c ∧ (x ∈ children (item m q) ∨ (q = P ∧ x = c)).
Proof.
  intros Hx. destruct (decide (q = c)) as [->|Hq].
  { rewrite (grown_children _ _ _ _ _ Hg) in Hx. by apply elem_of_nil in Hx. }
  split; [done|]. destruct (decide (q = P)) as [->|Hne].
  - rewrite (grown_parent_children _ _ _ _ _ Hg) in Hx.
    apply elem_of_app in Hx as [Hx|Hx]; [by left|].
    apply list_elem_of_singleton in Hx. by right.
  - rewrite (grown_others _ _ _ _ _ Hg) in Hx by done. by left.
Qed.

Lemma grown_children_mono q x :
  x ∈ children (item m q) → x ∈ children (item m' q).
Proof.
  intros Hx. destruct (decide (q = c)) as [->|Hq].
  { rewrite grown_new_item in Hx. by apply elem_of_nil in Hx. }
  destruct (decide (q = P)) as [->|Hne].
  - rewrite (grown_parent_children _ _ _ _ _ Hg). apply elem_of_app. by left.
  - by rewrite (grown_others _ _ _ _ _ Hg).
Qed.

Lemma grown_old_compilation q :
  q ≠ c →
  compilation_artist_node_ (item m' q) = compilation_artist_node_ (item m q)
  ∨ (q = P ∧ compilation_artist_node_ (item m' q) = c ∧ ty = Type_Container).
Proof.
  intros Hq. destruct (decide (q = P)) as [->|Hne].
  - destruct (grown_parent_compilation _ _ _ _ _ Hg); auto.
  - left. by rewrite (grown_others _ _ _ _ _ Hg).
Qed.

Lemma grown_old_type q T :
  T ≠ Type_LoadingIndicator → type (item m q) = T → q ≠ c.
Proof. intros HT Hq ->. rewrite grown_new_item in Hq. by subst T. Qed.

Lemma grown_extends : extends m m'.
Proof.
  split; [apply frame_root_, (grown_frame _ _ _ _ _ Hg)|]. split.
  - intros q Hq. assert (q ≠ c) as Hne by by apply (grown_old_type q Type_Container).
    destruct (grown_old q Hne) as (-> & _). done.
  - apply grown_children_mono.
Qed.

Lemma grown_reachable :
  P = root_ m ∨ (type (item m P) = Type_Container ∧ reachable m P) → reachable m' c.
Proof.
  assert (c ∈ children (item m' P)) as Hc.
  { rewrite (grown_parent_children _ _ _ _ _ Hg). apply elem_of_app. right.
    by apply list_elem_of_singleton. }
  intros [Heq|[Hty Hr]].
  - exists 0%nat, c. split; [|done].
    rewrite (frame_root_ m m') by apply (grown_frame _ _ _ _ _ Hg).
    by rewrite <- Heq.
  - apply (reachable_extends m m' P grown_extends) in Hr as (n & top & Htop & Hu).
    exists (S n), top. split; [done|]. apply (under_snoc m' n top P c); [done| |done].
    rewrite (grown_parent_type _ _ _ _ _ Hg). done.
Qed.

End Grown.
End Growth.

Section Invariant.
Context `{External}.

Lemma Inv_grown ok ty P c m m' :
  Inv ok m → allocated m P → grown ty P c m m' → settled ok ty P c m m' →
  Inv ok m'.
Proof.
  intros HI HP Hg Hs.
  pose proof (inv_fresh ok m HI) as Hf.
  pose proof (grown_old ty P c m m' Hg) as Hold.
  pose proof (grown_old_children ty P c m m' Hg) as Hch.
  pose proof (grown_allocated_old ty P c m m' Hf Hg) as Hal.
  pose proof (grown_extends ty P c m m' Hf Hg) as Hext.
  pose proof (frame_root_ m m' (grown_frame _ _ _ _ _ Hg)) as Hroot.
  pose proof (grown_old_type ty P c m m' Hf Hg) as Hnew.
  assert (song_nodes_ m' = song_nodes_ m
          ∨ (ty = Type_Song
             ∧ song_nodes_ m !! Song.id (metadata (item m' c)) = None
             ∧ song_nodes_ m' = <[Song.id (metadata (item m' c)) := c]> (song_nodes_ m)
             ∧ ok (metadata (item m' c)) ∧ reachable m' c)) as Hnodes.
  { destruct ty; simpl in Hs; try (by left); [tauto|]. right. tauto. }
  split.
  - by apply (grown_fresh ty P c m m').
  - rewrite Hroot. destruct (inv_root ok m HI) as (Hra & Hrt & Hrl).
    destruct (Hal _ Hra) as [Hra' Hrc]. destruct (Hold _ Hrc) as (-> & -> & _). done.
  - intros p x Hx. apply Hch in Hx as [Hp [Hx|[-> ->]]].
    + apply Hal. by apply (inv_children ok m HI p).
    + apply (grown_allocated _ _ _ _ _ Hg). by left.
  - intros p x Hx. apply Hch in Hx as [Hp [Hx|[-> ->]]].
    + assert (x ≠ c) as Hxc by (apply Hal; by apply (inv_children ok m HI p)).
      destruct (Hold _ Hxc) as (_ & _ & _ & ->). by apply (inv_parent ok m HI).
    + apply (grown_new_parent _ _ _ _ _ Hg).
  - intros p Hp. destruct (decide (p = c)) as [->|Hpc].
    + rewrite (grown_type _ _ _ _ _ Hg) in Hp. subst ty. simpl in Hs. lia.
    + destruct (Hold _ Hpc) as (Hty & -> & _). rewrite Hty in Hp.
      by apply (inv_level ok m HI).
  - intros p x Hp Hx Hxt. apply Hch in Hx as [Hpc [Hx|[-> ->]]].
    + assert (x ≠ c) as Hxc by (apply Hal; by apply (inv_children ok m HI p)).
      destruct (Hold _ Hxc) as (Hty & -> & _). destruct (Hold _ Hpc) as (Hty' & -> & _).
      rewrite Hty in Hxt. rewrite Hty' in Hp. by apply (inv_level_child ok m HI).
    + rewrite (grown_type _ _ _ _ _ Hg) in Hxt. subst ty. simpl in Hs.
      destruct (Hold _ Hpc) as (_ & -> & _). tauto.
  - intros p Hp. destruct (decide (p = c)) as [->|Hpc].
    { by rewrite (grown_compilation _ _ _ _ _ Hg) in Hp. }
    destruct (Hold _ Hpc) as (_ & Hlvl & _). rewrite Hlvl.
    destruct (grown_old_compilation ty P c m m' Hg p Hpc) as [Heq|(-> & Heq & ->)].
    + rewrite Heq in *. destruct (inv_compilation ok m HI p Hp) as (Hin & Hty & Hl).
      assert (compilation_artist_node_ (item m p) ≠ c) as Hne
        by (apply Hal; by apply (inv_children ok m HI p)).
      destruct (Hold _ Hne) as (-> & -> & _).
      split; [by apply (grown_children_mono ty P c m m' Hf Hg)|done].
    + rewrite Heq. simpl in Hs.
      split; [|split; [apply (grown_type _ _ _ _ _ Hg)|tauto]].
      rewrite (grown_parent_children _ _ _ _ _ Hg). apply elem_of_app. right.
      by apply list_elem_of_singleton.
  - intros k leaf Hk.
    assert (song_nodes_ m !! k = Some leaf → type (item m' leaf) = Type_Song
              ∧ Song.id (metadata (item m' leaf)) = k ∧ reachable m' leaf) as Hkeep.
    { intros Hk'. destruct (inv_song_nodes ok m HI k leaf Hk') as (Hty & Hid & Hr).
      assert (leaf ≠ c) as Hne by by apply (Hnew leaf Type_Song).
      destruct (Hold _ Hne) as (-> & _ & -> & _).
      split; [done|]. split; [done|]. by apply (reachable_extends m m'). }
    destruct Hnodes as [Heq|(-> & Hnone & Heq & Hok & Hr)]; rewrite Heq in Hk; [auto|].
    destruct (decide (Song.id (metadata (item m' c)) = k)) as [<-|Hne].
    + rewrite lookup_insert_eq in Hk. injection Hk as <-.
      split; [apply (grown_type _ _ _ _ _ Hg)|done].
    + rewrite lookup_insert_ne in Hk by done. auto.
  - intros p Hp. destruct (decide (p = c)) as [->|Hpc].
    + rewrite (grown_type _ _ _ _ _ Hg) in Hp. subst ty.
      simpl in Hs. destruct Hs as (_ & Heq' & Hok & _).
      by rewrite Heq', lookup_insert_eq.
    + destruct (Hold _ Hpc) as (Hty & _ & -> & _). rewrite Hty in Hp.
      destruct (inv_songs ok m HI p Hp) as [Hin Hok]. split; [|done].
      destruct Hnodes as [->|(_ & Hnone & -> & _)]; [done|].
      rewrite lookup_insert_ne; [done|]. intros Heq. rewrite Heq in Hnone. congruence.
  - intros i k x Hx. unfold container_nodes_at in *.
    rewrite (grown_container_nodes _ _ _ _ _ Hg) in Hx.
    destruct (inv_container_nodes ok m HI i k x Hx) as (Hty & Hl & Hr).
    assert (x ≠ c) as Hne by by apply (Hnew x Type_Container).
    destruct (Hold _ Hne) as (-> & -> & _).
    split; [done|]. split; [done|]. by apply (reachable_extends m m').
Qed.

End Invariant.

Section Tables.
Context `{External}.

Lemma container_nodes_at_with i v m j k x :
  container_nodes_at (with_container_nodes_at i v m) j !! k = Some x →
  container_nodes_at m j !! k = Some x ∨ (j = i ∧ v !! k = Some x).
Proof.
  unfold container_nodes_at, with_container_nodes_at.
  destruct (Z.ltb_spec i 0) as [Hi|Hi]; [by left|].
  destruct (Z.ltb_spec j 0) as [Hj|Hj]; [by left|].
  cbn [container_nodes_ with_container_nodes_].
  destruct (decide (Z.to_nat i = Z.to_nat j)) as [Heq|Hne].
  - assert (j = i) as -> by lia.
    destruct (decide (Z.to_nat i < length (container_nodes_ m))%nat) as [Hlt|Hge].
    + rewrite list_lookup_insert_eq by done. by right.
    + rewrite list_insert_ge by lia. by left.
  - rewrite list_lookup_insert_ne by done. by left.
Qed.

(** The invariant looks at the items, at the allocator, at the root and at
    the tables of leaves and of containers only; the table of containers may
    take more entries. *)
Lemma Inv_retable ok m m' :
  heap m' = heap m → next_ptr m' = next_ptr m → root_ m' = root_ m →
  song_nodes_ m' = song_nodes_ m →
  (∀ j k x, container_nodes_at m' j !! k = Some x →
            container_nodes_at m j !! k = Some x
            ∨ (type (item m x) = Type_Container ∧ container_level (item m x) = j
               ∧ reachable m x)) →
  Inv ok m → Inv ok m'.
Proof.
  intros Hh Hn Hr Hs Hc HI.
  assert (∀ q, item m' q = item m q) as Hi by (intros q; unfold item; by rewrite Hh).
  assert (∀ q, allocated m' q ↔ allocated m q) as Ha
    by (intros q; unfold allocated; by rewrite Hh).
  assert (∀ x, reachable m x → reachable m' x) as Hre.
  { intros x. apply reachable_extends. split; [done|]. split; intros q; by rewrite Hi. }
  split.
  - intros p Hp. rewrite Hn. apply (inv_fresh ok m HI). by apply Ha.
  - rewrite Hr, Hi, Ha. apply (inv_root ok m HI).
  - intros p x. rewrite Hi, Ha. apply (inv_children ok m HI).
  - intros p x. rewrite !Hi. apply (inv_parent ok m HI).
  - intros p. rewrite !Hi. apply (inv_level ok m HI).
  - intros p x. rewrite !Hi. apply (inv_level_child ok m HI).
  - intros p. rewrite !Hi. apply (inv_compilation ok m HI).
  - intros k leaf. rewrite Hs, !Hi. intros Hk.
    destruct (inv_song_nodes ok m HI k leaf Hk) as (? & ? & ?). auto.
  - intros p. rewrite Hs, !Hi. apply (inv_songs ok m HI).
  - intros j k x Hx. rewrite !Hi. apply Hc in Hx as [Hx|(? & ? & ?)]; [|auto].
    destruct (inv_container_nodes ok m HI j k x Hx) as (? & ? & ?). auto.
Qed.

Lemma Inv_same_items ok m m' :
  same_items m m' → song_nodes_ m' = song_nodes_ m → Inv ok m → Inv ok m'.
Proof.
  intros (Hh & Hn & Hf & Hc) Hs. apply Inv_retable; try done.
  - by apply frame_root_.
  - intros j k x. unfold container_nodes_at. rewrite Hc. by left.
Qed.

Lemma Inv_with_container_nodes_at ok i k c m :
  Inv ok m → type (item m c) = Type_Container → container_level (item m c) = i →
  reachable m c →
  Inv ok (with_container_nodes_at i (<[k := c]> (container_nodes_at m i)) m).
Proof.
  intros HI Hty Hl Hr.
  assert (∀ v, heap (with_container_nodes_at i v m) = heap m
               ∧ next_ptr (with_container_nodes_at i v m) = next_ptr m
               ∧ root_ (with_container_nodes_at i v m) = root_ m
               ∧ song_nodes_ (with_container_nodes_at i v m) = song_nodes_ m) as Hsame.
  { intros v. unfold with_container_nodes_at. by destruct (i <? 0). }
  destruct (Hsame (<[k := c]> (container_nodes_at m i))) as (? & ? & ? & ?).
  apply (Inv_retable ok m); try done.
  intros j k' x Hx. apply container_nodes_at_with in Hx as [Hx|[-> Hx]]; [by left|].
  destruct (decide (k = k')) as [->|Hne].
  - rewrite lookup_insert_eq in Hx. injection Hx as <-. by right.
  - rewrite lookup_insert_ne in Hx by done. by left.
Qed.

End Tables.

(** ** The items that the insertion creates *)

Section Creation.
Context `{External}.

Lemma same_items_fresh m m' : same_items m m' → fresh m → fresh m'.
Proof.
  intros Hs Hf q Hq. apply (same_items_allocated m m' q Hs) in Hq.
  destruct Hs as (_ & -> & _). by apply Hf.
Qed.

Lemma same_items_root_ m m' : same_items m m' → root_ m' = root_ m.
Proof. intros (_ & _ & Hf & _). by apply frame_root_. Qed.

Lemma same_items_sym m m' : same_items m m' → same_items m' m.
Proof. intros (? & ? & ? & ?). by repeat split. Qed.

Lemma same_items_begin (signal : bool) idx a b m :
  same_items m (if signal then beginInsertRows idx a b m else m).
Proof. by destruct signal. Qed.

Lemma same_items_end (signal : bool) m :
  same_items m (if signal then endInsertRows m else m).
Proof. by destruct signal. Qed.

Lemma song_nodes_update_item p f m : song_nodes_ (update_item p f m) = song_nodes_ m.
Proof. reflexivity. Qed.

Lemma InitItem_grown gb signal P lvl m :
  fresh m → allocated m P →
  let ty := if GroupBy.eqb gb GroupBy.None then Type_Song else Type_Container in
  let p := (InitItem gb signal P lvl m).1 in
  let m' := (InitItem gb signal P lvl m).2 in
  p = next_ptr m ∧ grown ty P p m m' ∧ container_level (item m' p) = lvl
  ∧ song_nodes_ m' = song_nodes_ m.
Proof.
  intros Hf HP ty. unfold InitItem. fold ty.
  set (m0 := if signal then _ else m).
  assert (same_items m m0) as Hs0 by apply same_items_begin.
  assert (song_nodes_ m0 = song_nodes_ m) as Hn0 by (unfold m0; by destruct signal).
  assert (fresh m0) as Hf0 by by apply (same_items_fresh m).
  assert (allocated m0 P) as HP0 by by apply (same_items_allocated m m0).
  pose proof (grown_new ty P m0 Hf0 HP0) as Hg.
  pose proof (new_CollectionItem_ptr ty P m0) as Hptr.
  assert (song_nodes_ (new_CollectionItem ty P m0).2 = song_nodes_ m0) as Hn1
    by reflexivity.
  destruct (new_CollectionItem ty P m0) as [p m1]. cbn [fst snd] in *. subst p.
  assert (next_ptr m0 = next_ptr m) as Hnext by apply Hs0.
  rewrite Hnext in *.
  apply (grown_same_items_l ty P (next_ptr m) m m0 m1 Hs0) in Hg.
  split; [done|]. split; [|split].
  - apply grown_update_item; try done; [by right|].
    apply grown_update_item; try done. by left.
  - rewrite item_update_item_same; [done|].
    rewrite allocated_update_item. apply (grown_allocated _ _ _ _ _ Hg). by left.
  - rewrite !song_nodes_update_item. congruence.
Qed.

Lemma ItemFromSong_switch_keeps m gb sep s it :
  let it' := ItemFromSong_switch m gb sep s it in
  type it' = type it ∧ children it' = children it ∧ parent it' = parent it
  ∧ compilation_artist_node_ it' = compilation_artist_node_ it
  ∧ container_level it' = container_level it.
Proof. destruct gb; done. Qed.

Lemma ItemFromSong_switch_song m sep s it :
  metadata (ItemFromSong_switch m GroupBy.None sep s it) = s.
Proof. reflexivity. Qed.

Lemma FinishItem_grown ty P0 p m0 gb signal cd P m :
  fresh m0 → allocated m0 P0 → allocated m0 (root_ m0) → grown ty P0 p m0 m →
  ∃ m1, grown ty P0 p m0 m1
        ∧ container_level (item m1 p) = container_level (item m p)
        ∧ metadata (item m1 p) = metadata (item m p)
        ∧ song_nodes_ m1 = song_nodes_ m
        ∧ (same_items m1 (FinishItem gb signal cd P p m)
           ∨ grown Type_Divider (root_ m1) (next_ptr m1) m1
               (FinishItem gb signal cd P p m)).
Proof.
  intros Hf0 HP0 Hr0 Hg. unfold FinishItem.
  set (ma := if signal then endInsertRows m else m).
  assert (same_items m ma) as Hsa by apply same_items_end.
  assert (song_nodes_ ma = song_nodes_ m) as Hna by (unfold ma; by destruct signal).
  assert (grown ty P0 p m0 ma) as Hga by apply (grown_same_items_r _ _ _ _ _ _ Hsa Hg).
  assert (∀ q, item ma q = item m q) as Hia by (intros q; by apply same_items_item).
  destruct (cd && show_dividers_ ma).
  2: { exists ma. rewrite !Hia. repeat split; try done; try apply Hga. by left. }
  set (dk := DividerKey gb (item ma p)).
  destruct (negb (isEmpty dk)) eqn:Hdk; cbn [andb].
  2: { exists ma. rewrite !Hia. repeat split; try done; try apply Hga. by left. }
  set (mb := update_item p (λ it, set_sort_text ((dk ++ qs " ") ++ sort_text it) it) ma).
  assert (grown ty P0 p m0 mb) as Hgb.
  { apply grown_update_item; try done. by right. }
  assert (container_level (item mb p) = container_level (item m p)) as Hlb.
  { unfold mb. by rewrite update_item_field, Hia. }
  assert (metadata (item mb p) = metadata (item m p)) as Hmb.
  { unfold mb. by rewrite update_item_field, Hia. }
  exists mb. split; [done|]. split; [done|]. split; [done|]. split; [done|].
  destruct (negb (bool_decide _)); [right|by left].
  set (mc := if signal then _ else mb).
  assert (same_items mb mc) as Hsc by apply same_items_begin.
  assert (fresh mb) as Hfb by apply (grown_fresh ty P0 p m0 mb Hf0 HP0 Hgb).
  assert (allocated mb (root_ mb)) as Hrb.
  { rewrite (frame_root_ m0 mb) by apply (grown_frame _ _ _ _ _ Hgb).
    apply (grown_allocated _ _ _ _ _ Hgb). by right. }
  assert (root_ mc = root_ mb) as Hroot by by apply same_items_root_.
  assert (next_ptr mc = next_ptr mb) as Hnext by apply Hsc.
  assert (fresh mc) as Hfc by by apply (same_items_fresh mb).
  assert (allocated mc (root_ mc)) as Hrc.
  { rewrite Hroot. by apply (same_items_allocated mb mc). }
  pose proof (grown_new Type_Divider (root_ mc) mc Hfc Hrc) as Hd.
  pose proof (new_CollectionItem_ptr Type_Divider (root_ mc) mc) as Hptr.
  destruct (new_CollectionItem Type_Divider (root_ mc) mc) as [d md].
  cbn [fst snd] in *. subst d.
  apply (grown_same_items_l _ _ _ mb) in Hd; [|done].
  rewrite Hroot, Hnext in Hd. rewrite Hnext.
  eapply grown_same_items_r; [apply same_items_end|].
  eapply grown_same_items_r; [apply same_items_with_divider_nodes_|].
  do 3 (apply grown_update_item; try done; try (by right)).
Qed.

Lemma ItemFromSong_grown gb sep signal cd P s lvl m :
  fresh m → allocated m P → allocated m (root_ m) →
  let ty := if GroupBy.eqb gb GroupBy.None then Type_Song else Type_Container in
  let p := (ItemFromSong gb sep signal cd P s lvl m).1 in
  let m' := (ItemFromSong gb sep signal cd P s lvl m).2 in
  p = next_ptr m
  ∧ ∃ m1, grown ty P p m m1
          ∧ container_level (item m1 p) = lvl
          ∧ (gb = GroupBy.None → metadata (item m1 p) = s)
          ∧ song_nodes_ m1 = song_nodes_ m
          ∧ (same_items m1 m' ∨ grown Type_Divider (root_ m1) (next_ptr m1) m1 m').
Proof.
  intros Hf HP Hr ty. unfold ItemFromSong.
  destruct (InitItem_grown gb signal P lvl m Hf HP) as (Hp & Hg & Hl & Hn).
  fold ty in Hg.
  destruct (InitItem gb signal P lvl m) as [p m1]. cbn [fst snd] in *. subst p.
  set (m2 := if _ && _ then _ else m1).
  assert (grown ty P (next_ptr m) m m2) as Hg2.
  { unfold m2. destruct (_ && _); [|done]. apply grown_update_item; try done. by right. }
  assert (container_level (item m2 (next_ptr m)) = lvl) as Hl2.
  { unfold m2. destruct (_ && _); [|done]. by rewrite update_item_field. }
  assert (song_nodes_ m2 = song_nodes_ m) as Hn2.
  { unfold m2. by destruct (_ && _). }
  set (m3 := update_item (next_ptr m) (ItemFromSong_switch m2 gb sep s) m2).
  assert (allocated m2 (next_ptr m)) as Ha2.
  { apply (grown_allocated _ _ _ _ _ Hg2). by left. }
  assert (grown ty P (next_ptr m) m m3) as Hg3.
  { apply grown_update_item; try done; try (intros it; apply ItemFromSong_switch_keeps).
    intros it. right. apply ItemFromSong_switch_keeps. }
  assert (container_level (item m3 (next_ptr m)) = lvl) as Hl3.
  { unfold m3. rewrite update_item_field; [done|].
    intros it. apply ItemFromSong_switch_keeps. }
  assert (gb = GroupBy.None → metadata (item m3 (next_ptr m)) = s) as Hm3.
  { intros ->. unfold m3. by rewrite item_update_item_same. }
  destruct (FinishItem_grown ty P (next_ptr m) m gb signal cd P m3 Hf HP Hr Hg3)
    as (m4 & Hg4 & Hl4 & Hm4 & Hn4 & Hfin).
  split; [done|]. exists m4. split; [done|]. split; [congruence|].
  split; [intros Hgb; rewrite Hm4; auto|]. split; [|done].
  rewrite Hn4. unfold m3. by rewrite song_nodes_update_item.
Qed.

Lemma CreateCompilationArtistNode_grown signal P m :
  fresh m → allocated m P →
  let node := next_ptr m in
  let m' := (CreateCompilationArtistNode signal P m).2 in
  grown Type_Container P node m m'
  ∧ container_level (item m' node) = container_level (item m P) + 1
  ∧ compilation_artist_node_ (item m' P) = node
  ∧ song_nodes_ m' = song_nodes_ m.
Proof.
  intros Hf HP node m'.
  assert (P ≠ next_ptr m) as Hne by (intros ->; by apply (fresh_next m)).
  assert (P ≠ nullptr) as Hnull by (intros ->; by apply (fresh_nullptr m)).
  destruct (CreateCompilationArtistNode_items signal P m HP Hnull Hne)
    as (Hnode & Hty & _ & Hpa & Hch & Hco & Hl & Hpar & Hoth & Hal & Hnext & Htab).
  fold m' in Hty, Hpa, Hch, Hco, Hl, Hpar, Hoth, Hal, Hnext, Htab.
  rewrite Hnode in Hty, Hpa, Hch, Hco, Hl. fold node in Hty, Hpa, Hch, Hco, Hl.
  unfold tables in Htab.
  split; [|split; [done|split; [by rewrite Hpar|congruence]]].
  split; try done; try (by rewrite Hpar).
  - right. by rewrite Hpar.
  - apply frame_CreateCompilationArtistNode.
  - congruence.
Qed.

End Creation.

(** ** [AddSongs] keeps the invariant *)

Section Insertion.
Context `{External}.
Variable ok : Song.t → Prop.

Lemma reachable_child m P x : hangs m P → x ∈ children (item m P) → reachable m x.
Proof.
  intros [->|[Hty (n & top & Htop & Hu)]] Hx.
  - by exists 0%nat, x.
  - exists (S n), top. split; [done|]. by apply (under_snoc m n top P x).
Qed.

(** The old items after the divider, if any, was added. *)
Lemma Inv_divider_step m1 m' :
  Inv ok m1 → song_nodes_ m' = song_nodes_ m1 →
  same_items m1 m' ∨ grown Type_Divider (root_ m1) (next_ptr m1) m1 m' →
  Inv ok m'
  ∧ root_ m' = root_ m1
  ∧ ∀ q, allocated m1 q →
         allocated m' q ∧ type (item m' q) = type (item m1 q)
         ∧ container_level (item m' q) = container_level (item m1 q)
         ∧ (reachable m1 q → reachable m' q).
Proof.
  intros HI Hn [Hs|Hg].
  - split; [by apply (Inv_same_items ok m1)|]. split; [by apply same_items_root_|].
    intros q Hq. rewrite (same_items_item m1 m') by done.
    split; [by apply (same_items_allocated m1 m')|]. split; [done|]. split; [done|].
    apply reachable_extends. destruct Hs as (Hh & _ & Hf & _).
    split; [by apply frame_root_|].
    split; intros p; unfold item; by rewrite Hh.
  - pose proof (inv_fresh ok m1 HI) as Hf.
    destruct (inv_root ok m1 HI) as (Hr & _).
    split; [by apply (Inv_grown ok Type_Divider (root_ m1) (next_ptr m1) m1 m')|].
    split; [apply frame_root_, (grown_frame _ _ _ _ _ Hg)|].
    intros q Hq.
    destruct (grown_allocated_old _ _ _ _ _ Hf Hg q Hq) as [Hq' Hne].
    destruct (grown_old _ _ _ _ _ Hg q Hne) as (Hty & Hl & _).
    split; [done|]. split; [done|]. split; [done|].
    apply reachable_extends. by apply (grown_extends Type_Divider (root_ m1) (next_ptr m1)).
Qed.

Lemma ItemFromSong_Inv_container gb sep signal cd P s lvl m :
  Inv ok m → allocated m P → hangs m P →
  container_level (item m P) = lvl - 1 → 0 ≤ lvl ≤ 2 →
  GroupBy.eqb gb GroupBy.None = false →
  let p := (ItemFromSong gb sep signal cd P s lvl m).1 in
  let m' := (ItemFromSong gb sep signal cd P s lvl m).2 in
  Inv ok m' ∧ allocated m' p ∧ type (item m' p) = Type_Container
  ∧ container_level (item m' p) = lvl ∧ reachable m' p
  ∧ song_nodes_ m' = song_nodes_ m.
Proof.
  intros HI HP Hh Hl Hlvl Hgb p m'.
  pose proof (inv_fresh ok m HI) as Hf.
  destruct (inv_root ok m HI) as (Hr & _).
  destruct (ItemFromSong_grown gb sep signal cd P s lvl m Hf HP Hr)
    as (Hp & m1 & Hg & Hl1 & _ & Hn1 & Hfin).
  fold p m' in Hp, Hg, Hl1, Hfin. rewrite Hgb in Hg.
  pose proof (records_ItemFromSong gb sep signal cd P s lvl m) as Hrec.
  fold m' in Hrec. assert (song_nodes_ m' = song_nodes_ m) as Hn
    by (unfold records in Hrec; congruence).
  assert (Inv ok m1) as HI1.
  { apply (Inv_grown ok Type_Container P p m m1); try done. simpl.
    split; [lia|]. split; [lia|done]. }
  assert (allocated m1 p) as Hp1 by (apply (grown_allocated _ _ _ _ _ Hg); by left).
  assert (reachable m1 p) as Hr1 by by apply (grown_reachable Type_Container P p m m1).
  destruct (Inv_divider_step m1 m' HI1) as (HI' & _ & Hold); [congruence|done|].
  destruct (Hold p Hp1) as (Hp' & Hty & Hl' & Hre).
  split; [done|]. split; [done|].
  split; [by rewrite Hty, (grown_type _ _ _ _ _ Hg)|].
  split; [congruence|]. split; [auto|done].
Qed.

Lemma ItemFromSong_Inv_song sep signal cd P s lvl m :
  Inv ok m → allocated m P → hangs m P →
  song_nodes_ m !! Song.id s = None → ok s →
  let p := (ItemFromSong GroupBy.None sep signal cd P s lvl m).1 in
  let m' := (ItemFromSong GroupBy.None sep signal cd P s lvl m).2 in
  Inv ok (with_song_nodes_ (<[Song.id s := p]> (song_nodes_ m')) m').
Proof.
  intros HI HP Hh Hnone Hok p m'.
  pose proof (inv_fresh ok m HI) as Hf.
  destruct (inv_root ok m HI) as (Hr & _).
  destruct (ItemFromSong_grown GroupBy.None sep signal cd P s lvl m Hf HP Hr)
    as (Hp & m1 & Hg & _ & Hmd & Hn1 & Hfin).
  fold p m' in Hp, Hg, Hmd, Hfin. specialize (Hmd eq_refl).
  change (GroupBy.eqb GroupBy.None GroupBy.None) with true in Hg. cbv iota in Hg.
  pose proof (records_ItemFromSong GroupBy.None sep signal cd P s lvl m) as Hrec.
  fold m' in Hrec. assert (song_nodes_ m' = song_nodes_ m) as Hn
    by (unfold records in Hrec; congruence).
  rewrite Hn.
  set (m1' := with_song_nodes_ (<[Song.id s := p]> (song_nodes_ m)) m1).
  assert (grown Type_Song P p m m1') as Hg'.
  { apply (grown_same_items_r _ _ _ _ m1); [apply same_items_with_song_nodes_|done]. }
  assert (Inv ok m1') as HI1.
  { apply (Inv_grown ok Type_Song P p m m1'); try done. simpl.
    change (item m1' p) with (item m1 p). rewrite Hmd.
    split; [done|]. split; [done|]. split; [done|].
    by apply (grown_reachable Type_Song P p m m1'). }
  apply (Inv_divider_step m1'); [done|done|].
  destruct Hfin as [Hs|Hd]; [left|right].
  - apply (same_items_trans _ m1); [apply same_items_sym, same_items_with_song_nodes_|].
    apply (same_items_trans _ m'); [done|apply same_items_with_song_nodes_].
  - change (root_ m1') with (root_ m1). change (next_ptr m1') with (next_ptr m1).
    apply (grown_same_items_r _ _ _ _ m'); [apply same_items_with_song_nodes_|].
    apply (grown_same_items_l _ _ _ _ m1); [|done].
    apply same_items_sym, same_items_with_song_nodes_.
Qed.

Lemma AddSongs_container_Inv n i song container key_ m :
  Inv ok m → Z.of_nat n + i = 3 → 0 ≤ i →
  allocated m container → container_level (item m container) = i - 1 →
  hangs m container →
  let c' := (AddSongs_container n i song container key_ m).1 in
  let m' := (AddSongs_container n i song container key_ m).2 in
  Inv ok m' ∧ allocated m' c' ∧ hangs m' c' ∧ song_nodes_ m' = song_nodes_ m.
Proof.
  revert i container key_ m.
  induction n as [|n IH]; intros i container key_ m HI Hn Hi Ha Hl Hh;
    cbn [AddSongs_container]; [done|].
  destruct (GroupBy.eqb (Grouping_at (group_by_ m) i) GroupBy.None) eqn:Hgb; [done|].
  pose proof (inv_fresh ok m HI) as Hf.
  destruct (IsArtistGroupBy _ && is_compilation song).
  - set (m1 := if decide (compilation_artist_node_ (item m container) = nullptr)
               then _ else m).
    assert (Inv ok m1 ∧ song_nodes_ m1 = song_nodes_ m
            ∧ allocated m1 (compilation_artist_node_ (item m1 container))
            ∧ container_level (item m1 (compilation_artist_node_ (item m1 container)))
              = i
            ∧ hangs m1 (compilation_artist_node_ (item m1 container)))
      as (HI1 & Hn1 & Ha1 & Hl1 & Hh1).
    { unfold m1. destruct (decide _) as [Hnull|Hnode].
      - destruct (CreateCompilationArtistNode_grown true container m Hf Ha)
          as (Hg & Hlvl & Hco & Hsn).
        rewrite Hco.
        split.
        { apply (Inv_grown ok Type_Container container (next_ptr m) m);
            [exact HI|exact Ha|exact Hg|].
          cbn [settled]. split; [exact Hlvl|]. split; [lia|exact Hsn]. }
        split; [done|]. split; [apply (grown_allocated _ _ _ _ _ Hg); by left|].
        split; [lia|]. right.
        split; [apply (grown_type _ _ _ _ _ Hg)|].
        by apply (grown_reachable Type_Container container (next_ptr m) m).
      - destruct (inv_compilation ok m HI container Hnode) as (Hin & Hty & Hlvl).
        split; [done|]. split; [done|].
        split; [by apply (inv_children ok m HI container)|]. split; [lia|].
        right. split; [done|]. by apply (reachable_child m container). }
    destruct (IH (i + 1) (compilation_artist_node_ (item m1 container))
                (key (item m1 (compilation_artist_node_ (item m1 container)))) m1)
      as (? & ? & ? & ?); try done; try lia.
    split; [done|]. split; [done|]. split; [done|]. congruence.
  - destruct (container_nodes_at m i !! _) as [c|] eqn:Hc.
    + destruct (inv_container_nodes ok m HI _ _ _ Hc) as (Hty & Hlvl & Hre).
      apply IH; try done; try lia.
      * by apply (reachable_allocated ok).
      * by right.
    + destruct (ItemFromSong_Inv_container (Grouping_at (group_by_ m) i)
                  (separate_albums_by_grouping_ m) true (i =? 0) container song i m)
        as (HI1 & Ha1 & Hty1 & Hl1 & Hre1 & Hn1); try done; try lia.
      destruct (ItemFromSong _ _ _ _ _ _ _ _) as [c m1]. cbn [fst snd] in *.
      set (m2 := with_container_nodes_at i _ m1).
      assert (∀ q, item m2 q = item m1 q) as Hi2.
      { intros q. unfold m2, with_container_nodes_at. by destruct (i <? 0). }
      assert (∀ q, allocated m2 q ↔ allocated m1 q) as Ha2.
      { intros q. unfold m2, with_container_nodes_at. by destruct (i <? 0). }
      assert (song_nodes_ m2 = song_nodes_ m1) as Hn2.
      { unfold m2, with_container_nodes_at. by destruct (i <? 0). }
      assert (root_ m2 = root_ m1) as Hr2.
      { unfold m2, with_container_nodes_at. by destruct (i <? 0). }
      assert (Inv ok m2) as HI2 by by apply Inv_with_container_nodes_at.
      destruct (IH (i + 1) c
                  (((if negb (isEmpty key_) then key_ ++ qs "-" else key_)
                    ++ ContainerKey (Grouping_at (group_by_ m) i)
                         (separate_albums_by_grouping_ m) song)) m2)
        as (? & ? & ? & ?); try done; try lia.
      * by apply Ha2.
      * rewrite Hi2. lia.
      * right. rewrite Hi2. split; [done|].
        apply (reachable_extends m1 m2); [|done].
        split; [done|]. split; intros q; by rewrite Hi2.
      * split; [done|]. split; [done|]. split; [done|]. congruence.
Qed.

Lemma AddSong_Inv song m :
  Inv ok m → (Matches song = true → ok song) → Inv ok (AddSong song m).
Proof.
  intros HI Hok. unfold AddSong.
  set (m0 := with_songs_ _ m).
  assert (Inv ok m0) as HI0
    by (apply (Inv_same_items ok m); [apply same_items_with_songs_|done|done]).
  destruct (Matches song); cbn [negb]; [|done].
  destruct (bool_decide _) eqn:Hdec; [done|].
  apply bool_decide_eq_false in Hdec.
  assert (song_nodes_ m0 !! Song.id song = None) as Hnone.
  { destruct (song_nodes_ m0 !! Song.id song) eqn:Hq; [|done]. exfalso. eauto. }
  destruct (inv_root ok m0 HI0) as (Hr & _ & Hl).
  destruct (AddSongs_container_Inv 3 0 song (root_ m0) [] m0)
    as (HI1 & Ha1 & Hh1 & Hn1); try done; [by left|].
  destruct (AddSongs_container 3 0 song (root_ m0) [] m0) as [c m1].
  cbn [fst snd] in *.
  pose proof (ItemFromSong_Inv_song (separate_albums_by_grouping_ m1) true false c
                song (-1) m1 HI1 Ha1 Hh1) as Hleaf.
  destruct (ItemFromSong _ _ _ _ _ _ _ _) as [leaf m2]. cbn [fst snd] in *.
  apply Hleaf; [congruence|auto].
Qed.

Lemma AddSongs_Inv songs m :
  Inv ok m → (∀ s, s ∈ songs → Matches s = true → ok s) → Inv ok (AddSongs songs m).
Proof.
  unfold AddSongs. revert m. induction songs as [|x l IH]; intros m HI Hok; [done|].
  cbn [foldl]. apply IH.
  - apply AddSong_Inv; [done|]. apply Hok. by left.
  - intros s Hs. apply Hok. by right.
Qed.

End Insertion.

(** ** Flattening *)

Lemma elem_of_insert_sorted {A} (lt : A → A → bool) x y l :
  y ∈ insert_sorted lt x l ↔ y = x ∨ y ∈ l.
Proof.
  induction l as [|z l IH]; cbn [insert_sorted].
  - rewrite list_elem_of_singleton, elem_of_nil. tauto.
  - destruct (lt z x); rewrite !elem_of_cons; [rewrite IH|]; tauto.
Qed.

Lemma elem_of_std_sort {A} (lt : A → A → bool) y l : y ∈ std_sort lt l ↔ y ∈ l.
Proof.
  unfold std_sort. induction l as [|z l IH]; cbn [foldr]; [done|].
  rewrite elem_of_insert_sorted, elem_of_cons, IH. tauto.
Qed.

Section Flatten.
Context `{External}.

Lemma GetChildSongs_container f m p acc :
  type (item m p) = Type_Container →
  GetChildSongs (S f) m p acc
  = foldl (visit f m) (Some acc) (std_sort (CompareItems m) (children (item m p))).
Proof. intros Hty. cbn [GetChildSongs]. by rewrite Hty. Qed.

Lemma GetChildSongs_song f m p acc :
  type (item m p) = Type_Song →
  GetChildSongs (S f) m p acc
  = Some (if decide (Song.id (metadata (item m p)) ∈ acc_ids acc)
          then (acc.1.1 ++ [Song.url (metadata (item m p))], acc_songs acc, acc_ids acc)
          else (acc.1.1 ++ [Song.url (metadata (item m p))],
                acc_songs acc ++ [metadata (item m p)],
                {[Song.id (metadata (item m p))]} ∪ acc_ids acc)).
Proof.
  intros Hty. cbn [GetChildSongs]. rewrite Hty. destruct acc as [[u l] ids].
  unfold acc_ids, acc_songs. cbn [fst snd]. by destruct (decide _).
Qed.

Lemma GetChildSongs_other f m p acc :
  type (item m p) ≠ Type_Container → type (item m p) ≠ Type_Song →
  GetChildSongs (S f) m p acc = Some acc.
Proof. intros H1 H2. cbn [GetChildSongs]. by destruct (type (item m p)). Qed.

Lemma foldl_visit_None f m l : foldl (visit f m) None l = None.
Proof. by induction l. Qed.

(** A relation between what was gathered before and after each visit
    holds between before and after all of them. *)
Lemma foldl_visit_rel (R : Acc → Acc → Prop) f m l :
  (∀ a, R a a) → (∀ a b c, R a b → R b c → R a c) →
  (∀ c a a', c ∈ l → GetChildSongs f m c a = Some a' → R a a') →
  ∀ a a', foldl (visit f m) (Some a) l = Some a' → R a a'.
Proof.
  intros Hrefl Htrans. induction l as [|c l IH]; intros Hstep a a' Hfold.
  - cbn in Hfold. by injection Hfold as <-.
  - cbn [foldl] in Hfold. unfold visit at 2 in Hfold. cbn in Hfold.
    destruct (GetChildSongs f m c a) as [a1|] eqn:Hc;
      [|by rewrite foldl_visit_None in Hfold].
    apply (Htrans a a1 a').
    + apply (Hstep c); [by left|done].
    + apply IH; [|done]. intros c' b b' Hc'. apply Hstep. by right.
Qed.

Lemma GetChildSongs_mono fuel m p a a' :
  GetChildSongs fuel m p a = Some a' → acc_ids a ⊆ acc_ids a'.
Proof.
  revert p a a'. induction fuel as [|f IH]; intros p a a' Hg; [done|].
  destruct (decide (type (item m p) = Type_Container)) as [Hc|Hc].
  { rewrite GetChildSongs_container in Hg by done.
    apply (foldl_visit_rel (λ a a', acc_ids a ⊆ acc_ids a') f m _) in Hg;
      [done|done| |].
    - intros x y z. set_solver.
    - intros c b b' _. apply IH. }
  destruct (decide (type (item m p) = Type_Song)) as [Hs|Hs].
  { rewrite GetChildSongs_song in Hg by done. injection Hg as <-.
    destruct (decide _); unfold acc_ids; cbn [snd]; set_solver. }
  rewrite GetChildSongs_other in Hg by done. by injection Hg as <-.
Qed.

(** The visit of an element of the list is one of the visits, and what it
    gathered is kept to the end. *)
Lemma foldl_visit_elem f m l c :
  c ∈ l → ∀ a a', foldl (visit f m) (Some a) l = Some a' →
  ∃ a1 a2, GetChildSongs f m c a1 = Some a2 ∧ acc_ids a2 ⊆ acc_ids a'.
Proof.
  induction l as [|x l IH]; intros Hc a a' Hfold; [by apply elem_of_nil in Hc|].
  cbn [foldl] in Hfold. unfold visit at 2 in Hfold. cbn in Hfold.
  destruct (GetChildSongs f m x a) as [a1|] eqn:Hx;
    [|by rewrite foldl_visit_None in Hfold].
  apply elem_of_cons in Hc as [->|Hc].
  - exists a, a1. split; [done|].
    apply (foldl_visit_rel (λ a a', acc_ids a ⊆ acc_ids a') f m l) in Hfold;
      [done|done| |].
    + intros x' y z. set_solver.
    + intros c' b b' _. apply GetChildSongs_mono.
  - by apply (IH Hc a1).
Qed.

Lemma gathered_start m : gathered m ([], [], ∅).
Proof.
  unfold gathered, acc_songs, acc_ids. cbn. split; [constructor|].
  split; [intros k; set_solver|]. intros r Hr. by apply elem_of_nil in Hr.
Qed.

Lemma GetChildSongs_gathered fuel m p a a' :
  GetChildSongs fuel m p a = Some a' → gathered m a → gathered m a'.
Proof.
  revert p a a'. induction fuel as [|f IH]; intros p a a' Hg; [done|].
  destruct (decide (type (item m p) = Type_Container)) as [Hc|Hc].
  { rewrite GetChildSongs_container in Hg by done.
    refine (foldl_visit_rel (λ a a', gathered m a → gathered m a') f m _ _ _ _ a a' Hg);
      [auto|auto|].
    intros c b b' _. apply IH. }
  destruct (decide (type (item m p) = Type_Song)) as [Hs|Hs].
  2: { rewrite GetChildSongs_other in Hg by done. by injection Hg as <-. }
  rewrite GetChildSongs_song in Hg by done. injection Hg as <-.
  intros (Hnd & Hids & Hrec). destruct (decide _) as [Hin|Hnew]; [done|].
  unfold gathered, acc_songs, acc_ids in *. cbn [fst snd].
  rewrite fmap_app. cbn [fmap list_fmap]. split; [|split].
  - apply NoDup_app. split; [done|]. split; [|apply NoDup_singleton].
    intros k Hk Hk'. apply list_elem_of_singleton in Hk'. subst k.
    by apply Hnew, Hids.
  - intros k. rewrite elem_of_app, list_elem_of_singleton, elem_of_union,
      elem_of_singleton, Hids. tauto.
  - intros r Hr. apply elem_of_app in Hr as [Hr|Hr]; [auto|].
    apply list_elem_of_singleton in Hr. subst r. eauto.
Qed.

(** A leaf below the item visited is gathered. *)
Lemma GetChildSongs_collects fuel m n top x a a' :
  GetChildSongs fuel m top a = Some a' → under m n top x →
  type (item m x) = Type_Song → Song.id (metadata (item m x)) ∈ acc_ids a'.
Proof.
  revert n top a a'. induction fuel as [|f IH]; intros n top a a' Hg Hu Hx; [done|].
  destruct n as [|n]; cbn [under] in Hu.
  - subst x. rewrite GetChildSongs_song in Hg by done. injection Hg as <-.
    destruct (decide _); unfold acc_ids in *; cbn [snd]; set_solver.
  - destruct Hu as [Hty (c & Hc & Hu)].
    rewrite GetChildSongs_container in Hg by done.
    destruct (foldl_visit_elem f m _ c (proj2 (elem_of_std_sort _ _ _) Hc) a a' Hg)
      as (a1 & a2 & Hv & Hsub).
    apply Hsub. by apply (IH n c a1 a2).
Qed.

Lemma foldl_visit_returns f m l :
  (∀ c a, c ∈ l → is_Some (GetChildSongs f m c a)) →
  ∀ a, is_Some (foldl (visit f m) (Some a) l).
Proof.
  induction l as [|c l IH]; intros Hall a; [by eexists|].
  cbn [foldl]. unfold visit at 2. cbn.
  destruct (Hall c a) as [a1 ->]; [by left|].
  apply IH. intros c' b Hc'. apply Hall. by right.
Qed.

(** On the tree that the insertion built the descent returns, with fuel
    for the levels below the item. *)
Lemma GetChildSongs_returns ok fuel m p a :
  Inv ok m → (1 ≤ fuel)%nat →
  (type (item m p) = Type_Container →
   4 - container_level (item m p) ≤ Z.of_nat fuel) →
  is_Some (GetChildSongs fuel m p a).
Proof.
  intros HI. revert p a. induction fuel as [|f IH]; intros p a Hf Hl; [lia|].
  destruct (decide (type (item m p) = Type_Container)) as [Hc|Hc].
  { rewrite GetChildSongs_container by done. apply foldl_visit_returns.
    intros c b Hin. apply elem_of_std_sort in Hin.
    specialize (Hl Hc). pose proof (inv_level ok m HI p Hc) as Hlvl.
    apply IH; [lia|]. intros Hcc.
    rewrite (inv_level_child ok m HI p c Hc Hin Hcc). lia. }
  destruct (decide (type (item m p) = Type_Song)) as [Hs|Hs].
  - rewrite GetChildSongs_song by done. by eexists.
  - rewrite GetChildSongs_other by done. by eexists.
Qed.

End Flatten.

(** ** The tree of a batch added to the empty tree *)

Section Build.
Context `{External}.

Lemma empty_tree_item m p :
  empty_tree m →
  (p = root_ m ∧ item m p = root_item) ∨ (¬ allocated m p ∧ item m p = null_item).
Proof.
  intros (_ & _ & Hh & _). unfold item, allocated. rewrite Hh.
  destruct (decide (p = root_ m)) as [->|Hne].
  - left. by rewrite lookup_singleton_eq.
  - right. rewrite lookup_singleton_ne by done. split; [by intros [? ?]|done].
Qed.

Lemma empty_tree_Inv ok m : empty_tree m → Inv ok m.
Proof.
  intros He. pose proof (empty_tree_item m) as Hi.
  pose proof He as (Hnull & Hlt & Hh & Hs & Hc & _).
  assert (∀ p, children (item m p) = []
               ∧ compilation_artist_node_ (item m p) = nullptr
               ∧ type (item m p) ≠ Type_Container ∧ type (item m p) ≠ Type_Song) as Hall.
  { intros p. by destruct (Hi p He) as [[_ ->]|[_ ->]]. }
  split.
  - intros p Hp. destruct (Hi p He) as [[-> _]|[Hn _]]; [|done].
    unfold nullptr in Hnull. lia.
  - destruct (Hi (root_ m) He) as [[_ ->]|[Hn _]].
    + split; [|done]. unfold allocated. rewrite Hh, lookup_singleton_eq. by eexists.
    + exfalso. apply Hn. unfold allocated. rewrite Hh, lookup_singleton_eq. by eexists.
  - intros p c Hin. destruct (Hall p) as (Hch & _). rewrite Hch in Hin.
    by apply elem_of_nil in Hin.
  - intros p c Hin. destruct (Hall p) as (Hch & _). rewrite Hch in Hin.
    by apply elem_of_nil in Hin.
  - intros p Hp. by destruct (Hall p) as (_ & _ & Hty & _).
  - intros p c Hp. by destruct (Hall p) as (_ & _ & Hty & _).
  - intros p Hp. by destruct (Hall p) as (_ & Hco & _).
  - intros k leaf. by rewrite Hs, lookup_empty.
  - intros p Hp. by destruct (Hall p) as (_ & _ & _ & Hty).
  - intros i k c. unfold container_nodes_at. rewrite Hc.
    destruct (i <? 0); [by rewrite lookup_empty|].
    assert (default ∅ ([∅; ∅; ∅] !! Z.to_nat i) = (∅ : gmap QString ptr)) as ->
      by by destruct (Z.to_nat i) as [|[|[|n]]].
    by rewrite lookup_empty.
Qed.

Lemma IndexToItem_ItemToIndex m c :
  c ≠ nullptr → parent (item m c) ≠ nullptr → IndexToItem m (ItemToIndex m c) = c.
Proof.
  intros Hc Hp. unfold ItemToIndex. by rewrite !decide_False by done.
Qed.

Lemma GetChildSongs_indexes_of_items fuel m l a :
  (∀ c, c ∈ l → IndexToItem m (ItemToIndex m c) = c) →
  foldl (λ acc idx, acc ← acc; GetChildSongs fuel m (IndexToItem m idx) acc) a
    (ItemToIndex m <$> l)
  = foldl (visit fuel m) a l.
Proof.
  revert a. induction l as [|c l IH]; intros a Hl; [done|].
  cbn [fmap list_fmap foldl]. rewrite (Hl c) by by left.
  apply IH. intros c' Hc'. apply Hl. by right.
Qed.

(** C1 (amended).  A batch is added, whatever the grouping, to the empty
    tree.  [GetChildSongs] of the indexes of the top-level items, with fuel
    for the three grouping levels and the leaf, returns a list of records
    whose identifiers are pairwise different and are the identifiers of the
    songs of the batch that pass the filter; each record returned is a song
    of the batch that passes the filter.  [GetChildSongs] of the root, which
    is no container, returns the empty list. *)
Theorem AddSongs_then_GetChildSongs_of_the_top_level_items
    (m : Model) (songs : SongList) (fuel : nat) :
  empty_tree m → (4 ≤ fuel)%nat →
  let tree := AddSongs songs m in
  (∃ ret,
     GetChildSongs_indexes fuel tree
       (ItemToIndex tree <$> children (item tree (root_ tree))) = Some ret
     ∧ NoDup (Song.id <$> ret)
     ∧ (∀ k, k ∈ Song.id <$> ret
             ↔ ∃ s, s ∈ songs ∧ Matches s = true ∧ Song.id s = k)
     ∧ (∀ r, r ∈ ret → r ∈ songs ∧ Matches r = true))
  ∧ GetChildSongs_index fuel tree InvalidIndex = Some [].
Proof.
  intros He Hfuel tree.
  set (ok := λ s : Song.t, s ∈ songs ∧ Matches s = true).
  assert (Inv ok tree) as HI.
  { apply AddSongs_Inv; [by apply empty_tree_Inv|]. by intros s Hs Hm. }
  destruct (inv_root ok tree HI) as (Hra & Hrt & _).
  pose proof (inv_fresh ok tree HI) as Hf.
  split.
  2: { unfold GetChildSongs_index, GetChildSongs_indexes. cbn [foldl IndexToItem].
       cbn [mbind option_bind]. destruct fuel as [|f]; [lia|].
       rewrite GetChildSongs_other by (by rewrite Hrt). done. }
  set (tops := children (item tree (root_ tree))).
  unfold GetChildSongs_indexes.
  rewrite GetChildSongs_indexes_of_items.
  2: { intros c Hc. apply IndexToItem_ItemToIndex.
       - intros ->. by apply (fresh_nullptr tree Hf), (inv_children ok tree HI (root_ tree)).
       - rewrite (inv_parent ok tree HI (root_ tree) c Hc).
         intros Heq. apply (fresh_nullptr tree Hf). by rewrite <- Heq. }
  destruct (foldl_visit_returns fuel tree tops) with (a := (([], [], ∅) : Acc))
    as [a Ha].
  { intros c b Hc. apply (GetChildSongs_returns ok); [done|lia|].
    intros Hty. pose proof (inv_level ok tree HI c Hty). lia. }
  rewrite Ha.
  assert (gathered tree a) as (Hnd & Hids & Hrec).
  { refine (foldl_visit_rel (λ a a', gathered tree a → gathered tree a') fuel tree tops
              _ _ _ _ a Ha (gathered_start tree)); [auto|auto|].
    intros c b b' _. apply GetChildSongs_gathered. }
  destruct a as [[urls ret] ids]. unfold acc_songs, acc_ids in *. cbn [fst snd] in *.
  exists ret. split; [done|]. split; [done|].
  assert (∀ r, r ∈ ret → r ∈ songs ∧ Matches r = true) as Hsound.
  { intros r Hr. destruct (Hrec r Hr) as (p & Hty & <-).
    apply (inv_songs ok tree HI p Hty). }
  split; [|done]. intros k. split.
  - intros Hk. apply list_elem_of_fmap in Hk as (r & -> & Hr).
    exists r. destruct (Hsound r Hr) as [Hin Hm]. done.
  - intros (s & Hs & Hm & Hid).
    destruct (AddSongs_tracked songs m k) as [leaf Hleaf]; [right; eauto|].
    fold tree in Hleaf.
    destruct (inv_song_nodes ok tree HI k leaf Hleaf) as (Hty & Hk & n & top & Htop & Hu).
    destruct (foldl_visit_elem fuel tree tops top Htop _ _ Ha) as (a1 & a2 & Hv & Hsub).
    apply Hids, Hsub. rewrite <- Hk.
    by apply (GetChildSongs_collects fuel tree n top leaf a1 a2).
Qed.

End Build.

Section Build_witness.
#[local] Existing Instance Sample.external.

Lemma empty_tree_empty_model g show_dividers :
  empty_tree (Sample.empty_model g show_dividers).
Proof. repeat split; try done. cbn. lia. Qed.

Lemma AddSongs_then_GetChildSongs_of_the_top_level_items_witness :
  let m := Sample.empty_model by_albumartist_album true in
  let tree := AddSongs arrival_and_jazz m in
  empty_tree m
  ∧ ∃ ret,
      GetChildSongs_indexes 4 tree
        (ItemToIndex tree <$> children (item tree (root_ tree))) = Some ret
      ∧ NoDup (Song.id <$> ret)
      ∧ (∀ k, k ∈ Song.id <$> ret
              ↔ ∃ s, s ∈ arrival_and_jazz ∧ Matches s = true ∧ Song.id s = k)
      ∧ (∀ r, r ∈ ret → r ∈ arrival_and_jazz ∧ Matches r = true).
Proof.
  intros m tree.
  assert (empty_tree m) as He by apply empty_tree_empty_model.
  assert (4 ≤ 4)%nat as Hfuel by lia.
  split; [exact He|].
  exact (proj1 (AddSongs_then_GetChildSongs_of_the_top_level_items
                  m arrival_and_jazz 4 He Hfuel)).
Defined.

(** C1 fails on the code as it is stated.  The song of 1994 passes the
    filter and is added to the empty tree.  [GetChildSongs] of the root, that
    is of the invalid index, returns the empty list, whatever the fuel: the
    root has the type of its own, for which [GetChildSongs] gathers nothing
    and visits no child.  The leaf of the song is in the tree though:
    [GetChildSongs] of the indexes of the top-level items returns the song. *)
Lemma GetChildSongs_of_the_root_gathers_nothing :
  let s := Sample.song 1 "Nirvana" "Unplugged" "About a Girl" 1 1 1994 in
  let tree := AddSongs [s] (Sample.empty_model by_albumartist_album true) in
  Matches s = true
  ∧ IndexToItem tree InvalidIndex = root_ tree
  ∧ GetChildSongs_index 4 tree InvalidIndex = Some []
  ∧ (∀ fuel ret, GetChildSongs_index fuel tree InvalidIndex = Some ret → ret = [])
  ∧ GetChildSongs_indexes 4 tree
      (ItemToIndex tree <$> children (item tree (root_ tree))) = Some [s].
Proof.
  intros s tree. split; [reflexivity|]. split; [reflexivity|].
  split; [vm_compute; reflexivity|]. split; [|vm_compute; reflexivity].
  intros [|f] ret Hret; vm_compute in Hret; [discriminate|].
  by injection Hret as <-.
Qed.

End Build_witness.

(** ** Decimal numbers in sort texts and keys *)

Lemma digits_value_bounds s :
  Forall is_digit s → 0 ≤ digits_value s < 10 ^ Z.of_nat (length s).
Proof.
  induction 1 as [|c r Hc Hr IH]; cbn [digits_value length]; [simpl; lia|].
  rewrite Nat2Z.inj_succ, Z.pow_succ_r by lia. unfold is_digit in Hc.
  assert (0 < 10 ^ Z.of_nat (length r)) by (apply Z.pow_pos_nonneg; lia). nia.
Qed.

Lemma digits_value_app s t :
  digits_value (s ++ t) = digits_value s * 10 ^ Z.of_nat (length t) + digits_value t.
Proof.
  induction s as [|c s IH]; cbn [digits_value app]; [lia|].
  rewrite IH, length_app, Nat2Z.inj_add, Z.pow_add_r by lia. ring.
Qed.

Lemma parse_digits_value s acc :
  Forall is_digit s →
  parse_digits s acc = Some (acc * 10 ^ Z.of_nat (length s) + digits_value s).
Proof.
  intros Hs. revert acc. induction Hs as [|c r Hc Hr IH]; intros acc;
    cbn [parse_digits digits_value length].
  - f_equal. simpl. lia.
  - unfold is_digit in Hc.
    destruct (Z.leb_spec 48 c); [|lia]. destruct (Z.leb_spec c 57); [|lia].
    cbn [andb]. rewrite IH. f_equal.
    rewrite Nat2Z.inj_succ, Z.pow_succ_r by lia. ring.
Qed.

Lemma parse_digits_stops s c rest acc :
  Forall is_digit s → ¬ is_digit c → parse_digits (s ++ c :: rest) acc = None.
Proof.
  intros Hs Hc. revert acc. induction Hs as [|d r Hd Hr IH]; intros acc;
    cbn [parse_digits app].
  - unfold is_digit in Hc.
    destruct (Z.leb_spec 48 c); [|done]. destruct (Z.leb_spec c 57); [lia|done].
  - unfold is_digit in Hd.
    destruct (Z.leb_spec 48 d); [|lia]. destruct (Z.leb_spec d 57); [|lia].
    cbn [andb]. apply IH.
Qed.

Lemma digits_fuel_S f n acc :
  digits_fuel (S f) n acc
  = if n / 10 =? 0 then (48 + n mod 10) :: acc
    else digits_fuel f (n / 10) ((48 + n mod 10) :: acc).
Proof. reflexivity. Qed.

(** The digits of a number: at least one, as many as the number needs, and
    they read as the number. *)
Lemma digits_fuel_spec f n acc :
  0 ≤ n < 10 ^ Z.of_nat (S f) →
  ∃ ds, digits_fuel (S f) n acc = ds ++ acc ∧ ds ≠ [] ∧ Forall is_digit ds
        ∧ digits_value ds = n
        ∧ ∀ k : nat, (0 < k)%nat → n < 10 ^ Z.of_nat k → (length ds ≤ k)%nat.
Proof.
  revert n acc. induction f as [|f IH]; intros n acc Hn.
  - change (10 ^ Z.of_nat 1) with 10 in Hn.
    rewrite digits_fuel_S, Z.div_small, Z.mod_small by lia.
    cbn [Z.eqb]. exists [48 + n].
    split; [done|]. split; [done|]. split.
    { constructor; [unfold is_digit; lia|constructor]. }
    split; [cbn; lia|]. intros k Hk _. cbn. lia.
  - rewrite digits_fuel_S. destruct (Z.eqb_spec (n / 10) 0) as [Hz|Hz].
    + assert (n < 10) by (apply Z.div_small_iff in Hz; lia).
      exists [48 + n mod 10]. rewrite Z.mod_small by lia.
      split; [done|]. split; [done|]. split.
      { constructor; [unfold is_digit; lia|constructor]. }
      split; [cbn; lia|]. intros k Hk _. cbn. lia.
    + assert (10 ≤ n).
      { destruct (Z.lt_ge_cases n 10); [|done]. exfalso. apply Hz.
        apply Z.div_small. lia. }
      destruct (IH (n / 10) ((48 + n mod 10) :: acc)) as (ds & Heq & Hne & Hd & Hv & Hl).
      { split; [apply Z.div_pos; lia|].
        apply Z.div_lt_upper_bound; [lia|].
        rewrite Nat2Z.inj_succ, Z.pow_succ_r in Hn by lia. lia. }
      exists (ds ++ [48 + n mod 10]). rewrite Heq, <- app_assoc.
      pose proof (Z.mod_pos_bound n 10 ltac:(lia)).
      split; [done|]. split; [by destruct ds|]. split.
      { apply Forall_app. split; [done|].
        constructor; [unfold is_digit; lia|constructor]. }
      split.
      { rewrite digits_value_app, Hv. cbn.
        pose proof (Z.div_mod n 10 ltac:(lia)). lia. }
      intros k Hk Hnk. rewrite length_app. cbn.
      destruct k as [|[|k]]; [lia| |].
      { change (10 ^ Z.of_nat 1) with 10 in Hnk. lia. }
      assert (length ds ≤ S k)%nat; [|lia].
      apply Hl; [lia|]. apply Z.div_lt_upper_bound; [lia|].
      rewrite (Nat2Z.inj_succ (S k)), Z.pow_succ_r in Hnk by lia. lia.
Qed.

Lemma digits_spec n :
  0 ≤ n < 10 ^ 20 →
  digits n ≠ [] ∧ Forall is_digit (digits n) ∧ digits_value (digits n) = n
  ∧ ∀ k : nat, (0 < k)%nat → n < 10 ^ Z.of_nat k → (length (digits n) ≤ k)%nat.
Proof.
  intros Hn. destruct (digits_fuel_spec 19 n []) as (ds & Heq & H); [done|].
  unfold digits. rewrite Heq, app_nil_r. done.
Qed.

Lemma repeated_zero k : repeated (qs "0") k = replicate (Z.to_nat k) 48.
Proof.
  unfold repeated. change (qs "0") with [48].
  induction (Z.to_nat k) as [|j IH]; [done|]. cbn. by rewrite IH.
Qed.

Lemma digits_value_zeros j s : digits_value (replicate j 48 ++ s) = digits_value s.
Proof.
  induction j as [|j IH]; [done|]. cbn [replicate app digits_value]. rewrite IH. lia.
Qed.

Lemma Forall_is_digit_zeros j : Forall is_digit (replicate j 48).
Proof. apply Forall_replicate. unfold is_digit. lia. Qed.

Lemma is_digit_not_space c : is_digit c → isSpace c = false.
Proof.
  unfold is_digit, isSpace. intros Hc.
  repeat match goal with
         | |- context [?a =? ?b] => destruct (Z.eqb_spec a b); [lia|]
         | |- context [?a <=? ?b] => destruct (Z.leb_spec a b)
         end; try lia; done.
Qed.

Lemma trim_left_digits s : Forall is_digit s → trim_left s = s.
Proof.
  destruct 1 as [|c r Hc Hr]; [done|]. cbn [trim_left].
  by rewrite is_digit_not_space.
Qed.

Lemma trimmed_digits s : Forall is_digit s → trimmed s = s.
Proof.
  intros Hs. unfold trimmed. rewrite (trim_left_digits s Hs).
  rewrite trim_left_digits by by apply Forall_reverse.
  apply reverse_involutive.
Qed.

(** White space after the digits is trimmed as well. *)
Lemma trimmed_digits_space s :
  Forall is_digit s → s ≠ [] → trimmed (s ++ [32]) = s.
Proof.
  intros Hs Hne. unfold trimmed.
  assert (trim_left (s ++ [32]) = s ++ [32]) as ->.
  { destruct Hs as [|c r Hc Hr]; [done|]. cbn [app trim_left].
    by rewrite is_digit_not_space. }
  rewrite reverse_app. cbn [reverse rev_append app trim_left].
  change (reverse [32]) with [32]. cbn [app trim_left isSpace].
  change (isSpace 32) with true. cbv iota.
  rewrite trim_left_digits by by apply Forall_reverse.
  apply reverse_involutive.
Qed.

Lemma toInt_ok_digits s :
  Forall is_digit s → s ≠ [] → digits_value s ≤ 2147483647 →
  ∀ body, trimmed body = s → toInt_ok body = Some (digits_value s).
Proof.
  intros Hs Hne Hv body Hbody. unfold toInt_ok. rewrite Hbody.
  destruct Hs as [|c r Hc Hr]; [done|].
  assert (Forall is_digit (c :: r)) as Hall by by constructor.
  pose proof (digits_value_bounds _ Hall) as Hb.
  assert (match c :: r with
          | 45 :: r0 => (true, r0) | 43 :: r0 => (false, r0) | _ => (false, c :: r)
          end = (false, c :: r)) as ->.
  { unfold is_digit in Hc.
    assert (c = 48 ∨ c = 49 ∨ c = 50 ∨ c = 51 ∨ c = 52 ∨ c = 53 ∨ c = 54 ∨ c = 55
            ∨ c = 56 ∨ c = 57) as Hcases by lia.
    repeat destruct Hcases as [->|Hcases]; try done. by subst. }
  rewrite (parse_digits_value _ 0 Hall). cbn [Z.mul Z.add].
  change (0 * 10 ^ Z.of_nat (length (c :: r))) with 0. rewrite Z.add_0_l.
  unfold in_int.
  destruct (Z.leb_spec (-2147483648) (digits_value (c :: r))); [|lia].
  destruct (Z.leb_spec (digits_value (c :: r)) 2147483647); [|lia]. done.
Qed.

(** Strings of digits of the same length are ordered as their values. *)
Lemma qlt_digits s t :
  length s = length t → Forall is_digit s → Forall is_digit t →
  qlt s t = (digits_value s <? digits_value t).
Proof.
  intros Hlen Hs. revert t Hlen.
  induction Hs as [|c r Hc Hr IH]; intros [|d t] Hlen Ht; try done.
  apply Forall_cons in Ht as [Hd Ht]. cbn [length] in Hlen.
  injection Hlen as Hlen. cbn [qlt digits_value]. rewrite <- Hlen.
  pose proof (digits_value_bounds r Hr) as Hbr.
  pose proof (digits_value_bounds t Ht) as Hbt. rewrite <- Hlen in Hbt.
  specialize (IH t Hlen Ht).
  destruct (Z.ltb_spec c d) as [Hcd|Hcd].
  - symmetry. apply Z.ltb_lt. nia.
  - destruct (Z.ltb_spec d c) as [Hdc|Hdc].
    + symmetry. apply Z.ltb_ge. nia.
    + assert (c = d) as -> by lia. rewrite IH.
      destruct (Z.ltb_spec (digits_value r) (digits_value t));
        symmetry; [apply Z.ltb_lt|apply Z.ltb_ge]; lia.
Qed.

(** A number of at most [width] digits, padded to [width]. *)
Lemma arg_padded_spec n (width : nat) :
  0 ≤ n < 10 ^ Z.of_nat width → (0 < width ≤ 20)%nat →
  length (arg_padded n (Z.of_nat width)) = width
  ∧ Forall is_digit (arg_padded n (Z.of_nat width))
  ∧ digits_value (arg_padded n (Z.of_nat width)) = n.
Proof.
  intros Hn Hw.
  assert (10 ^ Z.of_nat width ≤ 10 ^ 20) by (apply Z.pow_le_mono_r; lia).
  destruct (digits_spec n) as (Hne & Hd & Hv & Hl); [lia|].
  specialize (Hl width ltac:(lia) ltac:(lia)).
  unfold arg_padded. destruct (Z.ltb_spec n 0); [lia|].
  change [48] with (qs "0"). rewrite repeated_zero.
  split; [|split].
  - rewrite length_app, length_replicate. lia.
  - apply Forall_app. split; [apply Forall_is_digit_zeros|done].
  - by rewrite digits_value_zeros.
Qed.

(** Whatever the number of its digits, a number that is not negative is
    padded with zeros only, and reads as itself. *)
Lemma arg_padded_digits n width :
  0 ≤ n < 10 ^ 20 →
  arg_padded n width ≠ [] ∧ Forall is_digit (arg_padded n width)
  ∧ digits_value (arg_padded n width) = n
  ∧ width ≤ Z.of_nat (length (arg_padded n width)).
Proof.
  intros Hn. destruct (digits_spec n) as (Hne & Hd & Hv & Hl); [lia|].
  unfold arg_padded. destruct (Z.ltb_spec n 0); [lia|].
  change [48] with (qs "0"). rewrite repeated_zero.
  split; [|split; [|split]].
  - intros Heq. apply app_eq_nil in Heq as [_ Heq]. done.
  - apply Forall_app. split; [apply Forall_is_digit_zeros|done].
  - by rewrite digits_value_zeros.
  - rewrite length_app, length_replicate. lia.
Qed.

Lemma digits_value_inj s t :
  length s = length t → Forall is_digit s → Forall is_digit t →
  digits_value s = digits_value t → s = t.
Proof.
  intros Hlen Hs Ht Hv. destruct (decide (s = t)) as [|Hne]; [done|]. exfalso.
  destruct (qlt_total s t Hne) as [Hlt|Hlt].
  - rewrite qlt_digits in Hlt by done. apply Z.ltb_lt in Hlt. lia.
  - rewrite qlt_digits in Hlt by done. apply Z.ltb_lt in Hlt. lia.
Qed.

Lemma qlt_app_same_length s t x y :
  length s = length t →
  qlt (s ++ x) (t ++ y) = if decide (s = t) then qlt x y else qlt s t.
Proof.
  revert t. induction s as [|c s IH]; intros [|d t] Hlen; try done.
  injection Hlen as Hlen. cbn [app qlt]. rewrite (IH t Hlen).
  destruct (Z.ltb_spec c d), (Z.ltb_spec d c); try lia.
  - rewrite decide_False; [done|]. intros [= ? ?]. lia.
  - rewrite decide_False; [done|]. intros [= ? ?]. lia.
  - assert (c = d) as -> by lia.
    destruct (decide (s = t)) as [->|Hne].
    + by rewrite decide_True.
    + rewrite decide_False; [done|]. by intros [= ?].
Qed.

Section Numbers.
Context `{External}.

Lemma SortTextForYear_not_negative n :
  0 ≤ n → SortTextForYear n = SortTextForNumber n.
Proof.
  intros Hn. unfold SortTextForYear, SortTextForNumber, arg_padded, number.
  destruct (Z.ltb_spec n 0); [lia|]. f_equal.
  change [48] with (qs "0"). rewrite !repeated_zero. f_equal. lia.
Qed.

(** X1.  The sort text of a number of at most four digits has four characters,
    and the sort texts of two such numbers are ordered as the numbers are, by
    [SortTextForNumber] and by [SortTextForYear] alike, which agree on every
    number that is not negative; the space that [ItemFromSong] appends to the
    sort text of a container keeps the order. *)
Theorem SortTextForNumber_orders_as_the_numbers (a b : Z) :
  0 ≤ a ≤ 9999 → 0 ≤ b ≤ 9999 →
  length (SortTextForNumber a) = 4%nat
  ∧ SortTextForYear a = SortTextForNumber a
  ∧ qlt (SortTextForNumber a) (SortTextForNumber b) = (a <? b)
  ∧ qlt (SortTextForNumber a ++ qs " ") (SortTextForNumber b ++ qs " ") = (a <? b).
Proof.
  intros Ha Hb. unfold SortTextForNumber.
  destruct (arg_padded_spec a 4) as (Hla & Hda & Hva); [simpl; lia|lia|].
  destruct (arg_padded_spec b 4) as (Hlb & Hdb & Hvb); [simpl; lia|lia|].
  change (Z.of_nat 4) with 4 in *.
  assert (qlt (arg_padded a 4) (arg_padded b 4) = (a <? b)) as Hq
    by (rewrite qlt_digits, Hva, Hvb by (done || congruence); done).
  split; [done|]. split; [apply SortTextForYear_not_negative; lia|]. split; [done|].
  rewrite qlt_app_same_length by congruence.
  destruct (decide (arg_padded a 4 = arg_padded b 4)) as [Heq|Hne]; [|done].
  rewrite qlt_irrefl. assert (a = b) as -> by congruence.
  symmetry. apply Z.ltb_irrefl.
Qed.

Lemma SortTextForNumber_orders_as_the_numbers_witness :
  0 ≤ 994 ≤ 9999 ∧ 0 ≤ 1994 ≤ 9999
  ∧ qlt (SortTextForNumber 994) (SortTextForNumber 1994) = (994 <? 1994).
Proof.
  assert (0 ≤ 994 ≤ 9999) as Ha by lia. assert (0 ≤ 1994 ≤ 9999) as Hb by lia.
  split; [exact Ha|]. split; [exact Hb|].
  exact (proj1 (proj2 (proj2 (SortTextForNumber_orders_as_the_numbers 994 1994 Ha Hb)))).
Defined.

Lemma SortTextForSong_padded s :
  Song.disc s ≤ 999 → Song.track s ≤ 999 →
  ∃ head, SortTextForSong s = head ++ Song.url s ∧ length head = 6%nat
          ∧ Forall is_digit head ∧ digits_value head = disc_and_track s.
Proof.
  intros Hd Ht. unfold SortTextForSong.
  assert (0 ≤ disc_and_track s < 1000000) as Hk by (unfold disc_and_track; lia).
  assert (wrap32 (wrap32 (Z.max 0 (Song.disc s) * 1000) + Z.max 0 (Song.track s))
          = disc_and_track s) as ->.
  { unfold disc_and_track, wrap32.
    rewrite (Z.mod_small (Z.max 0 (Song.disc s) * 1000 + 2147483648)) by lia.
    rewrite Z.mod_small by lia. lia. }
  destruct (arg_padded_spec (disc_and_track s) 6) as (Hl & Hdg & Hv);
    [simpl; lia|lia|].
  exists (arg_padded (disc_and_track s) 6).
  split; [|done]. f_equal. unfold arg_padded, number.
  destruct (Z.ltb_spec (disc_and_track s) 0); [lia|].
  change [48] with (qs "0"). done.
Qed.

(** X2.  Songs with discs and tracks below a thousand are ordered by their sort
    texts as by disc, then by track, then by location: the location counts
    only between songs of the same disc and track. *)
Theorem SortTextForSong_orders_by_disc_track_location (s1 s2 : Song.t) :
  Song.disc s1 ≤ 999 → Song.track s1 ≤ 999 →
  Song.disc s2 ≤ 999 → Song.track s2 ≤ 999 →
  qlt (SortTextForSong s1) (SortTextForSong s2)
  = if decide (disc_and_track s1 = disc_and_track s2)
    then qlt (Song.url s1) (Song.url s2)
    else disc_and_track s1 <? disc_and_track s2.
Proof.
  intros Hd1 Ht1 Hd2 Ht2.
  destruct (SortTextForSong_padded s1 Hd1 Ht1) as (h1 & -> & Hl1 & Hg1 & Hv1).
  destruct (SortTextForSong_padded s2 Hd2 Ht2) as (h2 & -> & Hl2 & Hg2 & Hv2).
  rewrite qlt_app_same_length by congruence.
  destruct (decide (h1 = h2)) as [->|Hne].
  - rewrite decide_True; [done|]. congruence.
  - rewrite decide_False.
    + rewrite qlt_digits by (done || congruence). by rewrite Hv1, Hv2.
    + intros Heq. apply Hne. apply digits_value_inj; congruence.
Qed.

End Numbers.

Section Numbers_witness.
#[local] Existing Instance Sample.external.

Lemma SortTextForSong_orders_by_disc_track_location_witness :
  let s1 := Sample.song 1 "Abba" "Gold" "b" 1 12 1992 in
  let s2 := Sample.song 2 "Abba" "Gold" "a" 2 1 1992 in
  qlt (SortTextForSong s1) (SortTextForSong s2) = true.
Proof.
  intros s1 s2.
  assert (Song.disc s1 ≤ 999) as H1 by (vm_compute; discriminate).
  assert (Song.track s1 ≤ 999) as H2 by (vm_compute; discriminate).
  assert (Song.disc s2 ≤ 999) as H3 by (vm_compute; discriminate).
  assert (Song.track s2 ≤ 999) as H4 by (vm_compute; discriminate).
  exact (eq_trans (SortTextForSong_orders_by_disc_track_location s1 s2 H1 H2 H3 H4)
           eq_refl).
Defined.

End Numbers_witness.

(** ** Divider keys of numbers and their labels *)

Lemma trimmed_two_numbers a b :
  Forall is_digit a → a ≠ [] → Forall is_digit b → b ≠ [] →
  trimmed (a ++ 32 :: b ++ [32]) = a ++ 32 :: b.
Proof.
  intros Ha Hane Hb Hbne. unfold trimmed.
  assert (trim_left (a ++ 32 :: b ++ [32]) = a ++ 32 :: b ++ [32]) as ->.
  { destruct Ha as [|c r Hc Hr]; [done|]. cbn [app trim_left].
    by rewrite is_digit_not_space. }
  replace (a ++ 32 :: b ++ [32]) with ((a ++ 32 :: b) ++ [32])
    by (by rewrite <- app_assoc).
  rewrite reverse_app. change (reverse [32]) with [32]. cbn [app trim_left].
  change (isSpace 32) with true. cbv iota.
  assert (trim_left (reverse (a ++ 32 :: b)) = reverse (a ++ 32 :: b)) as ->.
  { rewrite reverse_app, reverse_cons.
    destruct (reverse b) as [|c r] eqn:Hrb.
    { apply (f_equal reverse) in Hrb. rewrite reverse_involutive in Hrb. done. }
    assert (is_digit c) as Hc.
    { assert (Forall is_digit (reverse b)) as Hall by by apply Forall_reverse.
      rewrite Hrb in Hall. by apply Forall_cons in Hall as [? _]. }
    cbn [app trim_left]. by rewrite is_digit_not_space. }
  apply reverse_involutive.
Qed.

Lemma toInt_two_numbers a b :
  Forall is_digit a → a ≠ [] → Forall is_digit b → b ≠ [] →
  toInt (a ++ 32 :: b ++ [32]) = 0.
Proof.
  intros Ha Hane Hb Hbne. unfold toInt, toInt_ok.
  rewrite trimmed_two_numbers by done.
  destruct Ha as [|c r Hc Hr]; [done|].
  assert (match (c :: r) ++ 32 :: b with
          | 45 :: r0 => (true, r0) | 43 :: r0 => (false, r0)
          | _ => (false, (c :: r) ++ 32 :: b)
          end = (false, (c :: r) ++ 32 :: b)) as ->.
  { unfold is_digit in Hc.
    assert (c = 48 ∨ c = 49 ∨ c = 50 ∨ c = 51 ∨ c = 52 ∨ c = 53 ∨ c = 54 ∨ c = 55
            ∨ c = 56 ∨ c = 57) as Hcases by lia.
    repeat destruct Hcases as [->|Hcases]; try done. by subst. }
  rewrite parse_digits_stops; [done|by constructor|]. unfold is_digit. lia.
Qed.

Section Labels.
Context `{External}.

Lemma DividerKey_Year it :
  sort_text it ≠ [] →
  DividerKey GroupBy.Year it
  = SortTextForNumber (toInt (sort_text it) `quot` 10 * 10).
Proof. intros Hne. unfold DividerKey. by destruct (sort_text it). Qed.

Lemma toInt_SortTextForNumber n :
  0 ≤ n ≤ 2147483647 →
  toInt (SortTextForNumber n) = n ∧ toInt (SortTextForNumber n ++ qs " ") = n.
Proof.
  intros Hn. unfold SortTextForNumber.
  destruct (arg_padded_digits n 4) as (Hne & Hd & Hv & Hl); [lia|].
  assert (digits_value (arg_padded n 4) ≤ 2147483647) as Hle by lia.
  unfold toInt. split.
  - rewrite (toInt_ok_digits _ Hd Hne Hle _ (trimmed_digits _ Hd)). by cbn.
  - change (qs " ") with [32].
    rewrite (toInt_ok_digits _ Hd Hne Hle _ (trimmed_digits_space _ Hd Hne)). by cbn.
Qed.

Lemma SortTextForNumber_zero n :
  0 ≤ n ≤ 2147483647 → SortTextForNumber n = qs "0000" ↔ n = 0.
Proof.
  intros Hn. split; [|by intros ->].
  intros Heq. destruct (arg_padded_digits n 4) as (_ & _ & Hv & _); [lia|].
  unfold SortTextForNumber in Heq. rewrite Heq in Hv. by rewrite <- Hv.
Qed.

(** X3.  The key of a number that is not negative reads back as the
    number.  The label of the divider of such a key is the number in decimal
    for the audio criteria, zero included: their test for the unknown value
    looks for three zeros and the key has four characters at least.  For the
    year criteria the label of the key of zero is the translated "Unknown",
    and the number otherwise. *)
Theorem DividerDisplayText_of_the_key_of_a_number (n : Z) :
  0 ≤ n ≤ 2147483647 →
  toInt (SortTextForNumber n) = n
  ∧ (∀ g, g = GroupBy.Samplerate ∨ g = GroupBy.Bitdepth ∨ g = GroupBy.Bitrate →
          DividerDisplayText g (SortTextForNumber n) = number n)
  ∧ (∀ g, g = GroupBy.Year ∨ g = GroupBy.OriginalYear →
          DividerDisplayText g (SortTextForNumber n)
          = if n =? 0 then tr (qs "Unknown") else number n).
Proof.
  intros Hn. destruct (toInt_SortTextForNumber n Hn) as [Ht _].
  split; [done|]. split.
  - assert (qeq (SortTextForNumber n) (qs "000") = false) as Hq.
    { unfold qeq. apply bool_decide_eq_false. intros Heq.
      destruct (arg_padded_digits n 4) as (_ & _ & _ & Hl); [lia|].
      unfold SortTextForNumber in Heq. rewrite Heq in Hl. cbn in Hl. lia. }
    intros g [->| [->| ->]]; unfold DividerDisplayText; by rewrite Hq, Ht.
  - assert (qeq (SortTextForNumber n) (qs "0000") = (n =? 0)) as Hq.
    { unfold qeq. destruct (Z.eqb_spec n 0) as [->|Hne].
      - by apply bool_decide_eq_true.
      - apply bool_decide_eq_false. by rewrite SortTextForNumber_zero. }
    intros g [->| ->]; unfold DividerDisplayText; rewrite Hq, Ht; done.
Qed.

(** X4.  The container of a year: [ItemFromSong] gives it the sort text of
    the year followed by a space, and its divider key is then the key of the
    decade.  Once [FinishItem] has put this key and a space before the sort
    text, the divider key of the container is the key of zero, whatever the
    year: the sort text no longer reads as a number. *)
Theorem DividerKey_of_a_year_before_and_after_FinishItem
    (m : Model) (sep : bool) (s : Song.t) (it : CollectionItem) :
  Song.year s ≤ 2147483647 →
  let year := Z.max 0 (Song.year s) in
  let it1 := ItemFromSong_switch m GroupBy.Year sep s it in
  let divider_key := DividerKey GroupBy.Year it1 in
  let it2 := set_sort_text ((divider_key ++ qs " ") ++ sort_text it1) it1 in
  sort_text it1 = SortTextForNumber year ++ qs " "
  ∧ divider_key = SortTextForNumber (year `quot` 10 * 10)
  ∧ divider_key ≠ []
  ∧ DividerKey GroupBy.Year it2 = SortTextForNumber 0
  ∧ (10 ≤ year → DividerKey GroupBy.Year it2 ≠ divider_key).
Proof.
  intros Hy year it1 divider_key it2.
  assert (0 ≤ year ≤ 2147483647) as Hyear by (unfold year; lia).
  assert (sort_text it1 = SortTextForNumber year ++ qs " ") as Hs1 by reflexivity.
  destruct (arg_padded_digits year 4) as (Hne & Hd & Hv & Hl); [lia|].
  fold (SortTextForNumber year) in Hne, Hd, Hv, Hl.
  assert (divider_key = SortTextForNumber (year `quot` 10 * 10)) as Hkey.
  { unfold divider_key. rewrite DividerKey_Year, Hs1.
    - by destruct (toInt_SortTextForNumber year Hyear) as [_ ->].
    - rewrite Hs1. intros Heq. by apply app_eq_nil in Heq as [_ ?]. }
  assert (0 ≤ year `quot` 10 * 10 ≤ year) as Hdec.
  { pose proof (Z.quot_pos year 10 ltac:(lia) ltac:(lia)).
    pose proof (Z.mul_quot_le year 10 ltac:(lia) ltac:(lia)). lia. }
  destruct (arg_padded_digits (year `quot` 10 * 10) 4) as (Hkne & Hkd & Hkv & Hkl);
    [lia|].
  fold (SortTextForNumber (year `quot` 10 * 10)) in Hkne, Hkd, Hkv, Hkl.
  split; [done|]. split; [done|]. split; [by rewrite Hkey|].
  assert (DividerKey GroupBy.Year it2 = SortTextForNumber 0) as Hafter.
  { rewrite DividerKey_Year; unfold it2; cbn [sort_text set_sort_text];
      rewrite Hs1, Hkey, <- app_assoc; change (qs " ") with [32]; cbn [app].
    - by rewrite toInt_two_numbers.
    - intros Heq. by apply app_eq_nil in Heq as [_ ?]. }
  split; [done|]. intros Hten. rewrite Hafter, Hkey.
  intros Heq. symmetry in Heq. apply SortTextForNumber_zero in Heq; [|lia].
  pose proof (Z.quot_str_pos year 10 ltac:(lia)). lia.
Qed.

End Labels.

Section Labels_witness.
#[local] Existing Instance Sample.external.

Lemma DividerDisplayText_of_the_key_of_a_number_witness :
  0 ≤ 0 ≤ 2147483647
  ∧ DividerDisplayText GroupBy.Samplerate (SortTextForNumber 0) = number 0.
Proof.
  assert (0 ≤ 0 ≤ 2147483647) as Hn by lia. split; [exact Hn|].
  exact (proj1 (proj2 (DividerDisplayText_of_the_key_of_a_number 0 Hn))
           GroupBy.Samplerate (or_introl eq_refl)).
Defined.

Lemma DividerKey_of_a_year_before_and_after_FinishItem_witness :
  let s := Sample.song 1 "Nirvana" "Unplugged" "About a Girl" 1 1 1994 in
  let it1 := ItemFromSong_switch (Sample.empty_model by_year true) GroupBy.Year false s
               null_item in
  Song.year s ≤ 2147483647
  ∧ DividerKey GroupBy.Year it1 = SortTextForNumber (Z.max 0 (Song.year s) `quot` 10 * 10).
Proof.
  intros s it1.
  assert (Song.year s ≤ 2147483647) as Hy by (vm_compute; discriminate).
  split; [exact Hy|].
  exact (proj1 (proj2 (DividerKey_of_a_year_before_and_after_FinishItem
                         (Sample.empty_model by_year true) false s null_item Hy))).
Defined.

End Labels_witness.

(** ** The grouping on a [QDataStream] *)

Lemma read_write_GroupBy g rest :
  read_quint32 (write_quint32 (GroupBy_value g) ++ rest) = (GroupBy_value g, rest)
  ∧ GroupBy_of_value (GroupBy_value g) = Some g
  ∧ Forall (λ b, 0 ≤ b < 256) (write_quint32 (GroupBy_value g)).
Proof.
  destruct g; (split; [reflexivity|split; [reflexivity|]]);
    apply (bool_decide_unpack _); vm_compute; exact I.
Qed.

(** X5.  A grouping written to a stream is read back from it, whatever
    follows it on the stream, and the stream is left at what follows; the
    grouping takes twelve bytes.  Read from a stream that has ended, the
    grouping is the one without any criterion. *)
Theorem Grouping_written_is_read_back (g : Grouping) (rest : list Z) :
  read_Grouping (write_Grouping g ++ rest) = Some (g, rest)
  ∧ length (write_Grouping g) = 12%nat
  ∧ Forall (λ b, 0 ≤ b < 256) (write_Grouping g)
  ∧ read_Grouping []
    = Some ({| first := GroupBy.None; second := GroupBy.None; third := GroupBy.None |},
            []).
Proof.
  destruct g as [a b c]. unfold write_Grouping, read_Grouping. cbn [first second third].
  destruct (read_write_GroupBy a (write_quint32 (GroupBy_value b)
              ++ write_quint32 (GroupBy_value c) ++ rest)) as (Ha & Ha' & Ha'').
  destruct (read_write_GroupBy b (write_quint32 (GroupBy_value c) ++ rest))
    as (Hb & Hb' & Hb'').
  destruct (read_write_GroupBy c rest) as (Hc & Hc' & Hc'').
  split; [|split; [|split]].
  - rewrite <- !app_assoc, Ha, Ha'. cbn [mbind option_bind].
    rewrite Hb, Hb'. cbn [mbind option_bind]. by rewrite Hc, Hc'.
  - done.
  - by repeat (apply Forall_app; split).
  - reflexivity.
Qed.

(** ** The size of the caches *)

Lemma wrap64_mul z k : wrap64 (wrap64 z * k) = wrap64 (z * k).
Proof.
  unfold wrap64. f_equal.
  pose proof (Z.div_mod (z + 9223372036854775808) 18446744073709551616 ltac:(lia))
    as Hdm.
  set (q := (z + 9223372036854775808) / 18446744073709551616) in *.
  set (r := (z + 9223372036854775808) mod 18446744073709551616) in *.
  replace ((r - 9223372036854775808) * k + 9223372036854775808)
    with (z * k + 9223372036854775808 + (- q * k) * 18446744073709551616) by lia.
  apply Z_mod_plus_full.
Qed.

Lemma wrap64_small z :
  -9223372036854775808 ≤ z ≤ 9223372036854775807 → wrap64 z = z.
Proof. intros Hz. unfold wrap64. rewrite Z.mod_small by lia. lia. Qed.

Lemma MaximumCacheSize_do_rounds fuel size unit :
  1 ≤ unit ≤ 2147483647 → (Z.to_nat unit ≤ fuel)%nat →
  MaximumCacheSize_do fuel size unit = Some (wrap64 (size * 1024 ^ unit)).
Proof.
  revert size unit. induction fuel as [|f IH]; intros size unit Hu Hf; [lia|].
  cbn [MaximumCacheSize_do].
  assert (wrap32 (unit - 1) = unit - 1) as ->
    by (unfold wrap32; rewrite Z.mod_small by lia; lia).
  destruct (Z.ltb_spec 0 (unit - 1)) as [Hpos|Hpos].
  - rewrite IH by lia. f_equal. rewrite wrap64_mul. f_equal.
    replace unit with (Z.succ (unit - 1)) at 2 by lia.
    rewrite Z.pow_succ_r by lia. ring.
  - assert (unit = 1) as -> by lia. by rewrite Z.pow_1_r.
Qed.

(** X6.  [MaximumCacheSize] returns, and returns the size read from the
    settings multiplied by 1024 as many times as the unit read, plus one,
    says, and once when that is not positive, reduced to 64 bits.  With the
    unit [0] for kilobytes and a size that is not negative, the limit of the
    pixmap cache, which is in kilobytes, is the size itself when the result
    fits. *)
Theorem MaximumCacheSize_is_a_power_of_1024 (size_setting unit_setting : Z) :
  -2147483648 ≤ unit_setting < 2147483647 →
  MaximumCacheSize size_setting unit_setting
  = Some (wrap64 (size_setting * 1024 ^ Z.max 1 (unit_setting + 1)))
  ∧ (0 ≤ size_setting → 0 ≤ unit_setting →
     size_setting * 1024 ^ (unit_setting + 1) ≤ 9223372036854775807 →
     MaximumCacheSize size_setting unit_setting
     = Some (size_setting * 1024 ^ (unit_setting + 1))
     ∧ pixmap_cache_limit size_setting unit_setting
       = Some (wrap32 (size_setting * 1024 ^ unit_setting))).
Proof.
  intros Hu.
  assert (MaximumCacheSize size_setting unit_setting
          = Some (wrap64 (size_setting * 1024 ^ Z.max 1 (unit_setting + 1)))) as Hm.
  { unfold MaximumCacheSize.
    assert (wrap32 (unit_setting + 1) = unit_setting + 1) as ->
      by (unfold wrap32; rewrite Z.mod_small by lia; lia).
    destruct (Z.le_gt_cases 1 (unit_setting + 1)) as [Hpos|Hneg].
    - rewrite MaximumCacheSize_do_rounds by lia. by rewrite Z.max_r by lia.
    - cbn [MaximumCacheSize_do].
      assert (wrap32 (unit_setting + 1 - 1) = unit_setting)
        as -> by (unfold wrap32; rewrite Z.mod_small by lia; lia).
      destruct (Z.ltb_spec 0 unit_setting); [lia|].
      rewrite Z.max_l by lia. by rewrite Z.pow_1_r. }
  split; [done|]. intros Hs Hpos Hfit.
  assert (0 ≤ 1024 ^ unit_setting) by (apply Z.pow_nonneg; lia).
  assert (1024 ^ (unit_setting + 1) = 1024 ^ unit_setting * 1024) as Hpow
    by (rewrite Z.pow_add_r by lia; lia).
  assert (MaximumCacheSize size_setting unit_setting
          = Some (size_setting * 1024 ^ (unit_setting + 1))) as Hm'.
  { rewrite Hm, Z.max_r by lia. f_equal. apply wrap64_small. nia. }
  split; [done|]. unfold pixmap_cache_limit. rewrite Hm'. cbn [mbind option_bind].
  f_equal. f_equal. rewrite Hpow, Z.mul_assoc. apply Z.quot_mul. lia.
Qed.

Lemma MaximumCacheSize_is_a_power_of_1024_witness :
  -2147483648 ≤ 1 < 2147483647
  ∧ MaximumCacheSize 160 1 = Some (wrap64 (160 * 1024 ^ Z.max 1 (1 + 1))).
Proof.
  assert (-2147483648 ≤ 1 < 2147483647) as Hu by lia. split; [exact Hu|].
  exact (proj1 (MaximumCacheSize_is_a_power_of_1024 160 1 Hu)).
Defined.

(** ** What the insertion leaves of the tree it finds *)

Section Older.
Context `{External}.

Lemma older_refl m : older m m.
Proof. split; [done|]. intros q Hq. done. Qed.

Lemma older_trans m1 m2 m3 : older m1 m2 → older m2 m3 → older m1 m3.
Proof.
  intros [Hn1 H1] [Hn2 H2]. split; [lia|]. intros q Hq.
  destruct (H1 q Hq) as (Hf1 & Hc1 & Hl1).
  destruct (H2 q ltac:(lia)) as (Hf2 & Hc2 & Hl2).
  split; [congruence|]. split; [by etrans|].
  intros Hne. rewrite Hl2; [auto|]. by rewrite Hl1.
Qed.

(** Steps that do not touch the items below the allocator of [m0]. *)
Lemma older_same_heap m0 m m' :
  heap m' = heap m → next_ptr m' = next_ptr m → older m0 m → older m0 m'.
Proof.
  intros Hh Hn [Hle Ho]. split; [lia|]. intros q Hq.
  assert (item m' q = item m q) as -> by (unfold item; by rewrite Hh). auto.
Qed.

Lemma older_update_item m0 p f m :
  (next_ptr m0 ≤ p)%nat → older m0 m → older m0 (update_item p f m).
Proof.
  intros Hp [Hle Ho]. split; [done|]. intros q Hq.
  rewrite item_update_item_other by lia. auto.
Qed.

Lemma older_new_CollectionItem m0 ty P m :
  older m0 m → older m0 (new_CollectionItem ty P m).2.
Proof.
  intros [Hle Ho]. split; [rewrite new_CollectionItem_next; lia|]. intros q Hq.
  destruct (Ho q Hq) as (Hf & Hc & Hl).
  assert (q ≠ next_ptr m) as Hne by lia.
  split; [|split].
  - rewrite <- Hf. unfold fixed_part.
    rewrite !(new_CollectionItem_field _ ty P m q Hne) by done. done.
  - etrans; [exact Hc|].
    destruct (decide (q = P)) as [->|HqP].
    + destruct (decide (P = nullptr)) as [HP|HP].
      * unfold item, new_CollectionItem. cbn. rewrite decide_True by done.
        by rewrite lookup_insert_ne.
      * unfold item, new_CollectionItem. cbn. rewrite decide_False by done.
        rewrite lookup_alter_eq, lookup_insert_ne by done.
        destruct (heap m !! P); cbn; [by apply prefix_app_r|done].
    + by rewrite new_CollectionItem_other.
  - intros Hnull. rewrite <- (Hl Hnull).
    by rewrite (new_CollectionItem_field compilation_artist_node_ ty P m q Hne).
Qed.

(** The compilation link of an item is written when it is null. *)
Lemma older_set_compilation m0 P node m :
  compilation_artist_node_ (item m P) = nullptr →
  older m0 m → older m0 (update_item P (set_compilation_artist_node_ node) m).
Proof.
  intros Hnull [Hle Ho]. split; [done|]. intros q Hq.
  destruct (Ho q Hq) as (Hf & Hc & Hl).
  split; [|split].
  - rewrite <- Hf. unfold fixed_part. by rewrite !update_item_field.
  - by rewrite update_item_field.
  - intros Hne. destruct (decide (q = P)) as [->|HqP].
    + rewrite (Hl Hne) in Hnull. done.
    + rewrite item_update_item_other by done. auto.
Qed.

Lemma older_emit m0 sg m : older m0 m → older m0 (emit sg m).
Proof. by apply older_same_heap. Qed.

Lemma older_signal m0 (signal : bool) (f : Model → Model) m :
  (∀ m, heap (f m) = heap m ∧ next_ptr (f m) = next_ptr m) →
  older m0 m → older m0 (if signal then f m else m).
Proof.
  intros Hf Ho. destruct signal; [|done].
  destruct (Hf m). by apply (older_same_heap m0 m).
Qed.

Lemma older_InitItem m0 gb signal P lvl m :
  older m0 m →
  older m0 (InitItem gb signal P lvl m).2
  ∧ (InitItem gb signal P lvl m).1
    = next_ptr m
  ∧ (next_ptr m0 ≤ next_ptr m)%nat.
Proof.
  intros Ho. unfold InitItem.
  set (m1 := if signal then _ else m).
  assert (older m0 m1) as Ho1 by (unfold m1; by apply older_signal).
  assert (next_ptr m1 = next_ptr m) as Hn1 by (unfold m1; by destruct signal).
  pose proof (older_new_CollectionItem m0
                (if GroupBy.eqb gb GroupBy.None then Type_Song else Type_Container)
                P m1 Ho1) as Ho2.
  pose proof (new_CollectionItem_ptr
                (if GroupBy.eqb gb GroupBy.None then Type_Song else Type_Container)
                P m1) as Hptr.
  destruct (new_CollectionItem _ P m1) as [p m2]. cbn [fst snd] in *. subst p.
  destruct Ho as [Hle _]. rewrite Hn1.
  split; [|done]. do 2 (apply older_update_item; [lia|]). done.
Qed.

Lemma older_FinishItem m0 gb signal cd P p m :
  (next_ptr m0 ≤ p)%nat → older m0 m → older m0 (FinishItem gb signal cd P p m).
Proof.
  intros Hp Ho. unfold FinishItem.
  set (m1 := if signal then endInsertRows m else m).
  assert (older m0 m1) as Ho1 by (unfold m1; by apply older_signal).
  destruct (cd && show_dividers_ m1); [|done].
  set (m2 := if negb (isEmpty _) then _ else m1).
  assert (older m0 m2) as Ho2.
  { unfold m2. destruct (negb (isEmpty _)); [|done]. by apply older_update_item. }
  destruct (_ && _); [|done].
  set (m3 := if signal then _ else m2).
  assert (older m0 m3) as Ho3 by (unfold m3; by apply older_signal).
  pose proof (older_new_CollectionItem m0 Type_Divider (root_ m3) m3 Ho3) as Ho4.
  pose proof (new_CollectionItem_ptr Type_Divider (root_ m3) m3) as Hptr.
  destruct (new_CollectionItem Type_Divider (root_ m3) m3) as [d m4].
  cbn [fst snd] in *. subst d.
  assert (next_ptr m0 ≤ next_ptr m3)%nat as Hle by apply Ho3.
  apply older_signal; [done|].
  match goal with
  | |- older _ (with_divider_nodes_ _ ?x) =>
      apply (older_same_heap m0 x); [done|done|]
  end.
  do 3 (apply older_update_item; [done|]). done.
Qed.

Lemma older_ItemFromSong m0 gb sep signal cd P s lvl m :
  older m0 m → older m0 (ItemFromSong gb sep signal cd P s lvl m).2.
Proof.
  intros Ho. unfold ItemFromSong.
  destruct (older_InitItem m0 gb signal P lvl m Ho) as (Ho1 & Hp & Hle).
  destruct (InitItem gb signal P lvl m) as [p m1]. cbn [fst snd] in *. subst p.
  apply older_FinishItem; [done|]. apply older_update_item; [done|].
  destruct (_ && _); [by apply older_update_item|done].
Qed.

Lemma new_CollectionItem_keeps_nullptr ty P m :
  compilation_artist_node_ (item m P) = nullptr →
  compilation_artist_node_ (item (new_CollectionItem ty P m).2 P) = nullptr.
Proof.
  intros Hnull. destruct (decide (P = next_ptr m)) as [->|Hne].
  - unfold item, new_CollectionItem. cbn. case_decide.
    + by rewrite lookup_insert_eq.
    + by rewrite lookup_alter_eq, lookup_insert_eq.
  - by rewrite (new_CollectionItem_field compilation_artist_node_).
Qed.

Lemma older_CreateCompilationArtistNode m0 signal P m :
  compilation_artist_node_ (item m P) = nullptr →
  older m0 m → older m0 (CreateCompilationArtistNode signal P m).2.
Proof.
  intros Hnull Ho. unfold CreateCompilationArtistNode.
  set (m1 := if signal then _ else m).
  assert (older m0 m1) as Ho1 by (unfold m1; by apply older_signal).
  assert (compilation_artist_node_ (item m1 P) = nullptr) as Hnull1
    by (unfold m1; by destruct signal).
  pose proof (older_new_CollectionItem m0 Type_Container P m1 Ho1) as Ho2.
  pose proof (new_CollectionItem_ptr Type_Container P m1) as Hptr.
  pose proof (new_CollectionItem_keeps_nullptr Type_Container P m1 Hnull1) as Hnull2.
  destruct (new_CollectionItem Type_Container P m1) as [node m2].
  cbn [fst snd] in *. subst node.
  assert (next_ptr m0 ≤ next_ptr m1)%nat as Hle by apply Ho1.
  cbn [snd]. apply older_signal; [done|].
  do 4 (apply older_update_item; [done|]).
  set (m3 := update_item P _ m2).
  assert (older m0 m3) as Ho3 by by apply older_set_compilation.
  destruct (_ && _); do 1 (apply older_update_item; [done|]);
    try (apply older_update_item; [done|]); done.
Qed.

Lemma older_AddSongs_container m0 n i song c k m :
  older m0 m → older m0 (AddSongs_container n i song c k m).2.
Proof.
  revert i c k m. induction n as [|n IH]; intros i c k m Ho;
    cbn [AddSongs_container]; [done|].
  destruct (GroupBy.eqb _ _); [done|]. destruct (_ && _).
  - apply IH. destruct (decide _) as [Hnull|]; [|done].
    by apply older_CreateCompilationArtistNode.
  - destruct (_ !! _); [by apply IH|].
    pose proof (older_ItemFromSong m0 (Grouping_at (group_by_ m) i)
                  (separate_albums_by_grouping_ m) true (i =? 0) c song i m Ho) as Hi.
    destruct (ItemFromSong _ _ _ _ _ _ _ _) as [q m1]. cbn [snd] in Hi.
    apply IH. apply (older_same_heap m0 m1); [| |done];
      unfold with_container_nodes_at; by destruct (i <? 0).
Qed.

Lemma older_AddSong m0 song m : older m0 m → older m0 (AddSong song m).
Proof.
  intros Ho. unfold AddSong.
  set (m1 := with_songs_ _ m).
  assert (older m0 m1) as Ho1 by by apply (older_same_heap m0 m).
  destruct (negb _); [done|]. destruct (bool_decide _); [done|].
  pose proof (older_AddSongs_container m0 3 0 song (root_ m1) [] m1 Ho1) as Hc.
  destruct (AddSongs_container _ _ _ _ _ _) as [c m2]. cbn [snd] in Hc.
  pose proof (older_ItemFromSong m0 GroupBy.None (separate_albums_by_grouping_ m2)
                true false c song (-1) m2 Hc) as Hi.
  destruct (ItemFromSong _ _ _ _ _ _ _ _) as [leaf m3]. cbn [snd] in Hi.
  by apply (older_same_heap m0 m3).
Qed.

Lemma older_AddSongs m0 songs m : older m0 m → older m0 (AddSongs songs m).
Proof.
  unfold AddSongs. revert m. induction songs as [|x l IH]; intros m Ho; [done|].
  cbn [foldl]. by apply IH, older_AddSong.
Qed.

(** X7.  [AddSongs] allocates above the items it finds and leaves them
    their type, position, parent, key, texts, level and record; it appends
    to their children, and writes a compilation link only where there was
    none. *)
Theorem AddSongs_keeps_the_items_it_finds (songs : SongList) (m : Model) :
  (next_ptr m ≤ next_ptr (AddSongs songs m))%nat
  ∧ ∀ q, (q < next_ptr m)%nat →
         fixed_part (item (AddSongs songs m) q) = fixed_part (item m q)
         ∧ children (item m q) `prefix_of` children (item (AddSongs songs m) q)
         ∧ (compilation_artist_node_ (item m q) ≠ nullptr →
            compilation_artist_node_ (item (AddSongs songs m) q)
            = compilation_artist_node_ (item m q)).
Proof.
  change (older m (AddSongs songs m)). unfold AddSongs.
  assert (∀ m1, older m m1 → older m (foldl (λ m song, AddSong song m) m1 songs))
    as Hall.
  { induction songs as [|x l IH]; intros m1 Ho; [done|]. cbn [foldl].
    apply IH. by apply older_AddSong. }
  apply Hall, older_refl.
Qed.

End Older.

(** ** The tables of [AddSongs] *)

Section Tables_grow.
Context `{External}.

Lemma tables_grow_refl m : tables_grow m m.
Proof. done. Qed.

Lemma tables_grow_same m0 m m' :
  tree_tables m' = tree_tables m → tables_grow m0 m → tables_grow m0 m'.
Proof.
  unfold tree_tables. intros Heq (A & B & C). injection Heq as Hs Hc Hd.
  unfold tables_grow, container_nodes_at. by rewrite Hs, Hc, Hd.
Qed.

Lemma tree_tables_InitItem gb signal P lvl m :
  tree_tables (InitItem gb signal P lvl m).2 = tree_tables m.
Proof. unfold InitItem. by destruct signal. Qed.

Lemma tree_tables_CreateCompilationArtistNode signal P m :
  tree_tables (CreateCompilationArtistNode signal P m).2 = tree_tables m.
Proof.
  unfold CreateCompilationArtistNode, new_CollectionItem.
  destruct signal; cbn [snd]; by case_match.
Qed.

Lemma container_nodes_FinishItem gb signal cd P p m :
  container_nodes_ (FinishItem gb signal cd P p m) = container_nodes_ m.
Proof.
  unfold FinishItem.
  set (m1 := if signal then endInsertRows m else m).
  assert (container_nodes_ m1 = container_nodes_ m) as H1
    by (unfold m1; by destruct signal).
  destruct (cd && show_dividers_ m1); [|done].
  set (m2 := if negb (isEmpty (DividerKey gb (item m1 p))) then _ else m1).
  assert (container_nodes_ m2 = container_nodes_ m) as H2
    by (unfold m2; by destruct (negb (isEmpty _))).
  destruct (_ && _); [|done].
  by destruct signal.
Qed.

Lemma container_nodes_ItemFromSong gb sep signal cd P s lvl m :
  container_nodes_ (ItemFromSong gb sep signal cd P s lvl m).2 = container_nodes_ m.
Proof.
  unfold ItemFromSong.
  pose proof (tree_tables_InitItem gb signal P lvl m) as Hi.
  destruct (InitItem gb signal P lvl m) as [q m1]. cbn [snd] in *.
  rewrite container_nodes_FinishItem. injection Hi as _ <- _.
  by destruct (_ && _).
Qed.

Lemma tables_grow_FinishItem m0 gb signal cd P p m :
  tables_grow m0 m → tables_grow m0 (FinishItem gb signal cd P p m).
Proof.
  intros Hg. unfold FinishItem.
  set (m1 := if signal then endInsertRows m else m).
  assert (tables_grow m0 m1) as Hg1
    by (apply (tables_grow_same m0 m); [by destruct signal|done]).
  destruct (cd && show_dividers_ m1); [|done].
  set (divider_key := DividerKey gb (item m1 p)).
  set (m2 := if negb (isEmpty divider_key) then _ else m1).
  assert (tree_tables m2 = tree_tables m1) as Ht2
    by (unfold m2; by destruct (negb _)).
  assert (tables_grow m0 m2) as Hg2 by by apply (tables_grow_same m0 m1).
  destruct (negb (isEmpty divider_key)); cbn [andb]; [|done].
  destruct (bool_decide _) eqn:Hdec; cbn [negb]; [done|].
  apply bool_decide_eq_false in Hdec.
  assert (divider_nodes_ m2 !! divider_key = None) as Hnone.
  { destruct (divider_nodes_ m2 !! divider_key) eqn:E; [|done].
    exfalso. apply Hdec. by eexists. }
  destruct Hg2 as (A & B & C).
  assert (tables_grow m0
            (with_divider_nodes_
               (<[divider_key := next_ptr m2]> (divider_nodes_ m2)) m2)) as Hg3.
  { split; [done|]. split; [done|]. cbn.
    etrans; [exact C|]. by apply insert_subseteq. }
  destruct signal; exact Hg3.
Qed.

Lemma tables_grow_ItemFromSong m0 gb sep signal cd P s lvl m :
  tables_grow m0 m → tables_grow m0 (ItemFromSong gb sep signal cd P s lvl m).2.
Proof.
  intros Hg. unfold ItemFromSong.
  pose proof (tree_tables_InitItem gb signal P lvl m) as Hi.
  destruct (InitItem gb signal P lvl m) as [p m1]. cbn [snd] in *.
  apply tables_grow_FinishItem. apply (tables_grow_same m0 m); [|done].
  rewrite <- Hi. by destruct (_ && _).
Qed.

Lemma container_nodes_at_insert i k c m j :
  container_nodes_at m i !! k = None →
  container_nodes_at m j
  ⊆ container_nodes_at (with_container_nodes_at i (<[k := c]> (container_nodes_at m i)) m) j.
Proof.
  intros Hnone. unfold with_container_nodes_at, container_nodes_at in *.
  destruct (i <? 0); [done|].
  cbn [container_nodes_ with_container_nodes_].
  destruct (j <? 0); [done|].
  destruct (decide (Z.to_nat j = Z.to_nat i)) as [Heq|Hne].
  - rewrite Heq. destruct (container_nodes_ m !! Z.to_nat i) as [t|] eqn:Ht.
    + rewrite list_lookup_insert_eq by (by eapply lookup_lt_Some).
      cbn in *. by apply insert_subseteq.
    + rewrite list_insert_ge by (by apply lookup_ge_None). by rewrite Ht.
  - by rewrite list_lookup_insert_ne.
Qed.

Lemma tables_grow_AddSongs_container m0 n i song c k m :
  tables_grow m0 m → tables_grow m0 (AddSongs_container n i song c k m).2.
Proof.
  revert i c k m. induction n as [|n IH]; intros i c k m Hg;
    cbn [AddSongs_container]; [done|].
  destruct (GroupBy.eqb _ _); [done|]. destruct (_ && _).
  - apply IH. destruct (decide _); [|done].
    apply (tables_grow_same m0 m); [|done]. apply tree_tables_CreateCompilationArtistNode.
  - set (key_ := _ ++ ContainerKey _ _ _).
    destruct (container_nodes_at m i !! key_) eqn:Hk; [by apply IH|].
    pose proof (tables_grow_ItemFromSong m0 (Grouping_at (group_by_ m) i)
                  (separate_albums_by_grouping_ m) true (i =? 0) c song i m Hg) as Hi.
    assert (container_nodes_
              (ItemFromSong (Grouping_at (group_by_ m) i)
                 (separate_albums_by_grouping_ m) true (i =? 0) c song i m).2
            = container_nodes_ m) as Hsame.
    { apply container_nodes_ItemFromSong. }
    destruct (ItemFromSong _ _ _ _ _ _ _ _) as [q m1]. cbn [snd] in *.
    apply IH. destruct Hi as (A & B & C).
    assert (container_nodes_at m1 i !! key_ = None) as Hnone
      by (unfold container_nodes_at in *; by rewrite Hsame).
    split; [by destruct (i <? 0) in |- *; unfold with_container_nodes_at;
            destruct (i <? 0)|].
    split; [|by unfold with_container_nodes_at; destruct (i <? 0)].
    intros j. etrans; [apply B|]. by apply container_nodes_at_insert.
Qed.

End Tables_grow.

Section Index.
Context `{External}.

Lemma new_CollectionItem_type ty P m :
  type (item (new_CollectionItem ty P m).2 (next_ptr m)) = ty.
Proof.
  unfold item, new_CollectionItem. cbn. case_decide.
  - by rewrite lookup_insert_eq.
  - destruct (decide (P = next_ptr m)) as [->|Hne].
    + by rewrite lookup_alter_eq, lookup_insert_eq.
    + by rewrite lookup_alter_ne, lookup_insert_eq.
Qed.

(** The leaf that [ItemFromSong] makes for a song. *)
Lemma ItemFromSong_leaf sep signal P s lvl m :
  let r := ItemFromSong GroupBy.None sep signal false P s lvl m in
  r.1 = next_ptr m ∧ next_ptr r.2 = S (next_ptr m)
  ∧ type (item r.2 r.1) = Type_Song ∧ metadata (item r.2 r.1) = s
  ∧ display_text (item r.2 r.1) = TitleWithCompilationArtist s
  ∧ (lvl ≠ 1 → sort_text (item r.2 r.1) = SortTextForSong s).
Proof.
  unfold ItemFromSong, InitItem. cbn [GroupBy.eqb].
  set (m1 := if signal then _ else m).
  assert (next_ptr m1 = next_ptr m) as Hn1 by (unfold m1; by destruct signal).
  pose proof (new_CollectionItem_type Type_Song P m1) as Hty.
  pose proof (proj2 (new_CollectionItem_allocated Type_Song P m1 (next_ptr m1))
                (or_introl eq_refl)) as Hal.
  pose proof (new_CollectionItem_next Type_Song P m1) as Hnext.
  pose proof (new_CollectionItem_ptr Type_Song P m1) as Hptr.
  change (GroupBy.eqb GroupBy.None GroupBy.None) with true. cbn iota.
  destruct (new_CollectionItem Type_Song P m1) as [p m2]. cbn [fst snd] in *. subst p.
  set (m3 := update_item (next_ptr m1) (set_container_level lvl)
               (update_item (next_ptr m1) (set_compilation_artist_node_ nullptr) m2)).
  assert (allocated m3 (next_ptr m1)) as Hal3
    by (unfold m3; by rewrite !allocated_update_item).
  assert (type (item m3 (next_ptr m1)) = Type_Song) as Hty3
    by (unfold m3; by rewrite !(update_item_field type)).
  set (m4 := if _ && _ then _ else m3).
  assert (allocated m4 (next_ptr m1)) as Hal4
    by (unfold m4; destruct (_ && _); by rewrite ?allocated_update_item).
  assert (type (item m4 (next_ptr m1)) = Type_Song) as Hty4
    by (unfold m4; destruct (_ && _); by rewrite ?(update_item_field type)).
  set (m5 := update_item (next_ptr m1) _ m4).
  assert (item m5 (next_ptr m1)
          = ItemFromSong_switch m4 GroupBy.None sep s (item m4 (next_ptr m1))) as H5
    by (unfold m5; by rewrite item_update_item_same).
  assert (container_level (item m4 (next_ptr m1)) = lvl) as Hl4.
  { assert (container_level (item m3 (next_ptr m1)) = lvl) as Hl3.
    { unfold m3. rewrite item_update_item_same; [done|].
      by rewrite allocated_update_item. }
    unfold m4. destruct (_ && _); by rewrite ?(update_item_field container_level). }
  assert (next_ptr m5 = S (next_ptr m1)) as Hn5
    by (unfold m5, m4, m3; by destruct (_ && _)).
  unfold FinishItem. cbn [andb].
  rewrite <- Hn1. split; [done|].
  assert (lvl ≠ 1 →
          sort_text (ItemFromSong_switch m4 GroupBy.None sep s (item m4 (next_ptr m1)))
          = SortTextForSong s) as Hsort.
  { intros Hne. cbn. rewrite Hl4.
    destruct (Z.eqb_spec lvl 1) as [?|_]; [done|]. done. }
  destruct signal; unfold endInsertRows; rewrite ?item_emit, H5; by repeat split.
Qed.

(** A song that is shown and has no leaf gets one, with its record. *)
Lemma AddSong_added_leaf song m :
  Matches song = true → song_nodes_ m !! Song.id song = None →
  ∃ leaf,
    (next_ptr m ≤ leaf < next_ptr (AddSong song m))%nat
    ∧ song_nodes_ (AddSong song m) = <[Song.id song := leaf]> (song_nodes_ m)
    ∧ type (item (AddSong song m) leaf) = Type_Song
    ∧ metadata (item (AddSong song m) leaf) = song
    ∧ display_text (item (AddSong song m) leaf) = TitleWithCompilationArtist song
    ∧ sort_text (item (AddSong song m) leaf) = SortTextForSong song.
Proof.
  intros Hm Hs. unfold AddSong. rewrite Hm. cbn [negb].
  set (m1 := with_songs_ _ m).
  change (song_nodes_ m1) with (song_nodes_ m).
  rewrite bool_decide_eq_false_2 by (rewrite Hs; by intros [? ?]).
  pose proof (records_AddSongs_container 3 0 song (root_ m1) [] m1) as Hc.
  pose proof (older_AddSongs_container m1 3 0 song (root_ m1) [] m1 (older_refl m1))
    as [Ho _].
  destruct (AddSongs_container _ _ _ _ _ _) as [c m2]. cbn [snd] in *.
  pose proof (records_ItemFromSong GroupBy.None (separate_albums_by_grouping_ m2)
                true false c song (-1) m2) as Hi.
  pose proof (ItemFromSong_leaf (separate_albums_by_grouping_ m2) true c song (-1) m2)
    as (Hp & Hn & Hty & Hmd & Hdt & Hst).
  destruct (ItemFromSong _ _ _ _ _ _ _ _) as [leaf m3]. cbn [fst snd] in *.
  rewrite Hc in Hi. injection Hi as _ Hnodes _.
  exists leaf. subst leaf. cbn [next_ptr with_song_nodes_]. rewrite Hn.
  change (next_ptr m1) with (next_ptr m) in Ho.
  split; [lia|]. split; [by rewrite Hnodes|].
  split; [done|]. split; [done|]. split; [done|]. by apply Hst.
Qed.

Lemma tables_grow_AddSong m0 song m :
  tables_grow m0 m → tables_grow m0 (AddSong song m).
Proof.
  intros Hg. unfold AddSong.
  set (m1 := with_songs_ _ m).
  assert (tables_grow m0 m1) as Hg1 by by apply (tables_grow_same m0 m).
  destruct (negb _); [done|]. destruct (bool_decide _) eqn:Hdec; [done|].
  apply bool_decide_eq_false in Hdec.
  pose proof (tables_grow_AddSongs_container m0 3 0 song (root_ m1) [] m1 Hg1) as Hc.
  pose proof (records_AddSongs_container 3 0 song (root_ m1) [] m1) as Hrc.
  destruct (AddSongs_container _ _ _ _ _ _) as [c m2]. cbn [snd] in *.
  pose proof (tables_grow_ItemFromSong m0 GroupBy.None (separate_albums_by_grouping_ m2)
                true false c song (-1) m2 Hc) as Hi.
  pose proof (records_ItemFromSong GroupBy.None (separate_albums_by_grouping_ m2)
                true false c song (-1) m2) as Hri.
  destruct (ItemFromSong _ _ _ _ _ _ _ _) as [leaf m3]. cbn [snd] in *.
  rewrite Hrc in Hri. injection Hri as _ Hnodes _.
  destruct Hi as (A & B & C). split; [|done]. cbn.
  etrans; [exact A|]. apply insert_subseteq. rewrite Hnodes.
  destruct (song_nodes_ m1 !! Song.id song) eqn:E; [|done].
  exfalso. apply Hdec. by eexists.
Qed.

Lemma tables_grow_AddSongs m0 songs m :
  tables_grow m0 m → tables_grow m0 (AddSongs songs m).
Proof.
  unfold AddSongs. revert m. induction songs as [|x l IH]; intros m Hg; [done|].
  cbn [foldl]. by apply IH, tables_grow_AddSong.
Qed.



End Index.

Section AddSongs_tables_witness.
#[local] Existing Instance Sample.external.

Lemma AddSongs_keeps_the_items_it_finds_witness :
  let songs := [Sample.song 2 "Queen" "Jazz" "Bicycle Race" 1 4 1978] in
  (2 < next_ptr abba_model)%nat
  ∧ fixed_part (item (AddSongs songs abba_model) 2) = fixed_part (item abba_model 2).
Proof.
  intros songs.
  assert (2 < next_ptr abba_model)%nat as H1 by (vm_compute; lia).
  split; [exact H1|].
  exact (proj1 (proj2 (AddSongs_keeps_the_items_it_finds songs abba_model) 2%nat H1)).
Defined.


End AddSongs_tables_witness.

(** ** The insertions of [AddSongs] *)

Section Quiet.
Context `{External}.

Lemma quiet_refl m : quiet m m.
Proof. done. Qed.

Lemma quiet_trans m1 m2 m3 : quiet m1 m2 → quiet m2 m3 → quiet m1 m3.
Proof.
  intros (A1 & A2 & A3 & A4 & A5) (B1 & B2 & B3 & B4 & B5).
  split; [congruence|]. split; [congruence|]. split; [congruence|].
  split; intros q; [by rewrite B4|by rewrite B5].
Qed.

Lemma quiet_update_item p f m :
  (∀ it, place (f it) = place it) → quiet m (update_item p f m).
Proof.
  intros Hf. split; [done|]. split; [done|]. split; [done|].
  split; intros q; [apply allocated_update_item|].
  by apply (update_item_field place).
Qed.

Lemma quiet_same m m' :
  heap m' = heap m → next_ptr m' = next_ptr m → root_ m' = root_ m →
  signals_ m' = signals_ m → quiet m m'.
Proof.
  intros Hh Hn Hr Hs. unfold quiet, allocated, item. by rewrite Hh, Hn, Hr, Hs.
Qed.

Lemma quiet_emit s m m' : quiet m m' → quiet (emit s m) (emit s m').
Proof.
  intros (A1 & A2 & A3 & A4 & A5). split; [cbn; by rewrite A1|].
  split; [done|]. split; [done|]. split; intros q.
  - by rewrite !allocated_emit.
  - by rewrite !item_emit.
Qed.

Lemma place_ItemFromSong_switch m gb sep s it :
  place (ItemFromSong_switch m gb sep s it) = place it.
Proof. by destruct gb. Qed.

(** *** What [insert_row] does *)

Lemma insert_row_next ty P m : next_ptr (insert_row ty P m) = S (next_ptr m).
Proof. reflexivity. Qed.


Lemma insert_row_signals ty P m :
  signals_ (insert_row ty P m)
  = signals_ m
    ++ [rowsAboutToBeInserted (ItemToIndex m P) (count m P) (count m P); rowsInserted].
Proof. unfold insert_row. cbn. by rewrite <- app_assoc. Qed.

Lemma insert_row_allocated ty P m q :
  allocated (insert_row ty P m) q ↔ q = next_ptr m ∨ allocated m q.
Proof.
  unfold insert_row, endInsertRows. rewrite allocated_emit.
  rewrite new_CollectionItem_allocated. unfold beginInsertRows.
  by rewrite allocated_emit.
Qed.

Lemma insert_row_item ty P m q :
  item (insert_row ty P m) q
  = item (new_CollectionItem ty P m).2 q.
Proof. reflexivity. Qed.

Lemma insert_row_old ty P m q :
  q ≠ next_ptr m →
  row (item (insert_row ty P m) q) = row (item m q)
  ∧ parent (item (insert_row ty P m) q) = parent (item m q).
Proof.
  intros Hq. rewrite insert_row_item.
  by rewrite (new_CollectionItem_field row), (new_CollectionItem_field parent).
Qed.

Lemma insert_row_new ty P m :
  (0 < P < next_ptr m)%nat →
  row (item (insert_row ty P m) (next_ptr m)) = count m P
  ∧ parent (item (insert_row ty P m) (next_ptr m)) = P
  ∧ children (item (insert_row ty P m) (next_ptr m)) = [].
Proof.
  intros HP. rewrite insert_row_item, new_CollectionItem_new by lia. cbn.
  rewrite decide_False; [done|]. unfold nullptr. lia.
Qed.

Lemma insert_row_children ty P m q :
  (0 < P < next_ptr m)%nat → allocated m P → q ≠ next_ptr m →
  children (item (insert_row ty P m) q)
  = if decide (q = P) then children (item m q) ++ [next_ptr m]
    else children (item m q).
Proof.
  intros HP Ha Hq. rewrite insert_row_item. case_decide as Hd.
  - subst q. rewrite new_CollectionItem_parent; [done|lia| |done].
    unfold nullptr. lia.
  - by rewrite new_CollectionItem_other.
Qed.

Lemma insert_row_ItemToIndex ty P m q :
  q ≠ next_ptr m → ItemToIndex (insert_row ty P m) q = ItemToIndex m q.
Proof.
  intros Hq. unfold ItemToIndex.
  by destruct (insert_row_old ty P m q Hq) as [-> ->].
Qed.

Lemma quiet_ItemToIndex m m' q : quiet m m' → ItemToIndex m' q = ItemToIndex m q.
Proof.
  intros (_ & _ & _ & _ & Hp). unfold ItemToIndex.
  specialize (Hp q). unfold place in Hp. by injection Hp as -> -> _.
Qed.

(** *** [ItemFromSong] and [CreateCompilationArtistNode] insert rows *)

Lemma InitItem_quiet gb P lvl m :
  (InitItem gb true P lvl m).1 = next_ptr m
  ∧ quiet (new_CollectionItem
             (if GroupBy.eqb gb GroupBy.None then Type_Song else Type_Container) P
             (beginInsertRows (ItemToIndex m P) (count m P) (count m P) m)).2
      (InitItem gb true P lvl m).2.
Proof.
  unfold InitItem.
  destruct (new_CollectionItem _ P _) as [p m1] eqn:Hnew.
  assert (p = next_ptr m) as -> by (by injection Hnew as <- _).
  cbn [fst snd]. split; [done|].
  eapply quiet_trans; by apply quiet_update_item.
Qed.

Lemma FinishItem_insertions gb cd P p m :
  (cd = true → P = root_ m) →
  let m1 := endInsertRows m in
  let divider_key := DividerKey gb (item m1 p) in
  let m2 :=
    if cd && show_dividers_ m1 && negb (isEmpty divider_key)
    then update_item p
           (λ it, set_sort_text ((divider_key ++ qs " ") ++ sort_text it) it) m1
    else m1 in
  quiet m1 m2
  ∧ (quiet m2 (FinishItem gb true cd P p m)
     ∨ quiet (insert_row Type_Divider P m2) (FinishItem gb true cd P p m)).
Proof.
  intros Hcd m1 divider_key m2. unfold FinishItem. fold m1. fold divider_key.
  destruct (cd && show_dividers_ m1) eqn:Hshow; [|split; [done|by left]].
  assert (P = root_ m) as HP by (apply Hcd; by destruct cd).
  cbn [andb] in m2.
  destruct (negb (isEmpty divider_key)) eqn:Hk; cbn [andb];
    [|split; [done|by left]].
  split; [by apply quiet_update_item|]. fold m2.
  destruct (negb (bool_decide _)); [right|by left].
  unfold insert_row.
  change (root_ (beginInsertRows (ItemToIndex m2 P) (count m2 P) (count m2 P) m2))
    with (root_ m). rewrite <- HP.
  destruct (new_CollectionItem Type_Divider P _) as [d m6].
  cbn [snd]. apply quiet_emit.
  eapply quiet_trans; [|apply quiet_same; reflexivity].
  eapply quiet_trans; [|by apply quiet_update_item].
  eapply quiet_trans; [|by apply quiet_update_item].
  by apply quiet_update_item.
Qed.

Lemma ItemFromSong_insertions gb sep cd P s lvl m :
  (cd = true → P = root_ m) →
  let ty := if GroupBy.eqb gb GroupBy.None then Type_Song else Type_Container in
  let mf := (ItemFromSong gb sep true cd P s lvl m).2 in
  (ItemFromSong gb sep true cd P s lvl m).1 = next_ptr m
  ∧ ∃ m1, quiet (insert_row ty P m) m1
          ∧ (quiet m1 mf ∨ quiet (insert_row Type_Divider P m1) mf).
Proof.
  intros Hcd ty mf. unfold mf, ItemFromSong.
  destruct (InitItem_quiet gb P lvl m) as [Hp Hq]. fold ty in Hq.
  destruct (InitItem gb true P lvl m) as [p m1]. cbn [fst snd] in *. subst p.
  split; [done|].
  set (m2 := if negb (bool_decide (P = root_ m1)) && negb (isEmpty (key (item m1 P)))
             then update_item (next_ptr m) (set_key (key (item m1 P) ++ qs "-")) m1
             else m1).
  assert (quiet m1 m2) as Hq2
    by (unfold m2; destruct (_ && _); [by apply quiet_update_item|done]).
  set (m3 := update_item (next_ptr m) (ItemFromSong_switch m2 gb sep s) m2).
  assert (quiet m2 m3) as Hq3
    by (apply quiet_update_item; intros it; apply place_ItemFromSong_switch).
  assert (quiet (insert_row ty P m) (endInsertRows m3)) as Hq4.
  { apply quiet_emit. eapply quiet_trans; [exact Hq|].
    eapply quiet_trans; [exact Hq2|exact Hq3]. }
  assert (root_ m3 = root_ m) as Hr3.
  { destruct Hq4 as (_ & _ & Hr4 & _). exact Hr4. }
  destruct (FinishItem_insertions gb cd P (next_ptr m) m3) as [Hq5 Hfin];
    [by rewrite Hr3|].
  eexists. split; [eapply quiet_trans; [exact Hq4|exact Hq5]|exact Hfin].
Qed.

Lemma CreateCompilationArtistNode_insertion P m :
  quiet (insert_row Type_Container P m) (CreateCompilationArtistNode true P m).2.
Proof.
  unfold CreateCompilationArtistNode, insert_row.
  destruct (new_CollectionItem Type_Container P _) as [node m1].
  cbn [snd]. apply quiet_emit.
  eapply quiet_trans; [|by apply quiet_update_item].
  eapply quiet_trans; [|by apply quiet_update_item].
  eapply quiet_trans; [|by apply quiet_update_item].
  eapply quiet_trans; [|by apply quiet_update_item].
  set (m2 := update_item node _ (update_item P _ m1)).
  assert (quiet m1 m2) as Hq
    by (eapply quiet_trans; by apply quiet_update_item).
  destruct (_ && _); [|done].
  eapply quiet_trans; [exact Hq|]. by apply quiet_update_item.
Qed.

End Quiet.

Lemma frame_group_by_ (m m' : Model) : frame m' = frame m → group_by_ m' = group_by_ m.
Proof. unfold frame. intros Hf. by injection Hf. Qed.

(** *** A property that insertions keep is kept by [AddSongs] *)

Section Insertions.
Context `{External}.
Variable ok : Song.t → Prop.
Variable R : Model → Prop.
Hypothesis R_quiet : ∀ m m', quiet m m' → R m → R m'.
Hypothesis R_insert :
  ∀ ty P m, (0 < P < next_ptr m)%nat → allocated m P → R m → R (insert_row ty P m).

Lemma R_ItemFromSong gb sep cd P s lvl m :
  (cd = true → P = root_ m) → (0 < P < next_ptr m)%nat → allocated m P → R m →
  R (ItemFromSong gb sep true cd P s lvl m).2.
Proof.
  intros Hcd HP Ha HR.
  destruct (ItemFromSong_insertions gb sep cd P s lvl m Hcd) as [_ (m1 & Hq1 & Hfin)].
  assert (R m1) as HR1 by (apply (R_quiet _ _ Hq1); by apply R_insert).
  destruct Hfin as [Hq|Hq]; apply (R_quiet _ _ Hq); [done|].
  destruct Hq1 as (_ & Hn & _ & Hal & _).
  apply R_insert; [|apply Hal, insert_row_allocated; by right|done].
  rewrite Hn, insert_row_next. lia.
Qed.

Lemma R_CreateCompilationArtistNode P m :
  (0 < P < next_ptr m)%nat → allocated m P → R m →
  R (CreateCompilationArtistNode true P m).2.
Proof.
  intros HP Ha HR. apply (R_quiet _ _ (CreateCompilationArtistNode_insertion P m)).
  by apply R_insert.
Qed.

Lemma level_of_root m c i :
  Inv ok m → hangs m c → container_level (item m c) = i - 1 → (i =? 0) = true →
  c = root_ m.
Proof.
  intros HI [->|[Hty _]] Hl Hi; [done|].
  apply Z.eqb_eq in Hi. pose proof (inv_level ok m HI c Hty). lia.
Qed.

Lemma R_AddSongs_container n i song container key_ m :
  Inv ok m → R m → Z.of_nat n + i = 3 → 0 ≤ i →
  allocated m container → container_level (item m container) = i - 1 →
  hangs m container →
  let c' := (AddSongs_container n i song container key_ m).1 in
  let m' := (AddSongs_container n i song container key_ m).2 in
  R m' ∧ container_level (item m' c') = i - 1 + levels_from (group_by_ m) i n.
Proof.
  revert i container key_ m.
  induction n as [|n IH]; intros i container key_ m HI HR Hn Hi Ha Hl Hh;
    cbn [AddSongs_container levels_from]; [split; [done|cbn [fst snd]; lia]|].
  destruct (GroupBy.eqb (Grouping_at (group_by_ m) i) GroupBy.None) eqn:Hgb;
    [split; [done|cbn [fst snd]; lia]|].
  pose proof (inv_fresh ok m HI) as Hf.
  pose proof (Hf container Ha) as Hc.
  destruct (IsArtistGroupBy _ && is_compilation song).
  - set (m1 := if decide (compilation_artist_node_ (item m container) = nullptr)
               then _ else m).
    assert (Inv ok m1 ∧ R m1 ∧ group_by_ m1 = group_by_ m
            ∧ allocated m1 (compilation_artist_node_ (item m1 container))
            ∧ container_level (item m1 (compilation_artist_node_ (item m1 container)))
              = i
            ∧ hangs m1 (compilation_artist_node_ (item m1 container)))
      as (HI1 & HR1 & Hg1 & Ha1 & Hl1 & Hh1).
    { unfold m1. destruct (decide _) as [Hnull|Hnode].
      - destruct (CreateCompilationArtistNode_grown true container m Hf Ha)
          as (Hg & Hlvl & Hco & Hsn).
        rewrite Hco.
        split.
        { apply (Inv_grown ok Type_Container container (next_ptr m) m);
            [exact HI|exact Ha|exact Hg|].
          cbn [settled]. split; [exact Hlvl|]. split; [lia|exact Hsn]. }
        split; [by apply R_CreateCompilationArtistNode|].
        split.
        { apply frame_group_by_, frame_CreateCompilationArtistNode. }
        split; [apply (grown_allocated _ _ _ _ _ Hg); by left|].
        split; [lia|]. right.
        split; [apply (grown_type _ _ _ _ _ Hg)|].
        by apply (grown_reachable Type_Container container (next_ptr m) m).
      - destruct (inv_compilation ok m HI container Hnode) as (Hin & Hty & Hlvl).
        split; [done|]. split; [done|]. split; [done|].
        split; [by apply (inv_children ok m HI container)|]. split; [lia|].
        right. split; [done|]. by apply (reachable_child m container). }
    destruct (IH (i + 1) (compilation_artist_node_ (item m1 container))
                (key (item m1 (compilation_artist_node_ (item m1 container)))) m1)
      as (? & Hlv); try done; try lia.
    split; [done|]. rewrite Hlv, Hg1. lia.
  - destruct (container_nodes_at m i !! _) as [c|] eqn:Hcn.
    + destruct (inv_container_nodes ok m HI _ _ _ Hcn) as (Hty & Hlvl & Hre).
      destruct (IH (i + 1) c
                  ((if negb (isEmpty key_) then key_ ++ qs "-" else key_)
                   ++ ContainerKey (Grouping_at (group_by_ m) i)
                        (separate_albums_by_grouping_ m) song) m)
        as (? & Hlv); try done; try lia.
      * by apply (reachable_allocated ok).
      * by right.
      * split; [done|]. rewrite Hlv. lia.
    + destruct (ItemFromSong_Inv_container ok (Grouping_at (group_by_ m) i)
                  (separate_albums_by_grouping_ m) true (i =? 0) container song i m)
        as (HI1 & Ha1 & Hty1 & Hl1 & Hre1 & Hn1); try done; try lia.
      pose proof (R_ItemFromSong (Grouping_at (group_by_ m) i)
                    (separate_albums_by_grouping_ m) (i =? 0) container song i m
                    (level_of_root m container i HI Hh Hl) Hc Ha HR) as HR1.
      pose proof (frame_ItemFromSong (Grouping_at (group_by_ m) i)
                    (separate_albums_by_grouping_ m) true (i =? 0) container song i m)
        as Hfr.
      destruct (ItemFromSong _ _ _ _ _ _ _ _) as [c m1]. cbn [fst snd] in *.
      set (m2 := with_container_nodes_at i _ m1).
      assert (∀ q, item m2 q = item m1 q) as Hi2.
      { intros q. unfold m2, with_container_nodes_at. by destruct (i <? 0). }
      assert (∀ q, allocated m2 q ↔ allocated m1 q) as Ha2.
      { intros q. unfold m2, with_container_nodes_at. by destruct (i <? 0). }
      assert (song_nodes_ m2 = song_nodes_ m1) as Hn2.
      { unfold m2, with_container_nodes_at. by destruct (i <? 0). }
      assert (root_ m2 = root_ m1) as Hr2.
      { unfold m2, with_container_nodes_at. by destruct (i <? 0). }
      assert (group_by_ m2 = group_by_ m) as Hg2.
      { rewrite <- (frame_group_by_ _ _ Hfr).
        unfold m2, with_container_nodes_at. by destruct (i <? 0). }
      assert (Inv ok m2) as HI2 by by apply Inv_with_container_nodes_at.
      assert (R m2) as HR2.
      { apply (R_quiet m1); [|done].
        unfold m2, with_container_nodes_at. destruct (i <? 0); by apply quiet_same. }
      destruct (IH (i + 1) c
                  (((if negb (isEmpty key_) then key_ ++ qs "-" else key_)
                    ++ ContainerKey (Grouping_at (group_by_ m) i)
                         (separate_albums_by_grouping_ m) song)) m2)
        as (? & Hlv); try done; try lia.
      * by apply Ha2.
      * rewrite Hi2. lia.
      * right. rewrite Hi2. split; [done|].
        apply (reachable_extends m1 m2); [|done].
        split; [done|]. split; intros q; by rewrite Hi2.
      * split; [done|]. rewrite Hlv, Hg2. lia.
Qed.

Lemma R_AddSong song m :
  Inv ok m → R m → R (AddSong song m).
Proof.
  intros HI HR. unfold AddSong.
  set (m0 := with_songs_ _ m).
  assert (Inv ok m0) as HI0
    by (apply (Inv_same_items ok m); [apply same_items_with_songs_|done|done]).
  assert (R m0) as HR0 by (apply (R_quiet m); [by apply quiet_same|done]).
  destruct (Matches song); cbn [negb]; [|done].
  destruct (bool_decide _) eqn:Hdec; [done|].
  destruct (inv_root ok m0 HI0) as (Hr & _ & Hl).
  destruct (AddSongs_container_Inv ok 3 0 song (root_ m0) [] m0)
    as (HI1 & Ha1 & Hh1 & Hn1); try done; [by left|].
  destruct (R_AddSongs_container 3 0 song (root_ m0) [] m0) as (HR1 & _);
    try done; [by left|].
  destruct (AddSongs_container 3 0 song (root_ m0) [] m0) as [c m1].
  cbn [fst snd] in *.
  pose proof (R_ItemFromSong GroupBy.None (separate_albums_by_grouping_ m1) false c
                song (-1) m1) as Hleaf.
  destruct (ItemFromSong _ _ _ _ _ _ _ _) as [leaf m2]. cbn [fst snd] in *.
  apply (R_quiet m2); [by apply quiet_same|].
  apply Hleaf; [done| |done|done]. by apply (inv_fresh ok m1 HI1).
Qed.

Lemma R_AddSongs songs m :
  Inv ok m → (∀ s, s ∈ songs → Matches s = true → ok s) → R m → R (AddSongs songs m).
Proof.
  unfold AddSongs. revert m. induction songs as [|x l IH]; intros m HI Hok HR; [done|].
  cbn [foldl]. apply IH.
  - apply AddSong_Inv; [done|]. apply Hok. by left.
  - intros s Hs. apply Hok. by right.
  - by apply R_AddSong.
Qed.

End Insertions.

(** *** Every item made is announced *)

Lemma flat_map_ext_elem_of {A B} (f g : A → list B) (l : list A) :
  (∀ a, a ∈ l → f a = g a) → flat_map f l = flat_map g l.
Proof.
  induction l as [|a l IH]; intros Hfg; [done|]. cbn [flat_map].
  rewrite (Hfg a) by by left. f_equal. apply IH. intros b Hb. apply Hfg. by right.
Qed.

Section Announced.
Context `{External}.

Lemma announced_refl m : announced m m.
Proof.
  unfold announced, made. rewrite Nat.sub_diag. cbn.
  split; [done|]. split; [by intros p Hp%elem_of_nil|by rewrite app_nil_r].
Qed.

Lemma announced_quiet m0 m m' : quiet m m' → announced m0 m → announced m0 m'.
Proof.
  intros Hq (A1 & A2 & A3). pose proof Hq as (Hs & Hn & _ & _ & Hp).
  assert (∀ q, row (item m' q) = row (item m q)
               ∧ parent (item m' q) = parent (item m q)
               ∧ children (item m' q) = children (item m q)) as Hpl.
  { intros q. specialize (Hp q). unfold place in Hp. by injection Hp as -> -> ->. }
  assert (made m0 m' = made m0 m) as Hm by (unfold made; by rewrite Hn).
  split; [lia|]. rewrite Hm. split.
  - intros p Hin. destruct (A2 p Hin) as (B1 & B2 & B3). unfold in_place.
    destruct (Hpl p) as (-> & -> & _).
    destruct (Hpl (parent (item m p))) as (_ & _ & ->). done.
  - rewrite Hs, A3. f_equal. apply flat_map_ext_elem_of. intros p _.
    unfold announcement. destruct (Hpl p) as (-> & -> & _).
    by rewrite (quiet_ItemToIndex m m').
Qed.

Lemma announced_insert m0 ty P m :
  (0 < P < next_ptr m)%nat → allocated m P → announced m0 m →
  announced m0 (insert_row ty P m).
Proof.
  intros HP Ha (A1 & A2 & A3).
  destruct (insert_row_new ty P m HP) as (Hrow & Hpar & _).
  assert (made m0 (insert_row ty P m) = made m0 m ++ [next_ptr m]) as Hm.
  { unfold made. rewrite insert_row_next.
    replace (S (next_ptr m) - next_ptr m0)%nat
      with ((next_ptr m - next_ptr m0) + 1)%nat by lia.
    rewrite seq_app. cbn. do 2 f_equal. lia. }
  assert (∀ p, p ∈ made m0 m → (p < next_ptr m)%nat) as Hlt.
  { intros p Hp. unfold made in Hp. apply elem_of_seq in Hp. lia. }
  assert (count m P
          = Z.of_nat (length (children (item m P)))) as Hcount by reflexivity.
  split; [rewrite insert_row_next; lia|]. rewrite Hm. split.
  - intros p Hp. apply elem_of_app in Hp as [Hp|Hp%list_elem_of_singleton].
    + destruct (A2 p Hp) as (B1 & B2 & B3). specialize (Hlt p Hp).
      unfold in_place.
      destruct (insert_row_old ty P m p) as [-> ->]; [lia|].
      split; [done|]. split; [done|].
      rewrite insert_row_children by (done || lia).
      case_decide; [|done]. by apply lookup_app_l_Some.
    + subst p. unfold in_place. rewrite Hrow, Hpar.
      split; [done|]. split; [unfold count; lia|].
      rewrite insert_row_children by (done || lia).
      rewrite decide_True by done. rewrite Hcount, Nat2Z.id.
      by rewrite lookup_app_r, Nat.sub_diag.
  - rewrite insert_row_signals, A3, flat_map_app, <- app_assoc. f_equal.
    f_equal.
    + apply flat_map_ext_elem_of. intros p Hp. specialize (Hlt p Hp).
      destruct (A2 p Hp) as (B1 & _). unfold announcement.
      destruct (insert_row_old ty P m p) as [-> ->]; [lia|].
      rewrite insert_row_ItemToIndex by lia. done.
    + cbn. unfold announcement. rewrite Hrow, Hpar.
      rewrite insert_row_ItemToIndex by lia. done.
Qed.

End Announced.

(** *** Rows *)

Section Rows.
Context `{External}.

Lemma rows_quiet m m' :
  quiet m m' → children_below m ∧ rows m → children_below m' ∧ rows m'.
Proof.
  intros (_ & Hn & _ & _ & Hp) [Hb Hr].
  assert (∀ q, row (item m' q) = row (item m q)
               ∧ children (item m' q) = children (item m q)) as Hpl.
  { intros q. specialize (Hp q). unfold place in Hp. by injection Hp as -> _ ->. }
  split.
  - intros q c. rewrite Hn. destruct (Hpl q) as [_ ->]. apply Hb.
  - intros q i c. destruct (Hpl q) as [_ ->]. destruct (Hpl c) as [-> _]. apply Hr.
Qed.

Lemma rows_insert ty P m :
  (0 < P < next_ptr m)%nat → allocated m P →
  children_below m ∧ rows m →
  children_below (insert_row ty P m) ∧ rows (insert_row ty P m).
Proof.
  intros HP Ha [Hb Hr].
  destruct (insert_row_new ty P m HP) as (Hrow & _ & Hch).
  assert (∀ q, q ≠ next_ptr m →
               children (item (insert_row ty P m) q)
               = if decide (q = P) then children (item m q) ++ [next_ptr m]
                 else children (item m q)) as Hold
    by (intros q Hq; by apply insert_row_children).
  split.
  - intros q c Hc. rewrite insert_row_next.
    destruct (decide (q = next_ptr m)) as [->|Hq].
    { rewrite Hch in Hc. by apply elem_of_nil in Hc. }
    rewrite (Hold q Hq) in Hc. case_decide.
    + apply elem_of_app in Hc as [Hc|Hc%list_elem_of_singleton]; [|lia].
      apply Hb in Hc. lia.
    + apply Hb in Hc. lia.
  - intros q i c Hc.
    destruct (decide (q = next_ptr m)) as [->|Hq]; [by rewrite Hch in Hc|].
    rewrite (Hold q Hq) in Hc.
    assert (children (item m q) !! i = Some c → row (item (insert_row ty P m) c)
                                                  = Z.of_nat i) as Hin.
    { intros Hi. assert (c < next_ptr m)%nat as Hlt.
      { apply (Hb q). by eapply list_elem_of_lookup_2. }
      destruct (insert_row_old ty P m c) as [-> _]; [lia|]. by apply (Hr q). }
    case_decide; [|by apply Hin]. subst q.
    apply lookup_app_Some in Hc as [Hc|[Hlen Hc]]; [by apply Hin|].
    apply list_lookup_singleton_Some in Hc as [Hi <-].
    rewrite Hrow. unfold count. lia.
Qed.

End Rows.

(** *** The depth of the leaves *)

Section Depth.
Context `{External}.

Lemma reachable_parent ok m x :
  Inv ok m → reachable m x → allocated m (parent (item m x)).
Proof.
  intros HI (n & top & Htop & Hu).
  assert (∀ n P0 top, allocated m P0 → top ∈ children (item m P0) →
                      under m n top x → allocated m (parent (item m x))) as Hall.
  { clear n top Htop Hu. induction n as [|n IH]; intros P0 top HP0 Htop Hu.
    - simpl in Hu. subst x. by rewrite (inv_parent ok m HI P0 top).
    - destruct Hu as [_ (c & Hc & Hu)]. apply (IH top c); [|done|done].
      by apply (inv_children ok m HI P0). }
  apply (Hall n (root_ m) top); [|done|done]. by destruct (inv_root ok m HI).
Qed.

Lemma AddSong_leaf_parent ok song m :
  Inv ok m → Matches song = true → song_nodes_ m !! Song.id song = None →
  ∃ leaf,
    song_nodes_ (AddSong song m) = <[Song.id song := leaf]> (song_nodes_ m)
    ∧ container_level
        (item (AddSong song m) (parent (item (AddSong song m) leaf)))
      = depth (group_by_ m) - 1.
Proof.
  intros HI Hm Hs. unfold AddSong. rewrite Hm. cbn [negb].
  set (m0 := with_songs_ _ m).
  change (song_nodes_ m0) with (song_nodes_ m).
  rewrite bool_decide_eq_false_2 by (rewrite Hs; by intros [? ?]).
  assert (Inv ok m0) as HI0
    by (apply (Inv_same_items ok m); [apply same_items_with_songs_|done|done]).
  destruct (inv_root ok m0 HI0) as (Hr & _ & Hl).
  destruct (AddSongs_container_Inv ok 3 0 song (root_ m0) [] m0)
    as (HI1 & Ha1 & Hh1 & Hn1); try done; [by left|].
  destruct (R_AddSongs_container ok (λ _, True) (λ _ _ _ _, I) (λ _ _ _ _ _ _, I)
              3 0 song (root_ m0) [] m0) as (_ & Hlv); try done; [by left|].
  change (group_by_ m0) with (group_by_ m) in Hlv. fold (depth (group_by_ m)) in Hlv.
  destruct (AddSongs_container 3 0 song (root_ m0) [] m0) as [c m1].
  cbn [fst snd] in *.
  pose proof (inv_fresh ok m1 HI1 c Ha1) as Hc.
  destruct (ItemFromSong_insertions GroupBy.None (separate_albums_by_grouping_ m1)
              false c song (-1) m1) as (Hp & m2 & Hq & Hfin); [done|].
  pose proof (older_ItemFromSong m1 GroupBy.None (separate_albums_by_grouping_ m1)
                true false c song (-1) m1 (older_refl m1)) as [_ Hold].
  pose proof (records_ItemFromSong GroupBy.None (separate_albums_by_grouping_ m1)
                true false c song (-1) m1) as Hrec.
  destruct (ItemFromSong _ _ _ _ _ _ _ _) as [leaf m3]. cbn [fst snd] in *.
  subst leaf. exists (next_ptr m1).
  injection Hrec as _ Hnodes _. split; [cbn; by rewrite Hnodes, Hn1|].
  change (item (with_song_nodes_ ?v m3)) with (item m3).
  assert (parent (item m3 (next_ptr m1)) = c) as ->.
  { destruct (insert_row_new Type_Song c m1 Hc) as (_ & Hpar & _).
    assert (parent (item m2 (next_ptr m1)) = c) as Hpar2.
    { destruct Hq as (_ & _ & _ & _ & Hpl). specialize (Hpl (next_ptr m1)).
      unfold place in Hpl. injection Hpl as _ -> _. exact Hpar. }
    destruct Hfin as [Hq3|Hq3].
    - destruct Hq3 as (_ & _ & _ & _ & Hpl). specialize (Hpl (next_ptr m1)).
      unfold place in Hpl. injection Hpl as _ -> _. exact Hpar2.
    - destruct Hq3 as (_ & _ & _ & _ & Hpl). specialize (Hpl (next_ptr m1)).
      unfold place in Hpl. injection Hpl as _ -> _.
      destruct (insert_row_old Type_Divider c m2 (next_ptr m1)) as [_ ->];
        [|exact Hpar2].
      destruct Hq as (_ & -> & _). rewrite insert_row_next. lia. }
  destruct (Hold c) as (Hfix & _); [lia|].
  unfold fixed_part in Hfix. injection Hfix as _ _ _ _ _ _ -> _. lia.
Qed.

Lemma AddSong_leaves_at_depth ok song m :
  Inv ok m → (Matches song = true → ok song) →
  leaves_at_depth m → leaves_at_depth (AddSong song m).
Proof.
  intros HI Hok Hd.
  pose proof (AddSong_Inv ok song m HI Hok) as HI'.
  pose proof (frame_group_by_ _ _ (frame_AddSong song m)) as Hg.
  assert (∀ p, type (item m p) = Type_Song →
               type (item (AddSong song m) p) = Type_Song →
               container_level (item (AddSong song m)
                                  (parent (item (AddSong song m) p)))
               = depth (group_by_ (AddSong song m)) - 1) as Hold.
  { intros p Hty _. rewrite Hg, <- (Hd p Hty).
    destruct (inv_songs ok m HI p Hty) as [Hnode _].
    destruct (inv_song_nodes ok m HI _ _ Hnode) as (_ & _ & Hre).
    pose proof (inv_fresh ok m HI p (reachable_allocated ok m p HI Hre)) as Hp.
    pose proof (inv_fresh ok m HI _ (reachable_parent ok m p HI Hre)) as HP.
    destruct (older_AddSong m song m (older_refl m)) as [_ Ho].
    destruct (Ho p) as (Hfix & _); [lia|].
    unfold fixed_part in Hfix. injection Hfix as _ _ -> _ _ _ _ _.
    destruct (Ho (parent (item m p))) as (Hfix & _); [lia|].
    unfold fixed_part in Hfix. by injection Hfix as _ _ _ _ _ _ -> _. }
  destruct (Matches song) eqn:Hm; [|by rewrite AddSong_skipped by auto].
  destruct (song_nodes_ m !! Song.id song) eqn:Hs;
    [by rewrite AddSong_skipped by eauto|].
  destruct (AddSong_leaf_parent ok song m HI Hm Hs) as (leaf & Hnodes & Hlv).
  intros p Hty.
  destruct (inv_songs ok _ HI' p Hty) as [Hnode _].
  rewrite Hnodes in Hnode.
  destruct (decide (Song.id song = Song.id (metadata (item (AddSong song m) p))))
    as [Heq|Hne].
  - rewrite <- Heq, lookup_insert_eq in Hnode. injection Hnode as <-.
    by rewrite Hg.
  - rewrite lookup_insert_ne in Hnode by done.
    destruct (inv_song_nodes ok m HI _ _ Hnode) as (Hty0 & _). by apply Hold.
Qed.

End Depth.

Lemma AddSongs_rows `{External} ok songs m :
  Inv ok m → (∀ s, s ∈ songs → Matches s = true → ok s) →
  rows m → rows (AddSongs songs m).
Proof.
  intros HI Hok Hr.
  apply (R_AddSongs ok (λ m, children_below m ∧ rows m)); try done.
  - intros m1 m2. apply rows_quiet.
  - intros ty P m1. apply rows_insert.
  - split; [|done]. intros q c Hc.
    apply (inv_fresh _ m HI). by apply (inv_children _ m HI q).
Qed.

(** *** The theorems on a tree that [AddSongs] finds well formed *)

Section Insertions_of_AddSongs.
Context `{External}.

(** X9.  On a well-formed tree [AddSongs] emits, for every item that it
    makes and in the order of their making, [rowsAboutToBeInserted] for the
    index of the parent of the item and for the row of the item, and then
    [rowsInserted]; it emits nothing else.  Every such item is the child of
    its parent at that row, and its parent was made before it. *)
Theorem AddSongs_announces_the_items_it_makes (songs : SongList) (m : Model) :
  Inv (λ _, True) m →
  let m' := AddSongs songs m in
  (next_ptr m ≤ next_ptr m')%nat
  ∧ (∀ p, p ∈ made m m' → in_place m' p)
  ∧ signals_ m' = signals_ m ++ flat_map (announcement m') (made m m').
Proof.
  intros HI.
  apply (R_AddSongs (λ _, True) (announced m)); try done.
  - intros m1 m2. apply announced_quiet.
  - intros ty P m1. apply announced_insert.
  - apply announced_refl.
Qed.

(** X10.  On a well-formed tree in which the row of every item is its
    position among the children of its parent, [AddSongs] keeps it so. *)
Theorem AddSongs_keeps_the_rows (songs : SongList) (m : Model) :
  Inv (λ _, True) m → rows m → rows (AddSongs songs m).
Proof.
  intros HI Hr.
  apply (R_AddSongs (λ _, True) (λ m, children_below m ∧ rows m)); try done.
  - intros m1 m2. apply rows_quiet.
  - intros ty P m1. apply rows_insert.
  - split; [|done]. intros q c Hc.
    apply (inv_fresh _ m HI). by apply (inv_children _ m HI q).
Qed.

(** X11.  On a well-formed tree whose leaves all hang under a container of
    the last grouping level, under the root when the first criterion is
    [GroupBy.None], [AddSongs] keeps it so: every song is as deep in the tree
    as there are grouping levels. *)
Theorem AddSongs_keeps_the_leaves_at_depth (songs : SongList) (m : Model) :
  Inv (λ _, True) m → leaves_at_depth m → leaves_at_depth (AddSongs songs m).
Proof.
  unfold AddSongs. revert m. induction songs as [|x l IH]; intros m HI Hd; [done|].
  cbn [foldl]. apply IH.
  - by apply AddSong_Inv.
  - by apply (AddSong_leaves_at_depth (λ _, True)).
Qed.

End Insertions_of_AddSongs.

Section Empty_tree.
Context `{External}.

Lemma empty_tree_rows m : empty_tree m → rows m.
Proof.
  intros He q i c. by destruct (empty_tree_item m q He) as [[_ ->]|[_ ->]].
Qed.

Lemma empty_tree_leaves_at_depth m : empty_tree m → leaves_at_depth m.
Proof.
  intros He p. by destruct (empty_tree_item m p He) as [[_ ->]|[_ ->]].
Qed.

End Empty_tree.

Section Insertions_witness.
#[local] Existing Instance Sample.external.

Lemma AddSongs_announces_the_items_it_makes_witness :
  let m := Sample.empty_model by_albumartist_album true in
  let m' := AddSongs arrival_and_jazz m in
  Inv (λ _, True) m
  ∧ (next_ptr m ≤ next_ptr m')%nat
  ∧ (∀ p, p ∈ made m m' → in_place m' p)
  ∧ signals_ m' = signals_ m ++ flat_map (announcement m') (made m m').
Proof.
  intros m m'.
  assert (Inv (λ _, True) m) as HI
    by apply empty_tree_Inv, empty_tree_empty_model.
  split; [exact HI|].
  exact (AddSongs_announces_the_items_it_makes arrival_and_jazz m HI).
Defined.

Lemma AddSongs_keeps_the_rows_witness :
  let m := Sample.empty_model by_albumartist_album true in
  Inv (λ _, True) m ∧ rows m ∧ rows (AddSongs arrival_and_jazz m).
Proof.
  intros m.
  assert (Inv (λ _, True) m) as HI
    by apply empty_tree_Inv, empty_tree_empty_model.
  assert (rows m) as Hr by apply empty_tree_rows, empty_tree_empty_model.
  split; [exact HI|]. split; [exact Hr|].
  exact (AddSongs_keeps_the_rows arrival_and_jazz m HI Hr).
Defined.

Lemma AddSongs_keeps_the_leaves_at_depth_witness :
  let m := Sample.empty_model by_albumartist_album true in
  Inv (λ _, True) m ∧ leaves_at_depth m
  ∧ leaves_at_depth (AddSongs arrival_and_jazz m).
Proof.
  intros m.
  assert (Inv (λ _, True) m) as HI
    by apply empty_tree_Inv, empty_tree_empty_model.
  assert (leaves_at_depth m) as Hd
    by apply empty_tree_leaves_at_depth, empty_tree_empty_model.
  split; [exact HI|]. split; [exact Hd|].
  exact (AddSongs_keeps_the_leaves_at_depth arrival_and_jazz m HI Hd).
Defined.

End Insertions_witness.

(** ** The queue of updates and the tree *)

Section Requeue.
Context `{External}.

Lemma requeue_same m : requeue (updates_ m) (timer_update_active m) m = m.
Proof. by destruct m. Qed.

Lemma requeue_requeue u t u' t' m : requeue u t (requeue u' t' m) = requeue u t m.
Proof. reflexivity. Qed.

Lemma item_requeue u t m p : item (requeue u t m) p = item m p.
Proof. reflexivity. Qed.

Lemma emit_requeue s u t m : emit s (requeue u t m) = requeue u t (emit s m).
Proof. reflexivity. Qed.

Lemma update_item_requeue p f u t m :
  update_item p f (requeue u t m) = requeue u t (update_item p f m).
Proof. reflexivity. Qed.

Lemma new_CollectionItem_requeue ty P u t m :
  new_CollectionItem ty P (requeue u t m)
  = ((new_CollectionItem ty P m).1, requeue u t (new_CollectionItem ty P m).2).
Proof. reflexivity. Qed.

Lemma InitItem_requeue gb signal P lvl u t m :
  InitItem gb signal P lvl (requeue u t m)
  = ((InitItem gb signal P lvl m).1, requeue u t (InitItem gb signal P lvl m).2).
Proof. unfold InitItem. by destruct signal. Qed.

Lemma FinishItem_requeue gb signal cd P p u t m :
  FinishItem gb signal cd P p (requeue u t m)
  = requeue u t (FinishItem gb signal cd P p m).
Proof.
  unfold FinishItem.
  set (m1 := if signal then endInsertRows m else m).
  assert ((if signal then endInsertRows (requeue u t m) else requeue u t m)
          = requeue u t m1) as -> by (unfold m1; by destruct signal).
  change (show_dividers_ (requeue u t m1)) with (show_dividers_ m1).
  destruct (cd && show_dividers_ m1); [|done].
  change (item (requeue u t m1) p) with (item m1 p).
  set (divider_key := DividerKey gb (item m1 p)).
  destruct (negb (isEmpty divider_key)); cbn [andb]; [|done].
  rewrite update_item_requeue.
  set (m2 := update_item p _ m1).
  change (divider_nodes_ (requeue u t m2)) with (divider_nodes_ m2).
  destruct (negb (bool_decide _)); [|done].
  by destruct signal.
Qed.

Lemma ItemFromSong_requeue gb sep signal cd P s lvl u t m :
  ItemFromSong gb sep signal cd P s lvl (requeue u t m)
  = ((ItemFromSong gb sep signal cd P s lvl m).1,
     requeue u t (ItemFromSong gb sep signal cd P s lvl m).2).
Proof.
  unfold ItemFromSong. rewrite InitItem_requeue.
  destruct (InitItem gb signal P lvl m) as [p m1]. cbn [fst snd].
  change (root_ (requeue u t m1)) with (root_ m1).
  change (item (requeue u t m1) P) with (item m1 P).
  rewrite <- FinishItem_requeue. f_equal.
  by destruct (_ && _).
Qed.

Lemma CreateCompilationArtistNode_requeue signal P u t m :
  CreateCompilationArtistNode signal P (requeue u t m)
  = ((CreateCompilationArtistNode signal P m).1,
     requeue u t (CreateCompilationArtistNode signal P m).2).
Proof.
  unfold CreateCompilationArtistNode.
  set (m1 := if signal then _ else m).
  assert ((if signal
           then beginInsertRows (ItemToIndex (requeue u t m) P)
                  (count (requeue u t m) P) (count (requeue u t m) P) (requeue u t m)
           else requeue u t m) = requeue u t m1) as ->
    by (unfold m1; by destruct signal).
  rewrite new_CollectionItem_requeue.
  destruct (new_CollectionItem Type_Container P m1) as [node m2]. cbn [fst snd].
  rewrite !update_item_requeue.
  set (m3 := update_item node _ (update_item P _ m2)).
  change (root_ (requeue u t m3)) with (root_ m3).
  change (item (requeue u t m3) P) with (item m3 P).
  destruct (_ && _); by destruct signal.
Qed.

Lemma AddSongs_container_requeue n i song c k u t m :
  AddSongs_container n i song c k (requeue u t m)
  = ((AddSongs_container n i song c k m).1,
     requeue u t (AddSongs_container n i song c k m).2).
Proof.
  revert i c k m. induction n as [|n IH]; intros i c k m;
    cbn [AddSongs_container]; [done|].
  change (group_by_ (requeue u t m)) with (group_by_ m).
  destruct (GroupBy.eqb _ _); [done|]. destruct (_ && _).
  - change (item (requeue u t m) c) with (item m c).
    destruct (decide _); [|apply IH].
    rewrite CreateCompilationArtistNode_requeue. cbn [snd].
    destruct (CreateCompilationArtistNode true c m) as [node m1]. cbn [snd].
    change (item (requeue u t m1)) with (item m1). apply IH.
  - change (separate_albums_by_grouping_ (requeue u t m))
      with (separate_albums_by_grouping_ m).
    change (container_nodes_at (requeue u t m) i) with (container_nodes_at m i).
    destruct (_ !! _); [apply IH|].
    rewrite ItemFromSong_requeue.
    destruct (ItemFromSong _ _ _ _ _ _ _ _) as [q m1]. cbn [fst snd].
    change (container_nodes_at (requeue u t m1) i) with (container_nodes_at m1 i).
    assert (∀ v, with_container_nodes_at i v (requeue u t m1)
                 = requeue u t (with_container_nodes_at i v m1)) as ->
      by (intros v; unfold with_container_nodes_at; by destruct (i <? 0)).
    apply IH.
Qed.

Lemma AddSong_requeue song u t m :
  AddSong song (requeue u t m) = requeue u t (AddSong song m).
Proof.
  unfold AddSong.
  change (with_songs_ (<[Song.id song:=song]> (songs_ (requeue u t m))) (requeue u t m))
    with (requeue u t (with_songs_ (<[Song.id song:=song]> (songs_ m)) m)).
  set (m1 := with_songs_ _ m).
  destruct (negb _); [done|].
  change (song_nodes_ (requeue u t m1)) with (song_nodes_ m1).
  destruct (bool_decide _); [done|].
  change (root_ (requeue u t m1)) with (root_ m1).
  rewrite AddSongs_container_requeue.
  destruct (AddSongs_container 3 0 song (root_ m1) [] m1) as [c m2]. cbn [fst snd].
  change (separate_albums_by_grouping_ (requeue u t m2))
    with (separate_albums_by_grouping_ m2).
  rewrite ItemFromSong_requeue.
  by destruct (ItemFromSong _ _ _ _ _ _ _ _) as [leaf m3].
Qed.

Lemma AddSongs_requeue songs u t m :
  AddSongs songs (requeue u t m) = requeue u t (AddSongs songs m).
Proof.
  unfold AddSongs. revert m. induction songs as [|x l IH]; intros m; [done|].
  cbn [foldl]. by rewrite AddSong_requeue, IH.
Qed.

Lemma AddSongs_app l1 l2 m : AddSongs (l1 ++ l2) m = AddSongs l2 (AddSongs l1 m).
Proof. unfold AddSongs. apply foldl_app. Qed.

(** What [ScheduleUpdate] does to the model. *)
Lemma ScheduleUpdate_from_requeue rounds i type_ songs m :
  ScheduleUpdate_from rounds i type_ songs m
  = with_updates_ (updates_ (ScheduleUpdate_from rounds i type_ songs m)) m.
Proof.
  revert i m. induction rounds as [|r IH]; intros i m; cbn [ScheduleUpdate_from].
  - by destruct m.
  - destruct (i <? _); [|by destruct m]. by rewrite IH at 1.
Qed.

Lemma ScheduleUpdate_requeue type_ songs m :
  ∃ chunks : list SongList,
    ScheduleUpdate type_ songs m
    = requeue (updates_ m ++ map (CollectionModelUpdate.mk type_) chunks) true m
    ∧ concat chunks = songs
    ∧ length chunks = ((length songs + 399) / 400)%nat.
Proof.
  destruct (ScheduleUpdate_chunks type_ songs m) as (chunks & Hq & Hcat & _ & Hlen).
  exists chunks. split; [|done]. rewrite <- Hq. unfold ScheduleUpdate.
  rewrite ScheduleUpdate_from_requeue.
  set (q := updates_ (ScheduleUpdate_from _ _ _ _ _)).
  change (timer_update_active (with_updates_ q m)) with (timer_update_active m).
  destruct (timer_update_active m) eqn:Ht; [|by destruct (timer_update_active m)].
  destruct m. cbn in *. by subst.
Qed.

End Requeue.

Section Drain.
Context `{External}.

Lemma ticks_stopped n m : timer_update_active m = false → ticks n m = Some m.
Proof. intros Ht. destruct n; [done|]. cbn [ticks]. by rewrite Ht. Qed.

Lemma ticks_Add chunks n m :
  (length chunks ≤ n)%nat → (1 ≤ n)%nat →
  ticks n (requeue (map (CollectionModelUpdate.mk CollectionModelUpdate.Add) chunks)
             true m)
  = Some (requeue [] false (AddSongs (concat chunks) m)).
Proof.
  revert n m. induction chunks as [|c cs IH]; intros n m Hn Hn1.
  - destruct n as [|n]; [lia|]. cbn. by rewrite ticks_stopped.
  - destruct n as [|n]; [cbn in Hn; lia|]. cbn [ticks map concat length] in *.
    change (timer_update_active (requeue ?u true m)) with true. cbn iota.
    unfold ProcessUpdate.
    change (updates_ (requeue ?u true m)) with u. cbn iota.
    cbn [CollectionModelUpdate.type CollectionModelUpdate.songs].
    rewrite AddSongs_app.
    destruct cs as [|c' cs].
    + cbn [map isEmpty_list concat].
      change (with_timer_update_active false (with_updates_ [] (requeue ?u true m)))
        with (requeue [] false m).
      rewrite AddSongs_requeue. cbn [mbind option_bind].
      by rewrite ticks_stopped.
    + cbn [map isEmpty_list].
      change (with_updates_ ?u (requeue ?v true m)) with (requeue u true m).
      rewrite AddSongs_requeue. cbn [mbind option_bind].
      apply (IH n (AddSongs c m)); cbn [length] in *; lia.
Qed.

(** X12.  With an empty queue, scheduling a batch of additions and letting the
    timer fire as many times as the batch has chunks of 400, once at least,
    is [AddSongs] on the whole batch: the chunks are added in their order, the
    queue is empty again and the timer is stopped.  Further intervals change
    nothing. *)
Theorem SongsAdded_then_ticks_is_AddSongs (songs : SongList) (m : Model) (n : nat) :
  updates_ m = [] →
  (Nat.max 1 ((length songs + 399) / 400) ≤ n)%nat →
  ticks n (SongsAdded songs m) = Some (requeue [] false (AddSongs songs m)).
Proof.
  intros Hq Hn. unfold SongsAdded.
  destruct (ScheduleUpdate_requeue CollectionModelUpdate.Add songs m)
    as (chunks & -> & Hcat & Hlen).
  rewrite Hq. cbn [app]. rewrite <- Hcat. apply ticks_Add; lia.
Qed.

End Drain.

Section Drain_witness.
#[local] Existing Instance Sample.external.

Lemma SongsAdded_then_ticks_is_AddSongs_witness :
  let m := Sample.empty_model by_albumartist_album true in
  updates_ m = []
  ∧ (Nat.max 1 ((length arrival_and_jazz + 399) / 400) ≤ 2)%nat
  ∧ ticks 2 (SongsAdded arrival_and_jazz m)
    = Some (requeue [] false (AddSongs arrival_and_jazz m)).
Proof.
  intros m.
  assert (updates_ m = []) as H1 by reflexivity.
  assert (Nat.max 1 ((length arrival_and_jazz + 399) / 400) ≤ 2)%nat as H2
    by (vm_compute; lia).
  split; [exact H1|]. split; [exact H2|].
  exact (SongsAdded_then_ticks_is_AddSongs arrival_and_jazz m 2 H1 H2).
Defined.

End Drain_witness.

(** ** [ReAddOrUpdate] sorts the batch *)

Section Sorting.
Context `{External}.

Lemma ContainerKey_log_with_log_ group_by l m :
  ContainerKey_log group_by (with_log_ l m)
  = with_log_ (l ++ if ContainerKey_logs group_by then [Error_GroupByNone] else []) m.
Proof.
  unfold ContainerKey_log. destruct (ContainerKey_logs group_by); [done|].
  by rewrite app_nil_r.
Qed.

Lemma ReAddOrUpdate_keys_log l m :
  foldl (λ m i, ContainerKey_log (Grouping_at (group_by_ m) i)
                  (ContainerKey_log (Grouping_at (group_by_ m) i) m))
    (with_log_ l m) [0; 1; 2]
  = with_log_ (l ++ GroupByNone_errors (group_by_ m)) m.
Proof.
  cbn [foldl]. rewrite !ContainerKey_log_with_log_. cbn [group_by_ with_log_].
  unfold GroupByNone_errors. cbn [flat_map].
  destruct (ContainerKey_logs (Grouping_at (group_by_ m) 0)),
    (ContainerKey_logs (Grouping_at (group_by_ m) 1)),
    (ContainerKey_logs (Grouping_at (group_by_ m) 2));
    cbn [app]; by rewrite <- ?app_assoc, ?app_nil_r.
Qed.

Lemma ReAddOrUpdate_keys_log_of m :
  foldl (λ m i, ContainerKey_log (Grouping_at (group_by_ m) i)
                  (ContainerKey_log (Grouping_at (group_by_ m) i) m))
    m [0; 1; 2]
  = with_log_ (log_ m ++ GroupByNone_errors (group_by_ m)) m.
Proof.
  pose proof (ReAddOrUpdate_keys_log (log_ m) m) as Hk.
  by replace (with_log_ (log_ m) m) with m in Hk by (by destruct m).
Qed.

(** One round of the loop of [ReAddOrUpdate] writes to the log only. *)
Lemma ReAddOrUpdate_song_log acc song :
  ∃ l, (ReAddOrUpdate_song acc song).2 = with_log_ l acc.2.
Proof.
  destruct acc as [[[a r] u] m]. unfold ReAddOrUpdate_song.
  destruct (song_nodes_ m !! Song.id song); [|by eexists].
  rewrite ReAddOrUpdate_keys_log_of. destruct (existsb _ _); by eexists.
Qed.

Lemma ReAddOrUpdate_song_fold songs a r u l m :
  foldl ReAddOrUpdate_song (a, r, u, with_log_ l m) songs
  = (a ++ filter (λ s, moves m s = true) songs,
     r ++ (record_in_the_tree m <$> filter (λ s, moves m s = true) songs),
     u ++ filter (λ s, stays m s = true) songs,
     with_log_ (l ++ flat_map (ReAddOrUpdate_errors m) songs) m).
Proof.
  revert a r u l. induction songs as [|x xs IH]; intros a r u l.
  - cbn. by rewrite !app_nil_r.
  - cbn [foldl flat_map].
    assert (ReAddOrUpdate_song (a, r, u, with_log_ l m) x
            = match song_nodes_ m !! Song.id x with
              | Some node =>
                  if container_key_changed m node x
                  then (a ++ [x], r ++ [metadata (item m node)], u,
                        with_log_ (l ++ GroupByNone_errors (group_by_ m)) m)
                  else (a, r, u ++ [x],
                        with_log_ (l ++ GroupByNone_errors (group_by_ m)) m)
              | None =>
                  (a, r, u, with_log_ (l ++ [Error_SongDoesNotExistInModel x]) m)
              end) as ->.
    { unfold ReAddOrUpdate_song.
      change (song_nodes_ (with_log_ l m)) with (song_nodes_ m).
      destruct (song_nodes_ m !! Song.id x) as [node|]; [|done].
      rewrite ReAddOrUpdate_keys_log. reflexivity. }
    assert (untracked (song_nodes_ m) x
            = match song_nodes_ m !! Song.id x with
              | Some _ => false
              | None => true
              end) as Hun.
    { unfold untracked. destruct (song_nodes_ m !! Song.id x); [|done].
      by rewrite bool_decide_eq_false_2. }
    unfold ReAddOrUpdate_errors at 1. rewrite Hun.
    destruct (song_nodes_ m !! Song.id x) as [node|] eqn:Hx.
    + destruct (container_key_changed m node x) eqn:Hc.
      * rewrite (filter_cons_True (λ s, moves m s = true))
          by (unfold moves; by rewrite Hx).
        rewrite (filter_cons_False (λ s, stays m s = true))
          by (unfold stays; by rewrite Hx, Hc).
        rewrite IH. cbn [fmap list_fmap].
        unfold record_in_the_tree at 2. rewrite Hx.
        by rewrite <- !app_assoc.
      * rewrite (filter_cons_False (λ s, moves m s = true))
          by (unfold moves; by rewrite Hx, Hc).
        rewrite (filter_cons_True (λ s, stays m s = true))
          by (unfold stays; by rewrite Hx, Hc).
        rewrite IH. by rewrite <- !app_assoc.
    + rewrite (filter_cons_False (λ s, moves m s = true))
        by (unfold moves; by rewrite Hx).
      rewrite (filter_cons_False (λ s, stays m s = true))
        by (unfold stays; by rewrite Hx).
      rewrite IH. by rewrite <- !app_assoc.
Qed.

(** X13.  [ReAddOrUpdate] changes the queue and the log only.  Each song
    without a leaf is logged.  For each song with a leaf [ContainerKey] is
    called at the three levels, for the song and for the record of the leaf,
    and logs an error at every level that has no criterion.  The songs with a
    leaf whose container key changed at some level are queued for addition,
    and the records their leaves hold for removal; the other songs with a
    leaf are queued for an update.  The updates are queued first, then the
    removals, then the additions, in chunks that keep the order of the batch,
    and the timer is started. *)
Theorem ReAddOrUpdate_sorts_the_batch (songs : SongList) (m : Model) :
  ∃ updated removed added : list SongList,
    ReAddOrUpdate songs m
    = requeue
        (updates_ m
         ++ map (CollectionModelUpdate.mk CollectionModelUpdate.Update) updated
         ++ map (CollectionModelUpdate.mk CollectionModelUpdate.Remove) removed
         ++ map (CollectionModelUpdate.mk CollectionModelUpdate.Add) added)
        true
        (with_log_ (log_ m ++ flat_map (ReAddOrUpdate_errors m) songs) m)
    ∧ concat updated = filter (λ s, stays m s = true) songs
    ∧ concat added = filter (λ s, moves m s = true) songs
    ∧ concat removed = record_in_the_tree m <$> concat added.
Proof.
  unfold ReAddOrUpdate.
  replace (foldl ReAddOrUpdate_song ([], [], [], m) songs)
    with (foldl ReAddOrUpdate_song ([], [], [], with_log_ (log_ m) m) songs)
    by (by destruct m).
  rewrite ReAddOrUpdate_song_fold. cbn [app].
  set (m1 := with_log_ _ m).
  unfold SongsAdded, SongsRemoved, SongsUpdated.
  destruct (ScheduleUpdate_requeue CollectionModelUpdate.Update
              (filter (λ s, stays m s = true) songs) m1) as (cu & -> & Hu & _).
  destruct (ScheduleUpdate_requeue CollectionModelUpdate.Remove
              (record_in_the_tree m <$> filter (λ s, moves m s = true) songs)
              (requeue
                 (updates_ m1
                  ++ map (CollectionModelUpdate.mk CollectionModelUpdate.Update) cu)
                 true m1)) as (cr & -> & Hr & _).
  destruct (ScheduleUpdate_requeue CollectionModelUpdate.Add
              (filter (λ s, moves m s = true) songs)
              (requeue
                 (updates_
                    (requeue
                       (updates_ m1
                        ++ map (CollectionModelUpdate.mk CollectionModelUpdate.Update)
                             cu) true m1)
                  ++ map (CollectionModelUpdate.mk CollectionModelUpdate.Remove) cr)
                 true
                 (requeue
                    (updates_ m1
                     ++ map (CollectionModelUpdate.mk CollectionModelUpdate.Update) cu)
                    true m1))) as (ca & -> & Ha & _).
  exists cu, cr, ca. rewrite !requeue_requeue.
  split; [cbn [updates_ requeue with_updates_ with_timer_update_active];
          by rewrite <- !app_assoc|].
  split; [done|]. split; [done|]. by rewrite Ha.
Qed.

End Sorting.

(** ** The order of the songs of a container *)

Section Sorting_by_insertion.
Context {A : Type} (lt : A → A → bool).
Hypothesis lt_asym : ∀ a b, lt a b = true → lt b a = false.
Hypothesis lt_ntrans : ∀ a b c, lt b a = false → lt c b = false → lt c a = false.

Lemma insert_sorted_Permutation x l : insert_sorted lt x l ≡ₚ x :: l.
Proof.
  induction l as [|y r IH]; cbn [insert_sorted]; [done|].
  destruct (lt y x); [|done]. rewrite IH. apply Permutation_swap.
Qed.

Lemma std_sort_Permutation l : std_sort lt l ≡ₚ l.
Proof.
  unfold std_sort. induction l as [|x l IH]; cbn [foldr]; [done|].
  by rewrite insert_sorted_Permutation, IH.
Qed.

Lemma insert_sorted_StronglySorted x l :
  StronglySorted (λ a b, lt b a = false) l →
  StronglySorted (λ a b, lt b a = false) (insert_sorted lt x l).
Proof.
  induction 1 as [|y r Hr IH Hy]; cbn [insert_sorted].
  - repeat constructor.
  - destruct (lt y x) eqn:Hyx.
    + constructor; [done|]. rewrite insert_sorted_Permutation.
      constructor; [by apply lt_asym|done].
    + constructor; [by constructor|]. constructor; [done|].
      eapply Forall_impl; [exact Hy|]. intros z Hz. by apply (lt_ntrans x y z).
Qed.

Lemma std_sort_StronglySorted l :
  StronglySorted (λ a b, lt b a = false) (std_sort lt l).
Proof.
  unfold std_sort. induction l as [|x l IH]; cbn [foldr]; [constructor|].
  by apply insert_sorted_StronglySorted.
Qed.

End Sorting_by_insertion.

Lemma qlt_ntrans a b c : qlt b a = false → qlt c b = false → qlt c a = false.
Proof.
  intros Hba Hcb. destruct (qlt c a) eqn:Hca; [|done].
  destruct (decide (b = c)) as [->|Hne]; [congruence|].
  destruct (qlt_total b c Hne) as [Hbc|Hbc]; [|congruence].
  by rewrite (qlt_trans b c a Hbc Hca) in Hba.
Qed.

Section Leaves.
Context `{External}.

Lemma AddSong_leaf_texts ok song m :
  Inv ok m → (Matches song = true → ok song) →
  leaf_texts m → leaf_texts (AddSong song m).
Proof.
  intros HI Hok Hd.
  pose proof (AddSong_Inv ok song m HI Hok) as HI'.
  assert (∀ p, type (item m p) = Type_Song →
               sort_text (item (AddSong song m) p)
               = SortTextForSong (metadata (item (AddSong song m) p))) as Hold.
  { intros p Hty. pose proof (Hd p Hty) as Hp.
    destruct (inv_songs ok m HI p Hty) as [Hnode _].
    destruct (inv_song_nodes ok m HI _ _ Hnode) as (_ & _ & Hre).
    pose proof (inv_fresh ok m HI p (reachable_allocated ok m p HI Hre)) as Hlt.
    destruct (older_AddSong m song m (older_refl m)) as [_ Ho].
    destruct (Ho p) as (Hfix & _); [lia|].
    unfold fixed_part in Hfix. by injection Hfix as _ _ _ _ _ -> _ ->. }
  destruct (Matches song) eqn:Hm; [|by rewrite AddSong_skipped by auto].
  destruct (song_nodes_ m !! Song.id song) eqn:Hs;
    [by rewrite AddSong_skipped by eauto|].
  destruct (AddSong_added_leaf song m Hm Hs)
    as (leaf & _ & Hnodes & _ & Hmd & _ & Hst).
  intros p Hty.
  destruct (inv_songs ok _ HI' p Hty) as [Hnode _].
  rewrite Hnodes in Hnode.
  destruct (decide (Song.id song = Song.id (metadata (item (AddSong song m) p))))
    as [Heq|Hne].
  - rewrite <- Heq, lookup_insert_eq in Hnode. injection Hnode as <-.
    by rewrite Hst, Hmd.
  - rewrite lookup_insert_ne in Hnode by done.
    destruct (inv_song_nodes ok m HI _ _ Hnode) as (Hty0 & _). by apply Hold.
Qed.

Lemma AddSongs_leaf_texts ok songs m :
  Inv ok m → (∀ s, s ∈ songs → Matches s = true → ok s) →
  leaf_texts m → leaf_texts (AddSongs songs m).
Proof.
  unfold AddSongs. revert m. induction songs as [|x l IH]; intros m HI Hok Hd; [done|].
  cbn [foldl]. apply IH.
  - apply AddSong_Inv; [done|]. apply Hok. by left.
  - intros s Hs. apply Hok. by right.
  - apply (AddSong_leaf_texts ok); [done| |done]. apply Hok. by left.
Qed.

Lemma rows_NoDup m q : rows m → NoDup (children (item m q)).
Proof.
  intros Hr. apply NoDup_alt. intros i j x Hi Hj.
  apply Hr in Hi. apply Hr in Hj. lia.
Qed.

(** The descent into leaves with identifiers that were not met. *)
Lemma foldl_visit_leaves f m l urls songs ids :
  Forall (λ x, type (item m x) = Type_Song) l →
  NoDup ((λ x, Song.id (metadata (item m x))) <$> l) →
  (∀ x, x ∈ l → Song.id (metadata (item m x)) ∉ ids) →
  foldl (visit (S f) m) (Some (urls, songs, ids)) l
  = Some (urls ++ ((λ x, Song.url (metadata (item m x))) <$> l),
          songs ++ ((λ x, metadata (item m x)) <$> l),
          list_to_set ((λ x, Song.id (metadata (item m x))) <$> reverse l) ∪ ids).
Proof.
  revert urls songs ids. induction l as [|x l IH]; intros urls songs ids Hty Hnd Hids.
  - cbn. rewrite !app_nil_r. f_equal. f_equal. set_solver.
  - apply Forall_cons in Hty as [Hx Hty]. cbn [fmap list_fmap] in Hnd.
    apply NoDup_cons in Hnd as [Hnx Hnd].
    cbn [foldl]. unfold visit at 2. cbn [mbind option_bind].
    rewrite GetChildSongs_song by done. unfold acc_ids, acc_songs. cbn [fst snd].
    rewrite decide_False by (apply Hids; by left).
    rewrite IH; [|done|done|].
    + cbn [fmap list_fmap]. rewrite <- !app_assoc. cbn [app].
      f_equal. f_equal. rewrite reverse_cons, fmap_app, list_to_set_app_L.
      cbn. set_solver.
    + intros y Hy. apply not_elem_of_union. split.
      * apply not_elem_of_singleton. intros Heq. apply Hnx. rewrite <- Heq.
        apply list_elem_of_fmap. by exists y.
      * apply Hids. by right.
Qed.

End Leaves.

Lemma StronglySorted_fmap_strong {A B} (R : A → A → Prop) (R' : B → B → Prop)
    (P : A → Prop) (f : A → B) (l : list A) :
  (∀ a b, P a → P b → R a b → R' (f a) (f b)) →
  Forall P l → StronglySorted R l → StronglySorted R' (f <$> l).
Proof.
  intros HR HP Hs. induction Hs as [|x l Hl IH Hx]; [constructor|].
  apply Forall_cons in HP as [Hpx HP]. cbn [fmap list_fmap].
  constructor; [by apply IH|].
  apply Forall_fmap, Forall_forall. intros y Hy. cbn.
  apply HR; [done| |].
  - by apply (proj1 (Forall_forall P l) HP).
  - by apply (proj1 (Forall_forall (R x) l) Hx).
Qed.

Section Songs_in_order.
Context `{External}.

Lemma CompareItems_in_order m x y :
  leaf_texts m →
  type (item m x) = Type_Song → type (item m y) = Type_Song →
  Song.disc (metadata (item m x)) ≤ 999 → Song.track (metadata (item m x)) ≤ 999 →
  Song.disc (metadata (item m y)) ≤ 999 → Song.track (metadata (item m y)) ≤ 999 →
  CompareItems m y x = false →
  in_order (metadata (item m x)) (metadata (item m y)).
Proof.
  intros Hl Hx Hy Hdx Htx Hdy Hty. rewrite CompareItems_qlt, (Hl x Hx), (Hl y Hy).
  destruct (SortTextForSong_padded _ Hdx Htx) as (hx & -> & Hlx & Hgx & Hvx).
  destruct (SortTextForSong_padded _ Hdy Hty) as (hy & -> & Hly & Hgy & Hvy).
  rewrite qlt_app_same_length by congruence. unfold in_order.
  destruct (decide (hy = hx)) as [Heq|Hne].
  - intros Hq. right. split; [congruence|done].
  - rewrite qlt_digits by (done || congruence). rewrite Hvx, Hvy.
    intros Hlt%Z.ltb_ge. left.
    assert (disc_and_track (metadata (item m x))
            ≠ disc_and_track (metadata (item m y))); [|lia].
    intros Heq. apply Hne. apply digits_value_inj; congruence.
Qed.

(** X14.  In a tree that [AddSongs] built from the empty tree with songs of
    discs and tracks below a thousand, the songs of a container that has
    leaves only come out of [GetChildSongs] with their locations, each once,
    ordered by disc, then by track, then by location. *)
Theorem GetChildSongs_of_leaves_is_in_disc_track_order
    (m0 : Model) (songs : SongList) (c : ptr) (fuel : nat) :
  empty_tree m0 →
  (∀ s, s ∈ songs → Song.disc s ≤ 999 ∧ Song.track s ≤ 999) →
  let m := AddSongs songs m0 in
  type (item m c) = Type_Container →
  Forall (λ x, type (item m x) = Type_Song) (children (item m c)) →
  (2 ≤ fuel)%nat →
  ∃ ret ids,
    GetChildSongs fuel m c ([], [], ∅) = Some (Song.url <$> ret, ret, ids)
    ∧ ret ≡ₚ (λ x, metadata (item m x)) <$> children (item m c)
    ∧ StronglySorted in_order ret.
Proof.
  intros He Hb m Hc Hleaves Hfuel.
  set (ok := λ s : Song.t, Song.disc s ≤ 999 ∧ Song.track s ≤ 999).
  assert (Inv ok m) as HI.
  { apply AddSongs_Inv; [by apply empty_tree_Inv|]. intros s Hs _. by apply Hb. }
  assert (rows m) as Hrows.
  { apply (AddSongs_rows ok); [by apply empty_tree_Inv| |by apply empty_tree_rows].
    intros s Hs _. by apply Hb. }
  assert (leaf_texts m) as Htexts.
  { apply (AddSongs_leaf_texts ok); [by apply empty_tree_Inv| |].
    - intros s Hs _. by apply Hb.
    - intros p. by destruct (empty_tree_item m0 p He) as [[_ ->]|[_ ->]]. }
  destruct fuel as [|[|f]]; [lia|lia|].
  rewrite GetChildSongs_container by done.
  set (sorted := std_sort (CompareItems m) (children (item m c))).
  assert (sorted ≡ₚ children (item m c)) as Hperm by apply std_sort_Permutation.
  assert (Forall (λ x, type (item m x) = Type_Song) sorted) as Hsongs
    by by rewrite Hperm.
  assert (NoDup ((λ x, Song.id (metadata (item m x))) <$> sorted)) as Hnd.
  { apply NoDup_fmap_2_strong; [|rewrite Hperm; by apply rows_NoDup].
    intros x y Hx Hy Heq.
    pose proof (proj1 (Forall_forall _ _) Hsongs x Hx) as Hxt.
    pose proof (proj1 (Forall_forall _ _) Hsongs y Hy) as Hyt.
    destruct (inv_songs ok m HI x Hxt) as [Hnx _].
    destruct (inv_songs ok m HI y Hyt) as [Hny _].
    cbn in Heq. rewrite Heq in Hnx. congruence. }
  exists ((λ x, metadata (item m x)) <$> sorted). eexists. split.
  - rewrite (foldl_visit_leaves f m sorted [] [] ∅ Hsongs Hnd) by set_solver.
    cbn [app]. by rewrite <- list_fmap_compose.
  - split; [by rewrite Hperm|].
    apply (StronglySorted_fmap_strong (λ a b, CompareItems m b a = false) in_order
             (λ x, type (item m x) = Type_Song)); [|done|].
    + intros a b Ha Hbt Hcmp.
      destruct (inv_songs ok m HI a Ha) as [_ [? ?]].
      destruct (inv_songs ok m HI b Hbt) as [_ [? ?]].
      by apply CompareItems_in_order.
    + apply std_sort_StronglySorted.
      * intros a b. rewrite !CompareItems_qlt. apply qlt_asym.
      * intros a b d. rewrite !CompareItems_qlt. apply qlt_ntrans.
Qed.

End Songs_in_order.

Section Songs_in_order_witness.
#[local] Existing Instance Sample.external.

Lemma GetChildSongs_of_leaves_is_in_disc_track_order_witness :
  let m0 := Sample.empty_model by_albumartist_album false in
  let m := AddSongs gold m0 in
  empty_tree m0
  ∧ type (item m 3) = Type_Container
  ∧ Forall (λ x, type (item m x) = Type_Song) (children (item m 3))
  ∧ ∃ ret ids,
      GetChildSongs 2 m 3 ([], [], ∅) = Some (Song.url <$> ret, ret, ids)
      ∧ ret ≡ₚ (λ x, metadata (item m x)) <$> children (item m 3)
      ∧ StronglySorted in_order ret.
Proof.
  intros m0 m.
  assert (empty_tree m0) as H1 by apply empty_tree_empty_model.
  assert (∀ s, s ∈ gold → Song.disc s ≤ 999 ∧ Song.track s ≤ 999) as H2.
  { intros s Hs. unfold gold in Hs.
    repeat (apply elem_of_cons in Hs as [->|Hs]); [| | |by apply elem_of_nil in Hs];
      by vm_compute. }
  assert (type (item m 3) = Type_Container) as H3 by (vm_compute; reflexivity).
  assert (Forall (λ x, type (item m x) = Type_Song) (children (item m 3))) as H4.
  { apply (bool_decide_unpack _). vm_compute. exact I. }
  assert (2 ≤ 2)%nat as H5 by lia.
  split; [exact H1|]. split; [exact H3|]. split; [exact H4|].
  exact (GetChildSongs_of_leaves_is_in_disc_track_order m0 gold 3%nat 2%nat
           H1 H2 H3 H4 H5).
Defined.

End Songs_in_order_witness.

(** ** The songs of a selection *)

Section Selection.
Context `{External}.

Lemma foldl_visit_indexes fuel m idxs a :
  foldl (λ acc idx, acc ← acc; GetChildSongs fuel m (IndexToItem m idx) acc) a idxs
  = foldl (visit fuel m) a (IndexToItem m <$> idxs).
Proof. revert a. induction idxs as [|i l IH]; intros a; [done|]. apply IH. Qed.

(** X15.  On a well-formed tree [GetChildSongs] returns for every list of
    indexes, whatever they select: items of any type, an item twice, a
    container with items below it.  No two of the songs it lists have the same
    identifier, and each is the record of a leaf of the tree. *)
Theorem GetChildSongs_of_a_selection_lists_no_song_twice
    (m : Model) (indexes : list QModelIndex) (fuel : nat) :
  Inv (λ _, True) m → (4 ≤ fuel)%nat →
  ∃ ret,
    GetChildSongs_indexes fuel m indexes = Some ret
    ∧ NoDup (Song.id <$> ret)
    ∧ ∀ r, r ∈ ret → ∃ p, type (item m p) = Type_Song ∧ metadata (item m p) = r.
Proof.
  intros HI Hfuel. unfold GetChildSongs_indexes. rewrite foldl_visit_indexes.
  destruct (foldl_visit_returns fuel m (IndexToItem m <$> indexes)) with
    (a := (@nil QString, @nil Song.t, (∅ : gset Z))) as [a Ha].
  { intros c a _. apply (GetChildSongs_returns (λ _, True)); [done|lia|].
    intros Hc. pose proof (inv_level _ m HI c Hc). lia. }
  rewrite Ha. destruct a as [[urls ret] ids]. cbn. exists ret. split; [done|].
  assert (gathered m (urls, ret, ids)) as (Hnd & _ & Hrec).
  { refine (foldl_visit_rel (λ a a', gathered m a → gathered m a') fuel m _ _ _ _
              _ _ Ha (gathered_start m)); [auto|auto|].
    intros c a a' _. apply GetChildSongs_gathered. }
  by split.
Qed.

End Selection.

Section Selection_witness.
#[local] Existing Instance Sample.external.

Lemma GetChildSongs_of_a_selection_lists_no_song_twice_witness :
  let m := AddSongs gold (Sample.empty_model by_albumartist_album false) in
  Inv (λ _, True) m
  ∧ ∃ ret,
      GetChildSongs_indexes 4 m [Index 0 3; Index 1 5; Index 0 3] = Some ret
      ∧ NoDup (Song.id <$> ret)
      ∧ ∀ r, r ∈ ret → ∃ p, type (item m p) = Type_Song ∧ metadata (item m p) = r.
Proof.
  intros m.
  assert (Inv (λ _, True) m) as HI.
  { apply AddSongs_Inv; [apply empty_tree_Inv, empty_tree_empty_model|done]. }
  assert (4 ≤ 4)%nat as H5 by lia.
  split; [exact HI|].
  exact (GetChildSongs_of_a_selection_lists_no_song_twice m
           [Index 0 3; Index 1 5; Index 0 3] 4 HI H5).
Defined.

End Selection_witness.

(** ** The records after [UpdateSongs] *)

Section Updated_records.
Context `{External}.

Lemma leaves_indexed_keeps_shape m m' :
  keeps_shape m m' → leaves_indexed m → leaves_indexed m'.
Proof.
  intros Hk (A & B & C). split; [by apply (leaves_have_parents_keeps_shape m)|].
  destruct Hk as (_ & Hal & Hs & _). rewrite Hs.
  split; [|done]. intros k leaf Hl. apply Hal. by apply (B k).
Qed.

Lemma Inv_leaves_indexed ok m : Inv ok m → leaves_indexed m.
Proof.
  intros HI. split; [|split].
  - intros k leaf Hk. destruct (inv_song_nodes ok m HI k leaf Hk) as (_ & _ & Hre).
    pose proof (inv_fresh ok m HI _ (reachable_allocated ok m leaf HI Hre)) as Hl.
    pose proof (inv_fresh ok m HI _ (reachable_parent ok m leaf HI Hre)) as Hp.
    unfold nullptr. lia.
  - intros k leaf Hk. destruct (inv_song_nodes ok m HI k leaf Hk) as (_ & _ & Hre).
    by apply (reachable_allocated ok).
  - intros k1 k2 leaf H1 H2.
    destruct (inv_song_nodes ok m HI k1 leaf H1) as (_ & <- & _).
    by destruct (inv_song_nodes ok m HI k2 leaf H2) as (_ & <- & _).
Qed.

Lemma item_upsert_known s m p : item (upsert_known s m) p = item m p.
Proof. unfold upsert_known. by destruct (contains _ _). Qed.

Lemma songs_upsert_known s m k :
  songs_ (upsert_known s m) !! k
  = match songs_ m !! k with
    | Some r => Some (if decide (Song.id s = k) then s else r)
    | None => None
    end.
Proof.
  unfold upsert_known, contains.
  destruct (decide (Song.id s = k)) as [Heq|Hne].
  - subst k. destruct (songs_ m !! Song.id s) eqn:Hs.
    + rewrite bool_decide_eq_true_2 by eauto. cbn. by rewrite lookup_insert_eq.
    + rewrite bool_decide_eq_false_2 by apply is_Some_None. by rewrite Hs.
  - destruct (bool_decide _); cbn; rewrite ?lookup_insert_ne by done;
      by destruct (songs_ m !! k).
Qed.

Lemma last_with_cons k s l :
  last_with k (s :: l)
  = match last_with k l with
    | Some x => Some x
    | None => if decide (Song.id s = k) then Some s else None
    end.
Proof. reflexivity. Qed.

Lemma UpdateSongs_records songs m :
  leaves_indexed m →
  (∀ k leaf, song_nodes_ m !! k = Some leaf →
             metadata (item (UpdateSongs songs m) leaf)
             = match last_with k songs with
               | Some s => s
               | None => metadata (item m leaf)
               end)
  ∧ (∀ k, songs_ (UpdateSongs songs m) !! k
          = match songs_ m !! k with
            | Some r => Some (match last_with k songs with Some s => s | None => r end)
            | None => None
            end)
  ∧ next_ptr (UpdateSongs songs m) = next_ptr m.
Proof.
  revert m. induction songs as [|s l IH]; intros m HJ.
  { cbn [UpdateSongs last_with]. split; [done|]. split; [|done].
    intros k. by destruct (songs_ m !! k). }
  cbn [UpdateSongs]. fold (upsert_known s m).
  pose proof (keeps_shape_upsert_known s m) as Hk.
  set (n := upsert_known s m) in *.
  assert (∀ m', keeps_shape m m' → next_ptr m' = next_ptr m →
                (∀ k, songs_ m' !! k = songs_ n !! k) →
                ∀ fix_ : ptr → Song.t,
                  (∀ k leaf, song_nodes_ m !! k = Some leaf →
                     metadata (item m' leaf)
                     = if decide (Song.id s = k) then fix_ leaf
                       else metadata (item m leaf)) →
                  (∀ k leaf, song_nodes_ m !! k = Some leaf → Song.id s = k →
                             fix_ leaf = s) →
                  (∀ k leaf, song_nodes_ m !! k = Some leaf →
                     metadata (item (UpdateSongs l m') leaf)
                     = match last_with k (s :: l) with
                       | Some x => x
                       | None => metadata (item m leaf)
                       end)
                  ∧ (∀ k, songs_ (UpdateSongs l m') !! k
                          = match songs_ m !! k with
                            | Some r =>
                                Some (match last_with k (s :: l) with
                                      | Some x => x
                                      | None => r
                                      end)
                            | None => None
                            end)
                  ∧ next_ptr (UpdateSongs l m') = next_ptr m) as Hrest.
  { intros m' Hk' Hn' Hs' fix_ Hmd Hfix.
    destruct (IH m' (leaves_indexed_keeps_shape m m' Hk' HJ)) as (A & B & C).
    split; [|split; [|congruence]].
    - intros k leaf Hl. rewrite last_with_cons.
      assert (song_nodes_ m' !! k = Some leaf) as Hl'
        by (destruct Hk' as (_ & _ & -> & _); done).
      rewrite (A k leaf Hl'), (Hmd k leaf Hl).
      destruct (last_with k l); [done|].
      destruct (decide (Song.id s = k)); [by apply (Hfix k)|done].
    - intros k. rewrite B, Hs', last_with_cons. unfold n.
      rewrite songs_upsert_known.
      destruct (songs_ m !! k); [|done]. f_equal.
      destruct (last_with k l); [done|]. by destruct (decide (Song.id s = k)). }
  assert (song_nodes_ n = song_nodes_ m) as Hsn by apply upsert_known_song_nodes_.
  assert (next_ptr n = next_ptr m) as Hnn
    by (unfold n, upsert_known; by destruct (contains _ _)).
  rewrite Hsn.
  destruct (song_nodes_ m !! Song.id s) as [leaf0|] eqn:Hs0.
  - destruct HJ as (HP & HA & Hinj).
    set (n2 := update_item leaf0 (set_metadata s) n).
    assert (keeps_shape m n2) as Hk2
      by (eapply keeps_shape_trans; [exact Hk|apply keeps_shape_set_metadata]).
    assert (∀ k leaf, song_nodes_ m !! k = Some leaf →
                      metadata (item n2 leaf)
                      = if decide (Song.id s = k)
                        then metadata (item n2 leaf)
                        else metadata (item m leaf)) as Hmd.
    { intros k leaf Hl. destruct (decide (Song.id s = k)) as [Heq|Hne]; [done|].
      unfold n2, n. rewrite item_update_item_other; [by rewrite item_upsert_known|].
      intros ->. apply Hne. by apply (Hinj _ _ leaf0). }
    assert (∀ k leaf, song_nodes_ m !! k = Some leaf → Song.id s = k →
                      metadata (item n2 leaf) = s) as Hfix.
    { intros k leaf Hl <-. assert (leaf = leaf0) as -> by congruence.
      unfold n2. rewrite item_update_item_same; [done|].
      destruct Hk as (_ & Hal & _). apply Hal. by apply (HA (Song.id s)). }
    destruct (negb (IsCollectionMetadataEqual _ _)).
    + destruct (leaves_have_parents_keeps_shape m n2 Hk2 HP (Song.id s) leaf0)
        as [Hnull Hpar].
      { destruct Hk2 as (_ & _ & -> & _). done. }
      unfold ItemToIndex.
      destruct (decide (leaf0 = nullptr)); [done|].
      destruct (decide (parent (item n2 leaf0) = nullptr)); [done|].
      cbn [isValid negb].
      apply (Hrest _ (keeps_shape_trans _ _ _ Hk2 (keeps_shape_dataChanged _ n2))
               Hnn (λ _, eq_refl) (λ leaf, metadata (item n2 leaf))); done.
    + apply (Hrest n2 Hk2 Hnn (λ _, eq_refl) (λ leaf, metadata (item n2 leaf))); done.
  - apply (Hrest _ (keeps_shape_trans _ _ _ Hk (keeps_shape_log_error _ n))
             Hnn (λ _, eq_refl) (λ leaf, metadata (item m leaf))).
    + intros k leaf Hl.
      change (item (log_error ?e n) leaf) with (item n leaf).
      unfold n. rewrite item_upsert_known. by destruct (decide _).
    + intros k leaf Hl <-. congruence.
Qed.

Lemma last_with_id k songs s : last_with k songs = Some s → Song.id s = k.
Proof.
  induction songs as [|x l IH]; [done|]. rewrite last_with_cons.
  destruct (last_with k l); [intros [= <-]; by apply IH|].
  destruct (decide (Song.id x = k)); [by intros [= <-]|done].
Qed.

Lemma shape_fields a b :
  shape a = shape b →
  type a = type b ∧ parent a = parent b ∧ children a = children b
  ∧ container_level a = container_level b
  ∧ compilation_artist_node_ a = compilation_artist_node_ b.
Proof. unfold shape. intros Hs. by injection Hs as -> _ -> -> _ _ _ -> ->. Qed.

Lemma UpdateSongs_Inv ok songs m :
  Inv ok m → Inv (λ _, True) (UpdateSongs songs m).
Proof.
  intros HI.
  destruct (UpdateSongs_keeps_shape songs m) as (Hsh & Hal & Hsn & Hcn & Hdn & _).
  destruct (UpdateSongs_records songs m (Inv_leaves_indexed ok m HI))
    as (Hmd & _ & Hnext).
  pose proof (frame_root_ _ _ (frame_UpdateSongs songs m)) as Hroot.
  set (m' := UpdateSongs songs m) in *.
  assert (∀ p, type (item m' p) = type (item m p)
               ∧ parent (item m' p) = parent (item m p)
               ∧ children (item m' p) = children (item m p)
               ∧ container_level (item m' p) = container_level (item m p)
               ∧ compilation_artist_node_ (item m' p)
                 = compilation_artist_node_ (item m p)) as Hf
    by (intros p; apply shape_fields, Hsh).
  assert (extends m m') as Hext.
  { split; [done|]. split; intros q.
    - by destruct (Hf q) as (-> & _).
    - intros c. by destruct (Hf q) as (_ & _ & -> & _). }
  assert (∀ k leaf, song_nodes_ m !! k = Some leaf →
                    Song.id (metadata (item m' leaf)) = k) as Hid.
  { intros k leaf Hl. rewrite (Hmd k leaf Hl).
    destruct (last_with k songs) eqn:Hlast; [by apply (last_with_id k songs)|].
    by destruct (inv_song_nodes ok m HI k leaf Hl) as (_ & ? & _). }
  split.
  - intros p Hp. rewrite Hnext. apply (inv_fresh ok m HI). by apply Hal.
  - rewrite Hroot. destruct (inv_root ok m HI) as (A & B & C).
    destruct (Hf (root_ m)) as (-> & _ & _ & -> & _). split; [by apply Hal|done].
  - intros p c. destruct (Hf p) as (_ & _ & -> & _). intros Hc.
    apply Hal. by apply (inv_children ok m HI p).
  - intros p c. destruct (Hf p) as (_ & _ & -> & _).
    destruct (Hf c) as (_ & -> & _). apply (inv_parent ok m HI).
  - intros p. destruct (Hf p) as (-> & _ & _ & -> & _). apply (inv_level ok m HI).
  - intros p c. destruct (Hf p) as (-> & _ & -> & -> & _).
    destruct (Hf c) as (-> & _ & _ & -> & _). apply (inv_level_child ok m HI).
  - intros p. destruct (Hf p) as (_ & _ & -> & -> & ->).
    destruct (Hf (compilation_artist_node_ (item m p))) as (-> & _ & _ & -> & _).
    apply (inv_compilation ok m HI).
  - intros k leaf. rewrite Hsn. intros Hl.
    destruct (inv_song_nodes ok m HI k leaf Hl) as (Hty & _ & Hre).
    destruct (Hf leaf) as (-> & _). split; [done|]. split; [by apply Hid|].
    by apply (reachable_extends m).
  - intros p. destruct (Hf p) as (-> & _). intros Hty.
    destruct (inv_songs ok m HI p Hty) as [Hl _]. split; [|done].
    rewrite Hsn. by rewrite (Hid _ _ Hl).
  - intros i key_ c. unfold container_nodes_at. rewrite Hcn.
    intros Hc. destruct (inv_container_nodes ok m HI i key_ c Hc) as (A & B & C).
    destruct (Hf c) as (-> & _ & _ & -> & _).
    split; [done|]. split; [done|]. by apply (reachable_extends m).
Qed.

(** X16.  On a well-formed tree [UpdateSongs] goes through the whole batch
    and leaves the tree well formed.  The leaf of every identifier then holds
    the last song of the batch with that identifier, or the record it held
    when the batch has none; the same holds of the stored records, and no
    record is stored for an identifier that had none. *)
Theorem UpdateSongs_puts_the_last_record_in_the_leaf (songs : SongList) (m : Model) :
  Inv (λ _, True) m →
  let m' := UpdateSongs songs m in
  Inv (λ _, True) m'
  ∧ (∀ k leaf, song_nodes_ m !! k = Some leaf →
               metadata (item m' leaf)
               = match last_with k songs with
                 | Some s => s
                 | None => metadata (item m leaf)
                 end)
  ∧ (∀ k, songs_ m' !! k
          = match songs_ m !! k with
            | Some r => Some (match last_with k songs with Some s => s | None => r end)
            | None => None
            end).
Proof.
  intros HI m'. split; [by apply (UpdateSongs_Inv (λ _, True))|].
  destruct (UpdateSongs_records songs m (Inv_leaves_indexed _ m HI)) as (A & B & _).
  by split.
Qed.

End Updated_records.

Section Updated_records_witness.
#[local] Existing Instance Sample.external.

Lemma UpdateSongs_puts_the_last_record_in_the_leaf_witness :
  let m := AddSongs gold (Sample.empty_model by_albumartist_album false) in
  let first_update := Sample.song 2 "Abba" "Gold" "Fernando (live)" 1 12 1992 in
  let last_update := Sample.song 2 "Abba" "Gold" "Fernando (remastered)" 1 12 1992 in
  Inv (λ _, True) m
  ∧ song_nodes_ m !! 2 = Some 5%nat
  ∧ metadata (item (UpdateSongs [first_update; last_update] m) 5) = last_update.
Proof.
  intros m first_update last_update.
  assert (Inv (λ _, True) m) as HI.
  { apply AddSongs_Inv; [apply empty_tree_Inv, empty_tree_empty_model|done]. }
  assert (song_nodes_ m !! 2 = Some 5%nat) as H2 by (vm_compute; reflexivity).
  split; [exact HI|]. split; [exact H2|].
  exact (proj1 (proj2 (UpdateSongs_puts_the_last_record_in_the_leaf
                         [first_update; last_update] m HI)) 2 5%nat H2).
Defined.

End Updated_records_witness.

(** ** The signals of a batch of updates *)

Section Batch_of_updates.
Context `{External}.

Lemma UpdateSongs_cons s l m :
  leaves_have_parents m → UpdateSongs (s :: l) m = UpdateSongs l (UpdateSongs [s] m).
Proof.
  intros HP. cbn [UpdateSongs]. fold (upsert_known s m).
  pose proof (keeps_shape_upsert_known s m) as Hk.
  set (n := upsert_known s m) in *.
  destruct (song_nodes_ n !! Song.id s) as [leaf|] eqn:Hs; [|done].
  destruct (negb (IsCollectionMetadataEqual _ _)); [|done].
  set (n2 := update_item leaf (set_metadata s) n).
  assert (keeps_shape m n2) as Hk2
    by (eapply keeps_shape_trans; [exact Hk|apply keeps_shape_set_metadata]).
  destruct (leaves_have_parents_keeps_shape m n2 Hk2 HP (Song.id s) leaf)
    as [Hnull Hpar].
  { destruct Hk2 as (_ & _ & -> & _). destruct Hk as (_ & _ & <- & _). done. }
  unfold ItemToIndex.
  destruct (decide (leaf = nullptr)); [done|].
  destruct (decide (parent (item n2 leaf) = nullptr)); [done|]. done.
Qed.

Lemma UpdateSongs_app l1 l2 m :
  leaves_have_parents m →
  UpdateSongs (l1 ++ l2) m = UpdateSongs l2 (UpdateSongs l1 m).
Proof.
  revert m. induction l1 as [|s l1 IH]; intros m HP; [done|].
  cbn [app]. rewrite (UpdateSongs_cons s (l1 ++ l2)), (UpdateSongs_cons s l1) by done.
  apply IH. apply (leaves_have_parents_keeps_shape m); [|done].
  apply UpdateSongs_keeps_shape.
Qed.

Lemma ItemToIndex_keeps_shape m m' p :
  keeps_shape m m' → ItemToIndex m' p = ItemToIndex m p.
Proof.
  intros (Hsh & _). specialize (Hsh p). unfold shape in Hsh.
  injection Hsh as _ Hr Hp _ _ _ _ _ _. unfold ItemToIndex. by rewrite Hr, Hp.
Qed.

Lemma UpdateSongs_one_signals s m :
  leaves_indexed m →
  signals_ (UpdateSongs [s] m)
  = signals_ m ++ change_of m (λ leaf, metadata (item m leaf)) s.
Proof.
  intros (HP & HA & _). unfold change_of.
  destruct UpdateSongs_shape_and_one_song as (_ & _ & Hsame & Hdiff).
  destruct (song_nodes_ m !! Song.id s) as [leaf|] eqn:Hs.
  - destruct (HP _ _ Hs) as [Hnull Hpar]. pose proof (HA _ _ Hs) as Ha.
    destruct (IsCollectionMetadataEqual s (metadata (item m leaf))) eqn:Heq.
    + destruct (Hsame s m leaf Hs Ha Heq) as [-> _]. by rewrite app_nil_r.
    + destruct (Hdiff s m leaf Hs Ha Hnull Hpar Heq) as [-> _].
      unfold ItemToIndex. by rewrite !decide_False by done.
  - cbn [UpdateSongs]. fold (upsert_known s m). rewrite upsert_known_song_nodes_, Hs.
    rewrite app_nil_r. unfold upsert_known. by destruct (contains _ _).
Qed.

Lemma UpdateSongs_changes m songs done_ :
  leaves_indexed m →
  signals_ (UpdateSongs (done_ ++ songs) m)
  = signals_ (UpdateSongs done_ m) ++ changes m done_ songs.
Proof.
  intros HJ. revert done_. induction songs as [|s l IH]; intros done_.
  - by rewrite !app_nil_r.
  - cbn [changes]. rewrite (cons_middle s done_ l), app_assoc, IH.
    rewrite app_assoc. f_equal.
    pose proof HJ as (HP & _).
    rewrite (UpdateSongs_app done_ [s]) by done.
    pose proof (UpdateSongs_keeps_shape done_ m) as Hk.
    destruct (UpdateSongs_records done_ m HJ) as (Hmd & _).
    set (m' := UpdateSongs done_ m) in *.
    rewrite (UpdateSongs_one_signals s m') by by apply (leaves_indexed_keeps_shape m).
    f_equal. unfold change_of.
    assert (song_nodes_ m' = song_nodes_ m) as -> by by destruct Hk as (_ & _ & -> & _).
    destruct (song_nodes_ m !! Song.id s) as [leaf|] eqn:Hs; [|done].
    by rewrite (Hmd _ _ Hs), (ItemToIndex_keeps_shape m m').
Qed.

(** C8 (amended).  [UpdateSongs] changes no item but in the record it
    wraps, destroys and creates none, leaves the lookup tables of the tree as
    they are, and emits no structural signal.  For a tracked song whose new
    record equals the record of its leaf on the compared fields, which is the
    case when they differ in rating and play statistics only, it emits no
    signal at all and puts the new record in the leaf.  For a tracked song
    whose new record differs on a compared field it emits one [dataChanged]
    for the index of the leaf.  On a tree whose leaves are under parents, one
    leaf for each identifier, a batch is gone through to its end: the signals
    it emits are, in the order of the batch, one [dataChanged] for each song
    that has a leaf and differs on a compared field from the record that the
    leaf holds when the turn of the song comes, and no other; every leaf then
    holds the last song of the batch with its identifier. *)
Theorem UpdateSongs_signals_and_shape :
  (∀ songs m,
      (∀ p, shape (item (UpdateSongs songs m) p) = shape (item m p))
      ∧ (∀ p, allocated (UpdateSongs songs m) p ↔ allocated m p)
      ∧ song_nodes_ (UpdateSongs songs m) = song_nodes_ m
      ∧ container_nodes_ (UpdateSongs songs m) = container_nodes_ m
      ∧ divider_nodes_ (UpdateSongs songs m) = divider_nodes_ m
      ∧ ∃ emitted,
          signals_ (UpdateSongs songs m) = signals_ m ++ emitted
          ∧ Forall (λ s, is_structural s = false) emitted)
  ∧ (∀ old rating_ playcount_ skipcount_ lastplayed_,
        IsCollectionMetadataEqual
          (Song.set_rating rating_
             (Song.set_playcount playcount_
                (Song.set_skipcount skipcount_ (Song.set_lastplayed lastplayed_ old))))
          old = true)
  ∧ (∀ song m leaf,
        song_nodes_ m !! Song.id song = Some leaf → allocated m leaf →
        IsCollectionMetadataEqual song (metadata (item m leaf)) = true →
        signals_ (UpdateSongs [song] m) = signals_ m
        ∧ metadata (item (UpdateSongs [song] m) leaf) = song)
  ∧ (∀ song m leaf,
        song_nodes_ m !! Song.id song = Some leaf → allocated m leaf →
        leaf ≠ nullptr → parent (item m leaf) ≠ nullptr →
        IsCollectionMetadataEqual song (metadata (item m leaf)) = false →
        signals_ (UpdateSongs [song] m)
        = signals_ m ++ [dataChanged (Index (row (item m leaf)) leaf)
                           (Index (row (item m leaf)) leaf)]
        ∧ metadata (item (UpdateSongs [song] m) leaf) = song)
  ∧ (∀ songs m,
        leaves_indexed m →
        signals_ (UpdateSongs songs m) = signals_ m ++ changes m [] songs
        ∧ (∀ k leaf, song_nodes_ m !! k = Some leaf →
                     metadata (item (UpdateSongs songs m) leaf)
                     = match last_with k songs with
                       | Some s => s
                       | None => metadata (item m leaf)
                       end)
        ∧ (∀ l1 s l2, songs = l1 ++ s :: l2 →
                      UpdateSongs songs m
                      = UpdateSongs l2 (UpdateSongs [s] (UpdateSongs l1 m)))).
Proof.
  destruct UpdateSongs_shape_and_one_song as (A & B & C & D).
  split; [exact A|]. split; [exact B|]. split; [exact C|]. split; [exact D|].
  intros songs m HJ. split; [|split].
  - exact (UpdateSongs_changes m songs [] HJ).
  - by destruct (UpdateSongs_records songs m HJ).
  - intros l1 s l2 ->. pose proof HJ as (HP & _).
    rewrite UpdateSongs_app by done. apply UpdateSongs_cons.
    apply (leaves_have_parents_keeps_shape m); [apply UpdateSongs_keeps_shape|done].
Qed.

End Batch_of_updates.

Section Batch_of_updates_witness.
#[local] Existing Instance Sample.external.

Lemma UpdateSongs_signals_and_shape_witness :
  let m := AddSongs arrival_and_jazz (Sample.empty_model by_albumartist_album true) in
  leaves_indexed m
  ∧ signals_ (UpdateSongs retitled m) = signals_ m ++ changes m [] retitled
  ∧ changes m [] retitled
    = [dataChanged (Index 0 5) (Index 0 5); dataChanged (Index 1 10) (Index 1 10)].
Proof.
  intros m.
  assert (leaves_indexed m) as HJ.
  { apply (Inv_leaves_indexed (λ _, True)), AddSongs_Inv; [|done].
    apply empty_tree_Inv, empty_tree_empty_model. }
  split; [exact HJ|]. split.
  - exact (proj1 (proj2 (proj2 (proj2 (proj2 UpdateSongs_signals_and_shape)))
                    retitled m HJ)).
  - vm_compute. reflexivity.
Defined.

End Batch_of_updates_witness.

(** ** The tables of the containers *)

Lemma valid_grouping_at g i : valid_grouping g → Grouping_at g i ≠ GroupBy.GroupByCount.
Proof. intros (A & B & C). unfold Grouping_at. by repeat case_match. Qed.

Section Keys.
Context `{External}.

Lemma key_ItemFromSong_switch m gb sep s it :
  gb ≠ GroupBy.None → gb ≠ GroupBy.GroupByCount →
  key (ItemFromSong_switch m gb sep s it) = key it ++ ContainerKey gb sep s.
Proof. by destruct gb. Qed.

Lemma InitItem_field {A} (proj : CollectionItem → A) gb signal P lvl m q :
  q ≠ next_ptr m → (∀ v it, proj (set_children v it) = proj it) →
  proj (item (InitItem gb signal P lvl m).2 q) = proj (item m q).
Proof.
  intros Hq Hproj. unfold InitItem.
  set (m1 := if signal then _ else m).
  assert (item m1 q = item m q ∧ next_ptr m1 = next_ptr m) as [Hi Hn]
    by (unfold m1; by destruct signal).
  pose proof (new_CollectionItem_field proj
                (if GroupBy.eqb gb GroupBy.None then Type_Song else Type_Container)
                P m1 q) as Hnew.
  pose proof (new_CollectionItem_ptr
                (if GroupBy.eqb gb GroupBy.None then Type_Song else Type_Container)
                P m1) as Hp.
  destruct (new_CollectionItem _ P m1) as [p m2]. cbn [fst snd] in *. subst p.
  rewrite !item_update_item_other by congruence.
  rewrite Hnew by congruence. by rewrite Hi.
Qed.

Lemma FinishItem_field {A} (proj : CollectionItem → A) gb signal cd P p m q :
  (q < next_ptr m)%nat →
  (∀ v it, proj (set_children v it) = proj it) →
  (∀ v it, proj (set_sort_text v it) = proj it) →
  proj (item (FinishItem gb signal cd P p m) q) = proj (item m q).
Proof.
  intros Hq Hc Hs. unfold FinishItem.
  set (m1 := if signal then endInsertRows m else m).
  assert (item m1 q = item m q ∧ next_ptr m1 = next_ptr m) as [Hi1 Hn1]
    by (unfold m1; by destruct signal).
  destruct (cd && show_dividers_ m1); [|by rewrite Hi1].
  set (m2 := if negb (isEmpty (DividerKey gb (item m1 p))) then _ else m1).
  assert (proj (item m2 q) = proj (item m q) ∧ next_ptr m2 = next_ptr m) as [Hi2 Hn2].
  { unfold m2. destruct (negb _); [|by rewrite Hi1].
    split; [|done]. rewrite (update_item_field proj) by (intros; apply Hs).
    by rewrite Hi1. }
  destruct (_ && _); [|done].
  set (m3 := if signal then _ else m2).
  assert (item m3 q = item m2 q ∧ next_ptr m3 = next_ptr m2) as [Hi3 Hn3]
    by (unfold m3; by destruct signal).
  pose proof (new_CollectionItem_field proj Type_Divider (root_ m3) m3 q) as Hnew.
  pose proof (new_CollectionItem_ptr Type_Divider (root_ m3) m3) as Hp.
  destruct (new_CollectionItem Type_Divider (root_ m3) m3) as [d m4].
  cbn [fst snd] in *. subst d.
  assert (q ≠ next_ptr m3) as Hne by lia.
  assert (∀ m', item (if signal then endInsertRows m' else m') q = item m' q) as ->
    by (intros m'; by destruct signal).
  change (item (with_divider_nodes_ ?v ?m') q) with (item m' q).
  rewrite !item_update_item_other by done.
  rewrite Hnew by done. by rewrite Hi3.
Qed.

(** The key of the container that [ItemFromSong] makes. *)
Lemma ItemFromSong_key gb sep signal cd P s lvl m :
  gb ≠ GroupBy.None → gb ≠ GroupBy.GroupByCount → P ≠ next_ptr m →
  key (item (ItemFromSong gb sep signal cd P s lvl m).2 (next_ptr m))
  = (if negb (isEmpty (loop_key m P)) then loop_key m P ++ qs "-" else loop_key m P)
    ++ ContainerKey gb sep s.
Proof.
  intros Hnone Hcount HP. unfold ItemFromSong.
  pose proof (InitItem_field key gb signal P lvl m P HP (λ _ _, eq_refl)) as HkP.
  assert (key (item (InitItem gb signal P lvl m).2 (next_ptr m)) = []
          ∧ allocated (InitItem gb signal P lvl m).2 (next_ptr m)
          ∧ next_ptr (InitItem gb signal P lvl m).2 = S (next_ptr m)
          ∧ root_ (InitItem gb signal P lvl m).2 = root_ m
          ∧ (InitItem gb signal P lvl m).1 = next_ptr m) as (Hk0 & Hal & Hn & Hr & Hp).
  { unfold InitItem.
    set (m1 := if signal then _ else m).
    assert (next_ptr m1 = next_ptr m ∧ root_ m1 = root_ m) as [Hn1 Hr1]
      by (unfold m1; by destruct signal).
    pose proof (new_CollectionItem_new
                  (if GroupBy.eqb gb GroupBy.None then Type_Song else Type_Container)
                  P m1) as Hnew.
    pose proof (proj2 (new_CollectionItem_allocated
                  (if GroupBy.eqb gb GroupBy.None then Type_Song else Type_Container)
                  P m1 (next_ptr m1)) (or_introl eq_refl)) as Hal.
    pose proof (new_CollectionItem_ptr
                  (if GroupBy.eqb gb GroupBy.None then Type_Song else Type_Container)
                  P m1) as Hp.
    pose proof (new_CollectionItem_next
                  (if GroupBy.eqb gb GroupBy.None then Type_Song else Type_Container)
                  P m1) as Hnx.
    assert (root_ (new_CollectionItem
                     (if GroupBy.eqb gb GroupBy.None then Type_Song else Type_Container)
                     P m1).2 = root_ m1) as Hrt by reflexivity.
    destruct (new_CollectionItem _ P m1) as [p m2]. cbn [fst snd] in *. subst p.
    rewrite <- Hn1.
    split; [|split; [by rewrite !allocated_update_item|
                     cbn [next_ptr root_ update_item with_heap];
                     split; [done|split; [congruence|done]]]].
    rewrite !(update_item_field key) by done. rewrite Hnew by congruence. done. }
  destruct (InitItem gb signal P lvl m) as [p m1]. cbn [fst snd] in *. subst p.
  set (m2 := if negb (bool_decide (P = root_ m1)) && negb (isEmpty (key (item m1 P)))
             then update_item (next_ptr m) (set_key (key (item m1 P) ++ qs "-")) m1
             else m1).
  assert (allocated m2 (next_ptr m)) as Hal2
    by (unfold m2; destruct (_ && _); by rewrite ?allocated_update_item).
  assert (next_ptr m2 = S (next_ptr m)) as Hn2
    by (unfold m2; by destruct (_ && _)).
  rewrite FinishItem_field;
    [|cbn [next_ptr update_item with_heap]; lia|done|done].
  rewrite item_update_item_same by done.
  rewrite key_ItemFromSong_switch by done. f_equal.
  unfold m2, loop_key. rewrite Hr, HkP.
  destruct (decide (P = root_ m)) as [Heq|Hne].
  - rewrite bool_decide_eq_true_2 by done. cbn. exact Hk0.
  - rewrite bool_decide_eq_false_2 by done. cbn [negb andb].
    destruct (negb (isEmpty (key (item m P)))) eqn:He.
    + rewrite item_update_item_same by done. cbn. done.
    + rewrite Hk0. apply negb_false_iff in He.
      by destruct (key (item m P)).
Qed.

Lemma container_nodes_at_with_in_range i v m j :
  0 ≤ i → (Z.to_nat i < length (container_nodes_ m))%nat →
  container_nodes_at (with_container_nodes_at i v m) j
  = if decide (j = i) then v else container_nodes_at m j.
Proof.
  intros Hi Hlen. unfold container_nodes_at, with_container_nodes_at.
  destruct (Z.ltb_spec i 0) as [?|_]; [lia|].
  cbn [container_nodes_ with_container_nodes_].
  destruct (Z.ltb_spec j 0) as [Hj|Hj].
  - rewrite decide_False by lia. done.
  - destruct (decide (j = i)) as [->|Hne].
    + by rewrite list_lookup_insert_eq.
    + rewrite list_lookup_insert_ne; [done|]. lia.
Qed.

Lemma Container_allocated m c : type (item m c) = Type_Container → allocated m c.
Proof.
  unfold item, allocated. destruct (heap m !! c); [by eexists|done].
Qed.

(** The tables match after a step that makes items and files them. *)
Lemma tables_match_step ok m m' :
  Inv ok m → tables_match m → older m m' →
  length (container_nodes_ m') = 3%nat →
  (∀ i k c, container_nodes_at m i !! k = Some c →
            container_nodes_at m' i !! k = Some c) →
  (∀ i k c, container_nodes_at m' i !! k = Some c →
            container_nodes_at m i !! k = Some c
            ∨ ((next_ptr m ≤ c)%nat ∧ key (item m' c) = k)) →
  (∀ c, (next_ptr m ≤ c)%nat → type (item m' c) = Type_Container →
        c = compilation_artist_node_ (item m' (parent (item m' c)))
        ∨ container_nodes_at m' (container_level (item m' c)) !! key (item m' c)
          = Some c) →
  tables_match m'.
Proof.
  intros HI (Hlen & Hk & Hf) [_ Ho] Hlen' Hgrow Hnew Hfiled.
  assert (∀ q, (q < next_ptr m)%nat →
               type (item m' q) = type (item m q)
               ∧ parent (item m' q) = parent (item m q)
               ∧ key (item m' q) = key (item m q)
               ∧ container_level (item m' q) = container_level (item m q)) as Hfix.
  { intros q Hq. destruct (Ho q Hq) as (Hfx & _). unfold fixed_part in Hfx.
    by injection Hfx as -> _ -> -> _ _ -> _. }
  split; [done|]. split.
  - intros i k c Hc. destruct (Hnew i k c Hc) as [Hold|[_ Hkey]]; [|done].
    destruct (inv_container_nodes ok m HI i k c Hold) as (_ & _ & Hre).
    pose proof (inv_fresh ok m HI c (reachable_allocated ok m c HI Hre)) as Hlt.
    destruct (Hfix c) as (_ & _ & -> & _); [lia|]. by apply (Hk i).
  - intros c Hty. destruct (decide (c < next_ptr m)%nat) as [Hlt|Hge];
      [|apply Hfiled; [lia|done]].
    destruct (Hfix c Hlt) as (Hty' & Hpar & Hkey & Hlvl).
    rewrite Hty' in Hty. rewrite Hpar, Hkey, Hlvl.
    pose proof (inv_fresh ok m HI c (Container_allocated m c Hty)) as Hc.
    destruct (Hf c Hty) as [Hcomp|Htab]; [left|right; by apply Hgrow].
    assert (compilation_artist_node_ (item m (parent (item m c))) ≠ nullptr) as Hnn
      by (rewrite <- Hcomp; unfold nullptr; lia).
    assert (allocated m (parent (item m c))) as HaP.
    { unfold allocated, item in *. destruct (heap m !! parent _); [by eexists|done]. }
    pose proof (inv_fresh ok m HI _ HaP) as HP.
    destruct (Ho (parent (item m c))) as (_ & _ & Hco); [lia|].
    by rewrite Hco.
Qed.

(** The containers that [ItemFromSong] makes: the item it returns, when
    the criterion is not [GroupBy.None]. *)
Lemma ItemFromSong_new_containers gb sep signal cd P s lvl m c :
  fresh m → allocated m P → allocated m (root_ m) →
  (next_ptr m ≤ c)%nat →
  type (item (ItemFromSong gb sep signal cd P s lvl m).2 c) = Type_Container →
  c = next_ptr m ∧ GroupBy.eqb gb GroupBy.None = false.
Proof.
  intros Hf HP Hr Hc Hty.
  destruct (ItemFromSong_grown gb sep signal cd P s lvl m Hf HP Hr)
    as (Hp & m1 & Hg & _ & _ & _ & Hfin).
  set (m' := (ItemFromSong gb sep signal cd P s lvl m).2) in *.
  set (p := (ItemFromSong gb sep signal cd P s lvl m).1) in *.
  clearbody p m'. subst p.
  pose proof (Container_allocated m' c Hty) as Hal.
  assert (∀ q, allocated m1 q → (next_ptr m ≤ q)%nat → q = next_ptr m) as Hone.
  { intros q Hq Hge. apply (grown_allocated _ _ _ _ _ Hg) in Hq as [->|Hq]; [done|].
    apply Hf in Hq. lia. }
  assert (type (item m1 (next_ptr m)) = Type_Container →
          GroupBy.eqb gb GroupBy.None = false) as Hgb.
  { rewrite (grown_type _ _ _ _ _ Hg). by destruct (GroupBy.eqb gb GroupBy.None). }
  destruct Hfin as [Hs|Hd].
  - rewrite (same_items_item m1 m' c Hs) in Hty.
    assert (allocated m1 c) as Hal1.
    { unfold allocated in *. destruct Hs as (Hh & _). by rewrite <- Hh. }
    pose proof (Hone c Hal1 Hc) as ->. split; [done|by apply Hgb].
  - apply (grown_allocated _ _ _ _ _ Hd) in Hal as [->|Hal1].
    + by rewrite (grown_type _ _ _ _ _ Hd) in Hty.
    + pose proof (Hone c Hal1 Hc) as ->. split; [done|]. apply Hgb.
      rewrite <- (grown_others _ _ _ _ _ Hd (next_ptr m)); [done| |].
      * rewrite (grown_next _ _ _ _ _ Hg). lia.
      * assert (root_ m1 = root_ m) as ->
          by (apply frame_root_, (grown_frame _ _ _ _ _ Hg)).
        intros Heq. apply Hf in Hr. lia.
Qed.

Lemma tables_match_CreateCompilationArtistNode ok P m :
  Inv ok m → tables_match m → allocated m P →
  compilation_artist_node_ (item m P) = nullptr →
  tables_match (CreateCompilationArtistNode true P m).2.
Proof.
  intros HI HT HP Hnull.
  pose proof (inv_fresh ok m HI) as Hf.
  destruct (CreateCompilationArtistNode_grown true P m Hf HP) as (Hg & _ & Hco & _).
  pose proof (tree_tables_CreateCompilationArtistNode true P m) as Htab.
  set (m' := (CreateCompilationArtistNode true P m).2) in *.
  assert (container_nodes_ m' = container_nodes_ m) as Hcn
    by (unfold tree_tables in Htab; by injection Htab).
  apply (tables_match_step ok m); try done.
  - by apply older_CreateCompilationArtistNode, older_refl.
  - rewrite Hcn. by destruct HT.
  - intros i k c. unfold container_nodes_at. by rewrite Hcn.
  - intros i k c. unfold container_nodes_at. rewrite Hcn. by left.
  - intros c Hc Hty. left.
    apply Container_allocated, (grown_allocated _ _ _ _ _ Hg) in Hty as [->|Ha];
      [|apply Hf in Ha; lia].
    by rewrite (grown_new_parent _ _ _ _ _ Hg), Hco.
Qed.

Lemma tables_match_leaf ok sep cd P s lvl m :
  Inv ok m → tables_match m → allocated m P →
  tables_match (ItemFromSong GroupBy.None sep true cd P s lvl m).2.
Proof.
  intros HI HT HP.
  pose proof (inv_fresh ok m HI) as Hf.
  destruct (inv_root ok m HI) as (Hr & _).
  pose proof (container_nodes_ItemFromSong GroupBy.None sep true cd P s lvl m) as Hcn.
  apply (tables_match_step ok m); try done.
  - by apply older_ItemFromSong, older_refl.
  - rewrite Hcn. by destruct HT.
  - intros i k c. unfold container_nodes_at. by rewrite Hcn.
  - intros i k c. unfold container_nodes_at. rewrite Hcn. by left.
  - intros c Hc Hty.
    by destruct (ItemFromSong_new_containers _ _ _ _ _ _ _ _ c Hf HP Hr Hc Hty).
Qed.

Lemma length_with_container_nodes_at i v m :
  length (container_nodes_ (with_container_nodes_at i v m)) = length (container_nodes_ m).
Proof.
  unfold with_container_nodes_at. destruct (i <? 0); [done|].
  destruct m; cbn. apply length_insert.
Qed.

(** The container that the loop of [AddSongs] makes and files. *)
Lemma tables_match_container ok gb sep cd P s i k m :
  Inv ok m → tables_match m → allocated m P → 0 ≤ i ≤ 2 →
  gb ≠ GroupBy.GroupByCount →
  container_nodes_at m i !! k = None →
  k = (if negb (isEmpty (loop_key m P)) then loop_key m P ++ qs "-" else loop_key m P)
      ++ ContainerKey gb sep s →
  let c := (ItemFromSong gb sep true cd P s i m).1 in
  let m1 := (ItemFromSong gb sep true cd P s i m).2 in
  GroupBy.eqb gb GroupBy.None = false →
  container_level (item m1 c) = i →
  tables_match (with_container_nodes_at i (<[k := c]> (container_nodes_at m1 i)) m1)
  ∧ key (item m1 c) = k.
Proof.
  intros HI HT HP Hi Hcount Hnone Hk c m1 Hgb Hlvl.
  pose proof (inv_fresh ok m HI) as Hf.
  destruct (inv_root ok m HI) as (Hr & _).
  pose proof (container_nodes_ItemFromSong gb sep true cd P s i m) as Hcn.
  fold m1 in Hcn.
  assert (c = next_ptr m) as Hc.
  { by destruct (ItemFromSong_grown gb sep true cd P s i m Hf HP Hr) as (-> & _). }
  assert (gb ≠ GroupBy.None) as Hne by (by intros ->).
  assert (key (item m1 c) = k) as Hkey.
  { rewrite Hc, Hk. apply ItemFromSong_key; [done|done|].
    intros ->. by apply (fresh_next m). }
  split; [|done].
  destruct HT as (Hlen & HK & HF).
  assert (∀ j, container_nodes_at m1 j = container_nodes_at m j) as Hat
    by (intros j; unfold container_nodes_at; by rewrite Hcn).
  set (m2 := with_container_nodes_at i (<[k:=c]> (container_nodes_at m1 i)) m1).
  assert (∀ j, container_nodes_at m2 j
               = if decide (j = i) then <[k:=c]> (container_nodes_at m i)
                 else container_nodes_at m j) as Hat2.
  { intros j. unfold m2. rewrite container_nodes_at_with_in_range.
    - rewrite Hat. case_decide; [done|apply Hat].
    - lia.
    - rewrite Hcn, Hlen. lia. }
  assert (∀ q, item m2 q = item m1 q) as Hi2
    by (intros q; unfold m2, with_container_nodes_at; by destruct (i <? 0)).
  apply (tables_match_step ok m); try done.
  - apply (older_same_heap m m1);
      [unfold m2, with_container_nodes_at; by destruct (i <? 0)..|].
    by apply older_ItemFromSong, older_refl.
  - unfold m2. rewrite length_with_container_nodes_at. by rewrite Hcn.
  - intros j k' c' Hc'. rewrite Hat2. case_decide; [subst j|done].
    rewrite lookup_insert_ne; [done|]. intros <-. congruence.
  - intros j k' c'. rewrite Hat2. case_decide; [subst j|by left].
    destruct (decide (k = k')) as [<-|Hkk].
    + rewrite lookup_insert_eq. intros [= <-]. right. rewrite Hi2. split; [lia|done].
    + rewrite lookup_insert_ne by done. by left.
  - intros c' Hge. rewrite !Hi2. intros Hty. right.
    destruct (ItemFromSong_new_containers _ _ _ _ _ _ _ _ c' Hf HP Hr Hge Hty)
      as [-> _].
    rewrite <- Hc, Hlvl, Hkey, Hat2, decide_True by done. apply lookup_insert_eq.
Qed.

Lemma tables_match_same m m' :
  heap m' = heap m → container_nodes_ m' = container_nodes_ m →
  tables_match m → tables_match m'.
Proof.
  intros Hh Hc (Hlen & HK & HF).
  assert (∀ q, item m' q = item m q) as Hi by (intros q; unfold item; by rewrite Hh).
  assert (∀ j, container_nodes_at m' j = container_nodes_at m j) as Hat
    by (intros j; unfold container_nodes_at; by rewrite Hc).
  split; [by rewrite Hc|]. split.
  - intros i k c. rewrite Hat, Hi. apply HK.
  - intros c. rewrite !Hi, Hat. apply HF.
Qed.

Lemma loop_key_not_root m c :
  c ≠ root_ m → loop_key m c = key (item m c).
Proof. intros Hc. unfold loop_key. by rewrite decide_False. Qed.

Lemma Container_not_root ok m c :
  Inv ok m → type (item m c) = Type_Container → c ≠ root_ m.
Proof.
  intros HI Hty ->. destruct (inv_root ok m HI) as (_ & Hr & _). congruence.
Qed.

(** The loop of [AddSongs] over the levels keeps the tables matching; its
    key is the key of the container it has reached. *)
Lemma tables_match_AddSongs_container ok n i song container key_ m :
  Inv ok m → tables_match m → valid_grouping (group_by_ m) →
  Z.of_nat n + i = 3 → 0 ≤ i →
  allocated m container → container_level (item m container) = i - 1 →
  hangs m container → key_ = loop_key m container →
  tables_match (AddSongs_container n i song container key_ m).2.
Proof.
  revert i container key_ m.
  induction n as [|n IH]; intros i container key_ m HI HT Hv Hn Hi Ha Hl Hh Hk;
    cbn [AddSongs_container]; [done|].
  destruct (GroupBy.eqb (Grouping_at (group_by_ m) i) GroupBy.None) eqn:Hgb; [done|].
  pose proof (inv_fresh ok m HI) as Hf.
  pose proof (Hf container Ha) as Hc.
  destruct (IsArtistGroupBy _ && is_compilation song).
  - set (m1 := if decide (compilation_artist_node_ (item m container) = nullptr)
               then (CreateCompilationArtistNode true container m).2 else m).
    assert (Inv ok m1 ∧ tables_match m1 ∧ group_by_ m1 = group_by_ m
            ∧ allocated m1 (compilation_artist_node_ (item m1 container))
            ∧ container_level (item m1 (compilation_artist_node_ (item m1 container)))
              = i
            ∧ type (item m1 (compilation_artist_node_ (item m1 container)))
              = Type_Container
            ∧ hangs m1 (compilation_artist_node_ (item m1 container)))
      as (HI1 & HT1 & Hg1 & Ha1 & Hl1 & Hty1 & Hh1).
    { unfold m1. destruct (decide _) as [Hnull|Hnode].
      - destruct (CreateCompilationArtistNode_grown true container m Hf Ha)
          as (Hg & Hlvl & Hco & Hsn).
        split.
        { apply (Inv_grown ok Type_Container container (next_ptr m) m);
            [exact HI|exact Ha|exact Hg|].
          cbn [settled]. split; [exact Hlvl|]. split; [lia|exact Hsn]. }
        split; [by apply (tables_match_CreateCompilationArtistNode ok)|].
        rewrite Hco.
        split.
        { apply frame_group_by_, frame_CreateCompilationArtistNode. }
        split; [apply (grown_allocated _ _ _ _ _ Hg); by left|].
        split; [lia|].
        split; [apply (grown_type _ _ _ _ _ Hg)|].
        right.
        split; [apply (grown_type _ _ _ _ _ Hg)|].
        by apply (grown_reachable Type_Container container (next_ptr m) m).
      - destruct (inv_compilation ok m HI container Hnode) as (Hin & Hty & Hlvl).
        split; [done|]. split; [done|]. split; [done|].
        split; [by apply (inv_children ok m HI container)|]. split; [lia|].
        split; [done|].
        right. split; [done|]. by apply (reachable_child m container). }
    apply (IH (i + 1)); try done; try lia.
    + by rewrite Hg1.
    + symmetry. apply loop_key_not_root. by apply (Container_not_root ok).
  - set (k := (if negb (isEmpty key_) then key_ ++ qs "-" else key_)
              ++ ContainerKey (Grouping_at (group_by_ m) i)
                   (separate_albums_by_grouping_ m) song).
    destruct (container_nodes_at m i !! k) as [c|] eqn:Hcn.
    + destruct (inv_container_nodes ok m HI _ _ _ Hcn) as (Hty & Hlvl & Hre).
      apply (IH (i + 1)); try done; try lia.
      * by apply (reachable_allocated ok).
      * by right.
      * rewrite loop_key_not_root by by apply (Container_not_root ok).
        symmetry. destruct HT as (_ & HK & _). by apply (HK i).
    + destruct (ItemFromSong_Inv_container ok (Grouping_at (group_by_ m) i)
                  (separate_albums_by_grouping_ m) true (i =? 0) container song i m)
        as (HI1 & Ha1 & Hty1 & Hl1 & Hre1 & Hn1); try done; try lia.
      destruct (tables_match_container ok (Grouping_at (group_by_ m) i)
                  (separate_albums_by_grouping_ m) (i =? 0) container song i k m)
        as (HT2 & Hkey); try done; try lia.
      { by apply valid_grouping_at. }
      { unfold k. by rewrite Hk. }
      pose proof (frame_ItemFromSong (Grouping_at (group_by_ m) i)
                    (separate_albums_by_grouping_ m) true (i =? 0) container song i m)
        as Hfr.
      destruct (ItemFromSong _ _ _ _ _ _ _ _) as [c m1]. cbn [fst snd] in *.
      set (m2 := with_container_nodes_at i (<[k:=c]> (container_nodes_at m1 i)) m1) in *.
      assert (∀ q, item m2 q = item m1 q) as Hi2.
      { intros q. unfold m2, with_container_nodes_at. by destruct (i <? 0). }
      assert (∀ q, allocated m2 q ↔ allocated m1 q) as Ha2.
      { intros q. unfold m2, with_container_nodes_at. by destruct (i <? 0). }
      assert (root_ m2 = root_ m1) as Hr2.
      { unfold m2, with_container_nodes_at. by destruct (i <? 0). }
      assert (group_by_ m2 = group_by_ m) as Hg2.
      { rewrite <- (frame_group_by_ _ _ Hfr).
        unfold m2, with_container_nodes_at. by destruct (i <? 0). }
      assert (Inv ok m2) as HI2 by by apply Inv_with_container_nodes_at.
      apply (IH (i + 1)); try done; try lia.
      * by rewrite Hg2.
      * by apply Ha2.
      * rewrite Hi2. lia.
      * right. rewrite Hi2. split; [done|].
        apply (reachable_extends m1 m2); [|done].
        split; [done|]. split; intros q; by rewrite Hi2.
      * rewrite loop_key_not_root, Hi2; [done|].
        apply (Container_not_root ok); [done|by rewrite Hi2].
Qed.

Lemma tables_match_AddSong ok song m :
  Inv ok m → valid_grouping (group_by_ m) → tables_match m →
  tables_match (AddSong song m).
Proof.
  intros HI Hv HT. unfold AddSong.
  set (m0 := with_songs_ (<[Song.id song:=song]> (songs_ m)) m).
  assert (Inv ok m0) as HI0
    by (apply (Inv_same_items ok m); [apply same_items_with_songs_|done|done]).
  assert (tables_match m0) as HT0 by by apply (tables_match_same m).
  destruct (Matches song); cbn [negb]; [|done].
  destruct (bool_decide _) eqn:Hdec; [done|].
  destruct (inv_root ok m0 HI0) as (Hr & _ & Hl).
  destruct (AddSongs_container_Inv ok 3 0 song (root_ m0) [] m0)
    as (HI1 & Ha1 & Hh1 & Hn1); try done; [by left|].
  pose proof (tables_match_AddSongs_container ok 3 0 song (root_ m0) [] m0) as HT1.
  destruct (AddSongs_container 3 0 song (root_ m0) [] m0) as [c m1].
  cbn [fst snd] in *.
  pose proof (tables_match_leaf ok (separate_albums_by_grouping_ m1) false c
                song (-1) m1) as Hleaf.
  destruct (ItemFromSong _ _ _ _ _ _ _ _) as [leaf m2]. cbn [fst snd] in *.
  apply (tables_match_same m2); [done|done|].
  apply Hleaf; [done| |done].
  apply HT1; try done; [by left|].
  unfold loop_key. by rewrite decide_True.
Qed.

Lemma empty_tree_tables_match m : empty_tree m → tables_match m.
Proof.
  intros He. pose proof He as (_ & _ & _ & _ & Hc & _).
  assert (∀ i, container_nodes_at m i = ∅) as Hat.
  { intros i. unfold container_nodes_at. rewrite Hc. destruct (i <? 0); [done|].
    destruct (Z.to_nat i) as [|[|[|?]]]; done. }
  split; [by rewrite Hc|]. split.
  - intros i k c. by rewrite Hat.
  - intros c Hty. by destruct (empty_tree_item m c He) as [[_ Hi]|[_ Hi]];
      rewrite Hi in Hty.
Qed.

(** X17.  [AddSongs] keeps the tables of the containers and the tree in
    step, when no level of the grouping is [GroupByCount]: every entry of a
    table is a container of that level that carries the key of the entry;
    every container is the "Various artists" node of its parent or is the
    entry of its key in the table of its level; so two containers of one
    level that are not "Various artists" nodes never have the same key. *)
Theorem AddSongs_files_the_containers_under_their_keys (songs : SongList) (m : Model) :
  Inv (λ _, True) m → valid_grouping (group_by_ m) → tables_match m →
  let m' := AddSongs songs m in
  (∀ i k c, container_nodes_at m' i !! k = Some c →
            type (item m' c) = Type_Container ∧ container_level (item m' c) = i
            ∧ key (item m' c) = k)
  ∧ (∀ c, type (item m' c) = Type_Container →
          c = compilation_artist_node_ (item m' (parent (item m' c)))
          ∨ container_nodes_at m' (container_level (item m' c)) !! key (item m' c)
            = Some c)
  ∧ (∀ c1 c2, type (item m' c1) = Type_Container → type (item m' c2) = Type_Container →
              c1 ≠ compilation_artist_node_ (item m' (parent (item m' c1))) →
              c2 ≠ compilation_artist_node_ (item m' (parent (item m' c2))) →
              container_level (item m' c1) = container_level (item m' c2) →
              key (item m' c1) = key (item m' c2) → c1 = c2).
Proof.
  intros HI Hv HT m'.
  assert (Inv (λ _, True) m' ∧ tables_match m') as (HI' & _ & HK & HF).
  { unfold m', AddSongs. clear m'. revert m HI Hv HT.
    induction songs as [|x l IH]; intros m HI Hv HT; [done|].
    cbn [foldl]. apply IH.
    - by apply AddSong_Inv.
    - by rewrite (frame_group_by_ _ _ (frame_AddSong x m)).
    - by apply (tables_match_AddSong (λ _, True)). }
  split; [|split; [exact HF|]].
  - intros i k c Hc.
    destruct (inv_container_nodes _ m' HI' i k c Hc) as (Hty & Hlvl & _).
    split; [done|]. split; [done|]. by apply (HK i).
  - intros c1 c2 Hty1 Hty2 Hn1 Hn2 Hlvl Hkey.
    destruct (HF c1 Hty1) as [?|H1]; [done|].
    destruct (HF c2 Hty2) as [?|H2]; [done|].
    rewrite Hlvl, Hkey in H1. congruence.
Qed.

End Keys.

Section Keys_witness.
#[local] Existing Instance Sample.external.

Lemma AddSongs_files_the_containers_under_their_keys_witness :
  let m := Sample.empty_model by_albumartist_album true in
  let m' := AddSongs arrival_and_jazz m in
  Inv (λ _, True) m ∧ valid_grouping (group_by_ m) ∧ tables_match m
  ∧ (∀ i k c, container_nodes_at m' i !! k = Some c →
              type (item m' c) = Type_Container ∧ container_level (item m' c) = i
              ∧ key (item m' c) = k)
  ∧ (∀ c, type (item m' c) = Type_Container →
          c = compilation_artist_node_ (item m' (parent (item m' c)))
          ∨ container_nodes_at m' (container_level (item m' c)) !! key (item m' c)
            = Some c)
  ∧ (∀ c1 c2, type (item m' c1) = Type_Container → type (item m' c2) = Type_Container →
              c1 ≠ compilation_artist_node_ (item m' (parent (item m' c1))) →
              c2 ≠ compilation_artist_node_ (item m' (parent (item m' c2))) →
              container_level (item m' c1) = container_level (item m' c2) →
              key (item m' c1) = key (item m' c2) → c1 = c2).
Proof.
  intros m m'.
  assert (Inv (λ _, True) m) as HI
    by apply empty_tree_Inv, empty_tree_empty_model.
  assert (valid_grouping (group_by_ m)) as Hv by (by vm_compute).
  assert (tables_match m) as HT
    by apply empty_tree_tables_match, empty_tree_empty_model.
  split; [exact HI|]. split; [exact Hv|]. split; [exact HT|].
  exact (AddSongs_files_the_containers_under_their_keys arrival_and_jazz m HI Hv HT).
Defined.

End Keys_witness.

(** ** The removal of songs *)

Lemma foldl_alter_lookup {A} (f : A → A) (l : list ptr) (h : gmap ptr A) x :
  NoDup l →
  foldl (λ h q, alter f q h) h l !! x
  = if decide (x ∈ l) then f <$> h !! x else h !! x.
Proof.
  revert h. induction l as [|a l IH]; intros h Hnd; cbn [foldl].
  - rewrite decide_False; [done|]. apply not_elem_of_nil.
  - apply NoDup_cons in Hnd as [Ha Hnd]. rewrite IH by done.
    destruct (decide (x = a)) as [->|Hne].
    + rewrite (decide_False (P := a ∈ l)) by done.
      rewrite decide_True by by left. by rewrite lookup_alter_eq.
    + rewrite lookup_alter_ne by done.
      destruct (decide (x ∈ l)) as [Hin|Hin].
      * rewrite decide_True; [done|by right].
      * rewrite decide_False; [done|]. intros [?|?]%elem_of_cons; done.
Qed.

Lemma elem_of_list_delete_NoDup {A} (l : list A) i c x :
  NoDup l → l !! i = Some c → x ∈ delete i l ↔ x ∈ l ∧ x ≠ c.
Proof.
  intros Hnd Hi. rewrite !list_elem_of_lookup. split.
  - intros [j Hj]. destruct (decide (j < i)%nat) as [Hlt|Hge].
    + rewrite list_lookup_delete_lt in Hj by done. split; [by exists j|].
      intros ->. pose proof (NoDup_lookup _ _ _ _ Hnd Hi Hj). lia.
    + rewrite list_lookup_delete_ge in Hj by lia. split; [by exists (S j)|].
      intros ->. pose proof (NoDup_lookup _ _ _ _ Hnd Hi Hj). lia.
  - intros [[j Hj] Hne]. destruct (decide (j < i)%nat) as [Hlt|Hge].
    + exists j. by rewrite list_lookup_delete_lt.
    + assert (j ≠ i) by (intros ->; congruence).
      exists (pred j). rewrite list_lookup_delete_ge by lia.
      replace (S (pred j)) with j by lia. done.
Qed.

Lemma elem_of_drop_1 {A} (l : list A) n x : x ∈ drop n l → x ∈ l.
Proof.
  intros [i Hi]%list_elem_of_lookup. rewrite lookup_drop in Hi.
  apply list_elem_of_lookup. by eexists.
Qed.

Lemma elem_of_qset_insert {A} `{EqDecision A} (a x : A) (s : list A) :
  x ∈ qset_insert a s ↔ x = a ∨ x ∈ s.
Proof.
  unfold qset_insert. case_decide.
  - split; [by right|]. by intros [->|?].
  - rewrite elem_of_app, list_elem_of_singleton. tauto.
Qed.

Lemma NoDup_qset_insert {A} `{EqDecision A} (a : A) (s : list A) :
  NoDup s → NoDup (qset_insert a s).
Proof.
  intros Hs. unfold qset_insert. case_decide; [done|].
  apply NoDup_app. split; [done|]. split; [|apply NoDup_singleton].
  intros x Hx ->%list_elem_of_singleton. done.
Qed.

Lemma elem_of_qset_remove {A} `{EqDecision A} (a x : A) (s : list A) :
  x ∈ qset_remove a s ↔ x ∈ s ∧ x ≠ a.
Proof. unfold qset_remove. rewrite list_elem_of_filter. tauto. Qed.

Lemma NoDup_qset_remove {A} `{EqDecision A} (a : A) (s : list A) :
  NoDup s → NoDup (qset_remove a s).
Proof. apply NoDup_filter. Qed.

Section Shape.
Context `{External}.

Lemma rows_NoDup_children m q : rows m → NoDup (children (item m q)).
Proof.
  intros Hr. apply NoDup_alt. intros i j x Hi Hj.
  apply Hr in Hi, Hj. lia.
Qed.

Lemma Delete_other_fields p r m :
  (next_ptr (Delete p r m), root_ (Delete p r m), songs_ (Delete p r m),
   song_nodes_ (Delete p r m), container_nodes_ (Delete p r m),
   divider_nodes_ (Delete p r m), frame (Delete p r m), signals_ (Delete p r m),
   log_ (Delete p r m), updates_ (Delete p r m))
  = (next_ptr m, root_ m, songs_ m, song_nodes_ m, container_nodes_ m,
     divider_nodes_ m, frame m, signals_ m, log_ m, updates_ m).
Proof. unfold Delete. by repeat case_match. Qed.

Lemma destroy_childless fuel h c :
  (∀ it, h !! c = Some it → children it = []) → destroy fuel h c = delete c h.
Proof.
  intros Hc. destruct fuel as [|f]; cbn [destroy]; [done|].
  destruct (h !! c) as [it|] eqn:Hit; [|done]. by rewrite (Hc it).
Qed.

(** The arena after the deletion of a childless item that is at its row
    among the children of its parent. *)
Lemma Delete_childless_heap m c i :
  rows m → allocated m c → children (item m c) = [] →
  children (item m (parent (item m c))) !! i = Some c →
  heap (Delete (parent (item m c)) (row (item m c)) m)
  = foldl (λ h q, alter (λ it, set_row (row it - 1) it) q h)
      (alter (set_children (delete i (children (item m (parent (item m c))))))
         (parent (item m c)) (delete c (heap m)))
      (drop (S i) (children (item m (parent (item m c))))).
Proof.
  intros Hr Ha Hch Hi. pose proof (Hr _ _ _ Hi) as Hrow.
  unfold Delete. rewrite Hrow.
  destruct (Z.of_nat i <? 0) eqn:Hneg; [lia|]. rewrite Nat2Z.id, Hi.
  cbn [heap with_heap]. rewrite destroy_childless, delete_take_drop; [done|].
  intros it Hit. by rewrite <- (item_allocated m c it Hit).
Qed.

Lemma Delete_childless m c i :
  rows m → allocated m c → children (item m c) = [] →
  children (item m (parent (item m c))) !! i = Some c →
  (∀ x, x ∈ children (item m (parent (item m c))) → allocated m x) →
  let p := parent (item m c) in
  let kids := children (item m p) in
  let m' := Delete p (row (item m c)) m in
  (∀ q, allocated m' q ↔ allocated m q ∧ q ≠ c)
  ∧ (∀ q, q ≠ c →
          kept_part (item m' q) = kept_part (item m q)
          ∧ compilation_artist_node_ (item m' q) = compilation_artist_node_ (item m q)
          ∧ children (item m' q)
            = (if decide (q = p) then delete i kids else children (item m q))
          ∧ row (item m' q)
            = (if decide (q ∈ drop (S i) kids) then row (item m q) - 1
               else row (item m q))).
Proof.
  intros Hr Ha Hch Hi Hka p kids m'.
  assert (p ≠ c) as Hpc.
  { intros Heq. unfold p in Heq. rewrite Heq, Hch in Hi. done. }
  assert (NoDup (drop (S i) kids)) as Hnd.
  { pose proof (rows_NoDup_children m p Hr) as Hk. fold kids in Hk.
    rewrite <- (take_drop (S i) kids) in Hk. by apply NoDup_app in Hk as (_ & _ & ?). }
  assert (∀ q, heap m' !! q
               = (if decide (q ∈ drop (S i) kids)
                  then fmap (λ it, set_row (row it - 1) it) else id)
                   ((if decide (q = p) then fmap (set_children (delete i kids)) else id)
                      (if decide (q = c) then None else heap m !! q))) as Hlk.
  { intros q. unfold m', p. rewrite (Delete_childless_heap m c i Hr Ha Hch Hi).
    fold p. fold kids. rewrite foldl_alter_lookup by done.
    assert (alter (set_children (delete i kids)) p (delete c (heap m)) !! q
            = (if decide (q = p) then fmap (set_children (delete i kids)) else id)
                (if decide (q = c) then None else heap m !! q)) as ->.
    { destruct (decide (q = p)) as [->|Hqp].
      - rewrite lookup_alter_eq, decide_False by done.
        by rewrite lookup_delete_ne.
      - rewrite lookup_alter_ne by done. destruct (decide (q = c)) as [->|Hqc].
        + by rewrite lookup_delete_eq.
        + by rewrite lookup_delete_ne. }
    by destruct (decide (q ∈ drop (S i) kids)). }
  split.
  - intros q. unfold allocated. rewrite Hlk.
    destruct (decide (q = c)) as [->|Hqc].
    + split; [|by intros [_ ?]].
      repeat case_decide; cbn; rewrite ?fmap_None; by intros [? ?].
    + split.
      * intros Hs. split; [|done]. revert Hs.
        repeat case_decide; cbn; rewrite ?fmap_is_Some; done.
      * intros [Hs _]. repeat case_decide; cbn; rewrite ?fmap_is_Some; done.
  - intros q Hqc.
    assert (allocated m p) as HP.
    { unfold allocated. destruct (heap m !! p) as [it|] eqn:Hit; [by eexists|].
      assert (item m p = null_item) as Hn by (unfold item; by rewrite Hit).
      change (children (item m p) !! i = Some c) in Hi. by rewrite Hn in Hi. }
    destruct (heap m !! q) as [it|] eqn:Hq.
    + assert (item m q = it) as -> by by apply item_allocated.
      assert (item m' q
              = (if decide (q ∈ drop (S i) kids) then λ it, set_row (row it - 1) it
                 else id)
                  ((if decide (q = p) then set_children (delete i kids) else id) it))
        as ->.
      { unfold item. rewrite Hlk, (decide_False (P := q = c)) by done. rewrite Hq.
        by destruct (decide (q ∈ drop (S i) kids)), (decide (q = p)). }
      by destruct (decide (q ∈ drop (S i) kids)), (decide (q = p)).
    + assert (q ≠ p) as Hqp by (intros ->; destruct HP; congruence).
      assert (q ∉ drop (S i) kids) as Hnd'.
      { intros Hd%elem_of_drop_1. destruct (Hka q Hd). congruence. }
      assert (item m' q = item m q) as ->.
      { unfold item. rewrite Hlk, Hq, (decide_False (P := q = c)) by done.
        rewrite (decide_False (P := q = p)) by done.
        by rewrite (decide_False (P := q ∈ drop (S i) kids)) by done. }
      by rewrite !decide_False by done.
Qed.

(** The deletion of a childless item leaves the tree in shape. *)
Lemma in_shape_Delete m c :
  in_shape m → allocated m c → c ≠ root_ m → children (item m c) = [] →
  in_shape (Delete (parent (item m c)) (row (item m c)) m).
Proof.
  intros (Hr & Hk & Hh & Ht) Ha Hroot Hch.
  pose proof (Hh c Ha Hroot) as Hin.
  apply list_elem_of_lookup in Hin as [i Hi].
  destruct (Delete_childless m c i Hr Ha Hch Hi) as (Hal & Hit).
  { intros x Hx. by destruct (Hk _ x Hx). }
  set (p := parent (item m c)) in *.
  set (kids := children (item m p)) in *.
  set (m' := Delete p (row (item m c)) m) in *.
  pose proof (rows_NoDup_children m p Hr) as Hnd. fold kids in Hnd.
  assert (item m' c = null_item) as Hc'.
  { apply item_not_allocated. rewrite Hal. by intros [_ ?]. }
  assert (root_ m' = root_ m) as Hrt.
  { pose proof (Delete_other_fields p (row (item m c)) m) as Hf. fold m' in Hf.
    by injection Hf. }
  assert (∀ q x, x ∈ children (item m' q) → q ≠ c ∧ x ≠ c ∧ x ∈ children (item m q))
    as Hsub.
  { intros q x Hx. destruct (decide (q = c)) as [->|Hqc].
    { rewrite Hc' in Hx. by apply elem_of_nil in Hx. }
    split; [done|]. destruct (Hit q Hqc) as (_ & _ & Hcq & _). rewrite Hcq in Hx.
    destruct (decide (q = p)) as [->|Hqp].
    - apply (elem_of_list_delete_NoDup kids i c x Hnd Hi) in Hx as [? ?]. done.
    - split; [|done]. intros ->. destruct (Hk q c Hx) as [_ Hp]. by apply Hqp. }
  assert (∀ q x, q ≠ c → x ≠ c → x ∈ children (item m q) → x ∈ children (item m' q))
    as Hsup.
  { intros q x Hqc Hxc Hx. destruct (Hit q Hqc) as (_ & _ & -> & _).
    destruct (decide (q = p)) as [->|Hqp]; [|done].
    by apply (elem_of_list_delete_NoDup kids i c x Hnd Hi). }
  assert (∀ q, q ≠ c → parent (item m' q) = parent (item m q)
                       ∧ type (item m' q) = type (item m q)) as Hkp.
  { intros q Hqc. destruct (Hit q Hqc) as (Hkept & _). unfold kept_part in Hkept.
    by injection Hkept as -> -> _ _ _. }
  split; [|split; [|split]].
  - intros q j x Hj.
    assert (x ∈ children (item m' q)) as Hx by (apply list_elem_of_lookup; by exists j).
    destruct (Hsub q x Hx) as (Hqc & Hxc & Hxm).
    destruct (Hit q Hqc) as (_ & _ & Hcq & _).
    destruct (Hit x Hxc) as (_ & _ & _ & ->).
    rewrite Hcq in Hj. destruct (decide (q = p)) as [->|Hqp].
    + destruct (decide (j < i)%nat) as [Hlt|Hge].
      * rewrite list_lookup_delete_lt in Hj by done.
        rewrite decide_False; [by apply (Hr p)|].
        intros [k Hd]%list_elem_of_lookup. rewrite lookup_drop in Hd.
        pose proof (NoDup_lookup _ _ _ _ Hnd Hj Hd). lia.
      * rewrite list_lookup_delete_ge in Hj by lia.
        rewrite decide_True.
        -- rewrite (Hr p (S j) x Hj). lia.
        -- apply list_elem_of_lookup. exists (j - i)%nat. rewrite lookup_drop.
           by replace (S i + (j - i))%nat with (S j) by lia.
    + rewrite decide_False; [by apply (Hr q)|].
      intros Hd%elem_of_drop_1. destruct (Hk p x Hd) as [_ Hp1].
      destruct (Hk q x Hxm) as [_ Hp2]. congruence.
  - intros q x Hx. destruct (Hsub q x Hx) as (Hqc & Hxc & Hxm).
    destruct (Hk q x Hxm) as [Hax Hpx]. split; [by apply Hal|].
    by destruct (Hkp x Hxc) as [-> _].
  - intros x Hx. rewrite Hrt. intros Hxr. apply Hal in Hx as [Hx Hxc].
    destruct (Hkp x Hxc) as [-> _]. apply Hsup; [|done|by apply Hh].
    intros Heq. pose proof (Hh x Hx Hxr) as Hin. rewrite Heq, Hch in Hin.
    by apply elem_of_nil in Hin.
  - intros q Hq. rewrite Hrt.
    destruct (children (item m' q)) as [|x l] eqn:Hl; [done|].
    destruct (Hsub q x) as (Hqc & _ & Hxm); [rewrite Hl; by left|].
    destruct (Hkp q Hqc) as [_ ->]. apply Ht. intros Hnil. rewrite Hnil in Hxm.
    by apply elem_of_nil in Hxm.
Qed.

(** [in_shape] reads the rows, the parents, the children and the types of the
    items, and the root. *)
Lemma in_shape_fields m m' :
  root_ m' = root_ m → (∀ q, allocated m' q ↔ allocated m q) →
  (∀ q, place (item m' q) = place (item m q) ∧ type (item m' q) = type (item m q)) →
  in_shape m → in_shape m'.
Proof.
  intros Hrt Hal Hf (Hr & Hk & Hh & Ht).
  assert (∀ q, row (item m' q) = row (item m q) ∧ parent (item m' q) = parent (item m q)
               ∧ children (item m' q) = children (item m q)
               ∧ type (item m' q) = type (item m q)) as Hq.
  { intros q. destruct (Hf q) as [Hp ->]. unfold place in Hp. by injection Hp as -> -> ->. }
  split; [|split; [|split]].
  - intros q i c. destruct (Hq q) as (_ & _ & -> & _). destruct (Hq c) as (-> & _).
    apply Hr.
  - intros p c. destruct (Hq p) as (_ & _ & -> & _). destruct (Hq c) as (_ & -> & _).
    rewrite Hal. apply Hk.
  - intros c. rewrite Hal, Hrt. destruct (Hq c) as (_ & -> & _).
    destruct (Hq (parent (item m c))) as (_ & _ & -> & _). apply Hh.
  - intros p. rewrite Hrt. destruct (Hq p) as (_ & _ & -> & ->). apply Ht.
Qed.

Lemma in_shape_same m m' :
  heap m' = heap m → root_ m' = root_ m → in_shape m → in_shape m'.
Proof.
  intros Hh Hrt. apply in_shape_fields; [done| |].
  - intros q. unfold allocated. by rewrite Hh.
  - intros q. unfold item. by rewrite Hh.
Qed.

Lemma Delete_minus m c :
  in_shape m → allocated m c → c ≠ root_ m → children (item m c) = [] →
  minus c m (Delete (parent (item m c)) (row (item m c)) m).
Proof.
  intros (Hr & Hk & Hh & Ht) Ha Hroot Hch.
  pose proof (Hh c Ha Hroot) as Hin.
  apply list_elem_of_lookup in Hin as [i Hi].
  destruct (Delete_childless m c i Hr Ha Hch Hi) as (Hal & Hit).
  { intros x Hx. by destruct (Hk _ x Hx). }
  pose proof (Delete_other_fields (parent (item m c)) (row (item m c)) m) as Hf.
  set (m' := Delete (parent (item m c)) (row (item m c)) m) in *.
  split; [by injection Hf|]. split; [done|]. split.
  - intros q Hq. by destruct (Hit q Hq) as (? & _).
  - assert (dom (heap m') = dom (delete c (heap m))) as Hdom.
    { apply set_eq. intros q. rewrite !elem_of_dom, lookup_delete_is_Some.
      specialize (Hal q). unfold allocated in Hal. rewrite Hal.
      split; intros [? ?]; split; done || congruence. }
    rewrite <- (size_dom (heap m')), Hdom, size_dom.
    rewrite (map_size_delete_Some c (heap m) Ha).
    assert (size (heap m) ≠ 0%nat); [|lia].
    intros Hz%map_size_empty_iff. destruct Ha as [it Hc]. by rewrite Hz in Hc.
Qed.

Lemma minus_fields c m m' q :
  minus c m m' → q ≠ c →
  type (item m' q) = type (item m q) ∧ parent (item m' q) = parent (item m q)
  ∧ key (item m' q) = key (item m q)
  ∧ container_level (item m' q) = container_level (item m q)
  ∧ metadata (item m' q) = metadata (item m q).
Proof.
  intros (_ & _ & Hk & _) Hq. specialize (Hk q Hq). unfold kept_part in Hk.
  by injection Hk as -> -> -> -> ->.
Qed.

Lemma leaves_ok_minus c m m' m'' :
  minus c m m' → heap m'' = heap m' → root_ m'' = root_ m' →
  (∀ k leaf, song_nodes_ m'' !! k = Some leaf →
             song_nodes_ m !! k = Some leaf ∧ leaf ≠ c) →
  leaves_ok m → leaves_ok m''.
Proof.
  intros Hm Hh Hrt Hs Hl k leaf Hk. destruct (Hs k leaf Hk) as [Hk0 Hne].
  destruct (Hl k leaf Hk0) as (Ha & Hr & Hty & Hid).
  destruct (minus_fields c m m' leaf Hm Hne) as (Hty' & _ & _ & _ & Hmd').
  destruct Hm as (Hrt' & Hal & _).
  unfold allocated, item. rewrite Hh, Hrt, Hrt'. fold (item m' leaf).
  split; [by apply Hal|]. split; [done|]. split; congruence.
Qed.

Lemma dividers_ok_minus c m m' m'' :
  minus c m m' → heap m'' = heap m' → root_ m'' = root_ m' →
  (∀ k d, divider_nodes_ m'' !! k = Some d →
          divider_nodes_ m !! k = Some d ∧ d ≠ c) →
  dividers_ok m → dividers_ok m''.
Proof.
  intros Hm Hh Hrt Hs Hl k d Hk. destruct (Hs k d Hk) as [Hk0 Hne].
  destruct (Hl k d Hk0) as (Ha & Hr & Hty & Hp & Hky).
  destruct (minus_fields c m m' d Hm Hne) as (Hty' & Hp' & Hky' & _).
  destruct Hm as (Hrt' & Hal & _).
  unfold allocated, item. rewrite Hh, Hrt, Hrt'. fold (item m' d).
  split; [by apply Hal|]. split; [done|]. split; [congruence|]. split; congruence.
Qed.

Lemma parents_ok_minus c m m' m'' ps :
  minus c m m' → heap m'' = heap m' → root_ m'' = root_ m' →
  c ∉ ps → parents_ok m ps → parents_ok m'' ps.
Proof.
  intros Hm Hh Hrt Hc [Hnd Hp]. split; [done|]. intros q Hq.
  destruct (Hp q Hq) as (Ha & Hr & Hty).
  assert (q ≠ c) as Hne by (by intros ->).
  destruct (minus_fields c m m' q Hm Hne) as (Hty' & _).
  destruct Hm as (Hrt' & Hal & _).
  unfold allocated, item. rewrite Hh, Hrt, Hrt'. fold (item m' q).
  split; [by apply Hal|]. split; congruence.
Qed.

Lemma pruned_refl m : pruned m m.
Proof.
  split; [done|]. split; [done|]. exists []. cbn. rewrite app_nil_r. split; [done|lia].
Qed.

#[local] Hint Resolve pruned_refl : core.

Lemma pruned_trans m1 m2 m3 : pruned m1 m2 → pruned m2 m3 → pruned m1 m3.
Proof.
  intros (R1 & A1 & l1 & S1 & Z1) (R2 & A2 & l2 & S2 & Z2).
  split; [congruence|]. split.
  - intros q Hq. destruct (A2 q Hq) as [Hq2 ->]. by apply A1.
  - exists (l1 ++ l2). unfold removal_signals in *.
    rewrite flat_map_app, length_app, S2, S1, <- app_assoc. split; [done|lia].
Qed.

Lemma pruned_same m m' :
  heap m' = heap m → root_ m' = root_ m → signals_ m' = signals_ m → pruned m m'.
Proof.
  intros Hh Hr Hs. split; [done|]. split.
  - intros q. unfold allocated, item. by rewrite Hh.
  - exists []. cbn. rewrite Hh, Hs, app_nil_r. split; [done|lia].
Qed.

(** The removal of the row of [c]: [beginRemoveRows], the deletion, and
    [endRemoveRows] on a model [m4] that has the arena of the deletion. *)
Lemma pruned_removal c idx r m1 m3 m4 :
  minus c (beginRemoveRows idx r r m1) m3 →
  signals_ m3 = signals_ (beginRemoveRows idx r r m1) →
  heap m4 = heap m3 → root_ m4 = root_ m3 →
  signals_ m4 = signals_ m3 ++ [rowsRemoved] →
  pruned m1 m4.
Proof.
  intros (Hr & Hal & Hk & Hsz) Hs3 Hh4 Hr4 Hs4. split; [by rewrite Hr4, Hr|]. split.
  - intros q. unfold allocated at 1. unfold item at 1. rewrite Hh4.
    fold (item m3 q). intros Hq. apply Hal in Hq as [Hq Hne].
    split; [done|by apply Hk].
  - exists [(idx, r)]. rewrite Hs4, Hs3, Hh4. cbn. rewrite <- app_assoc.
    split; [done|]. change (heap (beginRemoveRows idx r r m1)) with (heap m1) in Hsz.
    lia.
Qed.

Lemma tended_same m m' :
  heap m' = heap m → root_ m' = root_ m → song_nodes_ m' = song_nodes_ m →
  divider_nodes_ m' = divider_nodes_ m → tended m → tended m'.
Proof.
  intros Hh Hr Hs Hd (A & B & C). split; [by apply (in_shape_same m)|].
  split.
  - intros k leaf. unfold allocated, item. rewrite Hh, Hr, Hs. apply B.
  - intros k d. unfold allocated, item. rewrite Hh, Hr, Hd. apply C.
Qed.

Lemma parents_ok_same m m' ps :
  heap m' = heap m → root_ m' = root_ m → parents_ok m ps → parents_ok m' ps.
Proof.
  intros Hh Hr [Hnd Hp]. split; [done|]. intros q.
  unfold allocated, item. rewrite Hh, Hr. apply Hp.
Qed.

Lemma parent_of_child_allocated m p c : c ∈ children (item m p) → allocated m p.
Proof.
  intros Hc. unfold allocated. destruct (heap m !! p) as [it|] eqn:Hp; [by eexists|].
  unfold item in Hc. rewrite Hp in Hc. by apply elem_of_nil in Hc.
Qed.

Lemma in_shape_childless m c :
  in_shape m → c ≠ root_ m → type (item m c) ≠ Type_Container → children (item m c) = [].
Proof.
  intros (_ & _ & _ & Ht) Hr Hty.
  destruct (children (item m c)) as [|x l] eqn:Hc; [done|].
  destruct (Ht c) as [?|?]; [by rewrite Hc|done|done].
Qed.

(** The parent of an item of the tree that is not at the top is a
    container to look at. *)
Lemma parents_ok_insert m c ps :
  in_shape m → allocated m c → c ≠ root_ m → parents_ok m ps →
  parents_ok m (if decide (parent (item m c) = root_ m) then ps
                else qset_insert (parent (item m c)) ps).
Proof.
  intros Hs Ha Hr [Hnd Hp]. case_decide as Hd; [done|].
  split; [by apply NoDup_qset_insert|]. intros q [->|Hq]%elem_of_qset_insert; [|by apply Hp].
  destruct Hs as (_ & Hk & Hh & Ht). pose proof (Hh c Ha Hr) as Hin.
  split; [by apply (parent_of_child_allocated m _ c)|]. split; [done|].
  destruct (Ht (parent (item m c))) as [?|?]; [|done|done].
  intros Hnil. rewrite Hnil in Hin. by apply elem_of_nil in Hin.
Qed.

(** One round of the first loop of [RemoveSongs]. *)
Lemma RemoveSongs_leaf_tended ps m song :
  tended m → parents_ok m ps →
  let r := RemoveSongs_leaf (ps, m) song in
  tended r.2 ∧ parents_ok r.2 r.1 ∧ pruned m r.2
  ∧ song_nodes_ r.2 = delete (Song.id song) (song_nodes_ m)
  ∧ (∀ leaf, song_nodes_ m !! Song.id song = Some leaf → ¬ allocated r.2 leaf).
Proof.
  intros HT HP. unfold RemoveSongs_leaf. fold (upsert_known song m).
  set (m1 := upsert_known song m).
  assert (heap m1 = heap m ∧ root_ m1 = root_ m ∧ song_nodes_ m1 = song_nodes_ m
          ∧ divider_nodes_ m1 = divider_nodes_ m) as (Hh1 & Hr1 & Hs1 & Hd1).
  { unfold m1, upsert_known. by case_match. }
  assert (tended m1) as HT1 by by apply (tended_same m).
  assert (parents_ok m1 ps) as HP1 by by apply (parents_ok_same m).
  assert (pruned m m1) as Hpr1.
  { apply pruned_same; [done|done|]. unfold m1, upsert_known. by case_match. }
  rewrite <- Hs1. clear HT HP.
  destruct (song_nodes_ m1 !! Song.id song) as [node|] eqn:Hnode; cbn [fst snd].
  - destruct HT1 as (Hsh & Hl & Hd).
    destruct (Hl _ _ Hnode) as (Ha & Hroot & Hty & Hid).
    assert (children (item m1 node) = []) as Hch.
    { apply in_shape_childless; [done|done|]. by rewrite Hty. }
    set (m2 := beginRemoveRows (ItemToIndex m1 (parent (item m1 node)))
                 (row (item m1 node)) (row (item m1 node)) m1).
    assert (in_shape m2) as Hsh2 by by apply (in_shape_same m1).
    pose proof (Delete_minus m2 node Hsh2 Ha Hroot Hch) as Hmin.
    pose proof (in_shape_Delete m2 node Hsh2 Ha Hroot Hch) as Hsh3.
    pose proof (Delete_other_fields (parent (item m2 node)) (row (item m2 node)) m2)
      as Hf.
    change (item m2 node) with (item m1 node) in *.
    set (m3 := Delete (parent (item m1 node)) (row (item m1 node)) m2) in *.
    injection Hf as _ Hr3 _ Hs3 _ Hd3 _ Hg3 _ _.
    change (root_ m2) with (root_ m1) in Hr3.
    change (song_nodes_ m2) with (song_nodes_ m1) in Hs3.
    change (divider_nodes_ m2) with (divider_nodes_ m1) in Hd3.
    set (m4 := endRemoveRows (with_song_nodes_ (delete (Song.id song) (song_nodes_ m3)) m3)).
    assert (heap m4 = heap m3 ∧ root_ m4 = root_ m3
            ∧ song_nodes_ m4 = delete (Song.id song) (song_nodes_ m1)
            ∧ divider_nodes_ m4 = divider_nodes_ m1) as (Hh4 & Hr4 & Hs4 & Hd4).
    { unfold m4. cbn. by rewrite Hs3, Hd3. }
    split; [split; [|split]|split; [|split; [|split]]].
    + by apply (in_shape_same m3).
    + apply (leaves_ok_minus node m2 m3 m4); try done.
      intros k leaf. rewrite Hs4. intros [Hne Hk]%lookup_delete_Some.
      split; [done|]. intros ->. destruct (Hl _ _ Hk) as (_ & _ & _ & ?). congruence.
    + apply (dividers_ok_minus node m2 m3 m4); try done.
      intros k d. rewrite Hd4. intros Hk. split; [done|]. intros ->.
      destruct (Hd _ _ Hk) as (_ & _ & ? & _). congruence.
    + apply (parents_ok_minus node m2 m3 m4); try done.
      * intros Hin.
        assert (parents_ok m1 (if decide (parent (item m1 node) = root_ m1) then ps
                               else qset_insert (parent (item m1 node)) ps)) as [_ Hq]
          by by apply parents_ok_insert.
        destruct (Hq node Hin) as (_ & _ & ?). congruence.
      * apply (parents_ok_same m1); [done|done|]. by apply parents_ok_insert.
    + apply (pruned_trans m m1); [done|].
      by apply (pruned_removal node (ItemToIndex m1 (parent (item m1 node)))
                  (row (item m1 node)) m1 m3 m4).
    + done.
    + intros leaf [= <-]. unfold allocated. rewrite Hh4.
      destruct Hmin as (_ & Hal & _). intros Hx. apply Hal in Hx as [_ ?]. done.
  - split; [done|]. split; [done|]. split; [done|].
    split; [by rewrite delete_id|]. done.
Qed.

(** The first loop of [RemoveSongs]. *)
Lemma RemoveSongs_leaves_tended songs ps m :
  tended m → parents_ok m ps →
  let r := foldl RemoveSongs_leaf (ps, m) songs in
  tended r.2 ∧ parents_ok r.2 r.1 ∧ pruned m r.2
  ∧ (∀ k, song_nodes_ r.2 !! k
          = if decide (k ∈ Song.id <$> songs) then None else song_nodes_ m !! k)
  ∧ (∀ k leaf, song_nodes_ m !! k = Some leaf → k ∈ Song.id <$> songs →
               ¬ allocated r.2 leaf).
Proof.
  revert ps m. induction songs as [|x l IH]; intros ps m HT HP; cbn [foldl].
  { split; [done|]. split; [done|]. split; [done|]. split; [done|].
    intros k leaf _ Hk. by apply elem_of_nil in Hk. }
  destruct (RemoveSongs_leaf_tended ps m x HT HP) as (HT1 & HP1 & Hpr1 & Hs1 & Hgone).
  destruct (RemoveSongs_leaf (ps, m) x) as [ps1 m1]. cbn [fst snd] in *.
  destruct (IH ps1 m1 HT1 HP1) as (HT2 & HP2 & Hpr2 & Hs2 & Hgone2).
  split; [done|]. split; [done|]. split; [by apply (pruned_trans m m1)|].
  split.
  - intros k. rewrite Hs2, Hs1, fmap_cons.
    destruct (decide (k ∈ Song.id <$> l)) as [Hin|Hin].
    + rewrite decide_True; [done|by right].
    + destruct (decide (k = Song.id x)) as [->|Hne].
      * rewrite decide_True by by left. apply lookup_delete_eq.
      * rewrite decide_False by (intros [?|?]%elem_of_cons; done).
        by apply lookup_delete_ne.
  - intros k leaf Hk Hin. rewrite fmap_cons in Hin.
    destruct (decide (k = Song.id x)) as [->|Hne].
    + intros Ha. destruct Hpr2 as (_ & Hpr2 & _). destruct (Hpr2 leaf Ha) as [Ha1 _].
      by apply (Hgone leaf).
    + apply elem_of_cons in Hin as [?|Hin]; [done|].
      apply (Hgone2 k); [|done]. rewrite Hs1. by rewrite lookup_delete_ne.
Qed.

Lemma relinked_same m m' :
  heap m' = heap m → root_ m' = root_ m → song_nodes_ m' = song_nodes_ m →
  divider_nodes_ m' = divider_nodes_ m → signals_ m' = signals_ m → relinked m m'.
Proof.
  intros Hh Hr Hs Hd Hg. unfold relinked, allocated, item. by rewrite Hh.
Qed.

Lemma relinked_update_item p f m :
  (∀ it, place (f it) = place it ∧ kept_part (f it) = kept_part it) →
  relinked m (update_item p f m).
Proof.
  intros Hf. split; [done|]. split; [done|]. split; [done|]. split; [done|]. split.
  - unfold update_item. cbn [heap with_heap].
    by rewrite <- (size_dom (alter f p (heap m))), dom_alter_L, size_dom.
  - split; [intros q; apply allocated_update_item|]. intros q. split.
    + apply (update_item_field place). apply Hf.
    + apply (update_item_field kept_part). apply Hf.
Qed.

Lemma relinked_type m m' q : relinked m m' → type (item m' q) = type (item m q).
Proof.
  intros (_ & _ & _ & _ & _ & _ & Hf). destruct (Hf q) as [_ Hk].
  unfold kept_part in Hk. by injection Hk.
Qed.

Lemma tended_relinked m m' : relinked m m' → tended m → tended m'.
Proof.
  intros Hre (A & B & C). pose proof Hre as (Hr & Hs & Hd & _ & _ & Hal & Hf).
  split; [|split].
  - apply (in_shape_fields m); [done|done| |done]. intros q. split; [apply Hf|].
    by apply relinked_type.
  - intros k leaf. rewrite Hs, Hal, Hr, (relinked_type m m' leaf Hre).
    destruct (Hf leaf) as [_ Hk]. unfold kept_part in Hk. injection Hk as _ _ _ _ ->.
    apply B.
  - intros k d. rewrite Hd, Hal, Hr, (relinked_type m m' d Hre).
    destruct (Hf d) as [_ Hk]. unfold kept_part in Hk. injection Hk as _ -> -> _ _.
    apply C.
Qed.

Lemma parents_ok_relinked m m' ps : relinked m m' → parents_ok m ps → parents_ok m' ps.
Proof.
  intros Hre [Hnd Hp]. split; [done|]. intros q Hq.
  pose proof Hre as (Hr & _ & _ & _ & _ & Hal & _).
  rewrite Hal, Hr, (relinked_type m m' q Hre). by apply Hp.
Qed.

Lemma pruned_relinked m m' : relinked m m' → pruned m m'.
Proof.
  intros (Hr & _ & _ & Hs & Hsz & Hal & Hf). split; [done|]. split.
  - intros q Hq. split; [by apply Hal|apply Hf].
  - exists []. cbn. rewrite Hs, Hsz, app_nil_r. split; [done|lia].
Qed.

(** The body of the second loop of [RemoveSongs], for a container. *)
Lemma RemoveSongs_parent_tended acc ks m node :
  tended m → parents_ok m acc →
  allocated m node → node ≠ root_ m → type (item m node) = Type_Container →
  let r := RemoveSongs_parent (acc, ks, m) node in
  tended r.2 ∧ parents_ok r.2 r.1.1 ∧ pruned m r.2
  ∧ song_nodes_ r.2 = song_nodes_ m
  ∧ (∀ q, q ≠ node → allocated m q →
          allocated r.2 q ∧ type (item r.2 q) = type (item m q))
  ∧ (size (heap r.2) ≤ size (heap m))%nat
  ∧ ((∀ q, q ∈ r.1.1 → q ∈ acc ∧ q ≠ node) ∨ (size (heap r.2) < size (heap m))%nat).
Proof.
  intros HT HP Ha Hroot Hty. unfold RemoveSongs_parent.
  assert (parents_ok m (qset_remove node acc)) as HP1.
  { destruct HP as [Hnd Hp]. split; [by apply NoDup_qset_remove|].
    intros q [Hq _]%elem_of_qset_remove. by apply Hp. }
  destruct (count m node =? 0) eqn:Hcount; cbn [negb fst snd].
  2:{ split; [done|]. split; [done|]. split; [done|]. split; [done|].
      split; [done|]. split; [done|]. left. intros q. apply elem_of_qset_remove. }
  assert (children (item m node) = []) as Hch.
  { apply Z.eqb_eq in Hcount. unfold count in Hcount. apply nil_length_inv. lia. }
  set (P := parent (item m node)).
  set (ps2 := if decide (P = root_ m) then qset_remove node acc
              else qset_insert P (qset_remove node acc)).
  assert (parents_ok m ps2) as HP2.
  { destruct HT as (Hsh & _). by apply parents_ok_insert. }
  assert (node ∉ ps2) as Hnode.
  { unfold ps2. case_decide.
    - intros [_ ?]%elem_of_qset_remove. done.
    - intros [Heq|[_ ?]%elem_of_qset_remove]%elem_of_qset_insert; [|done].
      destruct HT as ((_ & _ & Hh & _) & _). pose proof (Hh node Ha Hroot) as Hin.
      fold P in Hin. rewrite <- Heq, Hch in Hin. by apply elem_of_nil in Hin. }
  set (m1 := if IsCompilationArtistNode m node
             then update_item P (set_compilation_artist_node_ nullptr) m
             else if contains (container_nodes_at m (container_level (item m node)))
                       (key (item m node))
                  then with_container_nodes_at (container_level (item m node))
                         (delete (key (item m node))
                            (container_nodes_at m (container_level (item m node)))) m
                  else m).
  assert (relinked m m1) as Hre.
  { unfold m1. destruct (IsCompilationArtistNode m node).
    - by apply relinked_update_item.
    - destruct (contains _ _); [|by apply relinked_same].
      unfold with_container_nodes_at. destruct (_ <? 0); by apply relinked_same. }
  pose proof (tended_relinked m m1 Hre HT) as HT1.
  pose proof (parents_ok_relinked m m1 ps2 Hre HP2) as HP3.
  pose proof Hre as (Hr1 & Hs1 & Hd1 & Hg1 & Hsz1 & Hal1 & Hf1).
  assert (parent (item m1 node) = P ∧ row (item m1 node) = row (item m node)
          ∧ children (item m1 node) = []) as (HP1' & Hrow1 & Hch1).
  { destruct (Hf1 node) as [Hpl _]. unfold place in Hpl.
    injection Hpl as -> -> ->. done. }
  set (m2 := beginRemoveRows (ItemToIndex m1 P) (row (item m node)) (row (item m node)) m1).
  assert (tended m2) as HT2 by by apply (tended_same m1).
  destruct HT2 as (Hsh2 & Hl2 & Hd2).
  assert (allocated m2 node) as Ha2 by by apply Hal1.
  assert (node ≠ root_ m2) as Hroot2 by by (change (root_ m2) with (root_ m1); congruence).
  pose proof (Delete_minus m2 node Hsh2 Ha2 Hroot2 Hch1) as Hmin.
  pose proof (in_shape_Delete m2 node Hsh2 Ha2 Hroot2 Hch1) as Hsh3.
  pose proof (Delete_other_fields (parent (item m2 node)) (row (item m2 node)) m2) as Hf.
  change (item m2 node) with (item m1 node) in *. rewrite HP1', Hrow1 in *.
  set (m3 := Delete P (row (item m node)) m2) in *.
  injection Hf as _ Hr3 _ Hs3 _ Hd3 _ Hg3 _ _.
  change (root_ m2) with (root_ m1) in Hr3.
  change (song_nodes_ m2) with (song_nodes_ m1) in Hs3.
  change (divider_nodes_ m2) with (divider_nodes_ m1) in Hd3.
  assert (type (item m1 node) = Type_Container) as Hty1
    by by rewrite (relinked_type m m1 node Hre).
  split; [split; [|split]|split; [|split; [|split; [|split; [|split]]]]].
  - by apply (in_shape_same m3).
  - apply (leaves_ok_minus node m2 m3 (endRemoveRows m3)); try done.
    intros k leaf. change (song_nodes_ (endRemoveRows m3)) with (song_nodes_ m3).
    rewrite Hs3. intros Hk. split; [done|]. intros ->.
    destruct (Hl2 _ _ Hk) as (_ & _ & Hsong & _).
    change (item m2 node) with (item m1 node) in Hsong. congruence.
  - apply (dividers_ok_minus node m2 m3 (endRemoveRows m3)); try done.
    intros k d. change (divider_nodes_ (endRemoveRows m3)) with (divider_nodes_ m3).
    rewrite Hd3. intros Hk. split; [done|]. intros ->.
    destruct (Hd2 _ _ Hk) as (_ & _ & Hdiv & _).
    change (item m2 node) with (item m1 node) in Hdiv. congruence.
  - by apply (parents_ok_minus node m2 m3 (endRemoveRows m3)).
  - apply (pruned_trans m m1); [by apply pruned_relinked|].
    by apply (pruned_removal node (ItemToIndex m1 P) (row (item m node)) m1 m3
                (endRemoveRows m3)).
  - change (song_nodes_ (endRemoveRows m3)) with (song_nodes_ m3). congruence.
  - intros q Hq Haq.
    destruct (minus_fields node m2 m3 q) as (Hty3 & _); [done|done|].
    destruct Hmin as (_ & Hal3 & _).
    change (item (endRemoveRows m3) q) with (item m3 q).
    change (allocated (endRemoveRows m3) q) with (allocated m3 q).
    split.
    + apply Hal3. split; [|done]. by apply Hal1.
    + rewrite Hty3. change (item m2 q) with (item m1 q). by apply relinked_type.
  - destruct Hmin as (_ & _ & _ & Hsz).
    change (heap (endRemoveRows m3)) with (heap m3).
    change (heap m2) with (heap m1) in Hsz. lia.
  - right. destruct Hmin as (_ & _ & _ & Hsz).
    change (heap (endRemoveRows m3)) with (heap m3).
    change (heap m2) with (heap m1) in Hsz. lia.
Qed.

(** One round of the second loop: the containers of [todo], one after
    the other.  What is left to look at afterwards was found in this round,
    when an item was deleted. *)
Lemma RemoveSongs_round_tended todo acc ks m :
  tended m → parents_ok m acc → parents_ok m todo →
  let r := foldl RemoveSongs_parent (acc, ks, m) todo in
  tended r.2 ∧ parents_ok r.2 r.1.1 ∧ pruned m r.2
  ∧ song_nodes_ r.2 = song_nodes_ m
  ∧ (size (heap r.2) ≤ size (heap m))%nat
  ∧ ((∀ q, q ∈ r.1.1 → q ∈ acc ∧ q ∉ todo) ∨ (size (heap r.2) < size (heap m))%nat).
Proof.
  revert acc ks m. induction todo as [|node todo IH]; intros acc ks m HT HP Htodo;
    cbn [foldl fst snd].
  { split; [done|]. split; [done|]. split; [done|]. split; [done|]. split; [done|].
    left. intros q Hq. split; [done|]. apply not_elem_of_nil. }
  destruct Htodo as [Hnd Htodo]. apply NoDup_cons in Hnd as [Hnode Hnd].
  destruct (Htodo node) as (Ha & Hroot & Hty); [by left|].
  destruct (RemoveSongs_parent_tended acc ks m node HT HP Ha Hroot Hty)
    as (HT1 & HP1 & Hpr1 & Hs1 & Hsv & Hle & Hor).
  destruct (RemoveSongs_parent (acc, ks, m) node) as [[acc1 ks1] m1].
  cbn [fst snd] in *.
  assert (parents_ok m1 todo) as Htodo1.
  { split; [done|]. intros q Hq.
    assert (q ≠ node) as Hne by (by intros ->).
    destruct (Htodo q) as (Haq & Hrq & Htq); [by right|].
    destruct (Hsv q Hne Haq) as [? ->]. destruct Hpr1 as [-> _]. done. }
  destruct (IH acc1 ks1 m1 HT1 HP1 Htodo1) as (HT2 & HP2 & Hpr2 & Hs2 & Hle2 & Hor2).
  split; [done|]. split; [done|]. split; [by apply (pruned_trans m m1)|].
  split; [congruence|]. split; [lia|].
  destruct Hor as [Hsub|Hlt]; [|right; lia].
  destruct Hor2 as [Hsub2|Hlt2]; [|right; lia].
  left. intros q Hq. destruct (Hsub2 q Hq) as [Hq1 Hq2].
  destruct (Hsub q Hq1) as [Hq3 Hq4]. split; [done|].
  intros [?|?]%elem_of_cons; done.
Qed.

(** The second loop of [RemoveSongs] ends: every round but the last
    deletes an item of the arena. *)
Lemma RemoveSongs_parents_returns fuel ps ks m :
  tended m → parents_ok m ps → (size (heap m) ≤ fuel)%nat →
  ∃ ks' m', RemoveSongs_parents fuel ps ks m = Some (ks', m')
            ∧ tended m' ∧ pruned m m' ∧ song_nodes_ m' = song_nodes_ m.
Proof.
  revert ps ks m. induction fuel as [|f IH]; intros ps ks m HT HP Hsz.
  - destruct ps as [|p ps]; [by exists ks, m|]. exfalso.
    destruct HP as [_ HP]. destruct (HP p) as ([it Hp] & _); [by left|].
    assert (size (heap m) = 0%nat) as Hz%map_size_empty_iff by lia.
    by rewrite Hz in Hp.
  - destruct ps as [|p ps]; [by exists ks, m|].
    cbn [RemoveSongs_parents].
    destruct (RemoveSongs_round_tended (p :: ps) (p :: ps) ks m HT HP HP)
      as (HT1 & HP1 & Hpr1 & Hs1 & Hle & Hor).
    destruct (foldl RemoveSongs_parent (p :: ps, ks, m) (p :: ps)) as [[ps1 ks1] m1].
    cbn [fst snd] in *.
    destruct Hor as [Hsub|Hlt].
    + assert (ps1 = []) as ->.
      { destruct ps1 as [|q ps1]; [done|]. by destruct (Hsub q); [left|]. }
      exists ks1, m1. split; [by destruct f|]. done.
    + destruct (IH ps1 ks1 m1 HT1 HP1) as (ks2 & m2 & Hrun & HT2 & Hpr2 & Hs2); [lia|].
      exists ks2, m2. split; [done|]. split; [done|].
      split; [by apply (pruned_trans m m1)|congruence].
Qed.

(** The third loop of [RemoveSongs], for one key. *)
Lemma RemoveSongs_divider_tended m k :
  tended m →
  tended (RemoveSongs_divider m k) ∧ pruned m (RemoveSongs_divider m k)
  ∧ song_nodes_ (RemoveSongs_divider m k) = song_nodes_ m.
Proof.
  intros HT. unfold RemoveSongs_divider.
  destruct (divider_nodes_ m !! k) as [d|] eqn:Hk; [|done].
  destruct (existsb _ _); [done|].
  pose proof HT as (Hsh & Hl & Hd).
  destruct (Hd _ _ Hk) as (Ha & Hroot & Hty & Hpar & Hkey).
  assert (children (item m d) = []) as Hch.
  { apply in_shape_childless; [done|done|]. by rewrite Hty. }
  set (m1 := beginRemoveRows (ItemToIndex m (root_ m)) (row (item m d)) (row (item m d)) m).
  assert (in_shape m1) as Hsh1 by by apply (in_shape_same m).
  pose proof (Delete_minus m1 d Hsh1 Ha Hroot Hch) as Hmin.
  pose proof (in_shape_Delete m1 d Hsh1 Ha Hroot Hch) as Hsh2.
  pose proof (Delete_other_fields (parent (item m1 d)) (row (item m1 d)) m1) as Hf.
  change (item m1 d) with (item m d) in *. rewrite Hpar in *.
  change (root_ m1) with (root_ m).
  set (m2 := Delete (root_ m) (row (item m d)) m1) in *.
  injection Hf as _ Hr2 _ Hs2 _ Hd2 _ Hg2 _ _.
  change (root_ m1) with (root_ m) in Hr2.
  change (song_nodes_ m1) with (song_nodes_ m) in Hs2.
  change (divider_nodes_ m1) with (divider_nodes_ m) in Hd2.
  set (m3 := with_divider_nodes_ (delete k (divider_nodes_ (endRemoveRows m2)))
               (endRemoveRows m2)).
  assert (heap m3 = heap m2 ∧ root_ m3 = root_ m2 ∧ song_nodes_ m3 = song_nodes_ m
          ∧ divider_nodes_ m3 = delete k (divider_nodes_ m)) as (Hh3 & Hr3 & Hs3 & Hd3).
  { unfold m3. cbn. by rewrite Hs2, Hd2. }
  split; [split; [|split]|split].
  - by apply (in_shape_same m2).
  - apply (leaves_ok_minus d m1 m2 m3); try done.
    intros k' leaf. rewrite Hs3. intros Hk'. split; [done|]. intros ->.
    destruct (Hl _ _ Hk') as (_ & _ & ? & _). congruence.
  - apply (dividers_ok_minus d m1 m2 m3); try done.
    intros k' d'. rewrite Hd3. intros [Hne Hk']%lookup_delete_Some.
    split; [done|]. intros ->. destruct (Hd _ _ Hk') as (_ & _ & _ & _ & ?).
    congruence.
  - by apply (pruned_removal d (ItemToIndex m (root_ m)) (row (item m d)) m m2 m3).
  - done.
Qed.

Lemma RemoveSongs_dividers_tended ks m :
  tended m →
  tended (foldl RemoveSongs_divider m ks) ∧ pruned m (foldl RemoveSongs_divider m ks)
  ∧ song_nodes_ (foldl RemoveSongs_divider m ks) = song_nodes_ m.
Proof.
  revert m. induction ks as [|k ks IH]; intros m HT; cbn [foldl]; [done|].
  destruct (RemoveSongs_divider_tended m k HT) as (HT1 & Hpr1 & Hs1).
  destruct (IH _ HT1) as (HT2 & Hpr2 & Hs2).
  split; [done|]. split; [by apply (pruned_trans m (RemoveSongs_divider m k))|congruence].
Qed.

(** The records after the first loop of [RemoveSongs]: those that were
    stored, the last of the batch for each identifier of the batch. *)
Lemma RemoveSongs_leaves_songs_ songs ps m k :
  songs_ (foldl RemoveSongs_leaf (ps, m) songs).2 !! k
  = match songs_ m !! k with
    | Some r => Some (match last_with k songs with Some s => s | None => r end)
    | None => None
    end.
Proof.
  revert ps m. induction songs as [|x l IH]; intros ps m; cbn [foldl].
  { cbn. by destruct (songs_ m !! k). }
  assert (songs_ (RemoveSongs_leaf (ps, m) x).2 = songs_ (upsert_known x m)) as Hx.
  { unfold RemoveSongs_leaf. fold (upsert_known x m).
    destruct (song_nodes_ (upsert_known x m) !! Song.id x); [|done]. cbn.
    pose proof (Delete_other_fields
                  (parent (item (upsert_known x m) n)) (row (item (upsert_known x m) n))
                  (beginRemoveRows
                     (ItemToIndex (upsert_known x m) (parent (item (upsert_known x m) n)))
                     (row (item (upsert_known x m) n)) (row (item (upsert_known x m) n))
                     (upsert_known x m))) as Hf.
    by injection Hf as _ _ -> _ _ _ _ _ _ _. }
  destruct (RemoveSongs_leaf (ps, m) x) as [ps1 m1]. cbn [snd] in Hx.
  rewrite IH, Hx, songs_upsert_known, last_with_cons.
  destruct (songs_ m !! k); [|done].
  destruct (last_with k l); [done|]. by destruct (decide (Song.id x = k)).
Qed.

End Shape.

(** ** The trees that [AddSongs] builds are tended *)

Section Steps.
Context `{External}.
Variable ok : Song.t → Prop.
Variable Q : Model → Prop.
Hypothesis Q_same :
  ∀ m m', heap m' = heap m → root_ m' = root_ m →
          divider_nodes_ m' = divider_nodes_ m →
          container_nodes_ m' = container_nodes_ m → Q m → Q m'.
Hypothesis Q_compilation :
  ∀ P m, Inv ok m → allocated m P → hangs m P →
         compilation_artist_node_ (item m P) = nullptr →
         Q m → Q (CreateCompilationArtistNode true P m).2.
Hypothesis Q_leaf :
  ∀ sep P s m, Inv ok m → allocated m P → hangs m P →
               Q m → Q (ItemFromSong GroupBy.None sep true false P s (-1) m).2.
Hypothesis Q_container :
  ∀ gb sep cd P s i k m,
    Inv ok m → allocated m P → hangs m P →
    container_level (item m P) = i - 1 → 0 ≤ i ≤ 2 →
    GroupBy.eqb gb GroupBy.None = false → container_nodes_at m i !! k = None →
    Q m →
    Q (with_container_nodes_at i
         (<[k := (ItemFromSong gb sep true cd P s i m).1]>
            (container_nodes_at (ItemFromSong gb sep true cd P s i m).2 i))
         (ItemFromSong gb sep true cd P s i m).2).

Lemma Q_AddSongs_container n i song container key_ m :
  Inv ok m → Q m → Z.of_nat n + i = 3 → 0 ≤ i →
  allocated m container → container_level (item m container) = i - 1 →
  hangs m container →
  Q (AddSongs_container n i song container key_ m).2.
Proof.
  revert i container key_ m.
  induction n as [|n IH]; intros i container key_ m HI HQ Hn Hi Ha Hl Hh;
    cbn [AddSongs_container]; [done|].
  destruct (GroupBy.eqb (Grouping_at (group_by_ m) i) GroupBy.None) eqn:Hgb; [done|].
  pose proof (inv_fresh ok m HI) as Hf.
  destruct (IsArtistGroupBy _ && is_compilation song).
  - set (m1 := if decide (compilation_artist_node_ (item m container) = nullptr)
               then (CreateCompilationArtistNode true container m).2 else m).
    assert (Inv ok m1 ∧ Q m1
            ∧ allocated m1 (compilation_artist_node_ (item m1 container))
            ∧ container_level (item m1 (compilation_artist_node_ (item m1 container)))
              = i
            ∧ hangs m1 (compilation_artist_node_ (item m1 container)))
      as (HI1 & HQ1 & Ha1 & Hl1 & Hh1).
    { unfold m1. destruct (decide _) as [Hnull|Hnode].
      - destruct (CreateCompilationArtistNode_grown true container m Hf Ha)
          as (Hg & Hlvl & Hco & Hsn).
        split.
        { apply (Inv_grown ok Type_Container container (next_ptr m) m);
            [exact HI|exact Ha|exact Hg|].
          cbn [settled]. split; [exact Hlvl|]. split; [lia|exact Hsn]. }
        split; [by apply Q_compilation|].
        rewrite Hco.
        split; [apply (grown_allocated _ _ _ _ _ Hg); by left|].
        split; [lia|]. right.
        split; [apply (grown_type _ _ _ _ _ Hg)|].
        by apply (grown_reachable Type_Container container (next_ptr m) m).
      - destruct (inv_compilation ok m HI container Hnode) as (Hin & Hty & Hlvl).
        split; [done|]. split; [done|].
        split; [by apply (inv_children ok m HI container)|]. split; [lia|].
        right. split; [done|]. by apply (reachable_child m container). }
    apply (IH (i + 1)); try done; lia.
  - destruct (container_nodes_at m i !! _) as [c|] eqn:Hcn.
    + destruct (inv_container_nodes ok m HI _ _ _ Hcn) as (Hty & Hlvl & Hre).
      apply (IH (i + 1)); try done; try lia.
      * by apply (reachable_allocated ok).
      * by right.
    + destruct (ItemFromSong_Inv_container ok (Grouping_at (group_by_ m) i)
                  (separate_albums_by_grouping_ m) true (i =? 0) container song i m)
        as (HI1 & Ha1 & Hty1 & Hl1 & Hre1 & Hn1); try done; try lia.
      pose proof (Q_container (Grouping_at (group_by_ m) i)
                    (separate_albums_by_grouping_ m) (i =? 0) container song i _ m
                    HI Ha Hh Hl ltac:(lia) Hgb Hcn HQ) as HQ1.
      destruct (ItemFromSong _ _ _ _ _ _ _ _) as [c m1]. cbn [fst snd] in *.
      set (m2 := with_container_nodes_at i _ m1).
      assert (heap m2 = heap m1 ∧ root_ m2 = root_ m1
              ∧ divider_nodes_ m2 = divider_nodes_ m1) as (Hh2 & Hr2 & Hd2).
      { unfold m2, with_container_nodes_at. by destruct (i <? 0). }
      assert (∀ q, item m2 q = item m1 q) as Hi2
        by (intros q; unfold item; by rewrite Hh2).
      assert (Inv ok m2) as HI2 by by apply Inv_with_container_nodes_at.
      apply (IH (i + 1)); try done; try lia.
      * unfold allocated. by rewrite Hh2.
      * rewrite Hi2. lia.
      * right. rewrite Hi2. split; [done|].
        apply (reachable_extends m1 m2); [|done].
        split; [done|]. split; intros q; by rewrite Hi2.
Qed.

Lemma Q_AddSong song m : Inv ok m → Q m → Q (AddSong song m).
Proof.
  intros HI HQ. unfold AddSong.
  set (m0 := with_songs_ _ m).
  assert (Inv ok m0) as HI0
    by (apply (Inv_same_items ok m); [apply same_items_with_songs_|done|done]).
  assert (Q m0) as HQ0 by by apply (Q_same m).
  destruct (Matches song); cbn [negb]; [|done].
  destruct (bool_decide _) eqn:Hdec; [done|].
  destruct (inv_root ok m0 HI0) as (Hr & _ & Hl).
  destruct (AddSongs_container_Inv ok 3 0 song (root_ m0) [] m0)
    as (HI1 & Ha1 & Hh1 & Hn1); try done; [by left|].
  pose proof (Q_AddSongs_container 3 0 song (root_ m0) [] m0) as HQ1.
  destruct (AddSongs_container 3 0 song (root_ m0) [] m0) as [c m1].
  cbn [fst snd] in *.
  pose proof (Q_leaf (separate_albums_by_grouping_ m1) c song m1) as Hleaf.
  destruct (ItemFromSong _ _ _ _ _ _ _ _) as [leaf m2]. cbn [fst snd] in *.
  apply (Q_same m2); [done|done|done|done|].
  apply Hleaf; try done. apply HQ1; try done. by left.
Qed.

Lemma Q_AddSongs songs m :
  Inv ok m → (∀ s, s ∈ songs → Matches s = true → ok s) → Q m → Q (AddSongs songs m).
Proof.
  unfold AddSongs. revert m. induction songs as [|x l IH]; intros m HI Hok HQ; [done|].
  cbn [foldl]. apply IH.
  - apply AddSong_Inv; [done|]. apply Hok. by left.
  - intros s Hs. apply Hok. by right.
  - by apply Q_AddSong.
Qed.

End Steps.

Section Tended.
Context `{External}.

Lemma hung_same m m' : heap m' = heap m → root_ m' = root_ m → hung m → hung m'.
Proof.
  intros Hh Hr [A B]. unfold hung, allocated, item. rewrite Hh, Hr. by split.
Qed.

Lemma hung_grown ty P c m m' :
  fresh m → allocated m P → P = root_ m ∨ type (item m P) = Type_Container →
  grown ty P c m m' → hung m → hung m'.
Proof.
  intros Hf HP HPty Hg [A B].
  assert (root_ m' = root_ m) as Hr by apply frame_root_, (grown_frame _ _ _ _ _ Hg).
  split.
  - intros x Hx Hroot. rewrite Hr in Hroot.
    apply (grown_allocated _ _ _ _ _ Hg) in Hx as [->|Hx].
    + rewrite (grown_new_parent _ _ _ _ _ Hg), (grown_parent_children _ _ _ _ _ Hg).
      apply elem_of_app. right. by apply list_elem_of_singleton.
    + destruct (grown_allocated_old ty P c m m' Hf Hg x Hx) as [_ Hne].
      destruct (grown_old ty P c m m' Hg x Hne) as (_ & _ & _ & ->).
      apply (grown_children_mono ty P c m m' Hf Hg). by apply A.
  - intros p Hp. rewrite Hr.
    destruct (children (item m' p)) as [|x l] eqn:Hl; [done|].
    destruct (grown_old_children ty P c m m' Hg p x) as [Hne Hx];
      [rewrite Hl; by left|].
    destruct (grown_old ty P c m m' Hg p Hne) as (-> & _).
    destruct Hx as [Hx|[-> _]]; [|done].
    apply B. intros Hnil. rewrite Hnil in Hx. by apply elem_of_nil in Hx.
Qed.

Lemma type_allocated m q : type (item m q) ≠ Type_LoadingIndicator → allocated m q.
Proof.
  intros Hty. unfold allocated. destruct (heap m !! q) eqn:Hq; [by eexists|].
  exfalso. apply Hty. unfold item. by rewrite Hq.
Qed.

(** The entries of the table of dividers after [FinishItem]: those it had,
    and the divider that [FinishItem] makes. *)
Lemma FinishItem_divider_entries gb signal cd P p m k d :
  root_ m ≠ next_ptr m →
  divider_nodes_ (FinishItem gb signal cd P p m) !! k = Some d →
  divider_nodes_ m !! k = Some d
  ∨ (d = next_ptr m
     ∧ type (item (FinishItem gb signal cd P p m) d) = Type_Divider
     ∧ parent (item (FinishItem gb signal cd P p m) d) = root_ m
     ∧ key (item (FinishItem gb signal cd P p m) d) = k).
Proof.
  intros Hroot. unfold FinishItem.
  set (m1 := if signal then endInsertRows m else m).
  assert (divider_nodes_ m1 = divider_nodes_ m ∧ next_ptr m1 = next_ptr m
          ∧ root_ m1 = root_ m) as (Hd1 & Hn1 & Hr1)
    by (unfold m1; by destruct signal).
  destruct (cd && show_dividers_ m1); [|rewrite Hd1; by left].
  set (dk := DividerKey gb (item m1 p)).
  set (m2 := if negb (isEmpty dk)
             then update_item p (λ it, set_sort_text ((dk ++ qs " ") ++ sort_text it) it) m1
             else m1).
  assert (divider_nodes_ m2 = divider_nodes_ m ∧ next_ptr m2 = next_ptr m
          ∧ root_ m2 = root_ m) as (Hd2 & Hn2 & Hr2)
    by (unfold m2; by destruct (negb (isEmpty dk))).
  destruct (negb (isEmpty dk) && negb (bool_decide (is_Some (divider_nodes_ m2 !! dk))));
    [|rewrite Hd2; by left].
  set (m3 := if signal
             then beginInsertRows (ItemToIndex m2 P) (count m2 P) (count m2 P) m2
             else m2).
  assert (divider_nodes_ m3 = divider_nodes_ m ∧ next_ptr m3 = next_ptr m
          ∧ root_ m3 = root_ m) as (Hd3 & Hn3 & Hr3)
    by (unfold m3; by destruct signal).
  pose proof (new_CollectionItem_new Type_Divider (root_ m3) m3) as Hnew.
  pose proof (new_CollectionItem_ptr Type_Divider (root_ m3) m3) as Hp.
  pose proof (new_CollectionItem_allocated Type_Divider (root_ m3) m3 (next_ptr m3)) as Hal.
  assert (divider_nodes_ (new_CollectionItem Type_Divider (root_ m3) m3).2
          = divider_nodes_ m3) as Hd4 by reflexivity.
  destruct (new_CollectionItem Type_Divider (root_ m3) m3) as [dv m4].
  cbn [fst snd] in *. subst dv.
  set (m7 := update_item (next_ptr m3) (set_sort_text (dk ++ qs "  "))
               (update_item (next_ptr m3) (set_display_text (DividerDisplayText gb dk))
                  (update_item (next_ptr m3) (set_key dk) m4))).
  assert (item m7 (next_ptr m3)
          = set_sort_text (dk ++ qs "  ")
              (set_display_text (DividerDisplayText gb dk)
                 (set_key dk (item m4 (next_ptr m3))))) as Hit.
  { assert (allocated m4 (next_ptr m3)) as Ha4 by (apply Hal; by left).
    unfold m7. rewrite !item_update_item_same; try done.
    - by apply allocated_update_item.
    - by do 2 apply allocated_update_item. }
  rewrite Hnew in Hit by congruence.
  set (m8 := with_divider_nodes_ (<[dk := next_ptr m3]> (divider_nodes_ m7)) m7).
  assert (divider_nodes_ (if signal then endInsertRows m8 else m8)
          = <[dk := next_ptr m3]> (divider_nodes_ m)) as ->.
  { assert (divider_nodes_ m7 = divider_nodes_ m) as Hd7
      by (unfold m7; cbn; congruence).
    assert (divider_nodes_ (if signal then endInsertRows m8 else m8)
            = divider_nodes_ m8) as -> by by destruct signal.
    change (divider_nodes_ m8) with (<[dk := next_ptr m3]> (divider_nodes_ m7)).
    by rewrite Hd7. }
  assert (∀ q, item (if signal then endInsertRows m8 else m8) q = item m7 q) as ->
    by (intros q; by destruct signal).
  destruct (decide (dk = k)) as [->|Hne].
  - rewrite lookup_insert_eq. intros [= <-]. right. rewrite Hit. cbn.
    split; [done|]. split; [done|]. split; [done|]. done.
  - rewrite lookup_insert_ne by done. by left.
Qed.

(** The table of dividers on a model that has the old items as they were
    and new entries that are dividers under the root. *)
Lemma dividers_ok_older m m' :
  fresh m → older m m' → root_ m' = root_ m → dividers_ok m →
  (∀ k d, divider_nodes_ m' !! k = Some d →
          divider_nodes_ m !! k = Some d
          ∨ (d ≠ root_ m' ∧ type (item m' d) = Type_Divider
             ∧ parent (item m' d) = root_ m' ∧ key (item m' d) = k)) →
  dividers_ok m'.
Proof.
  intros Hf [_ Ho] Hr Hd Hnew k d Hk.
  destruct (Hnew k d Hk) as [Hold|(Hne & Hty & Hp & Hkey)].
  - destruct (Hd k d Hold) as (Ha & Hroot & Hty & Hp & Hkey).
    destruct (Ho d) as (Hfix & _); [by apply Hf|].
    unfold fixed_part in Hfix. injection Hfix as Ht _ Hpa Hke _ _ _ _.
    split; [apply type_allocated; by rewrite Ht, Hty|].
    rewrite Hr, Ht, Hpa, Hke. done.
  - split; [apply type_allocated; by rewrite Hty|]. done.
Qed.

Lemma dividers_ok_ItemFromSong gb sep signal cd P s lvl m :
  fresh m → allocated m (root_ m) → dividers_ok m →
  dividers_ok (ItemFromSong gb sep signal cd P s lvl m).2.
Proof.
  intros Hf Hroot Hd.
  apply (dividers_ok_older m); [done| | |done|].
  - by apply older_ItemFromSong, older_refl.
  - apply frame_root_, frame_ItemFromSong.
  - pose proof (frame_root_ _ _ (frame_ItemFromSong gb sep signal cd P s lvl m)) as Hr.
    rewrite Hr. clear Hr. unfold ItemFromSong.
    pose proof (tree_tables_InitItem gb signal P lvl m) as Hi.
    assert (root_ (InitItem gb signal P lvl m).2 = root_ m) as Hfr
      by (unfold InitItem; by destruct signal).
    assert (next_ptr (InitItem gb signal P lvl m).2 = S (next_ptr m)) as Hn
      by (unfold InitItem; by destruct signal).
    destruct (InitItem gb signal P lvl m) as [q m1]. cbn [snd] in *.
    unfold tree_tables in Hi. injection Hi as _ _ Hd1.
    set (m2 := update_item q _ _).
    assert (divider_nodes_ m2 = divider_nodes_ m ∧ next_ptr m2 = S (next_ptr m)
            ∧ root_ m2 = root_ m) as (Hd2 & Hn2 & Hr2).
    { unfold m2. cbn. by destruct (_ && _). }
    intros k d Hk.
    apply FinishItem_divider_entries in Hk as [Hk|(-> & Hty & Hp & Hkey)].
    + left. by rewrite <- Hd2.
    + right. rewrite Hr2 in Hp. split; [|done]. rewrite Hn2.
      apply Hf in Hroot. lia.
    + rewrite Hr2, Hn2. apply Hf in Hroot. lia.
Qed.

Lemma dividers_ok_same m m' :
  heap m' = heap m → root_ m' = root_ m → divider_nodes_ m' = divider_nodes_ m →
  dividers_ok m → dividers_ok m'.
Proof.
  intros Hh Hr Hd A k d. unfold allocated, item. rewrite Hh, Hr, Hd. apply A.
Qed.

Lemma hangs_typed ok m P :
  Inv ok m → hangs m P → P = root_ m ∨ type (item m P) = Type_Container.
Proof. intros _ [?|[? _]]; auto. Qed.

Lemma hung_CreateCompilationArtistNode ok P m :
  Inv ok m → allocated m P → hangs m P →
  compilation_artist_node_ (item m P) = nullptr →
  hung m ∧ dividers_ok m →
  hung (CreateCompilationArtistNode true P m).2
  ∧ dividers_ok (CreateCompilationArtistNode true P m).2.
Proof.
  intros HI HP Hh Hnull [Hu Hd].
  pose proof (inv_fresh ok m HI) as Hf.
  destruct (CreateCompilationArtistNode_grown true P m Hf HP) as (Hg & _).
  split.
  - apply (hung_grown Type_Container P (next_ptr m) m); try done.
    by apply (hangs_typed ok).
  - apply (dividers_ok_older m); try done.
    + by apply older_CreateCompilationArtistNode, older_refl.
    + apply frame_root_, frame_CreateCompilationArtistNode.
    + assert (divider_nodes_ (CreateCompilationArtistNode true P m).2
              = divider_nodes_ m) as Hdd.
      { pose proof (tree_tables_CreateCompilationArtistNode true P m) as Ht.
        unfold tree_tables in Ht. congruence. }
      intros k d Hk. left. by rewrite <- Hdd.
Qed.

Lemma hung_ItemFromSong ok gb sep cd P s lvl m :
  Inv ok m → allocated m P → hangs m P →
  hung m ∧ dividers_ok m →
  hung (ItemFromSong gb sep true cd P s lvl m).2
  ∧ dividers_ok (ItemFromSong gb sep true cd P s lvl m).2.
Proof.
  intros HI HP Hh [Hu Hd].
  pose proof (inv_fresh ok m HI) as Hf.
  destruct (inv_root ok m HI) as (Hr & _).
  split; [|by apply dividers_ok_ItemFromSong].
  destruct (ItemFromSong_grown gb sep true cd P s lvl m Hf HP Hr)
    as (_ & m1 & Hg & _ & _ & _ & Hfin).
  assert (hung m1) as Hu1.
  { eapply (hung_grown _ P); [exact Hf|exact HP| |exact Hg|done].
    by apply (hangs_typed ok). }
  destruct Hfin as [Hs|Hg2].
  - destruct Hs as (Hh1 & _ & Hfr & _). apply (hung_same m1); [done| |done].
    by apply frame_root_.
  - apply (hung_grown Type_Divider (root_ m1) (next_ptr m1) m1); try done.
    + eapply (grown_fresh _ P); [exact Hf|exact HP|exact Hg].
    + apply (grown_allocated _ _ _ _ _ Hg). right.
      by rewrite (frame_root_ _ _ (grown_frame _ _ _ _ _ Hg)).
    + by left.
Qed.

Lemma Inv_leaves_ok ok m : Inv ok m → leaves_ok m.
Proof.
  intros HI k leaf Hk.
  destruct (inv_song_nodes ok m HI k leaf Hk) as (Hty & Hid & Hre).
  split; [by apply (reachable_allocated ok)|]. split; [|done].
  intros ->. destruct (inv_root ok m HI) as (_ & Hroot & _). congruence.
Qed.

(** [AddSongs] keeps a well-formed tree tended. *)
Lemma AddSongs_tended ok songs m :
  Inv ok m → (∀ s, s ∈ songs → Matches s = true → ok s) →
  tended m → tended (AddSongs songs m).
Proof.
  intros HI Hok ((Hr & Hk & Hh & Ht) & Hl & Hd).
  pose proof (AddSongs_Inv ok songs m HI Hok) as HI'.
  pose proof (AddSongs_rows ok songs m HI Hok Hr) as Hr'.
  destruct (Q_AddSongs ok (λ m, hung m ∧ dividers_ok m)) with (songs := songs) (m := m)
    as [[Hh' Ht'] Hd']; try done.
  - intros m1 m2 Hh1 Hr1 Hd1 _ [A B].
    split; [by apply (hung_same m1)|by apply (dividers_ok_same m1)].
  - intros P m1. apply hung_CreateCompilationArtistNode.
  - intros sep P s m1. apply hung_ItemFromSong.
  - intros gb sep cd P s i k m1 HI1 HP1 Hh1 _ _ _ _ HQ1.
    destruct (hung_ItemFromSong ok gb sep cd P s i m1 HI1 HP1 Hh1 HQ1) as [A B].
    assert (∀ v m2, heap (with_container_nodes_at i v m2) = heap m2
                    ∧ root_ (with_container_nodes_at i v m2) = root_ m2
                    ∧ divider_nodes_ (with_container_nodes_at i v m2)
                      = divider_nodes_ m2) as Hw.
    { intros v m2. unfold with_container_nodes_at. by destruct (i <? 0). }
    destruct (Hw (<[k:=(ItemFromSong gb sep true cd P s i m1).1]>
                    (container_nodes_at (ItemFromSong gb sep true cd P s i m1).2 i))
                (ItemFromSong gb sep true cd P s i m1).2) as (Hh2 & Hr2 & Hd2).
    split; [by eapply hung_same|by eapply dividers_ok_same].
  - split; [|split; [by apply (Inv_leaves_ok ok)|done]].
    split; [done|]. split; [|done]. intros p c Hc.
    split; [by apply (inv_children ok _ HI' p)|by apply (inv_parent ok _ HI')].
Qed.

Lemma empty_tree_tended m : empty_tree m → tended m.
Proof.
  intros He.
  assert (∀ p, children (item m p) = [] ∧ type (item m p) ≠ Type_Song) as Hall.
  { intros p. by destruct (empty_tree_item m p He) as [[_ ->]|[_ ->]]. }
  pose proof He as (_ & _ & _ & Hs & _ & Hd).
  split; [split; [by apply empty_tree_rows|split; [|split]]|split].
  - intros p c Hc. destruct (Hall p) as [Hn _]. rewrite Hn in Hc.
    by apply elem_of_nil in Hc.
  - intros c Ha Hroot. by destruct (empty_tree_item m c He) as [[? _]|[? _]].
  - intros p Hp. by destruct (Hall p).
  - intros k leaf. by rewrite Hs.
  - intros k d. by rewrite Hd.
Qed.

(** X18.  On a tended tree [RemoveSongs] returns: its loop over the emptied
    containers ends.  Afterwards the tree is tended; the index has lost the
    identifiers of the batch, and nothing else; the leaves of the batch are
    gone from the arena, and the leaf of every other song is there with its
    type, parent, key, level and record, as is every item that remains; no
    record is dropped, and the records of the batch replace those stored
    under their identifiers. *)
Theorem RemoveSongs_returns_and_spares_the_other_songs (songs : SongList) (m : Model) :
  tended m →
  ∃ m', RemoveSongs songs m = Some m'
        ∧ tended m'
        ∧ (∀ k, song_nodes_ m' !! k
                = if decide (k ∈ Song.id <$> songs) then None else song_nodes_ m !! k)
        ∧ (∀ k leaf, song_nodes_ m !! k = Some leaf →
                     if decide (k ∈ Song.id <$> songs) then ¬ allocated m' leaf
                     else allocated m' leaf
                          ∧ kept_part (item m' leaf) = kept_part (item m leaf))
        ∧ root_ m' = root_ m
        ∧ (∀ q, allocated m' q →
                allocated m q ∧ kept_part (item m' q) = kept_part (item m q))
        ∧ (∀ k, songs_ m' !! k
                = match songs_ m !! k with
                  | Some r =>
                      Some (match last_with k songs with Some s => s | None => r end)
                  | None => None
                  end).
Proof.
  intros HT. rewrite RemoveSongs_unfold.
  assert (parents_ok m []) as HP.
  { split; [apply NoDup_nil_2|]. intros q Hq. by apply elem_of_nil in Hq. }
  destruct (RemoveSongs_leaves_tended songs [] m HT HP)
    as (HT1 & HP1 & Hpr1 & Hs1 & Hgone).
  pose proof (RemoveSongs_leaves_songs_ songs [] m) as Hrec.
  destruct (foldl RemoveSongs_leaf ([], m) songs) as [ps m1]. cbn [fst snd] in *.
  unfold RemoveSongs_rest.
  destruct (RemoveSongs_parents_returns (S (size (heap m1))) ps [] m1 HT1 HP1)
    as (ks & m2 & Hrun & HT2 & Hpr2 & Hs2); [lia|].
  pose proof (RemoveSongs_rest_songs_ ps m1 (foldl RemoveSongs_divider m2 ks)) as Hrest.
  unfold RemoveSongs_rest in Hrest. rewrite Hrun in *. cbn in Hrest. cbn.
  destruct Hrest as [Hsongs _]; [done|].
  destruct (RemoveSongs_dividers_tended ks m2 HT2) as (HT3 & Hpr3 & Hs3).
  set (m' := foldl RemoveSongs_divider m2 ks) in *.
  assert (pruned m m') as Hpr.
  { apply (pruned_trans m m1); [done|]. by apply (pruned_trans m1 m2). }
  assert (∀ k, song_nodes_ m' !! k
               = if decide (k ∈ Song.id <$> songs) then None else song_nodes_ m !! k)
    as Hnodes by (intros k; by rewrite Hs3, Hs2, Hs1).
  exists m'. split; [done|]. split; [done|]. split; [done|].
  split; [|split; [apply Hpr|split; [apply Hpr|]]].
  - intros k leaf Hk. destruct (decide (k ∈ Song.id <$> songs)) as [Hin|Hin].
    + intros Ha.
      assert (pruned m1 m') as (_ & Hp1 & _) by by apply (pruned_trans m1 m2).
      destruct (Hp1 leaf Ha) as [Ha1 _]. by apply (Hgone k leaf).
    + assert (song_nodes_ m' !! k = Some leaf) as Hk'
        by (rewrite Hnodes; by rewrite decide_False).
      destruct HT3 as (_ & Hl3 & _). destruct (Hl3 k leaf Hk') as (Ha & _).
      split; [done|]. by apply Hpr.
  - intros k. by rewrite Hsongs, Hrec.
Qed.

(** X19.  On a tended tree [RemoveSongs] signals nothing but removals of
    rows, one [beginRemoveRows] and one [endRemoveRows] for each item it
    deletes: the rows it announces are as many as the items that have left
    the arena.  It allocates nothing and leaves the root. *)
Theorem RemoveSongs_announces_each_item_it_deletes (songs : SongList) (m : Model) :
  tended m →
  ∃ m' l, RemoveSongs songs m = Some m'
          ∧ signals_ m' = signals_ m ++ removal_signals l
          ∧ (size (heap m') + length l = size (heap m))%nat
          ∧ (∀ q, allocated m' q → allocated m q)
          ∧ root_ m' = root_ m.
Proof.
  intros HT. rewrite RemoveSongs_unfold.
  assert (parents_ok m []) as HP.
  { split; [apply NoDup_nil_2|]. intros q Hq. by apply elem_of_nil in Hq. }
  destruct (RemoveSongs_leaves_tended songs [] m HT HP) as (HT1 & HP1 & Hpr1 & _).
  destruct (foldl RemoveSongs_leaf ([], m) songs) as [ps m1]. cbn [fst snd] in *.
  unfold RemoveSongs_rest.
  destruct (RemoveSongs_parents_returns (S (size (heap m1))) ps [] m1 HT1 HP1)
    as (ks & m2 & Hrun & HT2 & Hpr2 & _); [lia|].
  rewrite Hrun. cbn.
  destruct (RemoveSongs_dividers_tended ks m2 HT2) as (_ & Hpr3 & _).
  set (m' := foldl RemoveSongs_divider m2 ks) in *.
  assert (pruned m m') as (Hroot & Hkeep & l & Hsig & Hsize).
  { apply (pruned_trans m m1); [done|]. by apply (pruned_trans m1 m2). }
  exists m', l. split; [done|]. split; [done|]. split; [done|].
  split; [|done]. intros q Hq. by destruct (Hkeep q Hq).
Qed.

Lemma song_nodes_AddSongs_other songs m k :
  k ∉ Song.id <$> songs → song_nodes_ (AddSongs songs m) !! k = song_nodes_ m !! k.
Proof.
  unfold AddSongs. revert m. induction songs as [|x l IH]; intros m Hk; [done|].
  cbn [foldl]. rewrite fmap_cons in Hk. apply not_elem_of_cons in Hk as [Hne Hk].
  rewrite (IH _ Hk).
  destruct (Matches x) eqn:Hm; [|by rewrite AddSong_skipped by auto].
  destruct (song_nodes_ m !! Song.id x) eqn:Hs; [by rewrite AddSong_skipped by eauto|].
  destruct (AddSong_added x m Hm Hs) as (leaf & _ & -> & _).
  by rewrite lookup_insert_ne.
Qed.

(** X20.  [AddSongs] of a batch and then [RemoveSongs] of the same batch, on
    a well-formed and tended tree: [RemoveSongs] returns, and the songs that
    are left are those of the tree whose identifiers are not in the batch,
    each at the leaf it had, with the type, parent, key, level and record it
    had.  No other item of the tree is a song: on a tree that was empty no
    song is left. *)
Theorem AddSongs_then_RemoveSongs_takes_the_batch_out (songs : SongList) (m : Model) :
  Inv (λ _, True) m → tended m →
  ∃ m', RemoveSongs songs (AddSongs songs m) = Some m'
        ∧ tended m'
        ∧ (∀ k, song_nodes_ m' !! k
                = if decide (k ∈ Song.id <$> songs) then None else song_nodes_ m !! k)
        ∧ (∀ k leaf, song_nodes_ m !! k = Some leaf → k ∉ Song.id <$> songs →
                     allocated m' leaf
                     ∧ kept_part (item m' leaf) = kept_part (item m leaf))
        ∧ (∀ q, type (item m' q) = Type_Song →
                ∃ k, (k ∉ Song.id <$> songs) ∧ song_nodes_ m !! k = Some q).
Proof.
  intros HI HT.
  assert (Inv (λ _, True) (AddSongs songs m)) as HIA by by apply AddSongs_Inv.
  assert (tended (AddSongs songs m)) as HTA by by apply (AddSongs_tended (λ _, True)).
  pose proof (older_AddSongs m songs m (older_refl m)) as [_ Hold].
  pose proof (song_nodes_AddSongs_other songs m) as Hother.
  set (mA := AddSongs songs m) in *.
  rewrite RemoveSongs_unfold.
  assert (parents_ok mA []) as HP.
  { split; [apply NoDup_nil_2|]. intros q Hq. by apply elem_of_nil in Hq. }
  destruct (RemoveSongs_leaves_tended songs [] mA HTA HP)
    as (HT1 & HP1 & Hpr1 & Hs1 & Hgone).
  destruct (foldl RemoveSongs_leaf ([], mA) songs) as [ps m1]. cbn [fst snd] in *.
  unfold RemoveSongs_rest.
  destruct (RemoveSongs_parents_returns (S (size (heap m1))) ps [] m1 HT1 HP1)
    as (ks & m2 & Hrun & HT2 & Hpr2 & Hs2); [lia|].
  rewrite Hrun. cbn.
  destruct (RemoveSongs_dividers_tended ks m2 HT2) as (HT3 & Hpr3 & Hs3).
  set (m' := foldl RemoveSongs_divider m2 ks) in *.
  assert (pruned m1 m') as (_ & Hkeep1 & _) by by apply (pruned_trans m1 m2).
  assert (pruned mA m') as (_ & Hkeep & _).
  { apply (pruned_trans mA m1); [done|]. by apply (pruned_trans m1 m2). }
  assert (∀ k, song_nodes_ m' !! k
               = if decide (k ∈ Song.id <$> songs) then None else song_nodes_ m !! k)
    as Hnodes.
  { intros k. rewrite Hs3, Hs2, Hs1. case_decide; [done|]. by apply Hother. }
  exists m'. split; [done|]. split; [done|]. split; [done|]. split.
  - intros k leaf Hk Hin.
    assert (song_nodes_ m' !! k = Some leaf) as Hk'
      by (rewrite Hnodes; by rewrite decide_False).
    destruct HT3 as (_ & Hl3 & _). destruct (Hl3 k leaf Hk') as (Ha & _).
    split; [done|]. destruct (Hkeep leaf Ha) as [_ ->].
    destruct HT as (_ & Hl & _). destruct (Hl k leaf Hk) as (Ha0 & _).
    destruct (Hold leaf) as (Hfix & _); [by apply (inv_fresh _ m HI)|].
    unfold fixed_part in Hfix. unfold kept_part.
    by injection Hfix as -> _ -> -> _ _ -> ->.
  - intros q Hq.
    assert (allocated m' q) as Ha by (apply type_allocated; by rewrite Hq).
    destruct (Hkeep q Ha) as [HaA Hk]. unfold kept_part in Hk.
    injection Hk as Hty _ _ _ Hmd. rewrite Hq in Hty.
    destruct (inv_songs _ mA HIA q) as [Hidx _]; [done|].
    set (k := Song.id (metadata (item mA q))) in *. exists k.
    destruct (decide (k ∈ Song.id <$> songs)) as [Hin|Hin].
    + exfalso. apply (Hgone k q Hidx Hin). by apply Hkeep1.
    + split; [done|]. by rewrite <- Hother.
Qed.

End Tended.

Section Tended_witness.
#[local] Existing Instance Sample.external.

Lemma RemoveSongs_returns_and_spares_the_other_songs_witness :
  let m := AddSongs arrival_and_jazz (Sample.empty_model by_albumartist_album true) in
  let songs := take 2 arrival_and_jazz in
  tended m
  ∧ ∃ m', RemoveSongs songs m = Some m'
          ∧ tended m'
          ∧ (∀ k, song_nodes_ m' !! k
                  = if decide (k ∈ Song.id <$> songs) then None else song_nodes_ m !! k)
          ∧ (∀ k leaf, song_nodes_ m !! k = Some leaf →
                       if decide (k ∈ Song.id <$> songs) then ¬ allocated m' leaf
                       else allocated m' leaf
                            ∧ kept_part (item m' leaf) = kept_part (item m leaf))
          ∧ root_ m' = root_ m
          ∧ (∀ q, allocated m' q →
                  allocated m q ∧ kept_part (item m' q) = kept_part (item m q))
          ∧ (∀ k, songs_ m' !! k
                  = match songs_ m !! k with
                    | Some r =>
                        Some (match last_with k songs with Some s => s | None => r end)
                    | None => None
                    end).
Proof.
  intros m songs.
  assert (tended m) as HT.
  { apply (AddSongs_tended (λ _, True)); [|done|].
    - apply empty_tree_Inv, empty_tree_empty_model.
    - apply empty_tree_tended, empty_tree_empty_model. }
  split; [exact HT|].
  exact (RemoveSongs_returns_and_spares_the_other_songs songs m HT).
Defined.

Lemma RemoveSongs_announces_each_item_it_deletes_witness :
  let m := AddSongs arrival_and_jazz (Sample.empty_model by_albumartist_album true) in
  let songs := take 2 arrival_and_jazz in
  tended m
  ∧ ∃ m' l, RemoveSongs songs m = Some m'
            ∧ signals_ m' = signals_ m ++ removal_signals l
            ∧ (size (heap m') + length l = size (heap m))%nat
            ∧ (∀ q, allocated m' q → allocated m q)
            ∧ root_ m' = root_ m.
Proof.
  intros m songs.
  assert (tended m) as HT.
  { apply (AddSongs_tended (λ _, True)); [|done|].
    - apply empty_tree_Inv, empty_tree_empty_model.
    - apply empty_tree_tended, empty_tree_empty_model. }
  split; [exact HT|].
  exact (RemoveSongs_announces_each_item_it_deletes songs m HT).
Defined.

Lemma AddSongs_then_RemoveSongs_takes_the_batch_out_witness :
  let m := Sample.empty_model by_albumartist_album true in
  let songs := arrival_and_jazz in
  Inv (λ _, True) m ∧ tended m
  ∧ ∃ m', RemoveSongs songs (AddSongs songs m) = Some m'
          ∧ tended m'
          ∧ (∀ k, song_nodes_ m' !! k
                  = if decide (k ∈ Song.id <$> songs) then None else song_nodes_ m !! k)
          ∧ (∀ k leaf, song_nodes_ m !! k = Some leaf → k ∉ Song.id <$> songs →
                       allocated m' leaf
                       ∧ kept_part (item m' leaf) = kept_part (item m leaf))
          ∧ (∀ q, type (item m' q) = Type_Song →
                  ∃ k, (k ∉ Song.id <$> songs) ∧ song_nodes_ m !! k = Some q).
Proof.
  intros m songs.
  assert (Inv (λ _, True) m) as HI by apply empty_tree_Inv, empty_tree_empty_model.
  assert (tended m) as HT by apply empty_tree_tended, empty_tree_empty_model.
  split; [exact HI|]. split; [exact HT|].
  exact (AddSongs_then_RemoveSongs_takes_the_batch_out songs m HI HT).
Defined.

End Tended_witness.

(** ** A batch with a song that has no leaf *)

Section Batch_with_untracked.
Context `{External}.

Lemma last_with_app k l1 l2 :
  last_with k (l1 ++ l2)
  = match last_with k l2 with
    | Some x => Some x
    | None => last_with k l1
    end.
Proof.
  induction l1 as [|s l1 IH]; cbn [app].
  - cbn [last_with]. by destruct (last_with k l2).
  - rewrite !last_with_cons, IH. by destruct (last_with k l2).
Qed.

Lemma last_with_here l1 u l2 :
  last_with (Song.id u) (l1 ++ u :: l2)
  = Some (match last_with (Song.id u) l2 with Some s => s | None => u end).
Proof.
  rewrite last_with_app, last_with_cons.
  destruct (last_with (Song.id u) l2); [done|]. by rewrite decide_True.
Qed.

Lemma RemoveSongs_leaves_log songs ps m :
  log_ (foldl RemoveSongs_leaf (ps, m) songs).2 = log_ m.
Proof.
  revert ps m. induction songs as [|x l IH]; intros ps m; [done|]. cbn [foldl].
  assert (log_ (RemoveSongs_leaf (ps, m) x).2 = log_ m) as Hx.
  { unfold RemoveSongs_leaf, upsert_known, Delete. repeat case_match; done. }
  destruct (RemoveSongs_leaf (ps, m) x) as [ps1 m1]. cbn [snd] in Hx.
  by rewrite IH.
Qed.

(** [RemoveSongs] on a tended tree: it returns, the index has lost the
    identifiers of the batch and nothing else, the leaves of the batch are
    gone, and nothing is logged. *)
Lemma RemoveSongs_tended_run songs m :
  tended m →
  ∃ m', RemoveSongs songs m = Some m'
        ∧ tended m'
        ∧ (∀ k, song_nodes_ m' !! k
                = if decide (k ∈ Song.id <$> songs) then None else song_nodes_ m !! k)
        ∧ (∀ k leaf, song_nodes_ m !! k = Some leaf → k ∈ Song.id <$> songs →
                     ¬ allocated m' leaf)
        ∧ (∀ k, songs_ m' !! k
                = match songs_ m !! k with
                  | Some r =>
                      Some (match last_with k songs with Some s => s | None => r end)
                  | None => None
                  end)
        ∧ log_ m' = log_ m.
Proof.
  intros HT. rewrite RemoveSongs_unfold.
  assert (parents_ok m []) as HP.
  { split; [apply NoDup_nil_2|]. intros q Hq. by apply elem_of_nil in Hq. }
  destruct (RemoveSongs_leaves_tended songs [] m HT HP)
    as (HT1 & HP1 & Hpr1 & Hs1 & Hgone).
  pose proof (RemoveSongs_leaves_songs_ songs [] m) as Hrec.
  pose proof (RemoveSongs_leaves_log songs [] m) as Hlog.
  destruct (foldl RemoveSongs_leaf ([], m) songs) as [ps m1]. cbn [fst snd] in *.
  unfold RemoveSongs_rest.
  destruct (RemoveSongs_parents_returns (S (size (heap m1))) ps [] m1 HT1 HP1)
    as (ks & m2 & Hrun & HT2 & Hpr2 & Hs2); [lia|].
  pose proof (RemoveSongs_rest_songs_ ps m1 (foldl RemoveSongs_divider m2 ks)) as Hrest.
  unfold RemoveSongs_rest in Hrest. rewrite Hrun in *. cbn in Hrest. cbn.
  destruct Hrest as [Hsongs Hlog']; [done|].
  destruct (RemoveSongs_dividers_tended ks m2 HT2) as (HT3 & Hpr3 & Hs3).
  set (m' := foldl RemoveSongs_divider m2 ks) in *.
  exists m'. split; [done|]. split; [done|]. split; [|split; [|split]].
  - intros k. by rewrite Hs3, Hs2, Hs1.
  - intros k leaf Hk Hin Ha.
    assert (pruned m1 m') as (_ & Hp1 & _) by by apply (pruned_trans m1 m2).
    destruct (Hp1 leaf Ha) as [Ha1 _]. by apply (Hgone k leaf).
  - intros k. by rewrite Hsongs, Hrec.
  - by rewrite Hlog'.
Qed.

(** C9 (amended).  Let a batch hold a song [u] that has no leaf in the
    index.  [UpdateSongs] on the batch leaves the tree, its tables and the
    signals as on the batch without [u], and the stored records too but for
    the record of [u]; with every leaf of the index under a parent, it logs
    one error for each song without leaf, [u] among them.  [RemoveSongs] on
    the batch returns what it returns on the batch without [u], but for the
    stored record of [u].  The songs that come after [u] are gone through: on
    a tree with one leaf for each identifier, [UpdateSongs] emits the
    [dataChanged] of the songs of the batch other than [u], and every leaf
    holds the last song of the batch with its identifier; on a tended tree
    [RemoveSongs] returns on both batches, logs nothing, takes the
    identifiers of the batch out of the index and the leaves of the batch out
    of the tree.  The song [u] is not passed over altogether: where a record
    is stored for its identifier, both operations replace it, by [u] or by
    the last song of the batch after [u] with its identifier. *)
Theorem untracked_song_is_skipped_and_the_batch_goes_on l1 u l2 m :
  song_nodes_ m !! Song.id u = None →
  same_but (Song.id u) (UpdateSongs (l1 ++ u :: l2) m) (UpdateSongs (l1 ++ l2) m)
  ∧ (leaves_have_parents m →
       log_ (UpdateSongs (l1 ++ u :: l2) m)
       = log_ m ++ map Error_SongDoesNotExistInModel
                     (filter (λ s, untracked (song_nodes_ m) s = true) l1)
               ++ Error_SongDoesNotExistInModel u
                  :: map Error_SongDoesNotExistInModel
                       (filter (λ s, untracked (song_nodes_ m) s = true) l2))
  ∧ (∃ s,
       RemoveSongs (l1 ++ u :: l2) m = with_songs_ s <$> RemoveSongs (l1 ++ l2) m
       ∧ ∀ m2, RemoveSongs (l1 ++ l2) m = Some m2 →
               ∀ k, k ≠ Song.id u → s !! k = songs_ m2 !! k)
  ∧ (leaves_indexed m →
       signals_ (UpdateSongs (l1 ++ u :: l2) m) = signals_ m ++ changes m [] (l1 ++ l2)
       ∧ (∀ k leaf, song_nodes_ m !! k = Some leaf →
                    metadata (item (UpdateSongs (l1 ++ u :: l2) m) leaf)
                    = match last_with k (l1 ++ l2) with
                      | Some s => s
                      | None => metadata (item m leaf)
                      end)
       ∧ songs_ (UpdateSongs (l1 ++ u :: l2) m) !! Song.id u
         = match songs_ m !! Song.id u with
           | Some _ =>
               Some (match last_with (Song.id u) l2 with Some s => s | None => u end)
           | None => None
           end)
  ∧ (tended m →
       ∃ m1 m2,
         RemoveSongs (l1 ++ u :: l2) m = Some m1
         ∧ RemoveSongs (l1 ++ l2) m = Some m2
         ∧ m1 = with_songs_ (songs_ m1) m2
         ∧ (∀ k, k ≠ Song.id u → songs_ m1 !! k = songs_ m2 !! k)
         ∧ log_ m1 = log_ m
         ∧ (∀ k, song_nodes_ m1 !! k
                 = if decide (k ∈ Song.id <$> l1 ++ l2) then None
                   else song_nodes_ m !! k)
         ∧ (∀ k leaf, song_nodes_ m !! k = Some leaf → k ∈ Song.id <$> l1 ++ l2 →
                      ¬ allocated m1 leaf)
         ∧ songs_ m1 !! Song.id u
           = match songs_ m !! Song.id u with
             | Some _ =>
                 Some (match last_with (Song.id u) l2 with Some s => s | None => u end)
             | None => None
             end).
Proof.
  intros Hu.
  pose proof (UpdateSongs_untracked_same_but l1 u l2 m Hu) as Hsame.
  pose proof (RemoveSongs_untracked_with_songs_ l1 u l2 m Hu) as Hrem.
  split; [exact Hsame|]. split; [|split; [exact Hrem|split]].
  - intros Hl. rewrite UpdateSongs_log by done.
    rewrite filter_app, filter_cons_True
      by (unfold untracked; by rewrite bool_decide_eq_true_2).
    by rewrite map_app.
  - intros HJ. destruct Hsame as [Htree _].
    assert (signals_ (UpdateSongs (l1 ++ u :: l2) m)
            = signals_ (UpdateSongs (l1 ++ l2) m)) as Hsig
      by (unfold tree_of in Htree; by injection Htree).
    assert (heap (UpdateSongs (l1 ++ u :: l2) m) = heap (UpdateSongs (l1 ++ l2) m))
      as Hheap by (unfold tree_of in Htree; by injection Htree).
    destruct (UpdateSongs_records (l1 ++ l2) m HJ) as (Hmd & _).
    destruct (UpdateSongs_records (l1 ++ u :: l2) m HJ) as (_ & Hrec & _).
    split; [|split].
    + rewrite Hsig. exact (UpdateSongs_changes m (l1 ++ l2) [] HJ).
    + intros k leaf Hk. unfold item. rewrite Hheap. exact (Hmd k leaf Hk).
    + rewrite Hrec, last_with_here. by destruct (songs_ m !! Song.id u).
  - intros HT.
    destruct (RemoveSongs_tended_run (l1 ++ l2) m HT)
      as (m2 & Hrun2 & _ & Hnodes & Hgone & _ & Hlog).
    destruct (RemoveSongs_tended_run (l1 ++ u :: l2) m HT)
      as (m1 & Hrun1 & _ & _ & _ & Hrec & _).
    destruct Hrem as (s & Hs & Hagree). rewrite Hrun1, Hrun2 in Hs. cbn in Hs.
    injection Hs as Hs.
    exists m1, m2. split; [done|]. split; [done|].
    assert (songs_ m1 = s) as Hs1 by by rewrite Hs.
    split; [by rewrite Hs1|]. split; [|split; [|split; [|split]]].
    + intros k Hk. rewrite Hs1. by apply (Hagree m2).
    + by rewrite Hs.
    + intros k. rewrite Hs. exact (Hnodes k).
    + intros k leaf Hk Hin. rewrite Hs. by apply (Hgone k leaf).
    + rewrite Hrec, last_with_here. by destruct (songs_ m !! Song.id u).
Qed.

End Batch_with_untracked.

Section Batch_with_untracked_witness.
#[local] Existing Instance Sample.external.

Lemma untracked_song_is_skipped_and_the_batch_goes_on_witness :
  let m := AddSongs arrival_and_jazz (Sample.empty_model by_albumartist_album true) in
  let l1 := take 1 retitled in
  let l2 := take 1 (drop 1 retitled) in
  song_nodes_ m !! Song.id bicycle_race = None
  ∧ leaves_indexed m ∧ tended m
  ∧ signals_ (UpdateSongs (l1 ++ bicycle_race :: l2) m)
    = signals_ m ++ changes m [] (l1 ++ l2)
  ∧ changes m [] (l1 ++ l2)
    = [dataChanged (Index 0 5) (Index 0 5); dataChanged (Index 1 10) (Index 1 10)]
  ∧ log_ (UpdateSongs (l1 ++ bicycle_race :: l2) m)
    = log_ m ++ [Error_SongDoesNotExistInModel bicycle_race]
  ∧ ∃ m1 m2,
      RemoveSongs (l1 ++ bicycle_race :: l2) m = Some m1
      ∧ RemoveSongs (l1 ++ l2) m = Some m2
      ∧ m1 = with_songs_ (songs_ m1) m2
      ∧ song_nodes_ m1 !! 1 = None ∧ song_nodes_ m1 !! 3 = None
      ∧ song_nodes_ m1 !! 2 = song_nodes_ m !! 2
      ∧ ¬ allocated m1 5%nat ∧ ¬ allocated m1 10%nat.
Proof.
  intros m l1 l2.
  assert (song_nodes_ m !! Song.id bicycle_race = None) as Hu
    by (vm_compute; reflexivity).
  assert (Inv (λ _, True) m) as HI.
  { apply AddSongs_Inv; [|done]. apply empty_tree_Inv, empty_tree_empty_model. }
  assert (leaves_indexed m) as HJ by exact (Inv_leaves_indexed _ m HI).
  assert (tended m) as HT.
  { apply (AddSongs_tended (λ _, True)); [|done|].
    - apply empty_tree_Inv, empty_tree_empty_model.
    - apply empty_tree_tended, empty_tree_empty_model. }
  destruct (untracked_song_is_skipped_and_the_batch_goes_on l1 bicycle_race l2 m Hu)
    as (_ & Hlog & _ & Hupd & Hrem).
  destruct (Hupd HJ) as (Hsig & _).
  destruct (Hrem HT) as (m1 & m2 & Hr1 & Hr2 & Heq & _ & _ & Hnodes & Hgone & _).
  split; [exact Hu|]. split; [exact HJ|]. split; [exact HT|].
  split; [exact Hsig|]. split; [vm_compute; reflexivity|].
  split.
  { rewrite (Hlog (proj1 HJ)). f_equal. }
  exists m1, m2. split; [exact Hr1|]. split; [exact Hr2|]. split; [exact Heq|].
  assert (song_nodes_ m !! 1 = Some 5%nat) as H1 by (vm_compute; reflexivity).
  assert (song_nodes_ m !! 3 = Some 10%nat) as H3 by (vm_compute; reflexivity).
  assert (1 ∈ Song.id <$> l1 ++ l2) as I1 by (vm_compute; apply elem_of_cons; by left).
  assert (3 ∈ Song.id <$> l1 ++ l2) as I3
    by (vm_compute; apply elem_of_cons; right; apply elem_of_cons; by left).
  assert (¬ 2 ∈ Song.id <$> l1 ++ l2) as I2.
  { vm_compute. intros Hin. apply elem_of_cons in Hin as [Hin|Hin]; [discriminate|].
    apply elem_of_cons in Hin as [Hin|Hin]; [discriminate|]. by apply elem_of_nil in Hin. }
  split; [rewrite Hnodes; by rewrite decide_True|].
  split; [rewrite Hnodes; by rewrite decide_True|].
  split; [rewrite Hnodes; by rewrite decide_False|].
  split; [exact (Hgone 1 5%nat H1 I1)|exact (Hgone 3 10%nat H3 I3)].
Defined.

(** A song that was added and then removed has a stored record and no
    leaf.  [UpdateSongs] and [RemoveSongs] on a batch that holds it alone
    replace the stored record, where the empty batch leaves it. *)
Lemma known_song_without_leaf_has_its_record_replaced :
  let m0 := AddSongs arrival_and_jazz (Sample.empty_model by_albumartist_album true) in
  let u := Sample.song 1 "Abba" "Arrival" "Money" 1 3 1976 in
  ∃ m, RemoveSongs (take 1 arrival_and_jazz) m0 = Some m
       ∧ song_nodes_ m !! Song.id u = None
       ∧ songs_ (UpdateSongs [] m) !! Song.id u = nth_error arrival_and_jazz 0
       ∧ songs_ (UpdateSongs [u] m) !! Song.id u = Some u
       ∧ Some u ≠ nth_error arrival_and_jazz 0
       ∧ (songs_ <$> RemoveSongs [u] m) ≠ (songs_ <$> RemoveSongs [] m).
Proof.
  intros m0 u.
  destruct (RemoveSongs (take 1 arrival_and_jazz) m0) as [m|] eqn:Hm;
    [|by vm_compute in Hm].
  exists m. split; [done|].
  vm_compute in Hm. injection Hm as <-.
  split; [vm_compute; reflexivity|]. split; [vm_compute; reflexivity|].
  split; [vm_compute; reflexivity|]. split; [vm_compute; discriminate|].
  vm_compute. discriminate.
Qed.

End Batch_with_untracked_witness.

(** ** Where [AddSongs] puts a song *)

Section Path.
Context `{External}.

Lemma path_key_no_level g sep s i n key_ :
  levels_from g i n = 0 → path_key g sep s i n key_ = key_.
Proof.
  destruct n as [|n]; [done|]. cbn [levels_from path_key].
  destruct (GroupBy.eqb _ _); [done|].
  assert (0 ≤ levels_from g (i + 1) n); [|lia].
  clear. revert i. induction n as [|n IH]; intros i; cbn [levels_from]; [done|].
  destruct (GroupBy.eqb _ _); [done|]. specialize (IH (i + 1)). lia.
Qed.

Lemma levels_from_nonneg g i n : 0 ≤ levels_from g i n.
Proof.
  revert i. induction n as [|n IH]; intros i; cbn [levels_from]; [done|].
  destruct (GroupBy.eqb _ _); [done|]. specialize (IH (i + 1)). lia.
Qed.

Lemma frame_separate_albums_by_grouping_ (m m' : Model) :
  frame m' = frame m → separate_albums_by_grouping_ m' = separate_albums_by_grouping_ m.
Proof. unfold frame. intros Hf. by injection Hf. Qed.

Lemma length_container_nodes_AddSongs_container n i song c k m :
  length (container_nodes_ (AddSongs_container n i song c k m).2)
  = length (container_nodes_ m).
Proof.
  revert i c k m. induction n as [|n IH]; intros i c k m; cbn [AddSongs_container];
    [done|].
  destruct (GroupBy.eqb _ _); [done|]. destruct (_ && _).
  - rewrite IH. destruct (decide _); [|done].
    pose proof (tree_tables_CreateCompilationArtistNode true c m) as Ht.
    unfold tree_tables in Ht.
    assert (container_nodes_ (CreateCompilationArtistNode true c m).2
            = container_nodes_ m) as -> by congruence. done.
  - destruct (_ !! _); [by rewrite IH|].
    pose proof (container_nodes_ItemFromSong (Grouping_at (group_by_ m) i)
                  (separate_albums_by_grouping_ m) true (i =? 0) c song i m) as Hi.
    destruct (ItemFromSong _ _ _ _ _ _ _ _) as [q m1]. cbn [snd] in Hi.
    by rewrite IH, length_with_container_nodes_at, Hi.
Qed.

Lemma length_container_nodes_AddSong song m :
  length (container_nodes_ (AddSong song m)) = length (container_nodes_ m).
Proof.
  unfold AddSong. set (m0 := with_songs_ _ m).
  destruct (negb _); [done|]. destruct (bool_decide _); [done|].
  pose proof (length_container_nodes_AddSongs_container 3 0 song (root_ m0) [] m0) as Hc.
  destruct (AddSongs_container _ _ _ _ _ _) as [c m1]. cbn [snd] in Hc.
  pose proof (container_nodes_ItemFromSong GroupBy.None (separate_albums_by_grouping_ m1)
                true false c song (-1) m1) as Hi.
  destruct (ItemFromSong _ _ _ _ _ _ _ _) as [leaf m2]. cbn [snd] in Hi.
  cbn. by rewrite Hi, Hc.
Qed.

(** The container that the loop of [AddSongs] reaches for a song that is
    not of a compilation is the entry of the key of the song in the table of
    the last grouping level. *)
Lemma AddSongs_container_path n i s container key_ m :
  is_compilation s = false → length (container_nodes_ m) = 3%nat →
  Z.of_nat n + i = 3 → 0 ≤ i →
  let c' := (AddSongs_container n i s container key_ m).1 in
  let m' := (AddSongs_container n i s container key_ m).2 in
  let levels := levels_from (group_by_ m) i n in
  (levels = 0 ∧ c' = container ∧ m' = m)
  ∨ (0 < levels
     ∧ container_nodes_at m' (i + levels - 1)
         !! path_key (group_by_ m) (separate_albums_by_grouping_ m) s i n key_
       = Some c').
Proof.
  intros Hcomp. revert i container key_ m.
  induction n as [|n IH]; intros i container key_ m Hlen Hn Hi;
    cbn [AddSongs_container levels_from path_key]; [by left|].
  destruct (GroupBy.eqb (Grouping_at (group_by_ m) i) GroupBy.None) eqn:Hgb; [by left|].
  right. rewrite Hcomp, andb_false_r.
  pose proof (levels_from_nonneg (group_by_ m) (i + 1) n) as Hnn.
  split; [lia|].
  set (k := (if negb (isEmpty key_) then key_ ++ qs "-" else key_)
            ++ ContainerKey (Grouping_at (group_by_ m) i)
                 (separate_albums_by_grouping_ m) s).
  destruct (container_nodes_at m i !! k) as [c|] eqn:Hcn.
  - destruct (IH (i + 1) c k m Hlen) as [(Hl0 & -> & ->)|[Hpos Hk]]; [lia|lia| |].
    + rewrite Hl0, path_key_no_level by done.
      by replace (i + (1 + 0) - 1) with i by lia.
    + by replace (i + (1 + levels_from (group_by_ m) (i + 1) n) - 1)
        with (i + 1 + levels_from (group_by_ m) (i + 1) n - 1) by lia.
  - pose proof (container_nodes_ItemFromSong (Grouping_at (group_by_ m) i)
                  (separate_albums_by_grouping_ m) true (i =? 0) container s i m) as Hc1.
    pose proof (frame_ItemFromSong (Grouping_at (group_by_ m) i)
                  (separate_albums_by_grouping_ m) true (i =? 0) container s i m) as Hfr.
    destruct (ItemFromSong _ _ _ _ _ _ _ _) as [c m1]. cbn [fst snd] in *.
    set (m2 := with_container_nodes_at i (<[k:=c]> (container_nodes_at m1 i)) m1).
    assert (length (container_nodes_ m2) = 3%nat) as Hlen2
      by (unfold m2; by rewrite length_with_container_nodes_at, Hc1).
    assert (group_by_ m2 = group_by_ m
            ∧ separate_albums_by_grouping_ m2 = separate_albums_by_grouping_ m)
      as [Hg2 Hs2].
    { rewrite <- (frame_group_by_ _ _ Hfr),
        <- (frame_separate_albums_by_grouping_ _ _ Hfr).
      unfold m2, with_container_nodes_at. by destruct (i <? 0). }
    destruct (IH (i + 1) c k m2 Hlen2) as [(Hl0 & Hc' & Hm')|[Hpos Hk]]; [lia|lia| |].
    + rewrite Hc', Hm'. rewrite Hg2 in Hl0. rewrite Hl0, path_key_no_level by done.
      replace (i + (1 + 0) - 1) with i by lia.
      unfold m2.
      rewrite container_nodes_at_with_in_range; [|done|rewrite Hc1, Hlen; lia].
      rewrite decide_True by done. apply lookup_insert_eq.
    + rewrite Hg2, Hs2 in Hk.
      by replace (i + (1 + levels_from (group_by_ m) (i + 1) n) - 1)
        with (i + 1 + levels_from (group_by_ m) (i + 1) n - 1) by lia.
Qed.

(** The leaf that [AddSong] makes for a song that is not of a compilation
    hangs under the entry of the key of the song in the table of the last
    grouping level, or under the root when there is no grouping. *)
Lemma AddSong_path ok s m :
  Inv ok m → length (container_nodes_ m) = 3%nat →
  Matches s = true → song_nodes_ m !! Song.id s = None → is_compilation s = false →
  ∃ leaf,
    song_nodes_ (AddSong s m) = <[Song.id s := leaf]> (song_nodes_ m)
    ∧ (leaf < next_ptr (AddSong s m))%nat
    ∧ if decide (depth (group_by_ m) = 0)
      then parent (item (AddSong s m) leaf) = root_ m
      else container_nodes_at (AddSong s m) (depth (group_by_ m) - 1)
             !! path_key (group_by_ m) (separate_albums_by_grouping_ m) s 0 3 []
           = Some (parent (item (AddSong s m) leaf)).
Proof.
  intros HI Hlen Hm Hs Hcomp. unfold AddSong. rewrite Hm. cbn [negb].
  set (m0 := with_songs_ (<[Song.id s:=s]> (songs_ m)) m).
  change (song_nodes_ m0) with (song_nodes_ m).
  rewrite bool_decide_eq_false_2 by (rewrite Hs; by intros [? ?]).
  assert (Inv ok m0) as HI0
    by (apply (Inv_same_items ok m); [apply same_items_with_songs_|done|done]).
  destruct (inv_root ok m0 HI0) as (Hr & _ & Hl).
  destruct (AddSongs_container_Inv ok 3 0 s (root_ m0) [] m0)
    as (HI1 & Ha1 & Hh1 & Hn1); try done; [by left|].
  pose proof (AddSongs_container_path 3 0 s (root_ m0) [] m0 Hcomp Hlen eq_refl
                (Z.le_refl 0)) as Hpath.
  cbn zeta in Hpath.
  change (group_by_ m0) with (group_by_ m) in Hpath.
  change (separate_albums_by_grouping_ m0) with (separate_albums_by_grouping_ m) in Hpath.
  fold (depth (group_by_ m)) in Hpath.
  destruct (AddSongs_container 3 0 s (root_ m0) [] m0) as [c m1].
  cbn [fst snd] in *.
  pose proof (inv_fresh ok m1 HI1) as Hf1.
  destruct (inv_root ok m1 HI1) as (Hr1 & _).
  destruct (ItemFromSong_grown GroupBy.None (separate_albums_by_grouping_ m1) true false
              c s (-1) m1 Hf1 Ha1 Hr1) as (Hp & m1' & Hg & _ & _ & _ & Hfin).
  pose proof (container_nodes_ItemFromSong GroupBy.None (separate_albums_by_grouping_ m1)
                true false c s (-1) m1) as Hcn.
  pose proof (records_ItemFromSong GroupBy.None (separate_albums_by_grouping_ m1)
                true false c s (-1) m1) as Hrec.
  destruct (ItemFromSong _ _ _ _ _ _ _ _) as [leaf m2]. cbn [fst snd] in *.
  subst leaf. exists (next_ptr m1).
  unfold records in Hrec.
  assert (song_nodes_ m2 = song_nodes_ m1) as Hsn by congruence.
  set (m3 := with_song_nodes_ (<[Song.id s:=next_ptr m1]> (song_nodes_ m2)) m2).
  assert (parent (item m3 (next_ptr m1)) = c ∧ (next_ptr m1 < next_ptr m3)%nat)
    as [Hpar Hlt].
  { change (item m3 (next_ptr m1)) with (item m2 (next_ptr m1)).
    change (next_ptr m3) with (next_ptr m2).
    pose proof (grown_new_parent _ _ _ _ _ Hg) as Hpar.
    pose proof (grown_next _ _ _ _ _ Hg) as Hnext.
    destruct Hfin as [Hsame|Hg2].
    - rewrite (same_items_item m1' m2 _ Hsame).
      destruct Hsame as (_ & -> & _). split; [done|lia].
    - rewrite (grown_others _ _ _ _ _ Hg2), (grown_next _ _ _ _ _ Hg2); [split; [done|lia]| |].
      + lia.
      + rewrite (frame_root_ _ _ (grown_frame _ _ _ _ _ Hg)).
        intros Heq. apply Hf1 in Hr1. lia. }
  split; [unfold m3; cbn; by rewrite Hsn, Hn1|]. split; [done|].
  rewrite Hpar.
  destruct Hpath as [(Hl0 & -> & ->)|[Hpos Hk]].
  - rewrite decide_True by done. done.
  - rewrite decide_False by lia.
    assert (∀ j, container_nodes_at m3 j = container_nodes_at m1 j) as ->
      by (intros j; unfold container_nodes_at, m3; cbn; by rewrite Hcn).
    by replace (depth (group_by_ m) - 1) with (0 + depth (group_by_ m) - 1) by lia.
Qed.

(** X21.  A song that is not of a compilation and that [AddSongs] shows is
    put under the container that the table of the last grouping level has
    for the key of the song, the keys of the song for the grouping levels
    joined by dashes; without grouping it is put under the root.  So two such
    songs with the same joined key are children of the same container,
    whatever their keys at the levels above. *)
Theorem AddSongs_puts_a_song_under_the_container_of_its_key
    (songs : SongList) (m : Model) (k : Z) (s : Song.t) :
  Inv (λ _, True) m → length (container_nodes_ m) = 3%nat →
  song_nodes_ m !! k = None → first_shown k songs = Some s →
  is_compilation s = false →
  let m' := AddSongs songs m in
  ∃ leaf,
    song_nodes_ m' !! k = Some leaf
    ∧ if decide (depth (group_by_ m) = 0)
      then parent (item m' leaf) = root_ m'
      else container_nodes_at m' (depth (group_by_ m) - 1)
             !! path_key (group_by_ m) (separate_albums_by_grouping_ m) s 0 3 []
           = Some (parent (item m' leaf)).
Proof.
  unfold AddSongs. revert m.
  induction songs as [|x l IH]; intros m HI Hlen Hk Hfirst Hcomp; [done|].
  cbn [foldl first_shown] in *. fold (AddSongs l (AddSong x m)).
  assert (Inv (λ _, True) (AddSong x m)) as HI1 by by apply AddSong_Inv.
  pose proof (frame_AddSong x m) as Hfr.
  pose proof (frame_group_by_ _ _ Hfr) as Hg.
  pose proof (frame_separate_albums_by_grouping_ _ _ Hfr) as Hsep.
  destruct (bool_decide (Song.id x = k) && Matches x) eqn:Hx.
  - injection Hfirst as ->. apply andb_true_iff in Hx as [Hid Hm].
    apply bool_decide_eq_true in Hid. subst k.
    destruct (AddSong_path (λ _, True) s m HI Hlen Hm Hk Hcomp)
      as (leaf & Hnodes & Hlt & Hplace).
    destruct (tables_grow_AddSongs (AddSong s m) l (AddSong s m) (tables_grow_refl _))
      as (A & B & _).
    pose proof (older_AddSongs (AddSong s m) l (AddSong s m) (older_refl _))
      as [_ Hold].
    destruct (Hold leaf Hlt) as (Hfix & _). unfold fixed_part in Hfix.
    injection Hfix as _ _ Hpar _ _ _ _ _.
    exists leaf. split.
    { eapply lookup_weaken; [|exact A]. rewrite Hnodes. apply lookup_insert_eq. }
    rewrite Hpar, (frame_root_ _ _ (frame_AddSongs l (AddSong s m))),
      (frame_root_ _ _ Hfr).
    destruct (decide (depth (group_by_ m) = 0)); [done|].
    eapply lookup_weaken; [exact Hplace|apply B].
  - assert (song_nodes_ (AddSong x m) !! k = None) as Hk'.
    { destruct (Matches x) eqn:Hm; [|by rewrite AddSong_skipped by auto].
      destruct (song_nodes_ m !! Song.id x) eqn:Hs;
        [by rewrite AddSong_skipped by eauto|].
      destruct (AddSong_added x m Hm Hs) as (leaf & _ & -> & _).
      rewrite lookup_insert_ne; [done|]. intros Heq.
      rewrite Heq, bool_decide_eq_true_2 in Hx by done. done. }
    assert (length (container_nodes_ (AddSong x m)) = 3%nat) as Hlen'
      by by rewrite length_container_nodes_AddSong.
    specialize (IH (AddSong x m) HI1 Hlen' Hk' Hfirst Hcomp).
    rewrite Hg, Hsep in IH. exact IH.
Qed.

End Path.

Section Path_witness.
#[local] Existing Instance Sample.external.

Lemma AddSongs_puts_a_song_under_the_container_of_its_key_witness :
  let m := Sample.empty_model by_albumartist_album true in
  let s := Sample.song 3 "Abba" "Arrival" "Tiger" 1 5 1976 in
  let m' := AddSongs arrival_and_jazz m in
  Inv (λ _, True) m ∧ length (container_nodes_ m) = 3%nat
  ∧ song_nodes_ m !! 3 = None ∧ first_shown 3 arrival_and_jazz = Some s
  ∧ is_compilation s = false
  ∧ ∃ leaf,
      song_nodes_ m' !! 3 = Some leaf
      ∧ if decide (depth (group_by_ m) = 0)
        then parent (item m' leaf) = root_ m'
        else container_nodes_at m' (depth (group_by_ m) - 1)
               !! path_key (group_by_ m) (separate_albums_by_grouping_ m) s 0 3 []
             = Some (parent (item m' leaf)).
Proof.
  intros m s m'.
  assert (Inv (λ _, True) m) as HI by apply empty_tree_Inv, empty_tree_empty_model.
  assert (length (container_nodes_ m) = 3%nat) as Hlen by reflexivity.
  assert (song_nodes_ m !! 3 = None) as Hk by reflexivity.
  assert (first_shown 3 arrival_and_jazz = Some s) as Hf by (by vm_compute).
  assert (is_compilation s = false) as Hc by reflexivity.
  split; [exact HI|]. split; [exact Hlen|]. split; [exact Hk|]. split; [exact Hf|].
  split; [exact Hc|].
  exact (AddSongs_puts_a_song_under_the_container_of_its_key arrival_and_jazz m 3 s
           HI Hlen Hk Hf Hc).
Defined.

End Path_witness.

(** ** The links and the tables on removal *)

Section Wired.
Context `{External}.

Lemma InitItem_ptr gb signal P lvl m :
  (InitItem gb signal P lvl m).1 = next_ptr m
  ∧ next_ptr (InitItem gb signal P lvl m).2 = S (next_ptr m).
Proof. unfold InitItem. by destruct signal. Qed.

(** The fields of the old items that [ItemFromSong] keeps: all but the
    children and the sort text. *)
Lemma ItemFromSong_old_field {A} (proj : CollectionItem → A) gb sep signal cd P s lvl m q :
  (q < next_ptr m)%nat →
  (∀ v it, proj (set_children v it) = proj it) →
  (∀ v it, proj (set_sort_text v it) = proj it) →
  proj (item (ItemFromSong gb sep signal cd P s lvl m).2 q) = proj (item m q).
Proof.
  intros Hq Hc Hs. unfold ItemFromSong.
  pose proof (InitItem_field proj gb signal P lvl m q ltac:(lia) Hc) as Hi.
  destruct (InitItem_ptr gb signal P lvl m) as [Hp Hn].
  destruct (InitItem gb signal P lvl m) as [p m1]. cbn [fst snd] in *. subst p.
  rewrite FinishItem_field; [| |done|done].
  - rewrite item_update_item_other by lia.
    destruct (_ && _); [|done]. by rewrite item_update_item_other by lia.
  - cbn [next_ptr update_item with_heap].
    destruct (_ && _); cbn [next_ptr update_item with_heap]; lia.
Qed.

Lemma uncompiled_same m m' :
  heap m' = heap m → container_nodes_ m' = container_nodes_ m →
  uncompiled m → uncompiled m'.
Proof.
  intros Hh Hc Hu i k c. unfold container_nodes_at, item. rewrite Hh, Hc. apply Hu.
Qed.

Lemma uncompiled_CreateCompilationArtistNode ok P m :
  Inv ok m → allocated m P → hangs m P →
  compilation_artist_node_ (item m P) = nullptr →
  uncompiled m → uncompiled (CreateCompilationArtistNode true P m).2.
Proof.
  intros HI HP _ Hnull Hu i k c.
  pose proof (inv_fresh ok m HI) as Hf.
  destruct (CreateCompilationArtistNode_grown true P m Hf HP) as (Hg & _ & Hco & _).
  assert (container_nodes_ (CreateCompilationArtistNode true P m).2
          = container_nodes_ m) as Hcn.
  { pose proof (tree_tables_CreateCompilationArtistNode true P m) as Ht.
    unfold tree_tables in Ht. congruence. }
  set (m' := (CreateCompilationArtistNode true P m).2) in *.
  unfold container_nodes_at. rewrite Hcn. fold (container_nodes_at m i). intros Hc.
  destruct (inv_container_nodes ok m HI i k c Hc) as (Hty & _ & Hre).
  pose proof (reachable_allocated ok m c HI Hre) as Ha.
  pose proof (reachable_parent ok m c HI Hre) as Hpa.
  assert (c ≠ next_ptr m) as Hne by (apply Hf in Ha; lia).
  destruct (grown_old _ _ _ _ _ Hg c Hne) as (_ & _ & _ & ->).
  destruct (decide (parent (item m c) = P)) as [->|HneP].
  - by rewrite Hco.
  - rewrite (grown_others _ _ _ _ _ Hg); [by apply (Hu i k)| |done].
    apply Hf in Hpa. lia.
Qed.

Lemma uncompiled_ItemFromSong ok gb sep cd P s lvl m :
  Inv ok m → uncompiled m → uncompiled (ItemFromSong gb sep true cd P s lvl m).2.
Proof.
  intros HI Hu i k c.
  pose proof (inv_fresh ok m HI) as Hf.
  unfold container_nodes_at. rewrite container_nodes_ItemFromSong.
  fold (container_nodes_at m i). intros Hc.
  destruct (inv_container_nodes ok m HI i k c Hc) as (Hty & _ & Hre).
  pose proof (reachable_allocated ok m c HI Hre) as Ha.
  pose proof (reachable_parent ok m c HI Hre) as Hpa.
  rewrite (ItemFromSong_old_field parent) by (done || by apply Hf).
  rewrite (ItemFromSong_old_field compilation_artist_node_) by (done || by apply Hf).
  by apply (Hu i k).
Qed.

Lemma ItemFromSong_new_parent gb sep signal cd P s lvl m :
  fresh m → allocated m P → allocated m (root_ m) →
  parent (item (ItemFromSong gb sep signal cd P s lvl m).2 (next_ptr m)) = P.
Proof.
  intros Hf HP Hr.
  destruct (ItemFromSong_grown gb sep signal cd P s lvl m Hf HP Hr)
    as (Hp & m1 & Hg & _ & _ & _ & Hfin).
  rewrite Hp in Hg.
  pose proof (grown_new_parent _ _ _ _ _ Hg) as Hpar.
  pose proof (grown_next _ _ _ _ _ Hg) as Hnext.
  destruct Hfin as [Hsame|Hg2].
  - by rewrite (same_items_item m1 _ _ Hsame).
  - rewrite (grown_others _ _ _ _ _ Hg2); [done| |].
    + lia.
    + rewrite (frame_root_ _ _ (grown_frame _ _ _ _ _ Hg)).
      intros Heq. apply Hf in Hr. lia.
Qed.

Lemma uncompiled_container ok gb sep cd P s i k m :
  Inv ok m → allocated m P → hangs m P →
  container_level (item m P) = i - 1 → 0 ≤ i ≤ 2 →
  GroupBy.eqb gb GroupBy.None = false → container_nodes_at m i !! k = None →
  uncompiled m →
  uncompiled
    (with_container_nodes_at i
       (<[k := (ItemFromSong gb sep true cd P s i m).1]>
          (container_nodes_at (ItemFromSong gb sep true cd P s i m).2 i))
       (ItemFromSong gb sep true cd P s i m).2).
Proof.
  intros HI HP Hh Hl Hi Hgb Hnone Hu.
  pose proof (inv_fresh ok m HI) as Hf.
  destruct (inv_root ok m HI) as (Hr & _).
  pose proof (uncompiled_ItemFromSong ok gb sep cd P s i m HI Hu) as Hu1.
  destruct (ItemFromSong_grown gb sep true cd P s i m Hf HP Hr) as (Hp & _).
  pose proof (ItemFromSong_old_field compilation_artist_node_ gb sep true cd P s i m P
                (proj2 (Hf P HP)) (λ _ _, eq_refl) (λ _ _, eq_refl)) as HcoP.
  pose proof (ItemFromSong_new_parent gb sep true cd P s i m Hf HP Hr) as Hpar.
  pose proof (container_nodes_ItemFromSong gb sep true cd P s i m) as Hcn.
    destruct (ItemFromSong gb sep true cd P s i m) as [c m1]. cbn [fst snd] in *. subst c.
  set (m2 := with_container_nodes_at i (<[k:=next_ptr m]> (container_nodes_at m1 i)) m1).
  assert (∀ q, item m2 q = item m1 q) as Hi2
    by (intros q; unfold m2, with_container_nodes_at; by destruct (i <? 0)).
  intros j k' c Hc. rewrite !Hi2.
  assert (container_nodes_at m1 j !! k' = Some c
          ∨ c = next_ptr m) as [Hold|Hnew].
  { unfold m2, with_container_nodes_at, container_nodes_at in *.
    destruct (Z.ltb_spec i 0); [lia|].
    cbn [container_nodes_ with_container_nodes_] in Hc.
    destruct (Z.ltb_spec j 0); [done|].
    destruct (decide (Z.to_nat j = Z.to_nat i)) as [Heq|Hne].
    - rewrite Heq in *. destruct (container_nodes_ m1 !! Z.to_nat i) as [t|] eqn:Ht.
      + rewrite list_lookup_insert_eq in Hc by (by eapply lookup_lt_Some).
        cbn in Hc. destruct (decide (k = k')) as [->|Hkk].
        * rewrite lookup_insert_eq in Hc. right. congruence.
        * rewrite lookup_insert_ne in Hc by done. by left.
      + rewrite list_insert_ge in Hc by (by apply lookup_ge_None).
        by rewrite Ht in Hc.
    - rewrite list_lookup_insert_ne in Hc by done. by left. }
  - by apply (Hu1 j k').
  - subst c. rewrite Hpar, HcoP. intros Heq.
    destruct (decide (compilation_artist_node_ (item m P) = nullptr)) as [Hn|Hn].
    + rewrite Hn in Heq. unfold nullptr in Heq. apply Hf in HP. lia.
    + destruct (inv_compilation ok m HI P Hn) as (Hin & _).
      apply (inv_children ok m HI P) in Hin. apply Hf in Hin. lia.
Qed.

(** [AddSongs] files no "Various artists" node in a table. *)
Lemma AddSongs_uncompiled ok songs m :
  Inv ok m → (∀ s, s ∈ songs → Matches s = true → ok s) →
  uncompiled m → uncompiled (AddSongs songs m).
Proof.
  intros HI Hok Hu. apply (Q_AddSongs ok uncompiled); try done.
  - intros m1 m2 Hh1 _ _ Hc1. by apply uncompiled_same.
  - intros P m1. apply uncompiled_CreateCompilationArtistNode.
  - intros sep P s m1 HI1 _ _. by apply (uncompiled_ItemFromSong ok).
  - intros gb sep cd P s i k m1. apply uncompiled_container.
Qed.

Lemma AddSongs_tables_match ok songs m :
  Inv ok m → (∀ s, s ∈ songs → Matches s = true → ok s) →
  valid_grouping (group_by_ m) → tables_match m → tables_match (AddSongs songs m).
Proof.
  unfold AddSongs. revert m.
  induction songs as [|x l IH]; intros m HI Hok Hv HT; [done|].
  cbn [foldl]. apply IH.
  - apply AddSong_Inv; [done|]. apply Hok. by left.
  - intros s Hs. apply Hok. by right.
  - by rewrite (frame_group_by_ _ _ (frame_AddSong x m)).
  - by apply (tables_match_AddSong ok).
Qed.

(** On a well-formed tree with matching tables that files no "Various
    artists" node, the links and the tables agree with the tree. *)
Lemma Inv_wired ok m : Inv ok m → tables_match m → uncompiled m → wired m.
Proof.
  intros HI (Hlen & HK & HF) Hu.
  destruct (inv_root ok m HI) as (_ & Hroot & _).
  split; [|split; [|split; [done|done]]].
  - intros p Hp. destruct (inv_compilation ok m HI p Hp) as (Hin & Hty & Hlv).
    split; [by apply (inv_children ok m HI p)|]. split; [done|].
    split; [by apply (inv_parent ok m HI)|done].
  - split; [done|]. intros i k c Hc.
    destruct (inv_container_nodes ok m HI i k c Hc) as (Hty & Hl & Hre).
    pose proof (reachable_allocated ok m c HI Hre) as Ha.
    split; [intros ->; by apply (fresh_nullptr m (inv_fresh ok m HI))|].
    split; [intros ->; congruence|]. split; [done|]. split; [done|].
    split; [by apply (HK i)|by apply (Hu i k)].
Qed.

Lemma wired_same m m' :
  heap m' = heap m → container_nodes_ m' = container_nodes_ m → root_ m' = root_ m →
  wired m → wired m'.
Proof.
  intros Hh Hc Hr (A & (B1 & B2) & C & D).
  assert (∀ q, item m' q = item m q) as Hi by (intros q; unfold item; by rewrite Hh).
  assert (∀ j, container_nodes_at m' j = container_nodes_at m j) as Hat
    by (intros j; unfold container_nodes_at; by rewrite Hc).
  split; [|split; [split|split]].
  - intros p. unfold allocated. rewrite !Hi, Hh. apply A.
  - by rewrite Hc.
  - intros i k c. rewrite Hat, !Hi, Hr. apply B2.
  - intros c. rewrite !Hi, Hat. apply C.
  - by rewrite Hi, Hr.
Qed.

Lemma wired_but_same c m m' :
  heap m' = heap m → container_nodes_ m' = container_nodes_ m → root_ m' = root_ m →
  wired_but c m → wired_but c m'.
Proof.
  intros Hh Hc Hr (A & B1 & B2 & C & D).
  assert (∀ q, item m' q = item m q) as Hi by (intros q; unfold item; by rewrite Hh).
  assert (∀ j, container_nodes_at m' j = container_nodes_at m j) as Hat
    by (intros j; unfold container_nodes_at; by rewrite Hc).
  split; [|split; [|split; [|split]]].
  - intros p. unfold allocated. rewrite !Hi, Hh. apply A.
  - by rewrite Hc.
  - intros i k x. rewrite Hat, !Hi, Hr. apply B2.
  - intros x. rewrite !Hi, Hat. apply C.
  - by rewrite Hi, Hr.
Qed.

(** An item that is no container is pointed to by no link and no table. *)
Lemma wired_but_plain c m :
  type (item m c) ≠ Type_Container → wired m → wired_but c m.
Proof.
  intros Hty (A & (B1 & B2) & C & D).
  split; [|split; [done|split; [|split; [|done]]]].
  - intros p Hp. destruct (A p Hp) as (Ha & Ht & Hpa & Hlv).
    split; [|done]. intros Heq. by rewrite Heq in Ht.
  - intros i k x Hx. destruct (B2 i k x Hx) as (? & ? & Ht & ?).
    split; [|done]. intros ->. done.
  - intros x _. apply C.
Qed.

(** The deletion of a childless item that nothing points to. *)
Lemma wired_Delete m c :
  in_shape m → allocated m c → c ≠ root_ m → children (item m c) = [] →
  wired_but c m →
  wired (Delete (parent (item m c)) (row (item m c)) m).
Proof.
  intros Hsh Ha Hroot Hch (A & B1 & B2 & C & D).
  pose proof Hsh as (Hr & Hk & Hh & Ht).
  pose proof (Hh c Ha Hroot) as Hin.
  apply list_elem_of_lookup in Hin as [i Hi].
  destruct (Delete_childless m c i Hr Ha Hch Hi) as (Hal & Hit).
  { intros x Hx. by destruct (Hk _ x Hx). }
  pose proof (Delete_other_fields (parent (item m c)) (row (item m c)) m) as Hf.
  set (m' := Delete (parent (item m c)) (row (item m c)) m) in *.
  injection Hf as _ Hrt _ _ Hcn _ _ _ _ _.
  assert (∀ j, container_nodes_at m' j = container_nodes_at m j) as Hat
    by (intros j; unfold container_nodes_at; by rewrite Hcn).
  assert (item m' c = null_item) as Hc'.
  { apply item_not_allocated. rewrite Hal. by intros [_ ?]. }
  assert (∀ q, q ≠ c →
               type (item m' q) = type (item m q)
               ∧ parent (item m' q) = parent (item m q)
               ∧ key (item m' q) = key (item m q)
               ∧ container_level (item m' q) = container_level (item m q)
               ∧ compilation_artist_node_ (item m' q)
                 = compilation_artist_node_ (item m q)) as Hq.
  { intros q Hne. destruct (Hit q Hne) as (Hkept & Hco & _).
    unfold kept_part in Hkept. by injection Hkept as -> -> -> -> _. }
  assert (∀ x, x ≠ c → x ≠ root_ m → type (item m x) = Type_Container →
               parent (item m x) ≠ c) as Hpar.
  { intros x Hxc Hxr Hty Heq.
    assert (allocated m x) as Hax by (apply type_allocated; by rewrite Hty).
    pose proof (Hh x Hax Hxr) as Hx. rewrite Heq, Hch in Hx. by apply elem_of_nil in Hx. }
  split; [|split; [split|split]].
  - intros p Hp.
    assert (p ≠ c) as Hpc by (intros ->; by rewrite Hc' in Hp).
    destruct (Hq p Hpc) as (_ & _ & _ & Hlp & Hco). rewrite Hco in *.
    destruct (A p Hp) as (Hne & Han & Hty & Hpa & Hlv).
    destruct (Hq _ Hne) as (-> & -> & _ & -> & _). rewrite Hlp.
    split; [by apply Hal|done].
  - by rewrite Hcn.
  - intros j k x. rewrite Hat, Hrt. intros Hx.
    destruct (B2 j k x Hx) as (Hxc & Hn & Hxr & Hty & Hl & Hkey & Hnc).
    destruct (Hq x Hxc) as (-> & -> & -> & -> & _).
    split; [done|]. split; [done|]. split; [done|]. split; [done|]. split; [done|].
    destruct (Hq (parent (item m x))) as (_ & _ & _ & _ & ->); [by apply Hpar|done].
  - intros x Hty.
    assert (x ≠ c) as Hxc by (intros ->; by rewrite Hc' in Hty).
    destruct (Hq x Hxc) as (Ht' & -> & -> & -> & _). rewrite Ht' in Hty.
    assert (x ≠ root_ m) as Hxr by (intros ->; congruence).
    rewrite Hat.
    destruct (Hq (parent (item m x))) as (_ & _ & _ & _ & ->); [by apply Hpar|].
    by apply C.
  - rewrite Hrt. destruct (Hq (root_ m)) as (-> & _); [done|done].
Qed.

Lemma unlinked_relinked m node : relinked m (unlinked m node).
Proof.
  unfold unlinked. destruct (IsCompilationArtistNode m node).
  - by apply relinked_update_item.
  - destruct (contains _ _); [|by apply relinked_same].
    unfold with_container_nodes_at. destruct (_ <? 0); by apply relinked_same.
Qed.

Lemma container_nodes_at_Some_range m i k c :
  container_nodes_at m i !! k = Some c →
  0 ≤ i ∧ (Z.to_nat i < length (container_nodes_ m))%nat.
Proof.
  unfold container_nodes_at. destruct (Z.ltb_spec i 0); [done|].
  destruct (container_nodes_ m !! Z.to_nat i) eqn:Hi; [|done].
  intros _. split; [done|]. by eapply lookup_lt_Some.
Qed.

Lemma wired_but_unlinked m node :
  wired m → type (item m node) = Type_Container → wired_but node (unlinked m node).
Proof.
  intros (A & (B1 & B2) & C & D) Hty. unfold unlinked, IsCompilationArtistNode.
  set (P := parent (item m node)).
  destruct (bool_decide (node = compilation_artist_node_ (item m P))) eqn:Hcomp.
  - apply bool_decide_eq_true in Hcomp.
    set (m1 := update_item P (set_compilation_artist_node_ nullptr) m).
    assert (∀ q, type (item m1 q) = type (item m q)
                 ∧ parent (item m1 q) = parent (item m q)
                 ∧ key (item m1 q) = key (item m q)
                 ∧ container_level (item m1 q) = container_level (item m q)) as Hq.
    { intros q. unfold m1.
      by rewrite (update_item_field type), (update_item_field parent),
        (update_item_field key), (update_item_field container_level). }
    assert (compilation_artist_node_ (item m1 P) = nullptr) as HcoP.
    { unfold m1, item, update_item. cbn. rewrite lookup_alter_eq.
      by destruct (heap m !! P). }
    assert (∀ q, q ≠ P → compilation_artist_node_ (item m1 q)
                         = compilation_artist_node_ (item m q)) as Hco.
    { intros q Hne. unfold m1. by rewrite item_update_item_other. }
    split; [|split; [done|split; [|split]]].
    + intros p Hp.
      assert (p ≠ P) as HpP by (intros ->; by rewrite HcoP in Hp).
      rewrite (Hco p HpP) in *. destruct (A p Hp) as (Ha & Ht & Hpa & Hlv).
      destruct (Hq (compilation_artist_node_ (item m p))) as (-> & -> & _ & ->).
      destruct (Hq p) as (_ & _ & _ & ->).
      split; [|split; [by apply allocated_update_item|done]].
      intros Heq. rewrite Heq in Hpa. by apply HpP.
    + intros i k x Hx. change (container_nodes_at m1 i) with (container_nodes_at m i) in Hx.
      destruct (B2 i k x Hx) as (Hn & Hr & Ht & Hl & Hk & Hnc).
      destruct (Hq x) as (-> & -> & -> & ->).
      split; [intros ->; by apply Hnc|].
      split; [done|]. split; [done|]. split; [done|]. split; [done|]. split; [done|].
      destruct (decide (parent (item m x) = P)) as [->|HneP].
      * by rewrite HcoP.
      * by rewrite (Hco _ HneP).
    + intros x Hxn. destruct (Hq x) as (-> & -> & -> & ->). intros Ht.
      change (container_nodes_at m1 ?j) with (container_nodes_at m j).
      destruct (C x Ht) as [Hl|Hr]; [|by right]. left.
      destruct (decide (parent (item m x) = P)) as [HeqP|HneP].
      * exfalso. apply Hxn. rewrite Hl, HeqP. done.
      * by rewrite (Hco _ HneP).
    + destruct (Hq (root_ m)) as (Ht & _). exact (eq_trans Ht D).
  - apply bool_decide_eq_false in Hcomp.
    destruct (C node Hty) as [?|Hentry]; [done|].
    unfold contains. rewrite bool_decide_eq_true_2 by (rewrite Hentry; by eexists).
    destruct (container_nodes_at_Some_range m _ _ _ Hentry) as [Hl0 Hl3].
    set (lvl := container_level (item m node)) in *.
    set (m1 := with_container_nodes_at lvl
                 (delete (key (item m node)) (container_nodes_at m lvl)) m).
    assert (∀ q, item m1 q = item m q) as Hi1
      by (intros q; unfold m1, with_container_nodes_at; by destruct (lvl <? 0)).
    assert (∀ q, allocated m1 q ↔ allocated m q) as Ha1
      by (intros q; unfold m1, with_container_nodes_at; by destruct (lvl <? 0)).
    assert (root_ m1 = root_ m) as Hr1
      by (unfold m1, with_container_nodes_at; by destruct (lvl <? 0)).
    assert (∀ j, container_nodes_at m1 j
                 = if decide (j = lvl)
                   then delete (key (item m node)) (container_nodes_at m lvl)
                   else container_nodes_at m j) as Hat
      by (intros j; by apply container_nodes_at_with_in_range).
    split; [|split; [|split; [|split]]].
    + intros p. rewrite !Hi1, Ha1. intros Hp. destruct (A p Hp) as (Ha & Ht & Hpa & Hlv).
      split; [|done]. intros Heq. apply Hcomp. unfold P. by rewrite <- Heq, Hpa.
    + unfold m1. by rewrite length_with_container_nodes_at.
    + intros i k x. rewrite Hat, !Hi1, Hr1. case_decide as Hd.
      * subst i. intros [Hne Hx]%lookup_delete_Some.
        destruct (B2 lvl k x Hx) as (? & ? & ? & ? & Hk & ?).
        split; [|done]. intros ->. by apply Hne.
      * intros Hx. destruct (B2 i k x Hx) as (? & ? & ? & Hl & ? & ?).
        split; [|done]. intros ->. by apply Hd.
    + intros x Hxn. rewrite !Hi1, Hat. intros Ht.
      destruct (C x Ht) as [Hl|Hr]; [by left|]. right.
      case_decide as Hd; [|done]. rewrite Hd in Hr.
      rewrite lookup_delete_ne; [done|]. intros Heq. rewrite <- Heq in Hr.
      rewrite Hentry in Hr. by injection Hr.
    + by rewrite Hi1, Hr1.
Qed.

Lemma Delete_emit p r sg m : Delete p r (emit sg m) = emit sg (Delete p r m).
Proof.
  unfold Delete. change (item (emit sg m) p) with (item m p).
  change (heap (emit sg m)) with (heap m).
  destruct (r <? 0); [done|]. by destruct (children (item m p) !! Z.to_nat r).
Qed.

(** The loops of [RemoveSongs] keep the links and the tables in agreement
    with the tree. *)
Lemma RemoveSongs_leaf_wired ps m song :
  tended m → wired m → wired (RemoveSongs_leaf (ps, m) song).2.
Proof.
  intros HT HW. unfold RemoveSongs_leaf. fold (upsert_known song m).
  set (m1 := upsert_known song m).
  assert (heap m1 = heap m ∧ root_ m1 = root_ m ∧ song_nodes_ m1 = song_nodes_ m
          ∧ divider_nodes_ m1 = divider_nodes_ m
          ∧ container_nodes_ m1 = container_nodes_ m) as (Hh1 & Hr1 & Hs1 & Hd1 & Hc1).
  { unfold m1, upsert_known. by case_match. }
  assert (tended m1) as HT1 by by apply (tended_same m).
  assert (wired m1) as HW1 by by apply (wired_same m).
  clear HT HW.
  destruct (song_nodes_ m1 !! Song.id song) as [node|] eqn:Hnode; cbn [fst snd]; [|done].
  destruct HT1 as (Hsh & Hl & Hd).
  destruct (Hl _ _ Hnode) as (Ha & Hroot & Hty & Hid).
  assert (children (item m1 node) = []) as Hch.
  { apply in_shape_childless; [done|done|]. by rewrite Hty. }
  unfold beginRemoveRows. rewrite Delete_emit.
  pose proof (Delete_other_fields (parent (item m1 node)) (row (item m1 node)) m1) as Hf.
  injection Hf as _ Hr3 _ _ Hc3 _ _ _ _ _.
  apply (wired_same (Delete (parent (item m1 node)) (row (item m1 node)) m1));
    [done|done|done|].
  apply wired_Delete; try done.
  apply wired_but_plain; [by rewrite Hty|done].
Qed.

Lemma RemoveSongs_leaves_wired songs ps m :
  tended m → parents_ok m ps → wired m →
  wired (foldl RemoveSongs_leaf (ps, m) songs).2.
Proof.
  revert ps m. induction songs as [|x l IH]; intros ps m HT HP HW; cbn [foldl]; [done|].
  destruct (RemoveSongs_leaf_tended ps m x HT HP) as (HT1 & HP1 & _).
  pose proof (RemoveSongs_leaf_wired ps m x HT HW) as HW1.
  destruct (RemoveSongs_leaf (ps, m) x) as [ps1 m1]. cbn [fst snd] in *.
  by apply IH.
Qed.

Lemma RemoveSongs_parent_wired acc ks m node :
  tended m → wired m →
  allocated m node → node ≠ root_ m → type (item m node) = Type_Container →
  wired (RemoveSongs_parent (acc, ks, m) node).2.
Proof.
  intros HT HW Ha Hroot Hty. unfold RemoveSongs_parent.
  destruct (count m node =? 0) eqn:Hcount; cbn [negb fst snd]; [|done].
  assert (children (item m node) = []) as Hch.
  { apply Z.eqb_eq in Hcount. unfold count in Hcount. apply nil_length_inv. lia. }
  fold (unlinked m node).
  pose proof (unlinked_relinked m node) as Hre.
  pose proof (wired_but_unlinked m node HW Hty) as HWb.
  pose proof (tended_relinked m _ Hre HT) as (Hsh1 & _).
  set (m1 := unlinked m node) in *.
  pose proof Hre as (Hr1 & _ & _ & _ & _ & Hal1 & Hf1).
  assert (parent (item m1 node) = parent (item m node)
          ∧ row (item m1 node) = row (item m node)
          ∧ children (item m1 node) = []) as (Hp1 & Hrow1 & Hch1).
  { destruct (Hf1 node) as [Hpl _]. unfold place in Hpl.
    injection Hpl as -> -> ->. done. }
  unfold beginRemoveRows. rewrite Delete_emit.
  pose proof (Delete_other_fields (parent (item m node)) (row (item m node)) m1) as Hf.
  injection Hf as _ Hr3 _ _ Hc3 _ _ _ _ _.
  apply (wired_same (Delete (parent (item m node)) (row (item m node)) m1));
    [done|done|done|].
  rewrite <- Hp1, <- Hrow1.
  apply wired_Delete; try done; [by apply Hal1|congruence].
Qed.

Lemma RemoveSongs_round_wired todo acc ks m :
  tended m → parents_ok m acc → parents_ok m todo → wired m →
  wired (foldl RemoveSongs_parent (acc, ks, m) todo).2.
Proof.
  revert acc ks m. induction todo as [|node todo IH]; intros acc ks m HT HP Htodo HW;
    cbn [foldl]; [done|].
  destruct Htodo as [Hnd Htodo]. apply NoDup_cons in Hnd as [Hnode Hnd].
  destruct (Htodo node) as (Ha & Hroot & Hty); [by left|].
  destruct (RemoveSongs_parent_tended acc ks m node HT HP Ha Hroot Hty)
    as (HT1 & HP1 & Hpr1 & _ & Hsv & _).
  pose proof (RemoveSongs_parent_wired acc ks m node HT HW Ha Hroot Hty) as HW1.
  destruct (RemoveSongs_parent (acc, ks, m) node) as [[acc1 ks1] m1].
  cbn [fst snd] in *.
  apply IH; try done. split; [done|]. intros q Hq.
  assert (q ≠ node) as Hne by (by intros ->).
  destruct (Htodo q) as (Haq & Hrq & Htq); [by right|].
  destruct (Hsv q Hne Haq) as [? ->]. destruct Hpr1 as [-> _]. done.
Qed.

Lemma RemoveSongs_parents_wired fuel ps ks m ks' m' :
  RemoveSongs_parents fuel ps ks m = Some (ks', m') →
  tended m → parents_ok m ps → wired m → wired m'.
Proof.
  revert ps ks m. induction fuel as [|f IH]; intros ps ks m Hrun HT HP HW.
  - destruct ps; [|done]. by injection Hrun as _ <-.
  - destruct ps as [|p ps]; [by injection Hrun as _ <-|].
    cbn [RemoveSongs_parents] in Hrun.
    destruct (RemoveSongs_round_tended (p :: ps) (p :: ps) ks m HT HP HP)
      as (HT1 & HP1 & _).
    pose proof (RemoveSongs_round_wired (p :: ps) (p :: ps) ks m HT HP HP HW) as HW1.
    destruct (foldl RemoveSongs_parent (p :: ps, ks, m) (p :: ps)) as [[ps1 ks1] m1].
    cbn [fst snd] in *. by apply (IH ps1 ks1 m1).
Qed.

Lemma RemoveSongs_divider_wired m k :
  tended m → wired m → wired (RemoveSongs_divider m k).
Proof.
  intros HT HW. unfold RemoveSongs_divider.
  destruct (divider_nodes_ m !! k) as [d|] eqn:Hk; [|done].
  destruct (existsb _ _); [done|].
  pose proof HT as (Hsh & Hl & Hd).
  destruct (Hd _ _ Hk) as (Ha & Hroot & Hty & Hpar & Hkey).
  assert (children (item m d) = []) as Hch.
  { apply in_shape_childless; [done|done|]. by rewrite Hty. }
  unfold beginRemoveRows. rewrite Delete_emit.
  pose proof (Delete_other_fields (root_ m) (row (item m d)) m) as Hf.
  injection Hf as _ Hr3 _ _ Hc3 _ _ _ _ _.
  apply (wired_same (Delete (root_ m) (row (item m d)) m)); [done|done|done|].
  rewrite <- Hpar.
  apply wired_Delete; try done.
  apply wired_but_plain; [by rewrite Hty|done].
Qed.

Lemma RemoveSongs_dividers_wired ks m :
  tended m → wired m → wired (foldl RemoveSongs_divider m ks).
Proof.
  revert m. induction ks as [|k ks IH]; intros m HT HW; cbn [foldl]; [done|].
  destruct (RemoveSongs_divider_tended m k HT) as (HT1 & _).
  apply IH; [done|]. by apply RemoveSongs_divider_wired.
Qed.

Lemma empty_tree_uncompiled m : empty_tree m → uncompiled m.
Proof.
  intros He. destruct (empty_tree_tables_match m He) as (_ & _ & _).
  pose proof He as (_ & _ & _ & _ & Hc & _).
  intros i k c. unfold container_nodes_at. rewrite Hc. destruct (i <? 0); [done|].
  by destruct (Z.to_nat i) as [|[|[|?]]].
Qed.

(** The trees that [AddSongs] builds have links and tables that agree with
    them. *)
Lemma AddSongs_wired ok songs m :
  Inv ok m → (∀ s, s ∈ songs → Matches s = true → ok s) →
  valid_grouping (group_by_ m) → tables_match m → uncompiled m →
  wired (AddSongs songs m).
Proof.
  intros HI Hok Hv HT Hu. apply (Inv_wired ok).
  - by apply AddSongs_Inv.
  - by apply (AddSongs_tables_match ok).
  - by apply (AddSongs_uncompiled ok).
Qed.

(** X22.  On a tended tree whose compilation links and container tables
    agree with it, [RemoveSongs] returns and they still agree: every entry
    of a table is a container of the arena, of the level of the table and
    with the key of the entry; every compilation link that is set points to a
    container of the arena under the item of the link; and every container
    that is left is the "Various artists" node of its parent or the entry of
    its key.  [RemoveSongs] leaves no pointer to an item it has deleted. *)
Theorem RemoveSongs_keeps_the_links_and_the_tables (songs : SongList) (m : Model) :
  tended m → wired m →
  ∃ m', RemoveSongs songs m = Some m'
        ∧ wired m'
        ∧ (∀ i k c, container_nodes_at m' i !! k = Some c →
                    allocated m' c ∧ type (item m' c) = Type_Container
                    ∧ container_level (item m' c) = i ∧ key (item m' c) = k)
        ∧ (∀ p, compilation_artist_node_ (item m' p) ≠ nullptr →
                allocated m' (compilation_artist_node_ (item m' p))
                ∧ parent (item m' (compilation_artist_node_ (item m' p))) = p).
Proof.
  intros HT HW. rewrite RemoveSongs_unfold.
  assert (parents_ok m []) as HP.
  { split; [apply NoDup_nil_2|]. intros q Hq. by apply elem_of_nil in Hq. }
  destruct (RemoveSongs_leaves_tended songs [] m HT HP) as (HT1 & HP1 & _).
  pose proof (RemoveSongs_leaves_wired songs [] m HT HP HW) as HW1.
  destruct (foldl RemoveSongs_leaf ([], m) songs) as [ps m1]. cbn [fst snd] in *.
  unfold RemoveSongs_rest.
  destruct (RemoveSongs_parents_returns (S (size (heap m1))) ps [] m1 HT1 HP1)
    as (ks & m2 & Hrun & HT2 & _); [lia|].
  pose proof (RemoveSongs_parents_wired _ _ _ _ _ _ Hrun HT1 HP1 HW1) as HW2.
  rewrite Hrun. cbn.
  pose proof (RemoveSongs_dividers_wired ks m2 HT2 HW2) as HW3.
  set (m' := foldl RemoveSongs_divider m2 ks) in *.
  exists m'. split; [done|]. split; [done|].
  destruct HW3 as (A & (_ & B) & _). split.
  - intros i k c Hc. destruct (B i k c Hc) as (_ & _ & Hty & Hl & Hk & _).
    split; [apply type_allocated; by rewrite Hty|done].
  - intros p Hp. by destruct (A p Hp) as (? & _ & ? & _).
Qed.

End Wired.

Section Wired_witness.
#[local] Existing Instance Sample.external.

Lemma RemoveSongs_keeps_the_links_and_the_tables_witness :
  let m := AddSongs arrival_and_jazz (Sample.empty_model by_albumartist_album true) in
  let songs := take 2 arrival_and_jazz in
  tended m ∧ wired m
  ∧ ∃ m', RemoveSongs songs m = Some m'
          ∧ wired m'
          ∧ (∀ i k c, container_nodes_at m' i !! k = Some c →
                      allocated m' c ∧ type (item m' c) = Type_Container
                      ∧ container_level (item m' c) = i ∧ key (item m' c) = k)
          ∧ (∀ p, compilation_artist_node_ (item m' p) ≠ nullptr →
                  allocated m' (compilation_artist_node_ (item m' p))
                  ∧ parent (item m' (compilation_artist_node_ (item m' p))) = p).
Proof.
  intros m songs.
  pose proof (empty_tree_empty_model by_albumartist_album true) as He.
  assert (tended m) as HT.
  { apply (AddSongs_tended (λ _, True)); [|done|].
    - by apply empty_tree_Inv.
    - by apply empty_tree_tended. }
  assert (wired m) as HW.
  { apply (AddSongs_wired (λ _, True)); [|done| | |].
    - by apply empty_tree_Inv.
    - by vm_compute.
    - by apply empty_tree_tables_match.
    - by apply empty_tree_uncompiled. }
  split; [exact HT|]. split; [exact HW|].
  exact (RemoveSongs_keeps_the_links_and_the_tables songs m HT HW).
Defined.

End Wired_witness.

(** ** The tree over the life of the model *)

Section Sound.
Context `{External}.

(** *** [RemoveSongs] allocates nothing *)

Lemma next_ptr_Delete p r m : next_ptr (Delete p r m) = next_ptr m.
Proof. pose proof (Delete_other_fields p r m) as Hf. by injection Hf. Qed.

Lemma next_ptr_foldl {A B} (f : B → A → B) (pr : B → Model) (l : list A) (b : B) :
  (∀ b a, next_ptr (pr (f b a)) = next_ptr (pr b)) →
  next_ptr (pr (foldl f b l)) = next_ptr (pr b).
Proof.
  intros Hf. revert b. induction l as [|a l IH]; intros b; simpl; [done|].
  by rewrite IH, Hf.
Qed.

Lemma next_ptr_RemoveSongs_leaf acc song :
  next_ptr (RemoveSongs_leaf acc song).2 = next_ptr acc.2.
Proof.
  destruct acc as [parents m]. unfold RemoveSongs_leaf.
  repeat case_match; cbn [snd]; try reflexivity.
  all: cbn; by rewrite next_ptr_Delete.
Qed.

Lemma next_ptr_RemoveSongs_parent acc node :
  next_ptr (RemoveSongs_parent acc node).2 = next_ptr acc.2.
Proof.
  destruct acc as [[parents keys] m]. unfold RemoveSongs_parent.
  destruct (negb _); [done|]. cbn [snd].
  unfold endRemoveRows, beginRemoveRows, emit. cbn [next_ptr with_signals_].
  rewrite next_ptr_Delete. cbn [next_ptr with_signals_].
  destruct (IsCompilationArtistNode m node); [done|].
  destruct (contains _ _); [|done].
  unfold with_container_nodes_at. by destruct (_ <? 0).
Qed.

Lemma next_ptr_RemoveSongs_parents fuel parents keys m keys' m' :
  RemoveSongs_parents fuel parents keys m = Some (keys', m') → next_ptr m' = next_ptr m.
Proof.
  revert parents keys m. induction fuel as [|f IH]; intros parents keys m.
  - destruct parents; simpl; [|done]. by intros [= _ ->].
  - destruct parents as [|p parents]; [by intros [= _ ->]|].
    cbn [RemoveSongs_parents].
    pose proof (next_ptr_foldl RemoveSongs_parent snd (p :: parents)
                  (p :: parents, keys, m) next_ptr_RemoveSongs_parent) as Hr.
    destruct (foldl _ _ _) as [[ps ks] m1]. simpl in Hr.
    intros Hs. apply IH in Hs. congruence.
Qed.

Lemma next_ptr_RemoveSongs_divider m k :
  next_ptr (RemoveSongs_divider m k) = next_ptr m.
Proof.
  unfold RemoveSongs_divider. destruct (divider_nodes_ m !! k); [|done].
  destruct (existsb _ _); [done|].
  unfold endRemoveRows, beginRemoveRows, emit. cbn [next_ptr with_signals_ with_divider_nodes_].
  by rewrite next_ptr_Delete.
Qed.

Lemma next_ptr_RemoveSongs songs m m' :
  RemoveSongs songs m = Some m' → next_ptr m' = next_ptr m.
Proof.
  unfold RemoveSongs.
  pose proof (next_ptr_foldl RemoveSongs_leaf snd songs ([], m)
                next_ptr_RemoveSongs_leaf) as Hl.
  destruct (foldl RemoveSongs_leaf _ _) as [parents m1]. simpl in Hl.
  destruct (RemoveSongs_parents _ _ _ _) as [[keys m2]|] eqn:Hp; [|done].
  simpl. intros [= <-]. apply next_ptr_RemoveSongs_parents in Hp.
  pose proof (next_ptr_foldl RemoveSongs_divider id keys m2
                next_ptr_RemoveSongs_divider) as Hd.
  simpl in Hd. congruence.
Qed.

(** *** What can be reached is reached after a removal *)

Lemma under_not_root m n top x :
  type (item m (root_ m)) = Type_Root → under m n top x → x ≠ root_ m → top ≠ root_ m.
Proof.
  intros Hroot Hu Hx. destruct n as [|n]; simpl in Hu.
  - by subst.
  - destruct Hu as [Hty _]. intros ->. congruence.
Qed.

Section Pruned.
Variables m m' : Model.
Hypothesis parent_m : ∀ p c, c ∈ children (item m p) → parent (item m c) = p.
Hypothesis root_m : type (item m (root_ m)) = Type_Root.
Hypothesis shape_m' : in_shape m'.
Hypothesis root_m' : root_ m' = root_ m.
Hypothesis kept :
  ∀ q, allocated m' q → kept_part (item m' q) = kept_part (item m q).

Lemma kept_fields q :
  allocated m' q →
  type (item m' q) = type (item m q) ∧ parent (item m' q) = parent (item m q)
  ∧ key (item m' q) = key (item m q)
  ∧ container_level (item m' q) = container_level (item m q)
  ∧ metadata (item m' q) = metadata (item m q).
Proof.
  intros Hq. pose proof (kept q Hq) as Hk. unfold kept_part in Hk.
  by injection Hk as -> -> -> -> ->.
Qed.

Lemma child_pruned p c :
  c ∈ children (item m p) → c ≠ root_ m → allocated m' c → c ∈ children (item m' p).
Proof.
  intros Hc Hne Ha. destruct shape_m' as (_ & _ & Hin & _).
  destruct (kept_fields c Ha) as (_ & Hp & _).
  rewrite (parent_m p c Hc) in Hp. rewrite <- Hp. apply Hin; [done|]. by rewrite root_m'.
Qed.

Lemma under_pruned n top x :
  under m n top x → x ≠ root_ m → allocated m' x →
  under m' n top x ∧ allocated m' top.
Proof.
  revert top. induction n as [|n IH]; intros top Hu Hx Ha.
  - simpl in Hu. by subst.
  - destruct Hu as (Hty & c & Hc & Hu).
    destruct (IH c Hu Hx Ha) as [Hu' Hc'].
    pose proof (under_not_root m n c x root_m Hu Hx) as Hcr.
    pose proof (child_pruned top c Hc Hcr Hc') as Hin.
    pose proof (parent_of_child_allocated m' top c Hin) as Htop.
    split; [|done]. split.
    + destruct (kept_fields top Htop) as (-> & _). done.
    + by exists c.
Qed.

Lemma reachable_pruned x :
  reachable m x → x ≠ root_ m → allocated m' x → reachable m' x.
Proof.
  intros (n & top & Htop & Hu) Hx Ha.
  destruct (under_pruned n top x Hu Hx Ha) as [Hu' Ha'].
  exists n, top. split; [|done]. rewrite root_m'.
  apply child_pruned; [done| |done]. by apply (under_not_root m n top x).
Qed.

End Pruned.

(** Every container of a well-formed tree can be reached from the root. *)
Lemma container_reachable ok m c :
  Inv ok m → in_shape m → filed m → type (item m c) = Type_Container → reachable m c.
Proof.
  intros HI (_ & _ & _ & Hpar) HF.
  assert (∀ n c, type (item m c) = Type_Container →
                 container_level (item m c) = Z.of_nat n → reachable m c) as Hall.
  { clear c. induction n as [n IH] using lt_wf_ind. intros c Hty Hl.
    destruct (HF c Hty) as [Hco|Hentry].
    - set (p := parent (item m c)) in *.
      assert (compilation_artist_node_ (item m p) ≠ nullptr) as Hp.
      { rewrite <- Hco. intros ->. unfold nullptr in Hty.
        assert (allocated m 0%nat) as Ha by (apply type_allocated; by rewrite Hty).
        by apply (fresh_nullptr m (inv_fresh ok m HI)). }
      destruct (inv_compilation ok m HI p Hp) as (Hin & _ & Hlv).
      rewrite <- Hco in Hin, Hlv.
      apply (reachable_child m p); [|done].
      destruct (Hpar p) as [->|Htp]; [intros Hnil; rewrite Hnil in Hin;
                                      by apply elem_of_nil in Hin|by left|].
      right. split; [done|].
      pose proof (inv_level ok m HI p Htp) as Hrange.
      apply (IH (Z.to_nat (container_level (item m p)))); [lia|done|lia].
    - by destruct (inv_container_nodes ok m HI _ _ _ Hentry) as (_ & _ & ?). }
  intros Hty. pose proof (inv_level ok m HI c Hty) as Hrange.
  apply (Hall (Z.to_nat (container_level (item m c))) c Hty). lia.
Qed.

(** *** The run of [RemoveSongs] *)

Lemma RemoveSongs_run songs m :
  tended m → wired m →
  ∃ m', RemoveSongs songs m = Some m'
        ∧ tended m' ∧ wired m' ∧ pruned m m'
        ∧ (∀ k, song_nodes_ m' !! k
                = if decide (k ∈ Song.id <$> songs) then None else song_nodes_ m !! k)
        ∧ (∀ k leaf, song_nodes_ m !! k = Some leaf → k ∈ Song.id <$> songs →
                     ¬ allocated m' leaf).
Proof.
  intros HT HW. rewrite RemoveSongs_unfold.
  assert (parents_ok m []) as HP.
  { split; [apply NoDup_nil_2|]. intros q Hq. by apply elem_of_nil in Hq. }
  destruct (RemoveSongs_leaves_tended songs [] m HT HP)
    as (HT1 & HP1 & Hpr1 & Hs1 & Hgone).
  pose proof (RemoveSongs_leaves_wired songs [] m HT HP HW) as HW1.
  destruct (foldl RemoveSongs_leaf ([], m) songs) as [ps m1]. cbn [fst snd] in *.
  unfold RemoveSongs_rest.
  destruct (RemoveSongs_parents_returns (S (size (heap m1))) ps [] m1 HT1 HP1)
    as (ks & m2 & Hrun & HT2 & Hpr2 & Hs2); [lia|].
  pose proof (RemoveSongs_parents_wired _ _ _ _ _ _ Hrun HT1 HP1 HW1) as HW2.
  rewrite Hrun. cbn.
  destruct (RemoveSongs_dividers_tended ks m2 HT2) as (HT3 & Hpr3 & Hs3).
  pose proof (RemoveSongs_dividers_wired ks m2 HT2 HW2) as HW3.
  set (m' := foldl RemoveSongs_divider m2 ks) in *.
  assert (pruned m1 m') as Hpr1' by by apply (pruned_trans m1 m2).
  exists m'. split; [done|]. split; [done|]. split; [done|].
  split; [by apply (pruned_trans m m1)|]. split.
  - intros k. by rewrite Hs3, Hs2, Hs1.
  - intros k leaf Hk Hin Ha. destruct Hpr1' as (_ & Hp1 & _).
    destruct (Hp1 leaf Ha) as [Ha1 _]. by apply (Hgone k leaf).
Qed.

(** [RemoveSongs] keeps the invariant of the insertions. *)
Lemma RemoveSongs_Inv ok songs m m' :
  Inv ok m → tended m → wired m → RemoveSongs songs m = Some m' → Inv ok m'.
Proof.
  intros HI HT HW Hrun.
  pose proof (next_ptr_RemoveSongs songs m m' Hrun) as Hnext.
  destruct (RemoveSongs_run songs m HT HW)
    as (m'' & Hrun' & HT' & HW' & Hpr & Hnodes & Hgone).
  rewrite Hrun in Hrun'. injection Hrun' as <-.
  destruct Hpr as (Hroot & Hkeep & _).
  pose proof HT' as (Hsh' & Hl' & _). pose proof Hsh' as (_ & Hch' & Hin' & _).
  pose proof HT as (Hsh & _). pose proof Hsh as (_ & _ & Hin & _).
  pose proof HW' as (Hlinks' & (_ & Htab') & _ & Hrt').
  pose proof HW as (_ & _ & HF & Hrt).
  assert (∀ q, allocated m' q → kept_part (item m' q) = kept_part (item m q)) as Hkept
    by (intros q Hq; by destruct (Hkeep q Hq)).
  pose proof (kept_fields m m' Hkept) as Hfields.
  assert (∀ x, reachable m x → x ≠ root_ m → allocated m' x → reachable m' x) as Hre.
  { apply reachable_pruned; try done. apply (inv_parent ok m HI). }
  assert (∀ q, type (item m' q) = Type_Container →
               allocated m' q ∧ type (item m q) = Type_Container) as Hcont.
  { intros q Hq. assert (allocated m' q) as Ha by (apply type_allocated; by rewrite Hq).
    split; [done|]. destruct (Hfields q Ha) as (<- & _). done. }
  split.
  - intros q Hq. rewrite Hnext. apply (inv_fresh ok m HI). by apply Hkeep.
  - assert (allocated m' (root_ m')) as Ha by (apply type_allocated; by rewrite Hrt').
    split; [done|]. split; [done|].
    destruct (Hfields _ Ha) as (_ & _ & _ & -> & _). rewrite Hroot.
    by destruct (inv_root ok m HI) as (_ & _ & ?).
  - intros p c Hc. by destruct (Hch' p c Hc).
  - intros p c Hc. by destruct (Hch' p c Hc).
  - intros p Hp. destruct (Hcont p Hp) as [Ha Hty].
    destruct (Hfields p Ha) as (_ & _ & _ & -> & _). by apply (inv_level ok m HI).
  - intros p c Hp Hc Hcty.
    destruct (Hcont p Hp) as [Ha Hty]. destruct (Hcont c Hcty) as [Hac Htyc].
    destruct (Hfields p Ha) as (_ & _ & _ & -> & _).
    destruct (Hfields c Hac) as (_ & Hpc & _ & -> & _).
    destruct (Hch' p c Hc) as [_ Hpar']. rewrite Hpar' in Hpc.
    apply (inv_level_child ok m HI); [done| |done].
    rewrite Hpc. apply Hin; [by apply Hkeep|]. intros Heq. rewrite Heq in Htyc. congruence.
  - intros p Hp. destruct (Hlinks' p Hp) as (Ha & Hty & Hpar & Hlv).
    split; [|done]. rewrite <- Hpar at 2. apply Hin'; [done|].
    intros Heq. rewrite Heq in Hty. congruence.
  - intros k leaf Hk. destruct (Hl' k leaf Hk) as (Ha & Hne & Hty & Hid).
    split; [done|]. split; [done|].
    apply Hre; [|by rewrite <- Hroot|done].
    rewrite Hnodes in Hk. case_decide; [done|].
    by destruct (inv_song_nodes ok m HI k leaf Hk) as (_ & _ & ?).
  - intros p Hp. assert (allocated m' p) as Ha by (apply type_allocated; by rewrite Hp).
    destruct (Hfields p Ha) as (Hty & _ & _ & _ & Hmd). rewrite Hp in Hty.
    rewrite Hmd. destruct (inv_songs ok m HI p (eq_sym Hty)) as [Hentry Hok].
    split; [|done]. rewrite Hnodes. case_decide as Hd; [|done].
    exfalso. by apply (Hgone _ p Hentry Hd).
  - intros i k c Hc. destruct (Htab' i k c Hc) as (_ & Hne & Hty & Hl & _).
    split; [done|]. split; [done|]. destruct (Hcont c Hty) as [Ha Htyc].
    apply Hre; [|by rewrite <- Hroot|done].
    by apply (container_reachable ok).
Qed.

(** *** [UpdateSongs] *)

Lemma shape_all a b :
  shape a = shape b →
  type a = type b ∧ row a = row b ∧ parent a = parent b ∧ children a = children b
  ∧ key a = key b ∧ container_level a = container_level b
  ∧ compilation_artist_node_ a = compilation_artist_node_ b.
Proof. unfold shape. intros Hs. by injection Hs as -> -> -> -> -> _ _ -> ->. Qed.

Lemma tended_keeps_shape m m' :
  keeps_shape m m' → root_ m' = root_ m → leaves_ok m' → tended m → tended m'.
Proof.
  intros (Hsh & Hal & _ & _ & Hdn & _) Hroot Hl' ((Hr & Hch & Hin & Hpar) & _ & Hd).
  pose proof (λ q, shape_all _ _ (Hsh q)) as Hf.
  split; [|split; [done|]].
  - split; [|split; [|split]].
    + intros q i c. destruct (Hf q) as (_ & _ & _ & -> & _).
      destruct (Hf c) as (_ & -> & _). apply Hr.
    + intros p c. destruct (Hf p) as (_ & _ & _ & -> & _).
      destruct (Hf c) as (_ & _ & -> & _). rewrite Hal. apply Hch.
    + intros c. rewrite Hal, Hroot. destruct (Hf c) as (_ & _ & -> & _).
      destruct (Hf (parent (item m c))) as (_ & _ & _ & -> & _). apply Hin.
    + intros p. destruct (Hf p) as (-> & _ & _ & -> & _). rewrite Hroot. apply Hpar.
  - intros k d. rewrite Hdn, Hal, Hroot.
    destruct (Hf d) as (-> & _ & -> & _ & -> & _). apply Hd.
Qed.

Lemma wired_keeps_shape m m' :
  keeps_shape m m' → root_ m' = root_ m → wired m → wired m'.
Proof.
  intros (Hsh & Hal & _ & Hcn & _) Hroot (A & (B1 & B2) & C & D).
  pose proof (λ q, shape_all _ _ (Hsh q)) as Hf.
  assert (∀ j, container_nodes_at m' j = container_nodes_at m j) as Hat
    by (intros j; unfold container_nodes_at; by rewrite Hcn).
  assert (∀ q, compilation_artist_node_ (item m' q)
               = compilation_artist_node_ (item m q)) as Hco
    by (intros q; by destruct (Hf q) as (_ & _ & _ & _ & _ & _ & ->)).
  assert (∀ q, parent (item m' q) = parent (item m q)) as Hpa
    by (intros q; by destruct (Hf q) as (_ & _ & -> & _)).
  assert (∀ q, type (item m' q) = type (item m q)) as Hty
    by (intros q; by destruct (Hf q) as (-> & _)).
  assert (∀ q, container_level (item m' q) = container_level (item m q)) as Hlv
    by (intros q; by destruct (Hf q) as (_ & _ & _ & _ & _ & -> & _)).
  assert (∀ q, key (item m' q) = key (item m q)) as Hkey
    by (intros q; by destruct (Hf q) as (_ & _ & _ & _ & -> & _)).
  split; [|split; [split|split]].
  - intros p. rewrite !Hco, Hal, Hty, Hpa, !Hlv. apply A.
  - by rewrite Hcn.
  - intros i k c. rewrite Hat, Hroot, Hty, Hlv, Hkey, Hpa, Hco. apply B2.
  - intros c. rewrite Hty, Hpa, Hco, Hlv, Hkey, Hat. apply C.
  - rewrite Hroot, Hty. done.
Qed.

(** *** The operations keep the tree well formed *)

Lemma wired_tables m : wired m → tables_match m ∧ uncompiled m.
Proof.
  intros (_ & (Hlen & Htab) & HF & _). split; [split; [done|split; [|done]]|].
  - intros i k c Hc. by destruct (Htab i k c Hc) as (_ & _ & _ & _ & ? & _).
  - intros i k c Hc. by destruct (Htab i k c Hc) as (_ & _ & _ & _ & _ & ?).
Qed.

Lemma AddSongs_sound songs m : sound m → sound (AddSongs songs m).
Proof.
  intros (HI & HT & HW & HG & HR). destruct (wired_tables m HW) as [Htm Hu].
  split; [by apply AddSongs_Inv|]. split; [by apply (AddSongs_tended (λ _, True))|].
  split; [by apply (AddSongs_wired (λ _, True))|].
  pose proof (frame_AddSongs songs m) as Hf.
  split; [by rewrite (frame_group_by_ _ _ Hf)|].
  rewrite (frame_root_ _ _ Hf).
  destruct (older_AddSongs m songs m (older_refl m)) as (_ & Hold).
  destruct (inv_root _ m HI) as (Ha & _).
  destruct (Hold (root_ m)) as (Hfix & _); [by apply (inv_fresh _ m HI)|].
  unfold fixed_part in Hfix. injection Hfix as _ _ -> _ _ _ _ _. done.
Qed.

(** On a well-formed tree [RemoveSongs] returns, and leaves a well-formed
    tree. *)
Lemma RemoveSongs_sound_run songs m :
  sound m →
  ∃ m', RemoveSongs songs m = Some m' ∧ sound m' ∧ pruned m m'
        ∧ (∀ k, song_nodes_ m' !! k
                = if decide (k ∈ Song.id <$> songs) then None else song_nodes_ m !! k)
        ∧ (∀ k leaf, song_nodes_ m !! k = Some leaf → k ∈ Song.id <$> songs →
                     ¬ allocated m' leaf).
Proof.
  intros (HI & HT & HW & HG & HR).
  destruct (RemoveSongs_run songs m HT HW)
    as (m' & Hrun & HT' & HW' & Hpr & Hnodes & Hgone).
  pose proof (RemoveSongs_Inv _ songs m m' HI HT HW Hrun) as HI'.
  exists m'. split; [done|]. split; [|done].
  split; [done|]. split; [done|]. split; [done|].
  split; [by rewrite (frame_group_by_ _ _ (frame_RemoveSongs songs m m' Hrun))|].
  destruct Hpr as (Hroot & Hkeep & _). destruct (inv_root _ m' HI') as (Ha & _).
  destruct (Hkeep _ Ha) as [_ Hk]. unfold kept_part in Hk.
  injection Hk as _ -> _ _ _. by rewrite Hroot.
Qed.

Lemma RemoveSongs_sound songs m :
  sound m → ∃ m', RemoveSongs songs m = Some m' ∧ sound m'.
Proof.
  intros HS. destruct (RemoveSongs_sound_run songs m HS) as (m' & Hrun & HS' & _).
  by exists m'.
Qed.

Lemma UpdateSongs_sound songs m : sound m → sound (UpdateSongs songs m).
Proof.
  intros (HI & HT & HW & HG & HR).
  pose proof (UpdateSongs_Inv _ songs m HI) as HI'.
  pose proof (UpdateSongs_keeps_shape songs m) as Hk.
  pose proof (frame_UpdateSongs songs m) as Hf.
  split; [done|]. split; [|split; [|split]].
  - apply (tended_keeps_shape m); [done|by apply frame_root_| |done].
    by apply (Inv_leaves_ok (λ _, True)).
  - apply (wired_keeps_shape m); [done|by apply frame_root_|done].
  - by rewrite (frame_group_by_ _ _ Hf).
  - rewrite (frame_root_ _ _ Hf). destruct Hk as (Hsh & _).
    destruct (shape_all _ _ (Hsh (root_ m))) as (_ & _ & -> & _). done.
Qed.

(** The tree does not depend on the queue, the timer, the records or the
    log. *)
Lemma sound_same m m' :
  heap m' = heap m → next_ptr m' = next_ptr m → root_ m' = root_ m →
  song_nodes_ m' = song_nodes_ m → container_nodes_ m' = container_nodes_ m →
  divider_nodes_ m' = divider_nodes_ m → group_by_ m' = group_by_ m →
  sound m → sound m'.
Proof.
  intros Hh Hn Hr Hs Hc Hd Hg (HI & HT & HW & HG & HR).
  split; [|split; [by apply (tended_same m)|split; [by apply (wired_same m)|split]]].
  - apply (Inv_retable _ m); try done.
    intros j k x. unfold container_nodes_at. rewrite Hc. by left.
  - by rewrite Hg.
  - unfold item. by rewrite Hh, Hr.
Qed.

Lemma ScheduleUpdate_sound type_ songs m : sound m → sound (ScheduleUpdate type_ songs m).
Proof.
  destruct (ScheduleUpdate_requeue type_ songs m) as (chunks & -> & _).
  by apply sound_same.
Qed.

Lemma ReAddOrUpdate_sound songs m : sound m → sound (ReAddOrUpdate songs m).
Proof.
  intros HS. unfold ReAddOrUpdate.
  assert (∀ l acc, sound acc.2 → sound (foldl ReAddOrUpdate_song acc l).2) as Hfold.
  { induction l as [|s l IH]; intros acc Hacc; [done|]. cbn [foldl]. apply IH.
    destruct (ReAddOrUpdate_song_log acc s) as [lg ->]. by apply (sound_same acc.2). }
  specialize (Hfold songs ([], [], [], m) HS).
  destruct (foldl ReAddOrUpdate_song _ _) as [[[a r] u] m1]. cbn [snd] in Hfold.
  unfold SongsAdded, SongsRemoved, SongsUpdated.
  by do 3 apply ScheduleUpdate_sound.
Qed.

Lemma ProcessUpdate_sound m : sound m → ∃ m', ProcessUpdate m = Some m' ∧ sound m'.
Proof.
  intros HS. unfold ProcessUpdate. destruct (updates_ m) as [|u rest].
  - eexists. split; [done|]. by apply (sound_same m).
  - set (m1 := if isEmpty_list rest then _ else _).
    assert (sound m1) as HS1.
    { unfold m1. destruct (isEmpty_list rest); by apply (sound_same m). }
    clearbody m1. destruct (CollectionModelUpdate.type u).
    + eexists. split; [done|]. by apply AddSongs_sound.
    + by apply RemoveSongs_sound.
    + eexists. split; [done|]. by apply ReAddOrUpdate_sound.
    + eexists. split; [done|]. by apply UpdateSongs_sound.
Qed.

Lemma empty_tree_sound m : empty_tree m → valid_grouping (group_by_ m) → sound m.
Proof.
  intros He HG. pose proof (empty_tree_Inv (λ _, True) m He) as HI.
  split; [done|]. split; [by apply empty_tree_tended|]. split; [|split; [done|]].
  - apply (Inv_wired (λ _, True)); [done|by apply empty_tree_tables_match|].
    by apply empty_tree_uncompiled.
  - destruct (empty_tree_item m (root_ m) He) as [[_ ->]|[Hn _]]; [done|].
    exfalso. apply Hn. by destruct (inv_root _ m HI).
Qed.

(** X23.  From a reset on, whatever batches the slots queue and whenever the
    timer fires, the tree is well formed and the next call of
    [ProcessUpdate] returns, which is to say that the loop of [RemoveSongs]
    over the emptied containers ends; the tree it leaves is well formed
    again.  Well formed: every item but the root is among the children of
    its parent, at its row; the index of the leaves holds the song items,
    each under the identifier of its record; the tables of containers and
    of dividers and the compilation links point to items of the arena of
    the right type, level and key; every container is filed; every leaf and
    every container of the tables can be reached from the root, which has
    no parent. *)
Theorem ProcessUpdate_returns_and_keeps_the_tree_well_formed (m : Model) :
  arises m → sound m ∧ ∃ m', ProcessUpdate m = Some m' ∧ sound m'.
Proof.
  intros Ha.
  assert (sound m) as HS.
  { induction Ha as [m He HG|type_ songs m _ IH|m m' _ IH Hrun].
    - by apply empty_tree_sound.
    - by apply ScheduleUpdate_sound.
    - destruct (ProcessUpdate_sound m IH) as (m'' & Hrun' & HS').
      rewrite Hrun in Hrun'. by injection Hrun' as <-. }
  split; [done|]. by apply ProcessUpdate_sound.
Qed.

End Sound.

Section Sound_witness.
#[local] Existing Instance Sample.external.

Lemma ProcessUpdate_returns_and_keeps_the_tree_well_formed_witness :
  let m0 := Sample.empty_model by_albumartist_album true in
  let m2 := AddSongs arrival_and_jazz m0 in
  let m := SongsRemoved (take 2 arrival_and_jazz) m2 in
  arises m ∧ sound m ∧ ∃ m', ProcessUpdate m = Some m' ∧ sound m'.
Proof.
  intros m0 m2 m.
  assert (arises m) as Ha.
  { apply arises_slot. apply (arises_tick (SongsAdded arrival_and_jazz m0)).
    - apply arises_slot. apply arises_reset.
      + apply empty_tree_empty_model.
      + by vm_compute.
    - by vm_compute. }
  split; [exact Ha|].
  exact (ProcessUpdate_returns_and_keeps_the_tree_well_formed m Ha).
Defined.

End Sound_witness.

(** ** A changed song *)

Section Changed.
Context `{External}.

(** A batch of no more than 400 songs is queued as one entry, and an empty
    batch as none. *)
Lemma ScheduleUpdate_nil type_ m :
  ScheduleUpdate type_ [] m = requeue (updates_ m) true m.
Proof.
  destruct (ScheduleUpdate_requeue type_ [] m) as (chunks & -> & _ & Hlen).
  cbn in Hlen. apply nil_length_inv in Hlen. subst chunks. cbn [map].
  by rewrite app_nil_r.
Qed.

Lemma ScheduleUpdate_one type_ songs m :
  (1 ≤ length songs ≤ 400)%nat →
  ScheduleUpdate type_ songs m
  = requeue (updates_ m ++ [CollectionModelUpdate.mk type_ songs]) true m.
Proof.
  intros Hn. destruct (ScheduleUpdate_requeue type_ songs m) as (chunks & -> & Hcat & Hlen).
  assert (length chunks = 1%nat) as H1.
  { rewrite Hlen. symmetry. apply Nat.div_unique with (r := (length songs - 1)%nat); lia. }
  destruct chunks as [|c [|c' cs]]; [done| |done].
  cbn in Hcat. rewrite app_nil_r in Hcat. by subst c.
Qed.

(** [ReAddOrUpdate] on one song that has a leaf. *)
Lemma ReAddOrUpdate_one s leaf m :
  song_nodes_ m !! Song.id s = Some leaf →
  ReAddOrUpdate [s] m
  = if container_key_changed m leaf s
    then requeue (updates_ m
                  ++ [CollectionModelUpdate.mk CollectionModelUpdate.Remove
                        [metadata (item m leaf)];
                      CollectionModelUpdate.mk CollectionModelUpdate.Add [s]]) true
           (logged m)
    else requeue (updates_ m
                  ++ [CollectionModelUpdate.mk CollectionModelUpdate.Update [s]]) true
           (logged m).
Proof.
  intros Hleaf. unfold ReAddOrUpdate. cbn [foldl]. unfold ReAddOrUpdate_song.
  rewrite Hleaf. fold (container_key_changed m leaf s).
  rewrite ReAddOrUpdate_keys_log_of. fold (logged m).
  unfold SongsAdded, SongsRemoved, SongsUpdated.
  destruct (container_key_changed m leaf s); cbn [app].
  - rewrite ScheduleUpdate_nil, !ScheduleUpdate_one by (cbn; lia).
    rewrite !requeue_requeue.
    cbn [updates_ requeue with_updates_ with_timer_update_active logged with_log_].
    by rewrite <- app_assoc.
  - rewrite !ScheduleUpdate_nil, ScheduleUpdate_one by (cbn; lia).
    by rewrite !requeue_requeue.
Qed.

(** The first interval after [SongsChanged] on one song, the queue being
    empty: [ProcessUpdate] runs [ReAddOrUpdate]. *)
Lemma SongsChanged_first_tick s leaf m :
  updates_ m = [] → song_nodes_ m !! Song.id s = Some leaf →
  timer_update_active (SongsChanged [s] m) = true
  ∧ ProcessUpdate (SongsChanged [s] m)
    = Some (if container_key_changed m leaf s
            then requeue [CollectionModelUpdate.mk CollectionModelUpdate.Remove
                            [metadata (item m leaf)];
                          CollectionModelUpdate.mk CollectionModelUpdate.Add [s]] true
                   (logged m)
            else requeue [CollectionModelUpdate.mk CollectionModelUpdate.Update [s]]
                   true (logged m)).
Proof.
  intros Hq Hleaf. unfold SongsChanged.
  rewrite ScheduleUpdate_one by (cbn; lia). rewrite Hq. cbn [app].
  split; [done|]. unfold ProcessUpdate.
  change (updates_ (requeue ?u true m)) with u. cbn iota.
  cbn [isEmpty_list CollectionModelUpdate.type CollectionModelUpdate.songs].
  change (with_timer_update_active false (with_updates_ [] (requeue ?u true m)))
    with (requeue [] false m).
  rewrite (ReAddOrUpdate_one s leaf) by done.
  change (container_key_changed (requeue [] false m) leaf s)
    with (container_key_changed m leaf s).
  change (item (requeue [] false m) leaf) with (item m leaf).
  change (logged (requeue [] false m)) with (requeue [] false (logged m)).
  by destruct (container_key_changed m leaf s); rewrite requeue_requeue.
Qed.

Lemma sound_logged m : sound m → sound (logged m).
Proof. by apply sound_same. Qed.

Lemma ticks_S n m :
  timer_update_active m = true → ticks (S n) m = ProcessUpdate m ≫= ticks n.
Proof. intros Ht. cbn [ticks]. by rewrite Ht. Qed.

(** [ProcessUpdate] on a removal that is not the last entry of the queue,
    and on an addition and an update that are. *)
Lemma ProcessUpdate_Remove songs u rest m :
  updates_ m = CollectionModelUpdate.mk CollectionModelUpdate.Remove songs :: u :: rest →
  ProcessUpdate m = RemoveSongs songs (with_updates_ (u :: rest) m).
Proof. intros Hq. unfold ProcessUpdate. by rewrite Hq. Qed.

Lemma ProcessUpdate_Add_last songs m :
  updates_ m = [CollectionModelUpdate.mk CollectionModelUpdate.Add songs] →
  ProcessUpdate m = Some (AddSongs songs (requeue [] false m)).
Proof. intros Hq. unfold ProcessUpdate. by rewrite Hq. Qed.

Lemma ProcessUpdate_Update_last songs m :
  updates_ m = [CollectionModelUpdate.mk CollectionModelUpdate.Update songs] →
  ProcessUpdate m = Some (UpdateSongs songs (requeue [] false m)).
Proof. intros Hq. unfold ProcessUpdate. by rewrite Hq. Qed.

Lemma sound_requeue u t m : sound m → sound (requeue u t m).
Proof. by apply sound_same. Qed.

(** X24.  A changed song whose container key is another at some level is
    moved.  With an empty queue, [SongsChanged] on the song and three
    intervals of the timer, or more, remove the leaf of the song and add a
    leaf for its new record: the index has a new leaf for the song, with the
    new record, under the container that the table of the last grouping
    level holds for the joined key of the new record.  The entries of the
    other songs in the index are as they were, the tree is well formed, the
    queue is empty and the timer is stopped. *)
Theorem SongsChanged_moves_a_song_whose_key_changed
    (s : Song.t) (leaf : ptr) (m : Model) (n : nat) :
  sound m → updates_ m = [] →
  song_nodes_ m !! Song.id s = Some leaf →
  container_key_changed m leaf s = true →
  Matches s = true → is_compilation s = false →
  (3 ≤ n)%nat →
  ∃ m' leaf',
    ticks n (SongsChanged [s] m) = Some m'
    ∧ sound m' ∧ updates_ m' = [] ∧ timer_update_active m' = false
    ∧ song_nodes_ m' !! Song.id s = Some leaf' ∧ leaf' ≠ leaf
    ∧ type (item m' leaf') = Type_Song ∧ metadata (item m' leaf') = s
    ∧ (if decide (depth (group_by_ m) = 0)
       then parent (item m' leaf') = root_ m'
       else container_nodes_at m' (depth (group_by_ m) - 1)
              !! path_key (group_by_ m) (separate_albums_by_grouping_ m) s 0 3 []
            = Some (parent (item m' leaf')))
    ∧ (∀ k, k ≠ Song.id s → song_nodes_ m' !! k = song_nodes_ m !! k).
Proof.
  intros HS Hq Hleaf Hch HM Hcomp Hn.
  destruct (SongsChanged_first_tick s leaf m Hq Hleaf) as [Ht1 Hp1].
  rewrite Hch in Hp1.
  destruct n as [|[|[|n]]]; try lia. clear Hn.
  (* the old record of the leaf *)
  pose proof HS as (HI & HT & _).
  destruct HT as (Hsh & Hl & Hd). destruct (Hl _ _ Hleaf) as (Ha & Hroot & Hty & Hid).
  set (r := metadata (item m leaf)) in *.
  (* the second interval: the removal *)
  set (mb := requeue [CollectionModelUpdate.mk CollectionModelUpdate.Add [s]] true
               (logged m)).
  assert (sound mb) as HSb by by apply sound_requeue, sound_logged.
  destruct (RemoveSongs_sound_run [r] mb HSb) as (mc & Hrun & HSc & Hpr & Hnodes & Hgone).
  pose proof (frame_RemoveSongs [r] mb mc Hrun) as Hfc.
  pose proof (next_ptr_RemoveSongs [r] mb mc Hrun) as Hnc.
  assert (updates_ mc = [CollectionModelUpdate.mk CollectionModelUpdate.Add [s]]
          ∧ timer_update_active mc = true ∧ group_by_ mc = group_by_ m
          ∧ separate_albums_by_grouping_ mc = separate_albums_by_grouping_ m)
    as (Huc & Htc & Hgc & Hsc).
  { unfold frame in Hfc. by injection Hfc as _ -> -> _ _ -> ->. }
  assert (song_nodes_ mc !! Song.id s = None) as Hnone.
  { rewrite Hnodes. rewrite decide_True; [done|]. cbn. rewrite Hid. by left. }
  (* the third interval: the addition *)
  set (md0 := requeue [] false mc).
  assert (sound md0) as HSd0.
  { by apply sound_requeue. }
  pose proof HSd0 as (HId0 & _ & (_ & (Hlen0 & _) & _) & _).
  destruct (AddSong_path _ s md0 HId0 Hlen0 HM Hnone Hcomp)
    as (leaf' & Hsn' & Hlt' & Hpath).
  destruct (AddSong_added_leaf s md0 HM Hnone)
    as (leaf'' & Hrange & Hsn'' & Hty' & Hmd' & _).
  assert (leaf'' = leaf') as ->.
  { rewrite Hsn' in Hsn''.
    assert (<[Song.id s := leaf']> (song_nodes_ md0) !! Song.id s
            = <[Song.id s := leaf'']> (song_nodes_ md0) !! Song.id s) as Heq
      by by rewrite Hsn''.
    rewrite !lookup_insert_eq in Heq. by injection Heq. }
  set (md := AddSong s md0) in *.
  pose proof (frame_AddSong s md0) as Hfd. fold md in Hfd.
  assert (updates_ md = [] ∧ timer_update_active md = false ∧ root_ md = root_ md0)
    as (Hud & Htd & Hrd).
  { unfold frame in Hfd. by injection Hfd as -> _ _ _ _ -> ->. }
  assert (sound md) as HSd by (apply (AddSongs_sound [s] md0); done).
  exists md, leaf'.
  split.
  { rewrite ticks_S, Hp1 by done. cbn [mbind option_bind].
    rewrite ticks_S by done.
    rewrite (ProcessUpdate_Remove [r]
               (CollectionModelUpdate.mk CollectionModelUpdate.Add [s]) []) by done.
    change (with_updates_ ?u (requeue ?v true (logged m)))
      with (requeue u true (logged m)).
    fold mb. rewrite Hrun. cbn [mbind option_bind].
    rewrite ticks_S by done. rewrite (ProcessUpdate_Add_last [s]) by done.
    fold md0. change (AddSongs [s] md0) with md. cbn [mbind option_bind].
    by apply ticks_stopped. }
  split; [done|]. split; [done|]. split; [done|].
  split; [by rewrite Hsn', lookup_insert_eq|].
  split.
  { intros ->. destruct (inv_fresh _ m HI leaf Ha) as [_ Hlt].
    change (next_ptr md0) with (next_ptr mc) in Hrange.
    change (next_ptr mb) with (next_ptr m) in Hnc. lia. }
  split; [done|]. split; [done|]. split.
  - change (group_by_ md0) with (group_by_ mc) in Hpath.
    change (separate_albums_by_grouping_ md0)
      with (separate_albums_by_grouping_ mc) in Hpath.
    rewrite Hgc, Hsc in Hpath. change (root_ md0) with (root_ mc) in Hpath, Hrd.
    case_decide; [by rewrite Hrd|done].
  - intros k Hk. rewrite Hsn', lookup_insert_ne by done.
    change (song_nodes_ md0) with (song_nodes_ mc). rewrite Hnodes.
    rewrite decide_False; [done|]. cbn. rewrite Hid.
    intros [->|Hin]%elem_of_cons; [done|by apply elem_of_nil in Hin].
Qed.

(** X25.  A changed song whose container keys are what they were stays where
    it is.  With an empty queue, [SongsChanged] on the song and two
    intervals of the timer, or more, put the new record in the leaf of the
    song and change nothing else of the tree: every item keeps its type, row,
    parent, children, key, level and texts.  The display text and the sort
    text of the leaf are not made anew from the new record: [data] returns
    for the leaf what it returned before. *)
Theorem SongsChanged_updates_a_song_whose_keys_stay
    (s : Song.t) (leaf : ptr) (m : Model) (n fuel : nat) :
  sound m → updates_ m = [] →
  song_nodes_ m !! Song.id s = Some leaf →
  container_key_changed m leaf s = false →
  (2 ≤ n)%nat →
  ∃ m',
    ticks n (SongsChanged [s] m) = Some m'
    ∧ sound m' ∧ updates_ m' = [] ∧ timer_update_active m' = false
    ∧ keeps_shape m m'
    ∧ metadata (item m' leaf) = s
    ∧ data fuel m' leaf DisplayRole = data fuel m leaf DisplayRole
    ∧ data fuel m' leaf Role_SortText = data fuel m leaf Role_SortText.
Proof.
  intros HS Hq Hleaf Hch Hn.
  destruct (SongsChanged_first_tick s leaf m Hq Hleaf) as [Ht1 Hp1].
  rewrite Hch in Hp1.
  destruct n as [|[|n]]; try lia. clear Hn.
  set (m0 := requeue [] false (logged m)).
  assert (sound m0) as HS0 by by apply sound_requeue, sound_logged.
  pose proof HS0 as (HI0 & _).
  set (m' := UpdateSongs [s] m0).
  pose proof (UpdateSongs_keeps_shape [s] m0) as Hk. fold m' in Hk.
  pose proof (frame_UpdateSongs [s] m0) as Hf. fold m' in Hf.
  assert (updates_ m' = [] ∧ timer_update_active m' = false) as (Hu & Ht).
  { unfold frame in Hf. by injection Hf as _ _ _ _ _ -> ->. }
  destruct (UpdateSongs_records [s] m0 (Inv_leaves_indexed _ m0 HI0)) as (Hmd & _).
  fold m' in Hmd. specialize (Hmd (Song.id s) leaf Hleaf).
  cbn [last_with] in Hmd. rewrite decide_True in Hmd by done.
  pose proof Hk as (Hsh & _). specialize (Hsh leaf).
  change (item m0 leaf) with (item m leaf) in Hsh.
  exists m'. split.
  { rewrite ticks_S, Hp1 by done. cbn [mbind option_bind].
    rewrite ticks_S by done. rewrite (ProcessUpdate_Update_last [s]) by done.
    rewrite requeue_requeue. fold m0. fold m'. cbn [mbind option_bind].
    by apply ticks_stopped. }
  split; [by apply UpdateSongs_sound|]. split; [done|]. split; [done|].
  split; [exact Hk|]. split; [done|].
  unfold shape in Hsh. injection Hsh as _ _ _ _ _ Hdt Hst _ _.
  split; destruct fuel; cbn [data]; congruence.
Qed.

End Changed.

Section Changed_witness.
#[local] Existing Instance Sample.external.

Lemma sample_tree_sound :
  sound (AddSongs arrival_and_jazz (Sample.empty_model by_albumartist_album true)).
Proof.
  apply AddSongs_sound, empty_tree_sound; [apply empty_tree_empty_model|by vm_compute].
Qed.

Lemma SongsChanged_moves_a_song_whose_key_changed_witness :
  let m := AddSongs arrival_and_jazz (Sample.empty_model by_albumartist_album true) in
  let s := Sample.song 3 "Abba" "Waterloo" "Tiger" 1 5 1974 in
  sound m ∧ updates_ m = [] ∧ song_nodes_ m !! Song.id s = Some 10%nat
  ∧ container_key_changed m 10%nat s = true
  ∧ Matches s = true ∧ is_compilation s = false ∧ (3 ≤ 3)%nat
  ∧ ∃ m' leaf',
      ticks 3 (SongsChanged [s] m) = Some m'
      ∧ sound m' ∧ updates_ m' = [] ∧ timer_update_active m' = false
      ∧ song_nodes_ m' !! Song.id s = Some leaf' ∧ leaf' ≠ 10%nat
      ∧ type (item m' leaf') = Type_Song ∧ metadata (item m' leaf') = s
      ∧ (if decide (depth (group_by_ m) = 0)
         then parent (item m' leaf') = root_ m'
         else container_nodes_at m' (depth (group_by_ m) - 1)
                !! path_key (group_by_ m) (separate_albums_by_grouping_ m) s 0 3 []
              = Some (parent (item m' leaf')))
      ∧ (∀ k, k ≠ Song.id s → song_nodes_ m' !! k = song_nodes_ m !! k).
Proof.
  intros m s.
  pose proof sample_tree_sound as HS.
  assert (updates_ m = []) as Hq by (by vm_compute).
  assert (song_nodes_ m !! Song.id s = Some 10%nat) as Hleaf by (by vm_compute).
  assert (container_key_changed m 10%nat s = true) as Hch by (by vm_compute).
  assert (Matches s = true) as HM by (by vm_compute).
  assert (is_compilation s = false) as Hc by reflexivity.
  assert (3 ≤ 3)%nat as Hn by lia.
  split; [exact HS|]. split; [exact Hq|]. split; [exact Hleaf|]. split; [exact Hch|].
  split; [exact HM|]. split; [exact Hc|]. split; [exact Hn|].
  exact (SongsChanged_moves_a_song_whose_key_changed s 10%nat m 3 HS Hq Hleaf Hch HM Hc Hn).
Defined.

Lemma SongsChanged_updates_a_song_whose_keys_stay_witness :
  let m := AddSongs arrival_and_jazz (Sample.empty_model by_albumartist_album true) in
  let s := Sample.song 3 "Abba" "Arrival" "Tiger (live)" 1 6 1976 in
  sound m ∧ updates_ m = [] ∧ song_nodes_ m !! Song.id s = Some 10%nat
  ∧ container_key_changed m 10%nat s = false ∧ (2 ≤ 2)%nat
  ∧ ∃ m',
      ticks 2 (SongsChanged [s] m) = Some m'
      ∧ sound m' ∧ updates_ m' = [] ∧ timer_update_active m' = false
      ∧ keeps_shape m m'
      ∧ metadata (item m' 10%nat) = s
      ∧ data 0 m' 10%nat DisplayRole = data 0 m 10%nat DisplayRole
      ∧ data 0 m' 10%nat Role_SortText = data 0 m 10%nat Role_SortText.
Proof.
  intros m s.
  pose proof sample_tree_sound as HS.
  assert (updates_ m = []) as Hq by (by vm_compute).
  assert (song_nodes_ m !! Song.id s = Some 10%nat) as Hleaf by (by vm_compute).
  assert (container_key_changed m 10%nat s = false) as Hch by (by vm_compute).
  assert (2 ≤ 2)%nat as Hn by lia.
  split; [exact HS|]. split; [exact Hq|]. split; [exact Hleaf|]. split; [exact Hch|].
  split; [exact Hn|].
  exact (SongsChanged_updates_a_song_whose_keys_stay s 10%nat m 2 0 HS Hq Hleaf Hch Hn).
Defined.

End Changed_witness.

(** ** The signals that a view follows *)

Section Follow.
Context `{External}.















(** *** [AddSongs] *)


(** *** [RemoveSongs] *)









(** *** [UpdateSongs] and the queue *)





End Follow.

Section Follow_witness.
#[local] Existing Instance Sample.external.


End Follow_witness.
